(** * Flippo: the arbiter and the reference player

    A shallow embedding of the two programs of the repository: the arbiter
    (game rules, move validation, the match loop of [RunGame]) and the
    player ([player.cc]: the same rules on its own board type, the leaf
    evaluation and the fixed-depth search).

    The file has three parts: the two programs, function by function and
    under the names of the source (modules [Arbiter] and [PlayerCC]); the
    vocabulary in which their properties are stated ([ArbiterSpec],
    [PlayerSpec] and the modules that follow them, one per subject); and
    the proofs ([ArbiterProofs], [PlayerProofs], [Shared] for what holds of
    both programs, and after them the log and the match ([EscapeProofs],
    [MatchProofs], [ForfeitProofs]), the tournament ([TournamentProofs]),
    the search ([SearchProofs]), the agreement of the two programs
    ([AgreementProofs], [MoveProofs]), the input loop of the player
    ([MainProofs]) and the command line of the arbiter ([ArgsProofs])).

    Left out of the embedding: the spawning of the child processes and the
    measuring of time in the arbiter (the processes appear as the
    environment of [RunGame]: what its reads and writes and the [waitpid] of
    [Quit] return), the printing of the tournament table and the names of
    the log files; in the player the random numbers (the shuffle of
    [SelectMove] is a parameter) and what it writes to stderr.

    Conventions of the embedding.
    - C++ [int] values are [Z].  In the game logic all values that occur
      stay far inside the range of [int].  The number of games and the
      counters of [Main] grow with the command line; there the arithmetic is
      written out in 32 bits ([int_wrap]).
    - The 8x8 arrays [fields[r][c]] are lists in row-major order, the cell
      (r,c) at index [r*8 + c], as the array is laid out in memory.
    - The loops [for (int n = 1; ; ++n)] have no bound of their own; they are
      modelled with fuel, and running out of fuel is a distinct outcome that
      the theorems show never occurs.
    - A failed [CHECK] or [assert] aborts the program; this is the outcome
      [Aborted].  A store outside the arrays [moves] and [scores] has no
      defined behaviour and is given the same outcome.
    - The grid is accessed inside its bounds wherever the theorems apply:
      the scans test [ValidCoords] before they read, the loops over the
      board stay on it, and [ExecuteMove], [DoMove] and [UndoMove] are
      stated for moves on the board.  Off the grid [grid_get] gives the
      default and [grid_set] leaves the grid as it is. *)

From Stdlib Require Import ZArith Bool Lia String Ascii Permutation List.
Import ListNotations.
Local Open Scope Z_scope.

(** ** Outcomes of a computation *)

Inductive outcome (A : Type) : Type :=
| Done (a : A)
| Aborted
| OutOfFuel.
Arguments Done {A} a.
Arguments Aborted {A}.
Arguments OutOfFuel {A}.

Definition bind {A B : Type} (m : outcome A) (k : A -> outcome B) : outcome B :=
  match m with
  | Done a => k a
  | Aborted => Aborted
  | OutOfFuel => OutOfFuel
  end.

Declare Scope outcome_scope.
Delimit Scope outcome_scope with outcome.
Notation "x <- m ;; k" := (bind m (fun x => k))
  (at level 61, m at next level, right associativity) : outcome_scope.
Notation "' p <- m ;; k" := (bind m (fun x => let 'p := x in k))
  (at level 61, p pattern, m at next level, right associativity) : outcome_scope.
Local Open Scope outcome_scope.

(** [filter] with a test that is itself a computation. *)
Fixpoint filterM {A : Type} (f : A -> outcome bool) (l : list A) : outcome (list A) :=
  match l with
  | [] => Done []
  | x :: l' =>
      b <- f x ;;
      r <- filterM f l' ;;
      Done (if b then x :: r else r)
  end.

(** ** Counting loops and the 8x8 grid *)

(** [Zrange lo n] is [lo; lo+1; ...] ([n] values): the values a counting
    [for] loop goes through. *)
Fixpoint Zrange (lo : Z) (n : nat) : list Z :=
  match n with
  | O => []
  | S n' => lo :: Zrange (lo + 1) n'
  end.

Definition cell_index (r c : Z) : nat := Z.to_nat (r * 8 + c).

Fixpoint list_set {A : Type} (i : nat) (v : A) (l : list A) : list A :=
  match l, i with
  | [], _ => []
  | _ :: l', O => v :: l'
  | x :: l', S i' => x :: list_set i' v l'
  end.

Definition grid_get {A : Type} (d : A) (g : list A) (r c : Z) : A :=
  nth (cell_index r c) g d.

Definition grid_set {A : Type} (g : list A) (r c : Z) (v : A) : list A :=
  list_set (cell_index r c) v g.

(** [REP(r, 8) REP(c, 8)]: all cells in row-major order. *)
Definition all_cells : list (Z * Z) :=
  flat_map (fun r => map (fun c => (r, c)) (Zrange 0 8)) (Zrange 0 8).

(** The pairs (dr, dc) of the two nested direction loops, in loop order;
    (0,0) is among them and is skipped by the loop body. *)
Definition directions : list (Z * Z) :=
  flat_map (fun dr => map (fun dc => (dr, dc)) (Zrange (-1) 3)) (Zrange (-1) 3).

(** Iterations granted to a [for (int n = 1; ; ++n)] scan. *)
Definition SCAN_FUEL : nat := 9.

(** ** Integers *)

(** The [int] that holds the result of an arithmetic operation whose exact
    value is [z]: [z] itself when it lies in [-2^31, 2^31); beyond that
    range, where C++ leaves the operation undefined, the value that the
    32-bit machine arithmetic gives. *)
Definition int_wrap (z : Z) : Z := (z + 2 ^ 31) mod 2 ^ 32 - 2 ^ 31.

(** ** Characters and move codes *)

(** A [char] read as an [int] ([char] is signed on the target). *)
Definition int_of_char (a : ascii) : Z :=
  let n := Z.of_N (N_of_ascii a) in
  if n <? 128 then n else n - 256.

(** An [int] stored into a [char]. *)
Definition char_of_int (z : Z) : ascii :=
  ascii_of_N (Z.to_N (z mod 256)).

Definition char_at (s : string) (i : nat) : ascii :=
  match String.get i s with
  | Some a => a
  | None => zero
  end.

(* ------------------------------------------------------------------ *)
(** * The arbiter *)

Module Arbiter.

Definition SIZE : Z := 8.
Definition MAX_MOVES : Z := 60.

Record State : Type := mkState {
  fields : list Z;        (* char fields[SIZE][SIZE]: 0 empty, 1 and 2 the movers *)
  moves_played : Z
}.

Record Move : Type := mkMove { row : Z; col : Z }.

Definition Move_eqb (a b : Move) : bool :=
  (row a =? row b) && (col a =? col b).

Definition at_ (state : State) (r c : Z) : Z := grid_get 0 (fields state) r c.

Definition put (state : State) (r c v : Z) : State :=
  mkState (grid_set (fields state) r c v) (moves_played state).

Definition InitialState : State :=
  let state := mkState (repeat 0 64) 0 in
  let state := put state (SIZE / 2 - 1) (SIZE / 2 - 1) 1 in
  let state := put state (SIZE / 2 - 1) (SIZE / 2 - 0) 2 in
  let state := put state (SIZE / 2 - 0) (SIZE / 2 - 1) 2 in
  let state := put state (SIZE / 2 - 0) (SIZE / 2 - 0) 1 in
  state.

Definition ValidCoords (r c : Z) : bool :=
  (0 <=? r) && (r <? SIZE) && (0 <=? c) && (c <? SIZE).

(** [scores[int{state.fields[r][c]}]++]: an index outside [0,3) is outside
    the array. *)
Definition bump (scores : list Z) (i : Z) : outcome (list Z) :=
  if (0 <=? i) && (i <? 3)
  then Done (list_set (Z.to_nat i) (nth (Z.to_nat i) scores 0 + 1) scores)
  else Aborted.

Fixpoint CalculateScore_loop (state : State) (cells : list (Z * Z)) (scores : list Z)
  : outcome (list Z) :=
  match cells with
  | [] => Done scores
  | (r, c) :: rest =>
      scores' <- bump scores (at_ state r c) ;;
      CalculateScore_loop state rest scores'
  end.

Definition CalculateScore (state : State) : outcome Z :=
  scores <- CalculateScore_loop state all_cells [0; 0; 0] ;;
  Done (nth 1 scores 0 - nth 2 scores 0).

Definition IsGameOver (state : State) : bool := MAX_MOVES <=? moves_played state.

Definition GetNextPlayer (state : State) : Z := Z.land (moves_played state) 1.

Definition FormatMove (move : Move) : string :=
  String (char_of_int (int_of_char "A" + row move))
    (String (char_of_int (int_of_char "1" + col move)) EmptyString).

Definition ParseMove (s : string) : option Move :=
  if negb (Nat.eqb (String.length s) 2) then None
  else
    let row := int_of_char (char_at s 0) - int_of_char "A" in
    let col := int_of_char (char_at s 1) - int_of_char "1" in
    if negb (ValidCoords row col) then None
    else Some (mkMove row col).

Definition HasOccupiedNeighbor (state : State) (r c : Z) : bool :=
  existsb (fun r2 =>
    existsb (fun c2 =>
      (negb (r2 =? r) || negb (c2 =? c)) && ValidCoords r2 c2
        && negb (at_ state r2 c2 =? 0))
      (Zrange (c - 1) 3))
    (Zrange (r - 1) 3).

(** *** FindFlips

    The callback may change the state that [FindFlips] reads ([ExecuteMove]
    passes a lambda that captures the same [state] by reference), so the
    state is threaded through the callback invocations. *)

Definition Callback : Type := State -> Z -> Z -> State * bool.

(** The first inner loop: [for (int n = 1; ; ++n)], returning [last_n]. *)
Fixpoint FindFlips_scan (fuel : nat) (state : State) (player r c dr dc n last_n : Z)
  : outcome Z :=
  match fuel with
  | O => OutOfFuel
  | S fuel' =>
      let r2 := r + n * dr in
      let c2 := c + n * dc in
      if negb (ValidCoords r2 c2) || (at_ state r2 c2 =? 0) then Done last_n
      else FindFlips_scan fuel' state player r c dr dc (n + 1)
             (if at_ state r2 c2 =? player then n else last_n)
  end.

(** The second inner loop: [for (int n = 1; n < last_n; ++n)], [k] being
    the number of iterations left. *)
Fixpoint FindFlips_visit (k : nat) (callback : Callback) (state : State)
    (r c dr dc n : Z) : State * bool :=
  match k with
  | O => (state, true)
  | S k' =>
      let '(state', go) := callback state (r + n * dr) (c + n * dc) in
      if go then FindFlips_visit k' callback state' r c dr dc (n + 1)
      else (state', false)
  end.

(** The body of the two direction loops, for one (dr, dc). *)
Definition FindFlips_dir (callback : Callback) (state : State)
    (player r c dr dc : Z) : outcome (State * bool) :=
  if negb (dr =? 0) || negb (dc =? 0) then
    last_n <- FindFlips_scan SCAN_FUEL state player r c dr dc 1 0 ;;
    Done (FindFlips_visit (Z.to_nat (last_n - 1)) callback state r c dr dc 1)
  else Done (state, true).

Fixpoint FindFlips_dirs (callback : Callback) (state : State) (player r c : Z)
    (dirs : list (Z * Z)) : outcome (State * bool) :=
  match dirs with
  | [] => Done (state, true)
  | (dr, dc) :: rest =>
      '(state', go) <- FindFlips_dir callback state player r c dr dc ;;
      if go then FindFlips_dirs callback state' player r c rest
      else Done (state', false)
  end.

Definition FindFlips (state : State) (player r c : Z) (callback : Callback)
  : outcome (State * bool) :=
  FindFlips_dirs callback state player r c directions.

(** The candidates of [ListValidMoves]: its first loop. *)
Definition all_moves (state : State) : list Move :=
  map (fun rc => mkMove (fst rc) (snd rc))
    (filter (fun rc => (at_ state (fst rc) (snd rc) =? 0)
                         && HasOccupiedNeighbor state (fst rc) (snd rc))
       all_cells).

(** The test of its second loop: [!FindFlips(..., [](int, int) { return false; })]. *)
Definition is_flipping (state : State) (player : Z) (move : Move) : outcome bool :=
  '(_, completed) <- FindFlips state player (row move) (col move)
                       (fun st _ _ => (st, false)) ;;
  Done (negb completed).

Definition ListValidMoves (state : State) : outcome (list Move) :=
  let player := Z.land (moves_played state) 1 + 1 in
  let all_moves := all_moves state in
  flipping_moves <- filterM (is_flipping state player) all_moves ;;
  match flipping_moves with
  | [] => Done all_moves
  | _ => Done flipping_moves
  end.

Definition ValidateMove (state : State) (move : Move) : outcome (bool * string) :=
  valid_moves <- ListValidMoves state ;;
  if negb (existsb (Move_eqb move) valid_moves) then
    Done (false,
          fold_left (fun reason m => reason ++ " " ++ FormatMove m)%string
            valid_moves "Valid moves:"%string)
  else Done (true, EmptyString).

Definition ExecuteMove (state : State) (move : Move) : outcome State :=
  let player := Z.land (moves_played state) 1 + 1 in
  '(state, _) <- FindFlips state player (row move) (col move)
                   (fun st r c => (put st r c (Z.lxor (at_ st r c) 3), true)) ;;
  let state := put state (row move) (col move) player in
  Done (mkState (fields state) (moves_played state + 1)).

Definition EncodeHistory (moves : list Move) : string :=
  fold_left (fun s move => s ++ FormatMove move)%string moves EmptyString.

(** *** The match loop

    The two child processes are the environment of [RunGame].  Every
    iteration of its loop performs one [read] and at most one forwarding
    [write], and [moves_played] grows by one per completed iteration, so the
    environment is given by what each system call returns as a function of
    [moves_played] at the time of the call, and by what [waitpid] returns
    for each of the two processes when [RunGame] is left.  Wall-clock times
    are not modelled.

    A run starts when both calls of [SpawnPlayer] have returned: when one
    of them fails in the arbiter it prints the error and exits, and
    [RunGame] is not entered.  The messages of a run are the lines that the
    arbiter itself writes to stderr; what a child process writes to the
    stderr it inherits is output of that process. *)

(** What [read(player.fd_out, buf, sizeof(buf))] returns: an error (n < 0)
    or the bytes read (none at end of file). *)
Inductive read_result : Type :=
| ReadError
| ReadBytes (buf : string).

(** What [waitpid(player.pid, &status, 0)] gives in [Quit]: another value
    than the pid of the child, or the status word of the child together
    with what the macros [WIFEXITED] and [WEXITSTATUS] make of it. *)
Inductive wait_result : Type :=
| WaitError
| WaitStatus (status : Z) (exited : bool) (exit_status : Z).

Record Env : Type := mkEnv {
  start_ok : bool;                 (* Write(players[0], "Start\n") *)
  read_at : Z -> read_result;      (* the read() of the mover's line at this move count *)
  send_ok : Z -> bool;             (* the forwarding Write() issued at this move count *)
  wait_of : Z -> wait_result       (* the waitpid() of Quit(players[i]) *)
}.

(** The messages of the arbiter on stderr.  A line is printed through
    [EscapeString]; the message here carries the line as it was read.  The
    number that [CouldNotSend] prints is [next_player], the mover whose
    move was being forwarded, not the addressee. *)
Inductive Diag : Type :=
| ReadFailed                                       (* perror("read()") *)
| EndOfFile                                        (* "End of file reached!" *)
| EndOfLineNotFound                                (* "End of line not found!" *)
| ExtraData                                        (* "Extra data after end of line found!" *)
| CouldNotSendStart (player : Z)                   (* "Could not send 'Start' to player %d!" *)
| CouldNotParse (player : Z) (line : string)       (* "Could not parse move from player %d %s!" *)
| InvalidMove (player : Z) (line reason : string)  (* "Invalid move from player %d %s: (%s)!" *)
| CouldNotSend (s : string) (player : Z)           (* "Could not send '%s' to player %d!" *)
| WaitpidFailed                                    (* perror("waitpid") *)
| NotExitedNormally (status : Z).                  (* "Player did not exit normally! status=%d" *)

Definition newline : ascii := ascii_of_nat 10.

(** [memchr(buf, ch, n)] as the offset of the first occurrence. *)
Fixpoint memchr (buf : string) (ch : ascii) : option nat :=
  match buf with
  | EmptyString => None
  | String a rest =>
      if Ascii.eqb a ch then Some O
      else match memchr rest ch with
           | Some i => Some (S i)
           | None => None
           end
  end.

Definition ReadLine (res : read_result) : string * list Diag :=
  match res with
  | ReadError => (EmptyString, [ReadFailed])
  | ReadBytes buf =>
      let n := String.length buf in
      if Nat.eqb n 0 then (EmptyString, [EndOfFile])
      else match memchr buf newline with
           | None => (EmptyString, [EndOfLineNotFound])
           | Some p =>
               if negb (Nat.eqb p (n - 1)) then (EmptyString, [ExtraData])
               else (substring 0 (n - 1) buf, [])
           end
  end.

(** [Quit(players[player])], as far as the arbiter's stderr goes: the
    result of writing Quit is not looked at, and closing the pipes prints
    nothing. *)
Definition Quit (env : Env) (player : Z) : list Diag :=
  match wait_of env player with
  | WaitError => [WaitpidFailed]
  | WaitStatus status exited exit_status =>
      if negb exited || negb (exit_status =? 0) then [NotExitedNormally status]
      else []
  end.

(** *** EscapeString *)

Definition hexdigits : string := "0123456789abcdef".
Definition quote : ascii := ascii_of_nat 34.
Definition backslash : ascii := ascii_of_nat 92.

(** What one iteration of [for (char ch : s)] appends to [t]. *)
Definition EscapeString_char (ch : ascii) : string :=
  let c := int_of_char ch in
  if (32 <=? c) && (c <=? 126) then
    if Ascii.eqb ch backslash || Ascii.eqb ch quote
    then String backslash (String ch EmptyString)
    else String ch EmptyString
  else
    String backslash (String "x"
      (String (char_at hexdigits (Z.to_nat (Z.shiftr (Z.land c 240) 4)))
         (String (char_at hexdigits (Z.to_nat (Z.shiftr (Z.land c 15) 0)))
            EmptyString))).

Definition EscapeString (s : string) : string :=
  let t := String quote EmptyString in
  let t := fold_left (fun t ch => (t ++ EscapeString_char ch)%string)
             (list_ascii_of_string s) t in
  (t ++ String quote EmptyString)%string.

(** The variables of [RunGame] that its loop changes, and its stderr. *)
Record Loop : Type := mkLoop {
  state : State;
  history : list Move;
  started : bool;
  stderr : list Diag
}.

Inductive Flow : Type :=
| Continue (l : Loop)
| Break (l : Loop).

(** One iteration of [while (!IsGameOver(state))]. *)
Definition RunGame_body (env : Env) (l : Loop) : outcome Flow :=
  let next_player := GetNextPlayer (state l) in
  if negb ((next_player =? 0) || (next_player =? 1)) then Aborted
  else if negb (started l) && negb (start_ok env) then
    Done (Break (mkLoop (state l) (history l) (started l)
                   (stderr l ++ [CouldNotSendStart next_player])))
  else
    let '(line, diags) := ReadLine (read_at env (moves_played (state l))) in
    let err := stderr l ++ diags in
    match ParseMove line with
    | None =>
        Done (Break (mkLoop (state l) (history l) true
                       (err ++ [CouldNotParse next_player line])))
    | Some move =>
        '(ok, reason) <- ValidateMove (state l) move ;;
        if negb ok then
          Done (Break (mkLoop (state l) (history l) true
                         (err ++ [InvalidMove next_player line reason])))
        else
          state' <- ExecuteMove (state l) move ;;
          let history' := history l ++ [move] in
          if negb (IsGameOver state') then
            let s := FormatMove move in
            if negb (send_ok env (moves_played state')) then
              Done (Break (mkLoop state' history' true
                             (err ++ [CouldNotSend s next_player])))
            else Done (Continue (mkLoop state' history' true err))
          else Done (Continue (mkLoop state' history' true err))
    end.

Fixpoint RunGame_loop (fuel : nat) (env : Env) (l : Loop) : outcome Loop :=
  if IsGameOver (state l) then Done l
  else match fuel with
       | O => OutOfFuel
       | S fuel' =>
           flow <- RunGame_body env l ;;
           match flow with
           | Continue l' => RunGame_loop fuel' env l'
           | Break l' => Done l'
           end
       end.

(** [struct GameResult], without [walltime_used]. *)
Record GameResult : Type := mkGameResult {
  transcript : string;
  score : Z
}.

(** A run of [RunGame]: what it returns, together with the moves it
    executed, the state it ended in and what the arbiter wrote to stderr
    until it has returned.  The destructors of [quit2] and [quit1] run when
    the function is left, in this order: [Quit(players[1])], then
    [Quit(players[0])]. *)
Record Run : Type := mkRun {
  result : GameResult;
  played : list Move;
  final : State;
  messages : list Diag
}.

Definition RunGame (env : Env) : outcome Run :=
  l <- RunGame_loop (Z.to_nat MAX_MOVES) env (mkLoop InitialState [] false []) ;;
  score <-
    (if IsGameOver (state l) then CalculateScore (state l)
     else
       let failing_player := GetNextPlayer (state l) in
       if failing_player =? 0 then Done (-99)
       else if failing_player =? 1 then Done 99
       else Aborted) ;;
  Done (mkRun (mkGameResult (EncodeHistory (history l)) score)
          (history l) (state l) (stderr l ++ Quit env 1 ++ Quit env 0)).

(** *** The tournament table

    The counters of [Main]; the times and the printing are left out.  The
    number of games and the counters are [int]s: [2*rounds] and every [+=]
    are taken in 32 bits.  An [int x[2]] is a list of two,
    [score_by_color[2][2]] a list of four in row-major order.  The
    environment of game number [game] is [envs game]: the two programs, [p]
    playing the first mover. *)

Record Table : Type := mkTable {
  wins : list Z;
  ties : list Z;
  losses : list Z;
  failures : list Z;
  score_by_color : list Z;
  total : list Z            (* int score[2] *)
}.

(** [a[i] += v] *)
Definition add_at (a : list Z) (i v : Z) : list Z :=
  list_set (Z.to_nat i) (int_wrap (nth (Z.to_nat i) a 0 + v)) a.

(** A [bool] used as an [int]. *)
Definition int_of_bool (b : bool) : Z := if b then 1 else 0.

(** The body of [for (int game = 0; game < games; ++game)]. *)
Definition Main_body (envs : Z -> Env) (game : Z) (t : Table) : outcome Table :=
  let p := Z.land game 1 in
  let q := 1 - p in
  run <- RunGame (envs game) ;;
  let result := result run in
  let total := add_at (total t) p (score result) in
  let total := add_at total q (- score result) in
  let score_by_color := add_at (score_by_color t) (2 * p + 0) (score result) in
  let score_by_color := add_at score_by_color (2 * q + 1) (- score result) in
  let wins := add_at (wins t) p (int_of_bool (0 <? score result)) in
  let wins := add_at wins q (int_of_bool (score result <? 0)) in
  let ties := add_at (ties t) p (int_of_bool (score result =? 0)) in
  let ties := add_at ties q (int_of_bool (score result =? 0)) in
  let losses := add_at (losses t) p (int_of_bool (score result <? 0)) in
  let losses := add_at losses q (int_of_bool (0 <? score result)) in
  let failures := add_at (failures t) p (int_of_bool (score result =? -99)) in
  let failures := add_at failures q (int_of_bool (score result =? 99)) in
  Done (mkTable wins ties losses failures score_by_color total).

Fixpoint Main_loop (envs : Z -> Env) (games : list Z) (t : Table) : outcome Table :=
  match games with
  | [] => Done t
  | game :: rest =>
      t' <- Main_body envs game t ;;
      Main_loop envs rest t'
  end.

Definition Main (envs : Z -> Env) (rounds : Z) : outcome Table :=
  let games := if rounds <=? 0 then 1 else int_wrap (2 * rounds) in
  Main_loop envs (Zrange 0 (Z.to_nat games))
    (mkTable [0; 0] [0; 0] [0; 0] [0; 0] [0; 0; 0; 0] [0; 0]).

(** *** The command line

    [main] goes through [argv]: an argument that does not start with '-'
    is moved to the front of the array, behind those kept before; the others
    are the options.  [sscanf_rounds arg] stands for
    [sscanf(arg, "--rounds=%d", &value)]: [Some value] when it returns 1.
    The result is what [main] does then, with the options it has reported
    as unrecognized. *)

Inductive Invocation : Type :=
| Usage                                  (* the usage line is printed; return 1 *)
| Play (player1_command player2_command : string) (rounds : Z)
       (logs_prefix : option string).   (* Main(...); return 0 *)

(** The variables that the loop of [main] changes, and its stderr. *)
Record Options : Type := mkOptions {
  argv : list string;
  j : Z;
  opt_rounds : Z;
  opt_logs_prefix : option string;      (* [None] is [nullptr] *)
  unrecognized : list string
}.

(** The body of [for (int i = 1; i < argc; ++i)]. *)
Definition main_body (sscanf_rounds : string -> option Z) (i : Z) (o : Options)
  : outcome Options :=
  let arg := nth (Z.to_nat i) (argv o) EmptyString in
  if negb (Ascii.eqb (char_at arg 0) "-") then
    if (0 <=? j o) && (j o <? Z.of_nat (length (argv o))) then
      Done (mkOptions (list_set (Z.to_nat (j o)) arg (argv o)) (j o + 1)
              (opt_rounds o) (opt_logs_prefix o) (unrecognized o))
    else Aborted
  else
    match sscanf_rounds arg with
    | Some value =>
        Done (mkOptions (argv o) (j o) value (opt_logs_prefix o) (unrecognized o))
    | None =>
        if String.prefix "--logs=" arg then
          Done (mkOptions (argv o) (j o) (opt_rounds o)
                  (Some (substring 7 (String.length arg - 7) arg)) (unrecognized o))
        else
          Done (mkOptions (argv o) (j o) (opt_rounds o) (opt_logs_prefix o)
                  (unrecognized o ++ [arg]))
    end.

Fixpoint main_loop (sscanf_rounds : string -> option Z) (indices : list Z) (o : Options)
  : outcome Options :=
  match indices with
  | [] => Done o
  | i :: rest =>
      o' <- main_body sscanf_rounds i o ;;
      main_loop sscanf_rounds rest o'
  end.

Definition main (sscanf_rounds : string -> option Z) (arguments : list string)
  : outcome (Invocation * list string) :=
  let argc := Z.of_nat (length arguments) in
  o <- main_loop sscanf_rounds (Zrange 1 (Z.to_nat (argc - 1)))
         (mkOptions arguments 1 0 None []) ;;
  let argc := j o in
  if negb (argc =? 3) then Done (Usage, unrecognized o)
  else Done (Play (nth 1 (argv o) EmptyString) (nth 2 (argv o) EmptyString)
               (opt_rounds o) (opt_logs_prefix o),
             unrecognized o).

End Arbiter.

(* ------------------------------------------------------------------ *)
(** * The player (player.cc) *)

Module PlayerCC.

Definition H : Z := 8.
Definition W : Z := 8.
Definition MIN_VALUE : Z := -9999.
Definition MAX_VALUE : Z := 9999.
Definition MAX_MOVES : Z := 60.

(** [enum class Player : signed char { NONE = 0, WHITE = 1, BLACK = -1 }] *)
Inductive Player : Type := NONE | WHITE | BLACK.

Definition int_of_Player (p : Player) : Z :=
  match p with
  | NONE => 0
  | WHITE => 1
  | BLACK => -1
  end.

Definition Player_of_int (z : Z) : Player :=
  if z =? 1 then WHITE else if z =? -1 then BLACK else NONE.

Definition Player_eqb (a b : Player) : bool :=
  int_of_Player a =? int_of_Player b.

Definition Other (p : Player) : Player := Player_of_int (- int_of_Player p).

Record Board : Type := mkBoard {
  fields : list Player;     (* Player fields[H][W] *)
  next_player : Player
}.

Record Move : Type := mkMove { row : Z; col : Z }.

Definition Move_eqb (a b : Move) : bool :=
  (row a =? row b) && (col a =? col b).

Definition at_ (fields : list Player) (r c : Z) : Player := grid_get NONE fields r c.

Definition ValidCoords (r c : Z) : bool :=
  (0 <=? r) && (r <? W) && (0 <=? c) && (c <? W).

(** [operator==] on boards. *)
Definition Board_eqb (a b : Board) : bool :=
  forallb (fun rc => Player_eqb (at_ (fields a) (fst rc) (snd rc))
                                (at_ (fields b) (fst rc) (snd rc))) all_cells
  && Player_eqb (next_player a) (next_player b).

Definition InitialBoard : Board :=
  let fields := repeat NONE 64 in
  let fields := grid_set fields (H / 2 - 1) (W / 2 - 1) WHITE in
  let fields := grid_set fields (H / 2 - 1) (W / 2 - 0) BLACK in
  let fields := grid_set fields (H / 2 - 0) (W / 2 - 1) BLACK in
  let fields := grid_set fields (H / 2 - 0) (W / 2 - 0) WHITE in
  mkBoard fields WHITE.

(** The scan of [HasFlips] in one direction: [Done true] is its
    [return true], [Done false] a [break]. *)
Fixpoint HasFlips_scan (fuel : nat) (fields : list Player) (p : Player)
    (r c dr dc n : Z) : outcome bool :=
  match fuel with
  | O => OutOfFuel
  | S fuel' =>
      let r2 := r + dr * n in
      let c2 := c + dc * n in
      if negb (ValidCoords r2 c2) then Done false
      else
        let o := at_ fields r2 c2 in
        if Player_eqb o NONE then Done false
        else if Player_eqb o p && (1 <? n) then Done true
        else HasFlips_scan fuel' fields p r c dr dc (n + 1)
  end.

Fixpoint HasFlips_dirs (fields : list Player) (p : Player) (r c : Z)
    (dirs : list (Z * Z)) : outcome bool :=
  match dirs with
  | [] => Done false
  | (dr, dc) :: rest =>
      if negb (dr =? 0) || negb (dc =? 0) then
        found <- HasFlips_scan SCAN_FUEL fields p r c dr dc 1 ;;
        if found then Done true else HasFlips_dirs fields p r c rest
      else HasFlips_dirs fields p r c rest
  end.

Definition HasFlips (fields : list Player) (p : Player) (r c : Z) : outcome bool :=
  HasFlips_dirs fields p r c directions.

(** The first inner loop of [DoFlips], returning [last_n]. *)
Fixpoint DoFlips_scan (fuel : nat) (fields : list Player) (p : Player)
    (r c dr dc n last_n : Z) : outcome Z :=
  match fuel with
  | O => OutOfFuel
  | S fuel' =>
      let r2 := r + dr * n in
      let c2 := c + dc * n in
      if negb (ValidCoords r2 c2) then Done last_n
      else
        let o := at_ fields r2 c2 in
        if Player_eqb o NONE then Done last_n
        else DoFlips_scan fuel' fields p r c dr dc (n + 1)
               (if Player_eqb o p then n else last_n)
  end.

(** The second inner loop of [DoFlips]: [k] iterations from [n] on. *)
Fixpoint DoFlips_flip (k : nat) (fields : list Player) (r c dr dc n : Z)
  : list Player :=
  match k with
  | O => fields
  | S k' =>
      let o := at_ fields (r + n * dr) (c + n * dc) in
      DoFlips_flip k' (grid_set fields (r + n * dr) (c + n * dc) (Other o))
        r c dr dc (n + 1)
  end.

Definition DoFlips_dir (fields : list Player) (p : Player) (r c dr dc : Z)
  : outcome (list Player) :=
  if negb (dr =? 0) || negb (dc =? 0) then
    last_n <- DoFlips_scan SCAN_FUEL fields p r c dr dc 1 0 ;;
    Done (DoFlips_flip (Z.to_nat (last_n - 1)) fields r c dr dc 1)
  else Done fields.

Fixpoint DoFlips_dirs (fields : list Player) (p : Player) (r c : Z)
    (dirs : list (Z * Z)) : outcome (list Player) :=
  match dirs with
  | [] => Done fields
  | (dr, dc) :: rest =>
      fields' <- DoFlips_dir fields p r c dr dc ;;
      DoFlips_dirs fields' p r c rest
  end.

Definition DoFlips (fields : list Player) (p : Player) (r c : Z)
  : outcome (list Player) :=
  DoFlips_dirs fields p r c directions.

Definition HasOccupiedNeighbor (fields : list Player) (r c : Z) : outcome bool :=
  if negb (Player_eqb (at_ fields r c) NONE) then Aborted
  else
    let min_r := if 0 <? r then r - 1 else 0 in
    let max_r := if r <? H - 1 then r + 1 else H - 1 in
    let min_c := if 0 <? c then c - 1 else 0 in
    let max_c := if c <? W - 1 then c + 1 else W - 1 in
    Done (existsb (fun r2 =>
            existsb (fun c2 => negb (Player_eqb (at_ fields r2 c2) NONE))
              (Zrange min_c (Z.to_nat (max_c - min_c + 1))))
            (Zrange min_r (Z.to_nat (max_r - min_r + 1)))).

Definition DoMove (board : Board) (move : Move) : outcome Board :=
  let fields := fields board in
  let p := next_player board in
  if negb (Player_eqb (at_ fields (row move) (col move)) NONE) then Aborted
  else
    let fields := grid_set fields (row move) (col move) p in
    fields <- DoFlips fields p (row move) (col move) ;;
    Done (mkBoard fields (Other p)).

Definition UndoMove (board : Board) (move : Move) : outcome Board :=
  let fields := fields board in
  let p := Other (next_player board) in
  if negb (Player_eqb (at_ fields (row move) (col move)) p) then Aborted
  else
    let fields := grid_set fields (row move) (col move) NONE in
    fields <- DoFlips fields p (row move) (col move) ;;
    Done (mkBoard fields p).

(** [Move moves[MAX_MOVES]]: the default constructor sets every entry to
    (0, 0). *)
Definition new_moves : list Move := repeat (mkMove 0 0) (Z.to_nat MAX_MOVES).

Definition moves_at (moves : list Move) (i : Z) : Move :=
  nth (Z.to_nat i) moves (mkMove 0 0).

(** A store into [moves] at index [i]: an index outside the array is
    undefined behaviour. *)
Definition moves_store (moves : list Move) (i : Z) (m : Move) : outcome (list Move) :=
  if (0 <=? i) && (i <? MAX_MOVES) then Done (list_set (Z.to_nat i) m moves)
  else Aborted.

(** The first loop of [ListMoves]. *)
Fixpoint ListMoves_collect (fields : list Player) (cells : list (Z * Z))
    (moves : list Move) (total_moves : Z) : outcome (list Move * Z) :=
  match cells with
  | [] => Done (moves, total_moves)
  | (r, c) :: rest =>
      take <- (if Player_eqb (at_ fields r c) NONE
               then HasOccupiedNeighbor fields r c else Done false) ;;
      if take then
        moves' <- moves_store moves total_moves (mkMove r c) ;;
        ListMoves_collect fields rest moves' (total_moves + 1)
      else ListMoves_collect fields rest moves total_moves
  end.

(** The second loop of [ListMoves]: [k] iterations from [i] on. *)
Fixpoint ListMoves_compact (k : nat) (fields : list Player) (p : Player)
    (i : Z) (moves : list Move) (flipping_moves : Z) : outcome (list Move * Z) :=
  match k with
  | O => Done (moves, flipping_moves)
  | S k' =>
      flips <- HasFlips fields p (row (moves_at moves i)) (col (moves_at moves i)) ;;
      if flips then
        moves' <- moves_store moves flipping_moves (moves_at moves i) ;;
        ListMoves_compact k' fields p (i + 1) moves' (flipping_moves + 1)
      else ListMoves_compact k' fields p (i + 1) moves flipping_moves
  end.

(** [ListMoves(board, &moves)]: the array as it is left, and the count
    returned. *)
Definition ListMoves (board : Board) (moves : list Move) : outcome (list Move * Z) :=
  let fields := fields board in
  let p := next_player board in
  '(moves, total_moves) <- ListMoves_collect fields all_cells moves 0 ;;
  '(moves, flipping_moves) <-
     ListMoves_compact (Z.to_nat total_moves) fields p 0 moves 0 ;;
  Done (moves, if 0 <? flipping_moves then flipping_moves else total_moves).

Fixpoint Evaluate_loop (fields : list Player) (p q : Player)
    (cells : list (Z * Z)) (score : Z) : outcome Z :=
  match cells with
  | [] => Done score
  | (r, c) :: rest =>
      if Player_eqb (at_ fields r c) NONE then
        nb <- HasOccupiedNeighbor fields r c ;;
        if nb then
          fp <- HasFlips fields p r c ;;
          let score := if fp then score + 2 else score in
          fq <- HasFlips fields q r c ;;
          let score := if fq then score - 2 else score in
          Evaluate_loop fields p q rest score
        else Evaluate_loop fields p q rest score
      else
        Evaluate_loop fields p q rest
          (score + (if Player_eqb (at_ fields r c) p then 1 else -1))
  end.

Definition Evaluate (board : Board) : outcome Z :=
  let p := next_player board in
  let q := Other p in
  Evaluate_loop (fields board) p q all_cells 0.

(** The loop [REP(i, num_moves)] of [Search]: [k] iterations from [i] on;
    [search] is the recursive call at [depth - 1].  The board is changed in
    place by [DoMove] and [UndoMove], so it is threaded through. *)
Fixpoint Search_loop (search : Board -> outcome (Board * Z)) (k : nat) (i : Z)
    (moves : list Move) (board : Board) (best_value : Z) : outcome (Board * Z) :=
  match k with
  | O => Done (board, best_value)
  | S k' =>
      let move := moves_at moves i in
      board <- DoMove board move ;;
      '(board, v) <- search board ;;
      let value := - v in
      board <- UndoMove board move ;;
      Search_loop search k' (i + 1) moves board
        (if best_value <? value then value else best_value)
  end.

(** [Search] by recursion on the number of plies left: [depth <= 0] is
    [O], and [depth - 1] the predecessor. *)
Fixpoint Search_plies (plies : nat) (board : Board) : outcome (Board * Z) :=
  match plies with
  | O => v <- Evaluate board ;; Done (board, v)
  | S plies' =>
      '(moves, num_moves) <- ListMoves board new_moves ;;
      if num_moves <=? 0 then v <- Evaluate board ;; Done (board, v)
      else
        '(board, best_value) <-
           Search_loop (Search_plies plies') (Z.to_nat num_moves) 0 moves board
             (MIN_VALUE - 1) ;;
        if negb (MIN_VALUE <=? best_value) then Aborted
        else if negb (best_value <=? MAX_VALUE) then Aborted
        else Done (board, best_value)
  end.

Definition Search (board : Board) (depth : Z) : outcome (Board * Z) :=
  Search_plies (Z.to_nat depth) board.

(** The loop [REP(i, num_moves)] of [SelectMove]: [k] iterations from [i]
    on, over the local copy [board]. *)
Fixpoint SelectMove_loop (k : nat) (i : Z) (moves : list Move) (board : Board)
    (best_value : Z) (best_move : Move) : outcome (Board * Z * Move) :=
  match k with
  | O => Done (board, best_value, best_move)
  | S k' =>
      let move := moves_at moves i in
      board <- DoMove board move ;;
      '(board, v) <- Search board 3 ;;
      let value := - v in
      board <- UndoMove board move ;;
      if best_value <? value
      then SelectMove_loop k' (i + 1) moves board value move
      else SelectMove_loop k' (i + 1) moves board best_value best_move
  end.

(** [SelectMove(original_board, &best_move)].  [shuffle] is what
    [std::random_shuffle] makes of the first [num_moves] entries of the
    array; the result is the [bool] returned, [*best_move] as it is left,
    and the [best_value] that is printed to stderr. *)
Definition SelectMove (shuffle : list Move -> list Move) (original_board : Board)
    (best_move : Move) : outcome (bool * Move * Z) :=
  let board := original_board in
  '(moves, num_moves) <- ListMoves board new_moves ;;
  let moves := shuffle (firstn (Z.to_nat num_moves) moves)
               ++ skipn (Z.to_nat num_moves) moves in
  '(board, best_value, best_move) <-
     SelectMove_loop (Z.to_nat num_moves) 0 moves board (MIN_VALUE - 1) best_move ;;
  if negb (Board_eqb board original_board) then Aborted
  else Done (MIN_VALUE <=? best_value, best_move, best_value).

Definition MoveIsValid (board : Board) (move : Move) : outcome bool :=
  '(moves, num_moves) <- ListMoves board new_moves ;;
  Done (existsb (fun i => Move_eqb (moves_at moves i) move)
          (Zrange 0 (Z.to_nat num_moves))).

Definition FormatMove (move : Move) : string :=
  String (char_of_int (int_of_char "A" + row move))
    (String (char_of_int (int_of_char "1" + col move)) EmptyString).

Definition ParseMove (s : string) : option Move :=
  if negb (Nat.eqb (String.length s) 2) then None
  else
    let row := int_of_char (char_at s 0) - int_of_char "A" in
    let col := int_of_char (char_at s 1) - int_of_char "1" in
    if negb (ValidCoords row col) then None
    else Some (mkMove row col).

(** *** The input loop of [main]

    Standard input is the list of the lines that [std::getline] returns,
    after which it fails; standard output is the list of the lines written.
    [shuffles n] is the shuffle of the call number [n] of [SelectMove].
    The result is the exit status with the lines written and the board as
    it is at the exit. *)
Fixpoint main_loop (fuel : nat) (shuffles : nat -> list Move -> list Move)
    (calls : nat) (my_player : Player) (board : Board) (move : Move)
    (input output : list string) : outcome (Z * list string * Board) :=
  match fuel with
  | O => OutOfFuel
  | S fuel' =>
      if Player_eqb my_player (next_player board) then
        '(ok, move, _) <- SelectMove (shuffles calls) board move ;;
        if negb ok then Done (0, output, board)
        else
          let output := output ++ [FormatMove move] in
          valid <- MoveIsValid board move ;;
          if negb valid then Aborted
          else
            board <- DoMove board move ;;
            main_loop fuel' shuffles (S calls) my_player board move input output
      else
        match input with
        | [] => Done (1, output, board)
        | line :: input =>
            if String.eqb line "Quit" then Done (0, output, board)
            else if Player_eqb my_player NONE && String.eqb line "Start" then
              main_loop fuel' shuffles calls WHITE board move input output
            else
              let my_player := if Player_eqb my_player NONE then BLACK else my_player in
              match ParseMove line with
              | None => Done (1, output, board)
              | Some move =>
                  valid <- MoveIsValid board move ;;
                  if negb valid then Aborted
                  else
                    board <- DoMove board move ;;
                    main_loop fuel' shuffles calls my_player board move input output
              end
        end
  end.

(** Every other iteration at least reads a line, so the number of
    iterations is bounded by the number of lines. *)
Definition main (shuffles : nat -> list Move -> list Move) (input : list string)
  : outcome (Z * list string * Board) :=
  main_loop (2 * length input + 2) shuffles O NONE InitialBoard (mkMove 0 0) input [].

End PlayerCC.

(* ------------------------------------------------------------------ *)
(** * Vocabulary of the specification *)

(** (r, c) is a cell of the board. *)
Definition on_board (r c : Z) : Prop := 0 <= r < 8 /\ 0 <= c < 8.

(** (dr, dc) is one of the eight directions of the direction loops. *)
Definition is_dir (dr dc : Z) : Prop :=
  -1 <= dr <= 1 /\ -1 <= dc <= 1 /\ (dr <> 0 \/ dc <> 0).

(** The cells at distances 1..k from (r, c) in direction (dr, dc). *)
Definition ray_cells (r c dr dc : Z) (k : nat) : list (Z * Z) :=
  map (fun n => (r + n * dr, c + n * dc)) (Zrange 1 k).

(** (r2, c2) is one of the up to eight cells around (r, c). *)
Definition adjacent (r c r2 c2 : Z) : Prop :=
  r - 1 <= r2 <= r + 1 /\ c - 1 <= c2 <= c + 1 /\ (r2 <> r \/ c2 <> c).

(** 1 for [true], 0 for [false]: for counting the cells that pass a test. *)
Definition indicator (b : bool) : nat := if b then 1%nat else 0%nat.

(** ** The scan along one direction

    The scanning loops of [FindFlips], [DoFlips] and [HasFlips] differ only
    in how a cell is read; [occ n] says that the cell at distance [n] is on
    the board and occupied, [mine n] that it holds a disc of the mover. *)

Section ScanModel.
Variables occ mine : Z -> bool.

Fixpoint scan_model (fuel : nat) (n last_n : Z) : outcome Z :=
  match fuel with
  | O => OutOfFuel
  | S fuel' =>
      if negb (occ n) then Done last_n
      else scan_model fuel' (n + 1) (if mine n then n else last_n)
  end.

Fixpoint has_model (fuel : nat) (n : Z) : outcome bool :=
  match fuel with
  | O => OutOfFuel
  | S fuel' =>
      if negb (occ n) then Done false
      else if mine n && (1 <? n) then Done true
      else has_model fuel' (n + 1)
  end.

(** The cells at distances [a..b] are all on the board and occupied. *)
Definition run (a b : Z) : Prop := forall j, a <= j <= b -> occ j = true.

(** [L] is the distance of the farthest disc of the mover in the occupied
    run that starts at distance 1, or 0 when the run has none. *)
Definition farthest (L : Z) : Prop :=
  (L = 0 /\ forall n, 1 <= n -> run 1 n -> mine n = false) \/
  (1 <= L /\ run 1 L /\ mine L = true /\
   forall n, L < n -> run 1 n -> mine n = false).

End ScanModel.

(** A disc put on the origin of the scans turns a disc over: in one of the
    eight directions the farthest disc of the mover in the occupied run
    that starts next to the origin lies at distance two or more, so that
    there is a cell before it.  [occ dr dc] and [mine dr dc] read the board
    along the direction (dr, dc). *)
Definition turns_some (occ mine : Z -> Z -> Z -> bool) : Prop :=
  exists dr dc L, is_dir dr dc /\ farthest (occ dr dc) (mine dr dc) L /\ 1 < L.

(** ** Vocabulary for the arbiter *)

Module ArbiterSpec.
Import Arbiter.

(** The cell at distance [n] from (r, c) in direction (dr, dc) is on the
    board and occupied. *)
Definition occupied_at (state : State) (r c dr dc n : Z) : bool :=
  ValidCoords (r + n * dr) (c + n * dc) && negb (at_ state (r + n * dr) (c + n * dc) =? 0).

(** That cell holds a disc of [player]. *)
Definition player_at (state : State) (player r c dr dc n : Z) : bool :=
  at_ state (r + n * dr) (c + n * dc) =? player.

(** Invoking a callback on the cells of a list, in order, until it
    returns false. *)
Fixpoint run_callbacks (callback : Callback) (state : State) (cells : list (Z * Z))
  : State * bool :=
  match cells with
  | [] => (state, true)
  | (r, c) :: rest =>
      let '(state', go) := callback state r c in
      if go then run_callbacks callback state' rest else (state', false)
  end.

(** [last_n] as the first inner loop of [FindFlips] leaves it. *)
Definition last_same (state : State) (player r c dr dc : Z) : Z :=
  match FindFlips_scan SCAN_FUEL state player r c dr dc 1 0 with
  | Done L => L
  | _ => 0
  end.

(** Some direction has a cell to flip. *)
Definition has_flip (state : State) (player r c : Z) : bool :=
  existsb (fun d => (negb (fst d =? 0) || negb (snd d =? 0))
                      && (1 <? last_same state player r c (fst d) (snd d)))
    directions.

(** A disc of [player] put on (r, c) turns a disc over. *)
Definition flipping (state : State) (player r c : Z) : Prop :=
  turns_some (occupied_at state r c) (player_at state player r c).

(** A cell holds 0, 1 or 2. *)
Definition cell_ok (v : Z) : Prop := v = 0 \/ v = 1 \/ v = 2.

(** A state whose array has its 64 cells, each 0, 1 or 2. *)
Definition wf_state (state : State) : Prop :=
  length (fields state) = 64%nat /\
  forall r c, on_board r c -> cell_ok (at_ state r c).

(** The number of cells that hold [v]. *)
Definition count_cells (v : Z) (state : State) : Z :=
  Z.of_nat (length (filter (fun rc => at_ state (fst rc) (snd rc) =? v) all_cells)).

(** The number of occupied cells. *)
Definition occupied_cells (state : State) : Z :=
  Z.of_nat (length (filter (fun rc => negb (at_ state (fst rc) (snd rc) =? 0)) all_cells)).

(** The callback of [ExecuteMove]. *)
Definition flip_callback : Callback :=
  fun st r c => (put st r c (Z.lxor (at_ st r c) 3), true).

(** Playing a list of moves from a state the way the loop of [RunGame]
    plays them: each is checked by [ValidateMove] and applied by
    [ExecuteMove]; [None] when some move is not valid. *)
Fixpoint PlayMoves (state : State) (moves : list Move) : option State :=
  match moves with
  | [] => Some state
  | move :: rest =>
      match ValidateMove state move with
      | Done (true, _) =>
          match ExecuteMove state move with
          | Done state' => PlayMoves state' rest
          | _ => None
          end
      | _ => None
      end
  end.

(** Same array size, same move count, same occupied cells. *)
Definition same_occupancy (s s' : State) : Prop :=
  length (fields s') = length (fields s) /\
  moves_played s' = moves_played s /\
  forall r c, on_board r c -> (at_ s' r c = 0 <-> at_ s r c = 0).

(** An empty cell of the board with an occupied cell next to it. *)
Definition candidate (state : State) (r c : Z) : Prop :=
  on_board r c /\ at_ state r c = 0 /\
  exists r2 c2, adjacent r c r2 c2 /\ on_board r2 c2 /\ at_ state r2 c2 <> 0.

(** The mover of a state, as [ListValidMoves] and [ExecuteMove] compute it. *)
Definition mover (state : State) : Z := Z.land (moves_played state) 1 + 1.

(** A full game of sixty valid moves: at every turn the first move of
    [ListValidMoves]. *)
Definition full_game : list Move :=
  map (fun rc => mkMove (fst rc) (snd rc))
    [(2, 2); (1, 1); (0, 0); (2, 3); (2, 4); (1, 3); (0, 2); (0, 3); (0, 4); (1, 5);
     (0, 1); (0, 5); (0, 6); (0, 7); (1, 2); (2, 0); (1, 0); (1, 4); (1, 6); (1, 7);
     (2, 1); (2, 5); (2, 6); (2, 7); (3, 0); (3, 1); (3, 2); (3, 5); (3, 6); (3, 7);
     (4, 0); (4, 1); (4, 2); (4, 5); (4, 6); (4, 7); (5, 0); (5, 1); (5, 2); (5, 3);
     (5, 4); (5, 5); (5, 6); (5, 7); (6, 0); (6, 1); (6, 2); (6, 3); (6, 4); (6, 5);
     (6, 6); (6, 7); (7, 0); (7, 1); (7, 2); (7, 3); (7, 4); (7, 5); (7, 6); (7, 7)].

(** The board that [full_game] ends in. *)
Definition full_board : State :=
  mkState
    [1; 2; 2; 1; 2; 2; 2; 2;
     2; 2; 2; 1; 2; 2; 1; 2;
     1; 1; 2; 1; 1; 1; 1; 1;
     1; 2; 2; 1; 2; 2; 1; 2;
     2; 2; 1; 1; 2; 1; 2; 1;
     1; 2; 2; 2; 1; 2; 1; 2;
     2; 2; 1; 1; 1; 2; 2; 1;
     1; 1; 2; 2; 2; 2; 2; 2]
    60.

(** The state after the opening move C3. *)
Definition after_C3 : State :=
  mkState
    [0; 0; 0; 0; 0; 0; 0; 0;
     0; 0; 0; 0; 0; 0; 0; 0;
     0; 0; 1; 0; 0; 0; 0; 0;
     0; 0; 0; 2; 2; 0; 0; 0;
     0; 0; 0; 2; 1; 0; 0; 0;
     0; 0; 0; 0; 0; 0; 0; 0;
     0; 0; 0; 0; 0; 0; 0; 0;
     0; 0; 0; 0; 0; 0; 0; 0]
    1.

(** A message of [ReadLine]. *)
Definition read_message (d : Diag) : Prop :=
  d = ReadFailed \/ d = EndOfFile \/ d = EndOfLineNotFound \/ d = ExtraData.

(** The message says that the line read from [player] could not be parsed
    (which is also how a failed read ends, [ReadLine] returning the empty
    line) or was not a valid move. *)
Definition step_failed (player : Z) (d : Diag) : Prop :=
  (exists line, d = CouldNotParse player line) \/
  (exists line reason, d = InvalidMove player line reason).

(** The message says that a write to [player] failed: the Start message
    to the first mover, or the forwarding of the opponent's move. *)
Definition write_failed (player : Z) (d : Diag) : Prop :=
  (player = 0 /\ d = CouldNotSendStart 0) \/
  (exists s, d = CouldNotSend s (1 - player)).

(** A child process that has exited with status 0. *)
Definition exited_normally : wait_result := WaitStatus 0 true 0.

(** What holds of the loop variables of [RunGame] between iterations. *)
Definition loop_invariant (l : Loop) : Prop :=
  wf_state (state l) /\
  PlayMoves InitialState (history l) = Some (state l) /\
  stderr l = [] /\
  (started l = false -> moves_played (state l) = 0).

(** What holds of them after a [break]. *)
Definition loop_broken (l : Loop) : Prop :=
  wf_state (state l) /\
  PlayMoves InitialState (history l) = Some (state l) /\
  IsGameOver (state l) = false /\
  exists pre d, stderr l = pre ++ [d] /\ Forall read_message pre /\
                (step_failed (GetNextPlayer (state l)) d \/
                 write_failed (GetNextPlayer (state l)) d).

(** An environment in which the first mover answers Start with the valid
    move C3 and every forwarding write fails: the process of the second
    mover has exited with status 1 (the status word 256), the one of the
    first mover exits with status 0 when it is told to quit. *)
Definition env_send_fails : Env :=
  mkEnv true (fun _ => ReadBytes (String "C" (String "3" (String newline EmptyString))))
        (fun _ => false)
        (fun player => if player =? 1 then WaitStatus 256 true 1 else exited_normally).

(** A state with an empty board: it has no valid move. *)
Definition empty_state : State := mkState (repeat 0 64) 0.

(** The flips of one direction as the specification words them: the
    scan collects the contiguous run of cells of the opponent; when it
    ends on a cell of the mover the collected cells are the flips, when it
    ends on an empty cell or on the edge of the board there is none. *)
Fixpoint claimed_dir_flips (fuel : nat) (state : State) (player r c dr dc n : Z)
    (collected : list (Z * Z)) : list (Z * Z) :=
  match fuel with
  | O => []
  | S fuel' =>
      let r2 := r + n * dr in
      let c2 := c + n * dc in
      if negb (ValidCoords r2 c2) || (at_ state r2 c2 =? 0) then []
      else if at_ state r2 c2 =? player then collected
      else claimed_dir_flips fuel' state player r c dr dc (n + 1)
             (collected ++ [(r2, c2)])
  end.

End ArbiterSpec.

(** ** Vocabulary for the player *)

Module PlayerSpec.
Import PlayerCC.

(** The cell at distance [n] from (r, c) in direction (dr, dc) is on the
    board and occupied. *)
Definition occupied_at (fields : list Player) (r c dr dc n : Z) : bool :=
  ValidCoords (r + n * dr) (c + n * dc)
  && negb (Player_eqb (at_ fields (r + n * dr) (c + n * dc)) NONE).

(** That cell holds a disc of [p]. *)
Definition player_at (fields : list Player) (p : Player) (r c dr dc n : Z) : bool :=
  Player_eqb (at_ fields (r + n * dr) (c + n * dc)) p.

(** [last_n] as the first inner loop of [DoFlips] leaves it. *)
Definition last_same (fields : list Player) (p : Player) (r c dr dc : Z) : Z :=
  match DoFlips_scan SCAN_FUEL fields p r c dr dc 1 0 with
  | Done L => L
  | _ => 0
  end.

(** The cells that [DoFlips] flips in one direction. *)
Definition dir_flips (fields : list Player) (p : Player) (r c : Z) (d : Z * Z)
  : list (Z * Z) :=
  if negb (fst d =? 0) || negb (snd d =? 0)
  then ray_cells r c (fst d) (snd d)
         (Z.to_nat (last_same fields p r c (fst d) (snd d) - 1))
  else [].

(** The cells that [DoFlips] flips. *)
Definition flips (fields : list Player) (p : Player) (r c : Z) : list (Z * Z) :=
  flat_map (dir_flips fields p r c) directions.

(** A disc of [p] put on (r, c) turns a disc over. *)
Definition flipping (fields : list Player) (p : Player) (r c : Z) : Prop :=
  turns_some (occupied_at fields r c) (player_at fields p r c).

(** [fields'] is [fields] with the cells of [cells] handed to the other
    player and every other cell as it was. *)
Definition flipped_at (cells : list (Z * Z)) (fields fields' : list Player) : Prop :=
  length fields' = 64%nat /\
  forall r c, on_board r c ->
    (In (r, c) cells -> at_ fields' r c = Other (at_ fields r c)) /\
    (~ In (r, c) cells -> at_ fields' r c = at_ fields r c).

(** A board whose array has its 64 cells. *)
Definition wf_board (board : Board) : Prop := length (fields board) = 64%nat.

(** An empty cell of the board with an occupied cell next to it. *)
Definition candidate (fields : list Player) (r c : Z) : Prop :=
  on_board r c /\ at_ fields r c = NONE /\
  exists r2 c2, adjacent r c r2 c2 /\ on_board r2 c2 /\ at_ fields r2 c2 <> NONE.

(** What [HasOccupiedNeighbor] returns when its [CHECK] passes. *)
Definition occupied_neighbor (fields : list Player) (r c : Z) : bool :=
  match HasOccupiedNeighbor fields r c with
  | Done b => b
  | _ => false
  end.

(** The test of the first loop of [ListMoves] and of [Evaluate]. *)
Definition is_candidate (fields : list Player) (rc : Z * Z) : bool :=
  Player_eqb (at_ fields (fst rc) (snd rc)) NONE
  && occupied_neighbor fields (fst rc) (snd rc).

(** Some direction has a cell to flip. *)
Definition has_flip (fields : list Player) (p : Player) (r c : Z) : bool :=
  existsb (fun d => (negb (fst d =? 0) || negb (snd d =? 0))
                      && (1 <? last_same fields p r c (fst d) (snd d)))
    directions.

(** The candidate moves, in the order of the first loop of [ListMoves]. *)
Definition candidates (fields : list Player) : list Move :=
  map (fun rc => mkMove (fst rc) (snd rc)) (filter (is_candidate fields) all_cells).

(** The moves that [ListMoves] is to return: the flipping candidates, or
    all candidates when none flips. *)
Definition legal_moves (board : Board) : list Move :=
  match filter (fun m => has_flip (fields board) (next_player board) (row m) (col m))
          (candidates (fields board)) with
  | [] => candidates (fields board)
  | flipping_moves => flipping_moves
  end.




(** What one cell adds to the score in the loop of [Evaluate]. *)
Definition cell_value (fields : list Player) (p q : Player) (rc : Z * Z) : Z :=
  if Player_eqb (at_ fields (fst rc) (snd rc)) NONE then
    if occupied_neighbor fields (fst rc) (snd rc) then
      (if has_flip fields p (fst rc) (snd rc) then 2 else 0)
      - (if has_flip fields q (fst rc) (snd rc) then 2 else 0)
    else 0
  else if Player_eqb (at_ fields (fst rc) (snd rc)) p then 1 else -1.

Definition sum_values (fields : list Player) (p q : Player) (cells : list (Z * Z)) : Z :=
  fold_right (fun rc acc => cell_value fields p q rc + acc) 0 cells.

End PlayerSpec.

Module EscapeSpec.
Import Arbiter.

(** A character that [EscapeString] lets through: printable ASCII. *)
Definition printable (ch : ascii) : Prop := 32 <= int_of_char ch <= 126.

(** A printable character other than the backslash and the quote. *)
Definition plain (ch : ascii) : Prop :=
  printable ch /\ ch <> backslash /\ ch <> quote.

(** The escaped characters of a string, one after the other. *)
Fixpoint escaped (s : string) : string :=
  match s with
  | EmptyString => EmptyString
  | String ch rest => (EscapeString_char ch ++ escaped rest)%string
  end.

(** The value of a hexadecimal digit of [hexdigits]. *)
Definition hex_value (ch : ascii) : option Z :=
  match index 0 (String ch EmptyString) hexdigits with
  | Some i => Some (Z.of_nat i)
  | None => None
  end.

(** Reading an escaped string back, up to its closing quote. *)
Fixpoint unescape (t : string) : option string :=
  match t with
  | EmptyString => None
  | String ch rest =>
      if Ascii.eqb ch quote then
        match rest with
        | EmptyString => Some EmptyString
        | _ => None
        end
      else if Ascii.eqb ch backslash then
        match rest with
        | String "x" (String h (String l rest')) =>
            match hex_value h, hex_value l, unescape rest' with
            | Some a, Some b, Some s => Some (String (char_of_int (16 * a + b)) s)
            | _, _, _ => None
            end
        | String c rest' =>
            match unescape rest' with
            | Some s => Some (String c s)
            | None => None
            end
        | EmptyString => None
        end
      else
        match unescape rest with
        | Some s => Some (String ch s)
        | None => None
        end
  end.

Definition UnescapeString (t : string) : option string :=
  match t with
  | String ch rest => if Ascii.eqb ch quote then unescape rest else None
  | EmptyString => None
  end.

(** The two digits written for a character, checked by evaluation on each
    of the 256 characters. *)
Definition hex_digits_ok (ch : ascii) : bool :=
  let c := int_of_char ch in
  let h := char_at hexdigits (Z.to_nat (Z.shiftr (Z.land c 240) 4)) in
  let l := char_at hexdigits (Z.to_nat (Z.shiftr (Z.land c 15) 0)) in
  (32 <=? int_of_char h) && (int_of_char h <=? 126) &&
  (32 <=? int_of_char l) && (int_of_char l <=? 126) &&
  match hex_value h, hex_value l with
  | Some a, Some b => Ascii.eqb (char_of_int (16 * a + b)) ch
  | _, _ => false
  end.

End EscapeSpec.

Module MatchSpec.
Import Arbiter ArbiterSpec.

(** The string has no newline character. *)
Definition no_newline (s : string) : Prop := ~ In newline (list_ascii_of_string s).

(** [s] followed by a newline. *)
Definition line_of (s : string) : string := (s ++ String newline EmptyString)%string.

(** Reading a transcript back: two characters per move. *)
Fixpoint DecodeHistory (s : string) : option (list Move) :=
  match s with
  | EmptyString => Some []
  | String a (String b rest) =>
      match ParseMove (String a (String b EmptyString)), DecodeHistory rest with
      | Some move, Some moves => Some (move :: moves)
      | _, _ => None
      end
  | String _ EmptyString => None
  end.

(** Every cell of the board is occupied. *)
Definition board_full (s : State) : Prop := forall r c, on_board r c -> at_ s r c <> 0.

(** No cell of the board is occupied. *)
Definition board_empty (s : State) : Prop := forall r c, on_board r c -> at_ s r c = 0.

(** Two programs that answer with the moves of [moves], one per turn, and
    take every message sent to them; [waits] is what [waitpid] returns for
    them in the end. *)
Definition env_of_moves (moves : list Move) (waits : Z -> wait_result) : Env :=
  mkEnv true
    (fun n => ReadBytes (line_of (FormatMove (nth (Z.to_nat n) moves (mkMove 0 0)))))
    (fun _ => true)
    waits.

(** The first mover exits with status 0 when it is told to quit, the
    second mover with status 3 (the status word 768). *)
Definition second_exits_3 (player : Z) : wait_result :=
  if player =? 1 then WaitStatus 768 true 3 else exited_normally.

End MatchSpec.

Module ForfeitSpec.
Import Arbiter ArbiterSpec MatchSpec.

(** The message of [RunGame] for a line that is not a valid move in state
    [s], if it is none. *)
Definition refusal (s : State) (line : string) : option Diag :=
  match ParseMove line with
  | None => Some (CouldNotParse (GetNextPlayer s) line)
  | Some move =>
      match ValidateMove s move with
      | Done (false, reason) => Some (InvalidMove (GetNextPlayer s) line reason)
      | _ => None
      end
  end.

(** Two programs that answer with the moves of [moves], one per turn, and
    then with the bytes [bytes]; every message sent to them is taken, and
    both exit with status 0 when they are told to quit. *)
Definition env_then (moves : list Move) (bytes : read_result) : Env :=
  mkEnv true
    (fun n => if n <? Z.of_nat (length moves)
              then ReadBytes (line_of (FormatMove (nth (Z.to_nat n) moves (mkMove 0 0))))
              else bytes)
    (fun _ => true)
    (fun _ => exited_normally).

(** The writes of [RunGame] by number: write 0 sends Start to the first
    mover, write [k] forwards move number [k] to the program that moves
    next. *)
Definition write_ok (env : Env) (k : nat) : bool :=
  match k with
  | O => start_ok env
  | S _ => send_ok env (Z.of_nat k)
  end.

(** The message of [RunGame] when the write that follows the moves of
    [moves] fails; the number it prints is the one of the last mover. *)
Definition write_failure (moves : list Move) : Diag :=
  match rev moves with
  | [] => CouldNotSendStart 0
  | move :: _ =>
      CouldNotSend (FormatMove move) (if Z.even (Z.of_nat (length moves)) then 1 else 0)
  end.

(** Two programs that answer with the moves of [moves], one per turn; the
    writes before write [k] are taken, the later ones fail; [waits] is what
    [waitpid] returns for the two in the end. *)
Definition env_closed_at (moves : list Move) (k : nat) (waits : Z -> wait_result) : Env :=
  mkEnv (0 <? Z.of_nat k)
    (fun n => ReadBytes (line_of (FormatMove (nth (Z.to_nat n) moves (mkMove 0 0)))))
    (fun n => n <? Z.of_nat k)
    waits.

(** The process of the second mover was killed by signal 9 (the status
    word 9, for which [WIFEXITED] is false); the first mover exits with
    status 0 when it is told to quit. *)
Definition second_killed (player : Z) : wait_result :=
  if player =? 1 then WaitStatus 9 false 0 else exited_normally.

End ForfeitSpec.

Module TournamentSpec.
Import Arbiter ArbiterSpec.

(** The number of games of a tournament of [rounds] rounds. *)
Definition games_of (rounds : Z) : Z := if rounds <=? 0 then 1 else 2 * rounds.

(** The largest number of rounds for which no counter of [Main] can leave
    the range of [int]: a counter moves by at most 99 in a game, and 99
    times the number of games is below 2^31 up to this number of rounds. *)
Definition MAX_ROUNDS : Z := 10845877.

(** Sixty valid moves in every game, and programs that exit with status 0. *)
Definition envs_full_game (game : Z) : Env :=
  MatchSpec.env_of_moves full_game (fun _ => exited_normally).

(** The side that program [i] plays in game number [game]: 0 the first
    mover, 1 the second. *)
Definition side_of (i game : Z) : Z := if i =? Z.land game 1 then 0 else 1.

(** Game number [game] was broken off and program [i] was the failing
    player. *)
Definition forfeited (envs : Z -> Env) (i game : Z) : bool :=
  match RunGame (envs game) with
  | Done run => negb (IsGameOver (final run))
                && (GetNextPlayer (final run) =? side_of i game)
  | _ => false
  end.

(** The score of game number [game], seen from program [i]. *)
Definition score_for (envs : Z -> Env) (i game : Z) : Z :=
  match RunGame (envs game) with
  | Done run => if side_of i game =? 0 then score (result run) else - score (result run)
  | _ => 0
  end.

Definition sum_scores (envs : Z -> Env) (i : Z) (games : list Z) : Z :=
  fold_right (fun game acc => score_for envs i game + acc) 0 games.

Definition count_games (f : Z -> bool) (games : list Z) : Z :=
  Z.of_nat (length (filter f games)).

(** What the counters of a table are after the games of [games]. *)
Definition table_of (envs : Z -> Env) (games : list Z) (t : Table) : Prop :=
  forall i, i = 0 \/ i = 1 ->
    length (wins t) = 2%nat /\ length (ties t) = 2%nat /\ length (losses t) = 2%nat /\
    length (failures t) = 2%nat /\ length (total t) = 2%nat /\
    length (score_by_color t) = 4%nat /\
    nth (Z.to_nat i) (wins t) 0 = count_games (fun g => 0 <? score_for envs i g) games /\
    nth (Z.to_nat i) (ties t) 0 = count_games (fun g => score_for envs i g =? 0) games /\
    nth (Z.to_nat i) (losses t) 0 = count_games (fun g => score_for envs i g <? 0) games /\
    nth (Z.to_nat i) (failures t) 0 = count_games (forfeited envs i) games /\
    nth (Z.to_nat i) (total t) 0 = sum_scores envs i games /\
    nth (Z.to_nat (2 * i + 0)) (score_by_color t) 0 =
      sum_scores envs i (filter (fun g => side_of i g =? 0) games) /\
    nth (Z.to_nat (2 * i + 1)) (score_by_color t) 0 =
      sum_scores envs i (filter (fun g => side_of i g =? 1) games).

End TournamentSpec.

Module SearchSpec.
Import PlayerCC PlayerSpec.

(** The board after a move. *)
Definition after (board : Board) (move : Move) : Board :=
  match DoMove board move with
  | Done board' => board'
  | _ => board
  end.

(** The value that [Evaluate] returns. *)
Definition evaluation (board : Board) : Z :=
  match Evaluate board with
  | Done v => v
  | _ => 0
  end.

(** The value that [Search] returns. *)
Definition search_value (depth : Z) (board : Board) : Z :=
  match Search board depth with
  | Done (_, v) => v
  | _ => 0
  end.

(** The value of a move for the player who makes it: the opponent's value
    of the board it leads to, negated. *)
Definition reply_value (depth : Z) (board : Board) (move : Move) : Z :=
  - search_value depth (after board move).

(** The largest of a list of values, from [MIN_VALUE - 1] on. *)
Definition best_of (values : list Z) : Z := fold_left Z.max values (MIN_VALUE - 1).

End SearchSpec.

Module AgreementSpec.
(** The player's name for what a cell of the arbiter holds. *)
Definition player_of_cell (v : Z) : PlayerCC.Player :=
  if v =? 1 then PlayerCC.WHITE else if v =? 2 then PlayerCC.BLACK else PlayerCC.NONE.

(** The player's board for a state of the arbiter: the same discs, and the
    mover of the state to move. *)
Definition board_of_state (s : Arbiter.State) : PlayerCC.Board :=
  PlayerCC.mkBoard (map player_of_cell (Arbiter.fields s))
    (player_of_cell (ArbiterSpec.mover s)).

Definition move_of (m : Arbiter.Move) : PlayerCC.Move :=
  PlayerCC.mkMove (Arbiter.row m) (Arbiter.col m).

(** The array of the player holds what the state of the arbiter holds, but
    for the cell (r0, c0). *)
Definition agree_off (r0 c0 : Z) (s : Arbiter.State) (fields : list PlayerCC.Player) : Prop :=
  length (Arbiter.fields s) = 64%nat /\ length fields = 64%nat /\
  forall r c, on_board r c -> (r, c) <> (r0, c0) ->
    ArbiterSpec.cell_ok (Arbiter.at_ s r c) /\
    PlayerCC.at_ fields r c = player_of_cell (Arbiter.at_ s r c).

(** The player applying a list of moves the way its [main] applies a move:
    [CHECK(MoveIsValid(board, move)); DoMove(&board, move);]. *)
Fixpoint ApplyMoves (board : PlayerCC.Board) (moves : list PlayerCC.Move)
  : outcome PlayerCC.Board :=
  match moves with
  | [] => Done board
  | move :: rest =>
      match PlayerCC.MoveIsValid board move with
      | Done true =>
          match PlayerCC.DoMove board move with
          | Done board' => ApplyMoves board' rest
          | Aborted => Aborted
          | OutOfFuel => OutOfFuel
          end
      | Done false => Aborted
      | Aborted => Aborted
      | OutOfFuel => OutOfFuel
      end
  end.

End AgreementSpec.

Module MoveSpec.

(** The cells that a disc put on (r, c) turns over: in some direction, the
    cells before the farthest disc of the mover in the occupied run that
    starts next to (r, c).  [occ] and [mine] read the board along a
    direction. *)
Definition turns (occ mine : Z -> Z -> Z -> bool) (r c r' c' : Z) : Prop :=
  exists dr dc n L,
    is_dir dr dc /\ farthest (occ dr dc) (mine dr dc) L /\
    1 <= n < L /\ r' = r + n * dr /\ c' = c + n * dc.

(** On the array of the player, for a disc of [p]. *)
Definition player_turns (fields : list PlayerCC.Player) (p : PlayerCC.Player)
    (r c r' c' : Z) : Prop :=
  turns (PlayerSpec.occupied_at fields r c) (PlayerSpec.player_at fields p r c) r c r' c'.

(** In a state of the arbiter, for a disc of [player]. *)
Definition arbiter_turns (s : Arbiter.State) (player r c r' c' : Z) : Prop :=
  turns (ArbiterSpec.occupied_at s r c) (ArbiterSpec.player_at s player r c) r c r' c'.

End MoveSpec.

Module MainSpec.
Import PlayerCC AgreementSpec.

(** The moves of [game] that [p] made, [turn] being the first to move. *)
Fixpoint moves_of (p turn : Player) (game : list Arbiter.Move) : list Arbiter.Move :=
  match game with
  | [] => []
  | m :: rest =>
      if Player_eqb p turn then m :: moves_of p (Other turn) rest
      else moves_of p (Other turn) rest
  end.

(** The player to move after [game], [turn] being the first to move. *)
Fixpoint turn_after (turn : Player) (game : list Arbiter.Move) : Player :=
  match game with
  | [] => turn
  | _ :: rest => turn_after (Other turn) rest
  end.

(** The side that [main] takes, which the first line it reads decides:
    WHITE after Start, BLACK after any other line but Quit. *)
Definition side_of_input (input : list string) : Player :=
  match input with
  | [] => NONE
  | line :: _ =>
      if String.eqb line "Quit" then NONE
      else if String.eqb line "Start" then WHITE
      else BLACK
  end.

(** The lines that a side reads before the first move of its opponent. *)
Definition opening (me : Player) : list string :=
  match me with
  | WHITE => ["Start"%string]
  | _ => []
  end.

(** What a run of [main] on the lines of [input] amounts to.  It ends, and
    there is a game, valid for the arbiter from [InitialState], of which the
    opponent's moves are the lines read and the own moves the lines
    written.  The run fails a [CHECK] only on a line that is a move but not
    a valid one.  Otherwise it exits with status 0 when it is to move on a
    full board or has read Quit, and with status 1 at the end of the input
    or on a line that is no move. *)
Definition session (input : list string) (r : outcome (Z * list string * Board)) : Prop :=
  let me := side_of_input input in
  match r with
  | OutOfFuel => False
  | Aborted =>
      exists game s line rest move reason,
        ArbiterSpec.PlayMoves Arbiter.InitialState game = Some s /\
        input = opening me ++ map Arbiter.FormatMove (moves_of (Other me) WHITE game)
                ++ line :: rest /\
        Arbiter.ParseMove line = Some move /\
        Arbiter.ValidateMove s move = Done (false, reason)
  | Done (code, output, board) =>
      exists game s rest,
        ArbiterSpec.PlayMoves Arbiter.InitialState game = Some s /\
        board = board_of_state s /\
        output = map Arbiter.FormatMove (moves_of me WHITE game) /\
        input = opening me ++ map Arbiter.FormatMove (moves_of (Other me) WHITE game)
                ++ rest /\
        ((code = 0 /\ me = next_player board /\ Arbiter.moves_played s = 60) \/
         (code = 0 /\ me <> next_player board /\ exists rest', rest = "Quit"%string :: rest') \/
         (code = 1 /\ me <> next_player board /\ rest = []) \/
         (code = 1 /\ me <> next_player board /\
          exists line rest', rest = line :: rest' /\ line <> "Quit"%string /\
                             Arbiter.ParseMove line = None))
  end.

(** What holds of the variables of [main] between two iterations of its
    loop: [consumed] are the lines read so far, [rest] those to come. *)
Definition main_invariant (me : Player) (board : Board) (consumed rest output : list string)
    (game : list Arbiter.Move) (s : Arbiter.State) : Prop :=
  ArbiterSpec.PlayMoves Arbiter.InitialState game = Some s /\
  board = board_of_state s /\
  output = map Arbiter.FormatMove (moves_of me WHITE game) /\
  consumed = opening me ++ map Arbiter.FormatMove (moves_of (Other me) WHITE game) /\
  (me = NONE -> game = []) /\
  (me <> NONE -> me = side_of_input (consumed ++ rest)).

End MainSpec.

Module ArgsSpec.
Import Arbiter.

(** An argument that starts with '-'. *)
Definition is_option (arg : string) : bool := Ascii.eqb (char_at arg 0) "-".

(** The arguments behind the name of the program that are no options, and
    those that are, in their order. *)
Definition commands (arguments : list string) : list string :=
  filter (fun arg => negb (is_option arg)) (tl arguments).

Definition options (arguments : list string) : list string :=
  filter is_option (tl arguments).

Section Scan.
Variable sscanf_rounds : string -> option Z.

(** An option that gives the number of rounds. *)
Definition is_rounds (arg : string) : bool :=
  match sscanf_rounds arg with
  | Some _ => true
  | None => false
  end.

(** An option that gives the prefix of the log files. *)
Definition is_logs (arg : string) : bool :=
  negb (is_rounds arg) && String.prefix "--logs=" arg.

(** The number of rounds: that of the last option that gives one. *)
Definition rounds_of (opts : list string) : Z :=
  match find is_rounds (rev opts) with
  | Some arg => match sscanf_rounds arg with
                | Some value => value
                | None => 0
                end
  | None => 0
  end.

(** The prefix of the log files: that of the last option that gives one. *)
Definition logs_of (opts : list string) : option string :=
  match find is_logs (rev opts) with
  | Some arg => Some (substring 7 (String.length arg - 7) arg)
  | None => None
  end.

(** The options that give neither. *)
Definition unrecognized_of (opts : list string) : list string :=
  filter (fun arg => negb (is_rounds arg) && negb (String.prefix "--logs=" arg)) opts.

(** What holds of the variables of [main] when it has gone through the
    arguments [seen], with [todo] to come. *)
Definition options_invariant (arguments seen todo : list string) (o : Options) : Prop :=
  length (argv o) = length arguments /\
  j o = 1 + Z.of_nat (length (filter (fun arg => negb (is_option arg)) seen)) /\
  firstn (Z.to_nat (j o)) (argv o) =
    firstn 1 arguments ++ filter (fun arg => negb (is_option arg)) seen /\
  skipn (1 + length seen) (argv o) = todo /\
  opt_rounds o = rounds_of (filter is_option seen) /\
  opt_logs_prefix o = logs_of (filter is_option seen) /\
  unrecognized o = unrecognized_of (filter is_option seen).

End Scan.

End ArgsSpec.

(* ------------------------------------------------------------------ *)
(** * General facts *)

(** ** Outcomes *)

Lemma filterM_pure {A : Type} (f : A -> outcome bool) (g : A -> bool) (l : list A) :
  (forall x, In x l -> f x = Done (g x)) ->
  filterM f l = Done (filter g l).
Proof.
  induction l as [|x l IH]; intros Hf; simpl; [reflexivity|].
  rewrite (Hf x (or_introl eq_refl)). simpl.
  rewrite IH by (intros y Hy; apply Hf; right; exact Hy). reflexivity.
Qed.

(** ** Lists updated by index *)

Lemma length_list_set {A : Type} (i : nat) (v : A) (l : list A) :
  length (list_set i v l) = length l.
Proof.
  revert i; induction l as [|x l IH]; intros [|i]; simpl; auto.
Qed.

Lemma nth_list_set_eq {A : Type} (i : nat) (v d : A) (l : list A) :
  (i < length l)%nat -> nth i (list_set i v l) d = v.
Proof.
  revert i; induction l as [|x l IH]; intros [|i] Hi; simpl in *; try lia; auto.
  apply IH; lia.
Qed.

Lemma nth_list_set_neq {A : Type} (i j : nat) (v d : A) (l : list A) :
  i <> j -> nth j (list_set i v l) d = nth j l d.
Proof.
  revert i j; induction l as [|x l IH]; intros [|i] [|j] Hij; simpl; auto; try lia.
Qed.

Lemma list_ext_nth {A : Type} (d : A) (l1 l2 : list A) :
  length l1 = length l2 ->
  (forall i, (i < length l1)%nat -> nth i l1 d = nth i l2 d) ->
  l1 = l2.
Proof.
  revert l2; induction l1 as [|x l1 IH]; intros [|y l2] Hlen Hnth; simpl in *;
    try discriminate; auto.
  f_equal.
  - apply (Hnth O); lia.
  - apply IH; [lia|]. intros i Hi. apply (Hnth (S i)); lia.
Qed.

(** ** Counting loops *)

Lemma In_Zrange (x lo : Z) (n : nat) :
  In x (Zrange lo n) <-> lo <= x < lo + Z.of_nat n.
Proof.
  revert lo; induction n as [|n IH]; intros lo; simpl.
  - lia.
  - rewrite IH. lia.
Qed.

Lemma NoDup_Zrange (lo : Z) (n : nat) : NoDup (Zrange lo n).
Proof.
  revert lo; induction n as [|n IH]; intros lo; simpl; constructor; auto.
  rewrite In_Zrange. lia.
Qed.

(** ** The grid *)

Lemma coordinate_cases (r : Z) :
  0 <= r < 8 -> r = 0 \/ r = 1 \/ r = 2 \/ r = 3 \/ r = 4 \/ r = 5 \/ r = 6 \/ r = 7.
Proof. lia. Qed.

(** One goal for each of the 64 cells (r, c). *)
Ltac each_cell r c Hr Hc :=
  destruct (coordinate_cases r Hr) as [->|[->|[->|[->|[->|[->|[->| ->]]]]]]];
  destruct (coordinate_cases c Hc) as [->|[->|[->|[->|[->|[->|[->| ->]]]]]]].

Lemma In_all_cells (r c : Z) : In (r, c) all_cells <-> on_board r c.
Proof.
  unfold all_cells, on_board. rewrite in_flat_map. split.
  - intros (r' & Hr & Hc). apply in_map_iff in Hc as (c' & E & Hc).
    inversion E; subst. apply In_Zrange in Hr, Hc. lia.
  - intros (Hr & Hc). exists r. split; [apply In_Zrange; lia|].
    apply in_map_iff. exists c. split; [reflexivity | apply In_Zrange; lia].
Qed.

Lemma NoDup_all_cells : NoDup all_cells.
Proof.
  unfold all_cells.
  assert (G : forall (rows cols : list Z), NoDup rows -> NoDup cols ->
     NoDup (flat_map (fun r => map (fun c => (r, c)) cols) rows)).
  { intros rows cols Hr Hc. induction Hr as [|r rows Hnin Hr IH]; simpl; [constructor|].
    apply NoDup_app.
    - clear -Hc. induction Hc as [|c cols Hnin Hc IH]; simpl; constructor; auto.
      intros Hin. apply in_map_iff in Hin as (c0 & E & Hin). inversion E; subst.
      contradiction.
    - exact IH.
    - intros [r' c'] H1 H2. apply in_map_iff in H1 as (c0 & E & _). inversion E; subst.
      apply in_flat_map in H2 as (r0 & Hr0 & H2).
      apply in_map_iff in H2 as (c1 & E1 & _). inversion E1; subst. contradiction. }
  apply G; apply NoDup_Zrange.
Qed.

Lemma cell_index_lt (r c : Z) : on_board r c -> (cell_index r c < 64)%nat.
Proof. unfold on_board, cell_index. lia. Qed.

Lemma cell_index_inj (r c r' c' : Z) :
  on_board r c -> on_board r' c' ->
  cell_index r c = cell_index r' c' -> r = r' /\ c = c'.
Proof. unfold on_board, cell_index. lia. Qed.

Lemma cell_index_onto (i : nat) :
  (i < 64)%nat -> exists r c, on_board r c /\ cell_index r c = i.
Proof.
  intros Hi. exists (Z.of_nat i / 8), (Z.of_nat i mod 8).
  unfold on_board, cell_index.
  pose proof (Z.div_mod (Z.of_nat i) 8 ltac:(lia)).
  pose proof (Z.mod_pos_bound (Z.of_nat i) 8 ltac:(lia)).
  assert (0 <= Z.of_nat i / 8 < 8)
    by (split; [apply Z.div_pos; lia | apply Z.div_lt_upper_bound; lia]).
  lia.
Qed.

Section Grid.
Context {A : Type} (d : A).

Lemma length_grid_set (g : list A) (r c : Z) (v : A) :
  length (grid_set g r c v) = length g.
Proof. apply length_list_set. Qed.

Lemma grid_get_set_same (g : list A) (r c : Z) (v : A) :
  length g = 64%nat -> on_board r c ->
  grid_get d (grid_set g r c v) r c = v.
Proof.
  intros Hlen Hrc. unfold grid_get, grid_set.
  apply nth_list_set_eq. rewrite Hlen. apply cell_index_lt, Hrc.
Qed.

Lemma grid_get_set_other (g : list A) (r c r' c' : Z) (v : A) :
  on_board r c -> on_board r' c' -> (r, c) <> (r', c') ->
  grid_get d (grid_set g r c v) r' c' = grid_get d g r' c'.
Proof.
  intros H1 H2 Hne. unfold grid_get, grid_set.
  apply nth_list_set_neq. intros E.
  apply cell_index_inj in E as (-> & ->); auto.
Qed.

Lemma grid_ext (g1 g2 : list A) :
  length g1 = 64%nat -> length g2 = 64%nat ->
  (forall r c, on_board r c -> grid_get d g1 r c = grid_get d g2 r c) ->
  g1 = g2.
Proof.
  intros H1 H2 Hget. apply (list_ext_nth d); [congruence|].
  intros i Hi. rewrite H1 in Hi.
  destruct (cell_index_onto i Hi) as (r & c & Hrc & <-).
  apply (Hget r c Hrc).
Qed.
End Grid.

(** ** Rays *)

Lemma In_directions (dr dc : Z) :
  In (dr, dc) directions <-> -1 <= dr <= 1 /\ -1 <= dc <= 1.
Proof.
  unfold directions. rewrite in_flat_map. split.
  - intros (r' & Hr & Hc). apply in_map_iff in Hc as (c' & E & Hc).
    inversion E; subst. apply In_Zrange in Hr, Hc. lia.
  - intros (Hr & Hc). exists dr. split; [apply In_Zrange; lia|].
    apply in_map_iff. exists dc. split; [reflexivity | apply In_Zrange; lia].
Qed.

Lemma ray_bound (r c dr dc n : Z) :
  is_dir dr dc -> on_board (r + 1 * dr) (c + 1 * dc) ->
  on_board (r + n * dr) (c + n * dc) -> n <= 8.
Proof. unfold is_dir, on_board. intros (Hr & Hc & Hne) H1 Hn. nia. Qed.

Lemma ray_inj (r c dr dc n m : Z) :
  is_dir dr dc -> (r + n * dr, c + n * dc) = (r + m * dr, c + m * dc) -> n = m.
Proof. unfold is_dir. intros (Hr & Hc & Hne) E. inversion E. nia. Qed.

Lemma ray_disjoint (r c dr dc dr' dc' n m : Z) :
  is_dir dr dc -> is_dir dr' dc' -> (dr, dc) <> (dr', dc') ->
  1 <= n -> 1 <= m ->
  (r + n * dr, c + n * dc) <> (r + m * dr', c + m * dc').
Proof.
  unfold is_dir. intros (Hr & Hc & Hne) (Hr' & Hc' & Hne') Hd Hn Hm E.
  inversion E. apply Hd.
  assert (dr = -1 \/ dr = 0 \/ dr = 1) as [->|[->| ->]] by lia;
  assert (dc = -1 \/ dc = 0 \/ dc = 1) as [->|[->| ->]] by lia;
  assert (dr' = -1 \/ dr' = 0 \/ dr' = 1) as [->|[->| ->]] by lia;
  assert (dc' = -1 \/ dc' = 0 \/ dc' = 1) as [->|[->| ->]] by lia;
  try reflexivity; exfalso; lia.
Qed.

Lemma ray_not_origin (r c dr dc n : Z) :
  is_dir dr dc -> 1 <= n -> (r + n * dr, c + n * dc) <> (r, c).
Proof. unfold is_dir. intros (Hr & Hc & Hne) Hn E. inversion E. nia. Qed.

(** ** Facts about the scan along one direction *)

Section Scan.
Variables occ mine : Z -> bool.

Lemma scan_model_spec (fuel : nat) : forall n last_n L,
  scan_model occ mine fuel n last_n = Done L ->
  (L = last_n /\ forall m, n <= m -> run occ n m -> mine m = false) \/
  (n <= L /\ run occ n L /\ mine L = true /\
   forall m, L < m -> run occ n m -> mine m = false).
Proof.
  induction fuel as [|fuel IH]; intros n last_n L E; simpl in E; [discriminate|].
  destruct (occ n) eqn:Hocc; simpl in E.
  - assert (Hrun : forall m, run occ (n + 1) m -> run occ n m).
    { intros m Hr j Hj. destruct (Z.eq_dec j n) as [->|]; [exact Hocc|].
      apply Hr; lia. }
    assert (Hrun' : forall m, run occ n m -> run occ (n + 1) m).
    { intros m Hr j Hj. apply Hr; lia. }
    apply IH in E as [(HL & Hnone) | (Hle & Hr & Hm & Hnone)].
    + destruct (mine n) eqn:Hmine; subst L.
      * right. split; [lia|]. split.
        { intros j Hj. assert (j = n) as -> by lia. exact Hocc. }
        split; [exact Hmine|].
        intros m Hlt Hr. apply Hnone; [lia | auto].
      * left. split; [reflexivity|]. intros m Hm Hr.
        destruct (Z.eq_dec m n) as [->|]; [exact Hmine|].
        apply Hnone; [lia | auto].
    + right. split; [lia|]. split; [auto|]. split; [exact Hm|].
      intros m Hlt Hr'. apply Hnone; auto.
  - inversion E; subst. left. split; [reflexivity|].
    intros m Hm Hr. rewrite (Hr n) in Hocc by lia. discriminate.
Qed.

Lemma scan_model_farthest (fuel : nat) (L : Z) :
  scan_model occ mine fuel 1 0 = Done L -> farthest occ mine L.
Proof.
  intros E. apply scan_model_spec in E as [(-> & H) | (H1 & H2 & H3 & H4)].
  - left; auto.
  - right; auto.
Qed.

Lemma farthest_unique (L1 L2 : Z) : farthest occ mine L1 -> farthest occ mine L2 -> L1 = L2.
Proof.
  intros [(-> & H1) | (Hp1 & Hr1 & Hm1 & Hn1)] [(-> & H2) | (Hp2 & Hr2 & Hm2 & Hn2)].
  - reflexivity.
  - rewrite H1 in Hm2 by auto. discriminate.
  - rewrite H2 in Hm1 by auto. discriminate.
  - destruct (Z.lt_trichotomy L1 L2) as [Hlt | [E | Hgt]]; [|exact E|].
    + rewrite Hn1 in Hm2 by auto. discriminate.
    + rewrite Hn2 in Hm1 by auto. discriminate.
Qed.

Lemma has_model_scan (fuel : nat) : forall n last_n L,
  1 <= n -> last_n <= 1 ->
  scan_model occ mine fuel n last_n = Done L ->
  has_model occ mine fuel n = Done (1 <? L).
Proof.
  induction fuel as [|fuel IH]; intros n last_n L Hn Hlast E; simpl in *; [discriminate|].
  destruct (occ n) eqn:Hocc; simpl in *.
  - destruct (mine n) eqn:Hmine; simpl.
    + destruct (1 <? n) eqn:Hn1.
      * apply Z.ltb_lt in Hn1. f_equal. symmetry. apply Z.ltb_lt.
        apply scan_model_spec in E as [(-> & _) | (Hle & _)]; lia.
      * apply Z.ltb_ge in Hn1. eapply IH; [ | | exact E]; lia.
    + eapply IH; [ | | exact E]; lia.
  - inversion E; subst. f_equal. symmetry. apply Z.ltb_ge. lia.
Qed.

(** A scan that has ended gives the same result with more fuel. *)
Lemma scan_model_more_fuel (fuel : nat) : forall fuel' n last_n L,
  (fuel <= fuel')%nat ->
  scan_model occ mine fuel n last_n = Done L ->
  scan_model occ mine fuel' n last_n = Done L.
Proof.
  induction fuel as [|fuel IH]; intros fuel' n last_n L Hle E; simpl in E; [discriminate|].
  destruct fuel' as [|fuel']; [lia|]. simpl.
  destruct (negb (occ n)); [exact E|]. apply IH; [lia | exact E].
Qed.

Lemma has_model_more_fuel (fuel : nat) : forall fuel' n b,
  (fuel <= fuel')%nat ->
  has_model occ mine fuel n = Done b ->
  has_model occ mine fuel' n = Done b.
Proof.
  induction fuel as [|fuel IH]; intros fuel' n b Hle E; simpl in E; [discriminate|].
  destruct fuel' as [|fuel']; [lia|]. simpl.
  destruct (negb (occ n)); [exact E|].
  destruct (mine n && (1 <? n)); [exact E|]. apply IH; [lia | exact E].
Qed.

(** On the board a run has at most eight cells, so nine iterations
    always reach the end of the scan. *)
Hypothesis occ_bound : forall n, occ 1 = true -> occ n = true -> n <= 8.

Lemma scan_model_total (fuel : nat) : forall n last_n,
  1 <= n -> (1 < n -> occ 1 = true /\ occ (n - 1) = true) ->
  10 <= n + Z.of_nat fuel ->
  exists L, scan_model occ mine fuel n last_n = Done L.
Proof.
  induction fuel as [|fuel IH]; intros n last_n Hn Hprev Hfuel; simpl.
  - exfalso. destruct Hprev as (H1 & H2); [lia|].
    specialize (occ_bound _ H1 H2). lia.
  - destruct (occ n) eqn:Hocc; simpl; [|eauto].
    apply IH; [lia | | lia].
    intros _. replace (n + 1 - 1) with n by lia. split; [|exact Hocc].
    destruct (Z.eq_dec n 1) as [->|]; [exact Hocc|].
    apply Hprev; lia.
Qed.

Lemma scan_model_Done :
  exists L, scan_model occ mine SCAN_FUEL 1 0 = Done L /\ farthest occ mine L /\ 0 <= L <= 8.
Proof.
  destruct (scan_model_total SCAN_FUEL 1 0) as (L & E);
    [lia | lia | unfold SCAN_FUEL; lia |].
  exists L. split; [exact E|]. pose proof (scan_model_farthest _ _ E) as HL.
  split; [exact HL|].
  destruct HL as [(-> & _) | (Hp & Hr & _)]; [lia|].
  split; [lia|]. apply occ_bound; apply Hr; lia.
Qed.
End Scan.

Lemma scan_model_ext (occ mine occ' mine' : Z -> bool) (fuel : nat) :
  forall n last_n,
  (forall m, n <= m -> occ m = occ' m /\ (occ m = true -> mine m = mine' m)) ->
  scan_model occ mine fuel n last_n = scan_model occ' mine' fuel n last_n.
Proof.
  induction fuel as [|fuel IH]; intros n last_n Hext; simpl; [reflexivity|].
  destruct (Hext n ltac:(lia)) as (Ho & Hm). rewrite <- Ho.
  destruct (occ n) eqn:Hocc; simpl; [|reflexivity].
  rewrite <- Hm by reflexivity. apply IH. intros m Hm'. apply Hext. lia.
Qed.

(** ** At most sixty cells pass a test that fails somewhere in every corner

  The array of [ListMoves] has room for [MAX_MOVES] = 60 moves.  A corner
  cell that is a candidate has an occupied cell among the three cells
  around it, and an occupied cell is no candidate: each of the four
  2x2 corner blocks holds a cell that is no candidate. *)

Lemma indicator_le (b : bool) : (indicator b <= 1)%nat.
Proof. destruct b; simpl; lia. Qed.

Lemma length_filter_indicator {A : Type} (f : A -> bool) (l : list A) :
  length (filter f l) = list_sum (map (fun x => indicator (f x)) l).
Proof.
  induction l as [|x l IH]; simpl; [reflexivity|].
  destruct (f x); simpl; rewrite IH; reflexivity.
Qed.

Section CornerBlocks.
Variable f : Z * Z -> bool.
Hypothesis corner_00 :
  f (0, 0) = true -> f (0, 1) = false \/ f (1, 0) = false \/ f (1, 1) = false.
Hypothesis corner_07 :
  f (0, 7) = true -> f (0, 6) = false \/ f (1, 6) = false \/ f (1, 7) = false.
Hypothesis corner_70 :
  f (7, 0) = true -> f (6, 0) = false \/ f (6, 1) = false \/ f (7, 1) = false.
Hypothesis corner_77 :
  f (7, 7) = true -> f (6, 6) = false \/ f (6, 7) = false \/ f (7, 6) = false.

Lemma block_le (a b c d : Z * Z) :
  (f a = true -> f b = false \/ f c = false \/ f d = false) ->
  (indicator (f a) + indicator (f b) + indicator (f c) + indicator (f d) <= 3)%nat.
Proof.
  intros H. destruct (f a); [|pose proof (indicator_le (f b));
    pose proof (indicator_le (f c)); pose proof (indicator_le (f d)); simpl; lia].
  destruct (H eq_refl) as [E|[E|E]]; rewrite E;
    pose proof (indicator_le (f b)); pose proof (indicator_le (f c));
    pose proof (indicator_le (f d)); simpl; lia.
Qed.

Lemma filter_all_cells_le_60 : (length (filter f all_cells) <= 60)%nat.
Proof.
  rewrite length_filter_indicator.
  pose proof (block_le _ _ _ _ corner_00) as B1.
  pose proof (block_le _ _ _ _ corner_07) as B2.
  pose proof (block_le _ _ _ _ corner_70) as B3.
  pose proof (block_le _ _ _ _ corner_77) as B4.
  change all_cells with
    [(0,0); (0,1); (0,2); (0,3); (0,4); (0,5); (0,6); (0,7);
     (1,0); (1,1); (1,2); (1,3); (1,4); (1,5); (1,6); (1,7);
     (2,0); (2,1); (2,2); (2,3); (2,4); (2,5); (2,6); (2,7);
     (3,0); (3,1); (3,2); (3,3); (3,4); (3,5); (3,6); (3,7);
     (4,0); (4,1); (4,2); (4,3); (4,4); (4,5); (4,6); (4,7);
     (5,0); (5,1); (5,2); (5,3); (5,4); (5,5); (5,6); (5,7);
     (6,0); (6,1); (6,2); (6,3); (6,4); (6,5); (6,6); (6,7);
     (7,0); (7,1); (7,2); (7,3); (7,4); (7,5); (7,6); (7,7)].
  cbn [map list_sum fold_right].
  revert B1 B2 B3 B4.
  repeat match goal with
         | |- context [indicator (f ?x)] =>
             generalize (indicator_le (f x)); generalize (indicator (f x)); intros ? ?
         end.
  lia.
Qed.
End CornerBlocks.

(** ** More facts about lists *)

Lemma dir_test (dr dc : Z) :
  negb (dr =? 0) || negb (dc =? 0) = true <-> (dr <> 0 \/ dc <> 0).
Proof. lia. Qed.

Lemma ray_cells_In (r c dr dc : Z) (k : nat) (r' c' : Z) :
  In (r', c') (ray_cells r c dr dc k) <->
  exists n, 1 <= n <= Z.of_nat k /\ r' = r + n * dr /\ c' = c + n * dc.
Proof.
  unfold ray_cells. rewrite in_map_iff. split.
  - intros (n & E & Hn). inversion E; subst. apply In_Zrange in Hn.
    exists n. repeat split; lia.
  - intros (n & Hn & -> & ->). exists n. split; [reflexivity|].
    apply In_Zrange. lia.
Qed.

Lemma NoDup_ray_cells (r c dr dc : Z) (k : nat) :
  is_dir dr dc -> NoDup (ray_cells r c dr dc k).
Proof.
  intros Hd. unfold ray_cells.
  assert (G : forall l, NoDup l -> NoDup (map (fun n => (r + n * dr, c + n * dc)) l)).
  { intros l Hl. induction Hl as [|n l Hnin Hl IH]; simpl; constructor; auto.
    intros Hin. apply in_map_iff in Hin as (m & E & Hm).
    apply ray_inj in E; auto. subst. contradiction. }
  apply G, NoDup_Zrange.
Qed.

Lemma filter_length_step {A : Type} (f g : A -> bool) (x : A) (l : list A) :
  NoDup l -> In x l -> f x = false -> g x = true ->
  (forall y, In y l -> y <> x -> g y = f y) ->
  length (filter g l) = S (length (filter f l)).
Proof.
  induction l as [|a l IH]; intros Hnd Hin Hf Hg Hsame; [contradiction|].
  inversion Hnd as [|? ? Hnin Hnd']; subst. simpl.
  destruct Hin as [->|Hin].
  - rewrite Hf, Hg. simpl. f_equal.
    assert (E : filter g l = filter f l).
    { apply filter_ext_in. intros y Hy. apply Hsame; [right; exact Hy|].
      intros ->. contradiction. }
    rewrite E. reflexivity.
  - rewrite (Hsame a (or_introl eq_refl)) by (intros ->; contradiction).
    assert (IH' := IH Hnd' Hin Hf Hg (fun y Hy => Hsame y (or_intror Hy))).
    destruct (f a); simpl; rewrite IH'; reflexivity.
Qed.

Lemma filter_length_all {A : Type} (f : A -> bool) (l : list A) :
  length (filter f l) = length l -> forall x, In x l -> f x = true.
Proof.
  induction l as [|a l IH]; intros Hlen x Hin; [contradiction|].
  simpl in Hlen. pose proof (filter_length_le f l) as Hle.
  destruct (f a) eqn:Hfa; simpl in Hlen.
  - destruct Hin as [->|Hin]; [exact Hfa|]. apply IH; [lia | exact Hin].
  - lia.
Qed.

Lemma char_of_int_of_char (a : ascii) :
  0 <= int_of_char a -> char_of_int (int_of_char a) = a.
Proof.
  destruct a as [[] [] [] [] [] [] [] []]; vm_compute; intros H;
    try reflexivity; exfalso; apply H; reflexivity.
Qed.

Lemma cell_in_dec (x : Z * Z) (l : list (Z * Z)) : {In x l} + {~ In x l}.
Proof.
  apply in_dec. intros [a b] [a' b'].
  destruct (Z.eq_dec a a'), (Z.eq_dec b b'); subst; auto; right; congruence.
Qed.

Lemma farthest_transfer (occ mine occ' mine' : Z -> bool) (L : Z) :
  farthest occ mine L ->
  (forall n, 1 <= n -> occ' n = occ n) ->
  (forall n, 1 <= n -> L <= n -> occ n = true -> mine' n = mine n) ->
  farthest occ' mine' L.
Proof.
  intros HL Hocc Hmine.
  assert (Hrun : forall n, run occ' 1 n -> run occ 1 n).
  { intros n Hr j Hj. rewrite <- Hocc by lia. apply Hr, Hj. }
  assert (Hrun' : forall n, run occ 1 n -> run occ' 1 n).
  { intros n Hr j Hj. rewrite Hocc by lia. apply Hr, Hj. }
  destruct HL as [(-> & Hnone) | (HL1 & Hr & Hm & Hnone)].
  - left. split; [reflexivity|]. intros n Hn Hr'.
    rewrite Hmine; auto; try lia. apply (Hrun n Hr'). lia.
  - right. split; [exact HL1|]. split; [auto|]. split.
    + rewrite Hmine; auto; try lia. apply Hr. lia.
    + intros n Hn Hr'. rewrite Hmine; auto; try lia. apply (Hrun n Hr'). lia.
Qed.

Lemma flat_map_ext_in {A B : Type} (f g : A -> list B) (l : list A) :
  (forall a, In a l -> f a = g a) -> flat_map f l = flat_map g l.
Proof.
  induction l as [|a l IH]; intros H; simpl; [reflexivity|].
  rewrite (H a (or_introl eq_refl)), IH; auto. intros b Hb. apply H. right. exact Hb.
Qed.

Lemma firstn_list_set_snoc {A : Type} (i : nat) (v : A) (l : list A) :
  (i < length l)%nat -> firstn (S i) (list_set i v l) = firstn i l ++ [v].
Proof.
  revert i; induction l as [|x l IH]; intros [|i] Hi; simpl in *; try lia; auto.
  f_equal. apply IH. lia.
Qed.

Lemma skipn_list_set_lt {A : Type} (i j : nat) (v : A) (l : list A) :
  (j < i)%nat -> skipn i (list_set j v l) = skipn i l.
Proof.
  revert i j; induction l as [|x l IH]; intros [|i] [|j] Hij; simpl; auto; try lia.
  apply IH. lia.
Qed.

Lemma firstn_skipn_cons {A : Type} (d : A) (i k : nat) (l : list A) :
  (i < length l)%nat ->
  firstn (S k) (skipn i l) = nth i l d :: firstn k (skipn (S i) l).
Proof.
  revert i; induction l as [|x l IH]; intros [|i] Hi; simpl in *; try lia; auto.
  apply IH. lia.
Qed.

Lemma count_cons {A : Type} (f : A -> bool) (x : A) (l : list A) :
  Z.of_nat (length (filter f (x :: l))) =
  (if f x then 1 else 0) + Z.of_nat (length (filter f l)).
Proof. cbn [filter]. destruct (f x); cbn [length]; lia. Qed.

(* ------------------------------------------------------------------ *)
(** * The arbiter: proofs *)

Module ArbiterProofs.
Import Arbiter ArbiterSpec.

(** ** The functions on the initial position *)

Example ListValidMoves_InitialState :
  ListValidMoves InitialState =
  Done [mkMove 2 2; mkMove 2 4; mkMove 3 5; mkMove 4 2; mkMove 5 3; mkMove 5 5].
Proof. vm_compute. reflexivity. Qed.

Example ExecuteMove_C3 : ExecuteMove InitialState (mkMove 2 2) = Done after_C3.
Proof. vm_compute. reflexivity. Qed.

Example CalculateScore_InitialState : CalculateScore InitialState = Done 0.
Proof. vm_compute. reflexivity. Qed.

Example ParseMove_C3 : ParseMove "C3" = Some (mkMove 2 2).
Proof. reflexivity. Qed.

Example ParseMove_I3 : ParseMove "I3" = None.
Proof. reflexivity. Qed.

Example ReadLine_C3 :
  ReadLine (ReadBytes (String "C" (String "3" (String newline EmptyString)))) = ("C3"%string, []).
Proof. reflexivity. Qed.

Example ReadLine_no_newline : ReadLine (ReadBytes "C3") = (EmptyString, [EndOfLineNotFound]).
Proof. reflexivity. Qed.

(** ** Coordinates and scans *)

Lemma ValidCoords_on_board (r c : Z) : ValidCoords r c = true <-> on_board r c.
Proof. unfold ValidCoords, on_board, SIZE. lia. Qed.

Lemma FindFlips_scan_model (state : State) (player r c dr dc : Z) (fuel : nat) :
  forall n last_n,
  FindFlips_scan fuel state player r c dr dc n last_n =
  scan_model (occupied_at state r c dr dc) (player_at state player r c dr dc)
    fuel n last_n.
Proof.
  induction fuel as [|fuel IH]; intros n last_n; simpl; [reflexivity|].
  unfold occupied_at at 1, player_at at 1.
  rewrite negb_andb, negb_involutive.
  destruct (negb (ValidCoords _ _) || _); [reflexivity | apply IH].
Qed.

Lemma occupied_at_bound (state : State) (r c dr dc : Z) :
  is_dir dr dc ->
  forall n, occupied_at state r c dr dc 1 = true ->
            occupied_at state r c dr dc n = true -> n <= 8.
Proof.
  intros Hd n H1 Hn. unfold occupied_at in *.
  apply andb_true_iff in H1 as (H1 & _), Hn as (Hn & _).
  apply ValidCoords_on_board in H1, Hn. eapply ray_bound; eauto.
Qed.

Lemma FindFlips_scan_Done (state : State) (player r c dr dc : Z) :
  is_dir dr dc ->
  exists L, FindFlips_scan SCAN_FUEL state player r c dr dc 1 0 = Done L /\
            farthest (occupied_at state r c dr dc) (player_at state player r c dr dc) L /\
            0 <= L <= 8.
Proof.
  intros Hd. rewrite FindFlips_scan_model.
  apply scan_model_Done. apply occupied_at_bound, Hd.
Qed.

Lemma last_same_scan (state : State) (player r c dr dc : Z) :
  is_dir dr dc ->
  FindFlips_scan SCAN_FUEL state player r c dr dc 1 0 =
  Done (last_same state player r c dr dc).
Proof.
  intros Hd. unfold last_same.
  destruct (FindFlips_scan_Done state player r c dr dc Hd) as (L & -> & _).
  reflexivity.
Qed.

(** The scan ends within [SCAN_FUEL] iterations, and more fuel does not
    change its result. *)
Lemma FindFlips_scan_any_fuel (state : State) (player r c dr dc : Z) (fuel : nat) :
  is_dir dr dc -> (SCAN_FUEL <= fuel)%nat ->
  FindFlips_scan fuel state player r c dr dc 1 0 =
  Done (last_same state player r c dr dc).
Proof.
  intros Hd Hfuel. rewrite FindFlips_scan_model.
  apply (scan_model_more_fuel _ _ SCAN_FUEL); [exact Hfuel|].
  rewrite <- FindFlips_scan_model. apply last_same_scan, Hd.
Qed.

Lemma FindFlips_visit_callbacks (callback : Callback) (r c dr dc : Z) (k : nat) :
  forall state n,
  FindFlips_visit k callback state r c dr dc n =
  run_callbacks callback state
    (map (fun n => (r + n * dr, c + n * dc)) (Zrange n k)).
Proof.
  induction k as [|k IH]; intros state n; simpl; [reflexivity|].
  destruct (callback state _ _) as [state' go]. destruct go; [apply IH | reflexivity].
Qed.

Lemma FindFlips_dir_callbacks (callback : Callback) (state : State)
    (player r c dr dc : Z) :
  is_dir dr dc ->
  FindFlips_dir callback state player r c dr dc =
  Done (run_callbacks callback state
          (ray_cells r c dr dc (Z.to_nat (last_same state player r c dr dc - 1)))).
Proof.
  intros Hd. unfold FindFlips_dir.
  destruct Hd as (Hr & Hc & Hne). rewrite (proj2 (dir_test dr dc) Hne).
  rewrite last_same_scan by (unfold is_dir; lia). simpl.
  rewrite FindFlips_visit_callbacks. reflexivity.
Qed.

Lemma at_put_same (s : State) (r c v : Z) :
  length (fields s) = 64%nat -> on_board r c -> at_ (put s r c v) r c = v.
Proof. intros. unfold at_, put; simpl. apply grid_get_set_same; auto. Qed.

Lemma at_put_other (s : State) (r c r' c' v : Z) :
  on_board r c -> on_board r' c' -> (r, c) <> (r', c') ->
  at_ (put s r c v) r' c' = at_ s r' c'.
Proof. intros. unfold at_, put; simpl. apply grid_get_set_other; auto. Qed.

Lemma length_put (s : State) (r c v : Z) :
  length (fields (put s r c v)) = length (fields s).
Proof. unfold put; simpl. apply length_grid_set. Qed.

Lemma same_occupancy_refl (s : State) : same_occupancy s s.
Proof. repeat split; auto. Qed.

Lemma same_occupancy_trans (s1 s2 s3 : State) :
  same_occupancy s1 s2 -> same_occupancy s2 s3 -> same_occupancy s1 s3.
Proof.
  intros (L1 & M1 & O1) (L2 & M2 & O2).
  split; [congruence|]. split; [congruence|].
  intros r c Hrc. rewrite (O2 r c Hrc). apply O1, Hrc.
Qed.

Lemma lxor_3_ok (v : Z) : cell_ok v -> v <> 0 -> cell_ok (Z.lxor v 3) /\ Z.lxor v 3 <> 0.
Proof. intros [->|[->| ->]] Hv; try congruence; simpl; unfold cell_ok; lia. Qed.

(** Flipping cells that are on the board and occupied keeps the state
    well formed and the occupancy as it is. *)
Lemma run_callbacks_flip (cells : list (Z * Z)) : forall s,
  wf_state s ->
  (forall r c, In (r, c) cells -> on_board r c /\ at_ s r c <> 0) ->
  NoDup cells ->
  exists s', run_callbacks flip_callback s cells = (s', true) /\
             wf_state s' /\ same_occupancy s s'.
Proof.
  induction cells as [|[r c] cells IH]; intros s Hwf Hcells Hnd; simpl.
  - exists s. auto using same_occupancy_refl.
  - inversion Hnd as [|? ? Hnin Hnd']; subst.
    destruct (Hcells r c (or_introl eq_refl)) as (Hrc & Hocc).
    destruct Hwf as (Hlen & Hok).
    destruct (lxor_3_ok _ (Hok r c Hrc) Hocc) as (Hok' & Hne').
    set (s1 := put s r c (Z.lxor (at_ s r c) 3)).
    assert (Hwf1 : wf_state s1).
    { split; [unfold s1; rewrite length_put; exact Hlen|].
      intros r' c' Hrc'. destruct (Z.eq_dec r r') as [->|]; [destruct (Z.eq_dec c c') as [->|]|].
      - unfold s1. rewrite at_put_same; auto.
      - unfold s1. rewrite at_put_other; auto. congruence.
      - unfold s1. rewrite at_put_other; auto. congruence. }
    assert (Hocc1 : same_occupancy s s1).
    { split; [unfold s1; apply length_put|]. split; [reflexivity|].
      intros r' c' Hrc'. destruct (Z.eq_dec r r') as [->|]; [destruct (Z.eq_dec c c') as [->|]|].
      - unfold s1. rewrite at_put_same; auto. tauto.
      - unfold s1. rewrite at_put_other; auto; [tauto | congruence].
      - unfold s1. rewrite at_put_other; auto; [tauto | congruence]. }
    destruct (IH s1 Hwf1) as (s' & E & Hwf' & Hocc'); [|exact Hnd'|].
    + intros r' c' Hin. destruct (Hcells r' c' (or_intror Hin)) as (Hrc' & Ho').
      split; [exact Hrc'|]. unfold s1. rewrite at_put_other; auto.
      intros Heq; inversion Heq; subst. contradiction.
    + exists s'. split; [exact E|]. split; [exact Hwf'|].
      eapply same_occupancy_trans; eauto.
Qed.

Lemma FindFlips_dir_flip (s : State) (player r c dr dc : Z) :
  wf_state s -> -1 <= dr <= 1 -> -1 <= dc <= 1 ->
  exists s', FindFlips_dir flip_callback s player r c dr dc = Done (s', true) /\
             wf_state s' /\ same_occupancy s s'.
Proof.
  intros Hwf Hr Hc.
  assert (Hcase : (dr = 0 /\ dc = 0) \/ is_dir dr dc) by (unfold is_dir; lia).
  destruct Hcase as [(-> & ->) | Hd].
  - exists s. unfold FindFlips_dir; simpl. auto using same_occupancy_refl.
  - rewrite FindFlips_dir_callbacks by exact Hd.
    destruct (FindFlips_scan_Done s player r c dr dc Hd) as (L & EL & HL & HL8).
    unfold last_same; rewrite EL.
    destruct (run_callbacks_flip (ray_cells r c dr dc (Z.to_nat (L - 1))) s Hwf)
      as (s' & E & Hwf' & Hocc').
    + intros r' c' Hin; apply ray_cells_In in Hin as (n & Hn & -> & ->).
      destruct HL as [(-> & _) | (HL1 & Hrun & _)]; [lia|].
      specialize (Hrun n ltac:(lia)); unfold occupied_at in Hrun.
      apply andb_true_iff in Hrun as (Hv & Ho).
      apply ValidCoords_on_board in Hv; split; [exact Hv | lia].
    + apply NoDup_ray_cells, Hd.
    + exists s'; rewrite E; auto.
Qed.

Lemma FindFlips_dirs_flip (player r c : Z) (dirs : list (Z * Z)) : forall s,
  wf_state s ->
  (forall dr dc, In (dr, dc) dirs -> -1 <= dr <= 1 /\ -1 <= dc <= 1) ->
  exists s', FindFlips_dirs flip_callback s player r c dirs = Done (s', true) /\
             wf_state s' /\ same_occupancy s s'.
Proof.
  induction dirs as [|[dr dc] dirs IH]; intros s Hwf Hdirs; simpl.
  - exists s. auto using same_occupancy_refl.
  - destruct (Hdirs dr dc (or_introl eq_refl)) as (Hr & Hc).
    destruct (FindFlips_dir_flip s player r c dr dc Hwf Hr Hc) as (s1 & E1 & Hwf1 & Hocc1).
    rewrite E1; simpl.
    destruct (IH s1 Hwf1) as (s' & E & Hwf' & Hocc').
    { intros; apply Hdirs; right; auto. }
    exists s'. split; [exact E|]. split; [exact Hwf'|].
    eapply same_occupancy_trans; eauto.
Qed.

Lemma FindFlips_flip (s : State) (player r c : Z) :
  wf_state s ->
  exists s', FindFlips s player r c flip_callback = Done (s', true) /\
             wf_state s' /\ same_occupancy s s'.
Proof.
  intros Hwf. apply FindFlips_dirs_flip; [exact Hwf|].
  intros dr dc Hin. apply In_directions, Hin.
Qed.

Lemma player_1_or_2 (m : Z) : Z.land m 1 + 1 = 1 \/ Z.land m 1 + 1 = 2.
Proof.
  assert (E : Z.land m 1 = m mod 2) by (apply (Z.land_ones m 1); lia).
  rewrite E. pose proof (Z.mod_pos_bound m 2). lia.
Qed.

(** [ExecuteMove] always completes; on an empty cell of the board it
    fills that cell and leaves the other cells occupied or empty as they
    were. *)
Lemma ExecuteMove_Done (s : State) (move : Move) :
  wf_state s -> on_board (row move) (col move) ->
  exists s', ExecuteMove s move = Done s' /\ wf_state s' /\
             moves_played s' = moves_played s + 1 /\
             at_ s' (row move) (col move) <> 0 /\
             forall r c, on_board r c -> (r, c) <> (row move, col move) ->
                         (at_ s' r c = 0 <-> at_ s r c = 0).
Proof.
  intros Hwf Hm. unfold ExecuteMove.
  destruct (FindFlips_flip s (Z.land (moves_played s) 1 + 1) (row move) (col move) Hwf)
    as (s1 & E & (Hlen1 & Hok1) & (HL & HM & HO)).
  fold flip_callback. rewrite E; simpl.
  eexists. split; [reflexivity|].
  assert (Hat : forall r c,
    at_ {| fields := grid_set (fields s1) (row move) (col move) (Z.land (moves_played s) 1 + 1);
           moves_played := moves_played s1 + 1 |} r c =
    at_ (put s1 (row move) (col move) (Z.land (moves_played s) 1 + 1)) r c) by reflexivity.
  split; [split|]; simpl.
  - rewrite length_grid_set. exact Hlen1.
  - intros r c Hrc. rewrite Hat.
    destruct (Z.eq_dec r (row move)) as [->|]; [destruct (Z.eq_dec c (col move)) as [->|]|].
    + rewrite at_put_same by auto. unfold cell_ok.
      destruct (player_1_or_2 (moves_played s)); lia.
    + rewrite at_put_other; auto. congruence.
    + rewrite at_put_other; auto. congruence.
  - split; [lia|]. split.
    + rewrite Hat, at_put_same by auto. destruct (player_1_or_2 (moves_played s)); lia.
    + intros r c Hrc Hne. rewrite Hat, at_put_other; auto.
Qed.

Lemma HasOccupiedNeighbor_adjacent (state : State) (r c : Z) :
  HasOccupiedNeighbor state r c = true <->
  exists r2 c2, adjacent r c r2 c2 /\ on_board r2 c2 /\ at_ state r2 c2 <> 0.
Proof.
  unfold HasOccupiedNeighbor, adjacent. rewrite existsb_exists. split.
  - intros (r2 & Hr2 & H). apply existsb_exists in H as (c2 & Hc2 & H).
    apply In_Zrange in Hr2, Hc2.
    apply andb_true_iff in H as (H & Hocc). apply andb_true_iff in H as (Hne & Hv).
    apply ValidCoords_on_board in Hv.
    exists r2, c2. split; [lia|]. split; [exact Hv | lia].
  - intros (r2 & c2 & (Hr & Hc & Hne) & Hv & Hocc).
    exists r2. split; [apply In_Zrange; lia|].
    apply existsb_exists. exists c2. split; [apply In_Zrange; lia|].
    apply ValidCoords_on_board in Hv. rewrite Hv. lia.
Qed.

Lemma In_all_moves (state : State) (move : Move) :
  In move (all_moves state) <-> candidate state (row move) (col move).
Proof.
  unfold all_moves, candidate. rewrite in_map_iff. split.
  - intros ([r c] & <- & Hin). apply filter_In in Hin as (Hin & H). simpl in *.
    apply In_all_cells in Hin. apply andb_true_iff in H as (He & Hn).
    apply HasOccupiedNeighbor_adjacent in Hn. repeat split; try apply Hin; auto. lia.
  - intros (Hrc & He & Hn). exists (row move, col move). split.
    + destruct move; reflexivity.
    + apply filter_In. split; [apply In_all_cells, Hrc|]. simpl.
      apply HasOccupiedNeighbor_adjacent in Hn. rewrite Hn. lia.
Qed.

(** With the callback of [ListValidMoves], which stops the enumeration at
    the first cell, [FindFlips] is aborted exactly when some direction has
    a cell to flip. *)
Lemma FindFlips_dirs_stop (state : State) (player r c : Z) (dirs : list (Z * Z)) :
  (forall dr dc, In (dr, dc) dirs -> -1 <= dr <= 1 /\ -1 <= dc <= 1) ->
  FindFlips_dirs (fun st _ _ => (st, false)) state player r c dirs =
  Done (state,
        negb (existsb (fun d => (negb (fst d =? 0) || negb (snd d =? 0))
                                  && (1 <? last_same state player r c (fst d) (snd d)))
                dirs)).
Proof.
  induction dirs as [|[dr dc] dirs IH]; intros Hdirs; simpl; [reflexivity|].
  destruct (Hdirs dr dc (or_introl eq_refl)) as (Hr & Hc).
  assert (IH' := IH (fun dr dc H => Hdirs dr dc (or_intror H))). clear IH.
  assert (Hcase : (dr = 0 /\ dc = 0) \/ is_dir dr dc) by (unfold is_dir; lia).
  destruct Hcase as [(-> & ->) | Hd].
  - unfold FindFlips_dir; simpl. exact IH'.
  - rewrite FindFlips_dir_callbacks by exact Hd.
    destruct Hd as (_ & _ & Hne). rewrite (proj2 (dir_test dr dc) Hne). simpl.
    destruct (1 <? last_same state player r c dr dc) eqn:HL.
    + apply Z.ltb_lt in HL.
      destruct (Z.to_nat (last_same state player r c dr dc - 1)) as [|k] eqn:Ek; [lia|].
      reflexivity.
    + apply Z.ltb_ge in HL.
      replace (Z.to_nat (last_same state player r c dr dc - 1)) with O by lia.
      simpl. exact IH'.
Qed.

Lemma is_flipping_has_flip (state : State) (player : Z) (move : Move) :
  is_flipping state player move = Done (has_flip state player (row move) (col move)).
Proof.
  unfold is_flipping, FindFlips.
  rewrite FindFlips_dirs_stop by (intros dr dc H; apply In_directions, H).
  simpl. rewrite negb_involutive. reflexivity.
Qed.

Lemma ListValidMoves_Done (state : State) :
  ListValidMoves state =
  Done (match filter (fun m => has_flip state (mover state) (row m) (col m)) (all_moves state) with
        | [] => all_moves state
        | flipping_moves => flipping_moves
        end).
Proof.
  unfold ListValidMoves. fold (mover state).
  rewrite (filterM_pure _ (fun m => has_flip state (mover state) (row m) (col m)))
    by (intros; apply is_flipping_has_flip).
  simpl. destruct (filter _ _); reflexivity.
Qed.

Lemma ListValidMoves_candidates (state : State) (moves : list Move) (move : Move) :
  ListValidMoves state = Done moves -> In move moves ->
  candidate state (row move) (col move).
Proof.
  rewrite ListValidMoves_Done. intros E Hin. inversion E as [E']; clear E.
  apply In_all_moves.
  destruct (filter _ _) as [|m0 fl] eqn:Ef.
  - subst. exact Hin.
  - rewrite <- Ef in E'. subst. apply filter_In in Hin. apply Hin.
Qed.

Lemma Move_eqb_eq (a b : Move) : Move_eqb a b = true <-> a = b.
Proof.
  unfold Move_eqb. destruct a, b; simpl. split.
  - intros H. apply andb_true_iff in H as (H1 & H2). f_equal; lia.
  - intros E; inversion E; subst. lia.
Qed.

Lemma ValidateMove_ok (state : State) (move : Move) (reason : string) :
  ValidateMove state move = Done (true, reason) ->
  candidate state (row move) (col move).
Proof.
  unfold ValidateMove. rewrite ListValidMoves_Done. simpl.
  destruct (existsb _ _) eqn:Hex; simpl; intros E; [|discriminate].
  apply existsb_exists in Hex as (m & Hin & Heq). apply Move_eqb_eq in Heq. subst m.
  eapply ListValidMoves_candidates; [apply ListValidMoves_Done | exact Hin].
Qed.

Lemma ValidateMove_Done (state : State) (move : Move) :
  exists ok reason, ValidateMove state move = Done (ok, reason).
Proof.
  unfold ValidateMove. rewrite ListValidMoves_Done. simpl.
  destruct (existsb _ _); simpl; eauto.
Qed.

(** ** Counting occupied cells *)

Lemma ExecuteMove_occupied (s : State) (move : Move) :
  wf_state s -> candidate s (row move) (col move) ->
  exists s', ExecuteMove s move = Done s' /\ wf_state s' /\
             moves_played s' = moves_played s + 1 /\
             occupied_cells s' = occupied_cells s + 1.
Proof.
  intros Hwf (Hrc & Hempty & _).
  destruct (ExecuteMove_Done s move Hwf Hrc) as (s' & E & Hwf' & Hmp & Hfill & Hrest).
  exists s'. repeat split; auto; try apply Hwf'.
  unfold occupied_cells.
  rewrite (filter_length_step
             (fun rc => negb (at_ s (fst rc) (snd rc) =? 0))
             (fun rc => negb (at_ s' (fst rc) (snd rc) =? 0))
             (row move, col move) all_cells).
  - lia.
  - apply NoDup_all_cells.
  - apply In_all_cells, Hrc.
  - simpl. lia.
  - simpl. lia.
  - intros [r c] Hin Hne. simpl. apply In_all_cells in Hin.
    specialize (Hrest r c Hin Hne).
    destruct (at_ s' r c =? 0) eqn:E1, (at_ s r c =? 0) eqn:E2; try reflexivity; lia.
Qed.

Lemma InitialState_wf : wf_state InitialState.
Proof.
  split; [reflexivity|]. intros r c (Hr & Hc). unfold cell_ok.
  each_cell r c Hr Hc; vm_compute; auto.
Qed.

Lemma PlayMoves_invariant (moves : list Move) : forall s s',
  wf_state s -> PlayMoves s moves = Some s' ->
  wf_state s' /\
  moves_played s' = moves_played s + Z.of_nat (length moves) /\
  occupied_cells s' = occupied_cells s + Z.of_nat (length moves).
Proof.
  induction moves as [|move moves IH]; intros s s' Hwf E; simpl in E.
  - inversion E; subst. simpl. repeat split; try apply Hwf; lia.
  - destruct (ValidateMove s move) as [[[|] reason]| |] eqn:Ev; try discriminate.
    apply ValidateMove_ok in Ev.
    destruct (ExecuteMove_occupied s move Hwf Ev) as (s1 & E1 & Hwf1 & Hmp1 & Hocc1).
    rewrite E1 in E. destruct (IH s1 s' Hwf1 E) as (Hwf' & Hmp' & Hocc').
    split; [exact Hwf'|]. simpl length. lia.
Qed.

Lemma PlayMoves_app (ms1 ms2 : list Move) : forall s,
  PlayMoves s (ms1 ++ ms2) =
  match PlayMoves s ms1 with
  | Some s' => PlayMoves s' ms2
  | None => None
  end.
Proof.
  induction ms1 as [|m ms1 IH]; intros s; simpl; [reflexivity|].
  destruct (ValidateMove s m) as [[[|] reason]| |]; try reflexivity.
  destruct (ExecuteMove s m); try reflexivity. apply IH.
Qed.

Lemma InitialState_occupied : occupied_cells InitialState = 4.
Proof. reflexivity. Qed.

(** C9. In every state reached from [InitialState] by valid moves the
    number of occupied cells is 4 + [moves_played]: a valid move goes to an
    empty cell, [ExecuteMove] fills that cell, and the flips of
    [ExecuteMove] leave every other cell occupied or empty as it was. *)
Theorem occupied_cells_moves_played (moves : list Move) (s : State) :
  PlayMoves InitialState moves = Some s ->
  occupied_cells s = 4 + moves_played s /\
  forall move reason, ValidateMove s move = Done (true, reason) ->
    at_ s (row move) (col move) = 0 /\
    exists s', ExecuteMove s move = Done s' /\
               moves_played s' = moves_played s + 1 /\
               at_ s' (row move) (col move) <> 0 /\
               forall r c, on_board r c -> (r, c) <> (row move, col move) ->
                           (at_ s' r c = 0 <-> at_ s r c = 0).
Proof.
  intros E.
  destruct (PlayMoves_invariant moves _ _ InitialState_wf E) as (Hwf & Hmp & Hocc).
  split.
  - rewrite Hocc, Hmp, InitialState_occupied. reflexivity.
  - intros move reason Ev. apply ValidateMove_ok in Ev. destruct Ev as (Hrc & Hempty & _).
    split; [exact Hempty|].
    destruct (ExecuteMove_Done s move Hwf Hrc) as (s' & E' & _ & Hmp' & Hfill & Hrest).
    exists s'. auto.
Qed.

Lemma occupied_cells_moves_played_witness :
  PlayMoves InitialState [mkMove 2 2] = Some after_C3 /\
  occupied_cells after_C3 = 4 + moves_played after_C3.
Proof.
  split; [vm_compute; reflexivity|].
  apply (occupied_cells_moves_played [mkMove 2 2] after_C3). vm_compute; reflexivity.
Defined.

Lemma length_all_cells : length all_cells = 64%nat.
Proof. reflexivity. Qed.

(** Sixty valid moves from [InitialState] occupy sixty more cells than
    the four of the start: all 64. *)
Lemma PlayMoves_sixty_full (moves : list Move) (s : State) (r c : Z) :
  length moves = 60%nat -> PlayMoves InitialState moves = Some s ->
  on_board r c -> at_ s r c <> 0.
Proof.
  intros Hlen E Hrc.
  destruct (PlayMoves_invariant moves _ _ InitialState_wf E) as (_ & _ & Hocc).
  rewrite InitialState_occupied, Hlen in Hocc. unfold occupied_cells in Hocc.
  assert (Hall : length (filter (fun rc => negb (at_ s (fst rc) (snd rc) =? 0)) all_cells)
                 = length all_cells) by (rewrite length_all_cells; lia).
  pose proof (filter_length_all _ _ Hall (r, c) (proj2 (In_all_cells r c) Hrc)) as H.
  simpl in H. lia.
Qed.

(** C6, as the code has it. After sixty valid moves from [InitialState]
    the board has no empty cell. *)
Theorem sixty_moves_fill_board (moves : list Move) (s : State) :
  length moves = 60%nat ->
  PlayMoves InitialState moves = Some s ->
  forall r c, on_board r c -> at_ s r c <> 0.
Proof.
  intros Hlen E r c Hrc. exact (PlayMoves_sixty_full moves s r c Hlen E Hrc).
Qed.

Lemma sixty_moves_fill_board_witness :
  length full_game = 60%nat /\
  PlayMoves InitialState full_game = Some full_board /\
  on_board 7 7 /\ at_ full_board 7 7 <> 0.
Proof.
  split; [reflexivity|]. split; [vm_compute; reflexivity|].
  split; [unfold on_board; lia|].
  apply (sixty_moves_fill_board full_game full_board).
  - reflexivity.
  - vm_compute; reflexivity.
  - unfold on_board; lia.
Defined.

(** C6, as stated, does not hold. There are sequences of sixty valid
    moves from [InitialState], [full_game] is one, but none of them ends
    on a board with an empty cell. *)
Lemma no_empty_cell_after_sixty_moves :
  (length full_game = 60%nat /\ PlayMoves InitialState full_game = Some full_board) /\
  ~ exists (moves : list Move) (s : State) (r c : Z),
      length moves = 60%nat /\ PlayMoves InitialState moves = Some s /\
      on_board r c /\ at_ s r c = 0.
Proof.
  split; [split; [reflexivity | vm_compute; reflexivity]|].
  intros (moves & s & r & c & Hlen & E & Hrc & Hempty).
  exact (PlayMoves_sixty_full moves s r c Hlen E Hrc Hempty).
Qed.

(** ** CalculateScore *)

Lemma bump_0 (a b c : Z) : bump [a; b; c] 0 = Done [a + 1; b; c].
Proof. reflexivity. Qed.

Lemma bump_1 (a b c : Z) : bump [a; b; c] 1 = Done [a; b + 1; c].
Proof. reflexivity. Qed.

Lemma bump_2 (a b c : Z) : bump [a; b; c] 2 = Done [a; b; c + 1].
Proof. reflexivity. Qed.

Lemma CalculateScore_loop_counts (s : State) (cells : list (Z * Z)) : forall a b c,
  (forall r c, In (r, c) cells -> cell_ok (at_ s r c)) ->
  CalculateScore_loop s cells [a; b; c] =
  Done [a + Z.of_nat (length (filter (fun rc => at_ s (fst rc) (snd rc) =? 0) cells));
        b + Z.of_nat (length (filter (fun rc => at_ s (fst rc) (snd rc) =? 1) cells));
        c + Z.of_nat (length (filter (fun rc => at_ s (fst rc) (snd rc) =? 2) cells))].
Proof.
  induction cells as [|[r0 c0] cells IH]; intros a b c Hok.
  - simpl. apply f_equal; repeat (apply f_equal2; [lia|]); reflexivity.
  - assert (IH' := fun a b c => IH a b c (fun r c H => Hok r c (or_intror H))). clear IH.
    cbn [CalculateScore_loop filter fst snd].
    destruct (Hok r0 c0 (or_introl eq_refl)) as [E|[E|E]]; rewrite E;
      rewrite ?bump_0, ?bump_1, ?bump_2; cbn [bind];
      rewrite IH'; simpl (_ =? _); cbv iota; cbn [length];
      rewrite ?Nat2Z.inj_succ; apply f_equal;
      repeat (apply f_equal2; [lia|]); reflexivity.
Qed.

Lemma CalculateScore_Done (s : State) :
  wf_state s -> CalculateScore s = Done (count_cells 1 s - count_cells 2 s).
Proof.
  intros (_ & Hok). unfold CalculateScore.
  rewrite CalculateScore_loop_counts
    by (intros r c H; apply Hok, In_all_cells, H).
  reflexivity.
Qed.

(** ** The players' turns *)

Lemma GetNextPlayer_0_or_1 (s : State) : GetNextPlayer s = 0 \/ GetNextPlayer s = 1.
Proof.
  unfold GetNextPlayer.
  assert (E : Z.land (moves_played s) 1 = moves_played s mod 2)
    by (apply (Z.land_ones (moves_played s) 1); lia).
  rewrite E. pose proof (Z.mod_pos_bound (moves_played s) 2). lia.
Qed.

Lemma GetNextPlayer_next (s s' : State) :
  moves_played s' = moves_played s + 1 -> GetNextPlayer s = 1 - GetNextPlayer s'.
Proof.
  unfold GetNextPlayer. intros ->.
  assert (E : forall m, Z.land m 1 = m mod 2) by (intros m; apply (Z.land_ones m 1); lia).
  rewrite !E.
  pose proof (Z.div_mod (moves_played s) 2 ltac:(lia)).
  pose proof (Z.div_mod (moves_played s + 1) 2 ltac:(lia)).
  pose proof (Z.mod_pos_bound (moves_played s) 2 ltac:(lia)).
  pose proof (Z.mod_pos_bound (moves_played s + 1) 2 ltac:(lia)).
  lia.
Qed.

Lemma GetNextPlayer_assert (s : State) :
  negb ((GetNextPlayer s =? 0) || (GetNextPlayer s =? 1)) = false.
Proof. destruct (GetNextPlayer_0_or_1 s) as [-> | ->]; reflexivity. Qed.

(** ** ReadLine and the loop body *)

Lemma ReadLine_messages (res : read_result) :
  Forall read_message (snd (ReadLine res)) /\
  (snd (ReadLine res) <> [] -> fst (ReadLine res) = EmptyString).
Proof.
  assert (one : forall d, read_message d -> Forall read_message [d])
    by (intros d Hd; constructor; [exact Hd | constructor]).
  unfold ReadLine. destruct res as [|buf]; simpl.
  - split; [apply one; unfold read_message; auto | reflexivity].
  - destruct (Nat.eqb _ 0); simpl;
      [split; [apply one; unfold read_message; auto | reflexivity]|].
    destruct (memchr buf newline) as [p|]; simpl;
      [|split; [apply one; unfold read_message; auto | reflexivity]].
    destruct (negb _); simpl;
      [split; [apply one; unfold read_message; auto 6 | reflexivity]|].
    split; [constructor | congruence].
Qed.

Lemma ParseMove_on_board (line : string) (move : Move) :
  ParseMove line = Some move -> on_board (row move) (col move).
Proof.
  unfold ParseMove. destruct (negb (Nat.eqb _ 2)); [discriminate|].
  destruct (ValidCoords _ _) eqn:Hv; simpl; [|discriminate].
  intros E; inversion E; subst; simpl. apply ValidCoords_on_board, Hv.
Qed.

Lemma RunGame_body_Done (env : Env) (l : Loop) :
  loop_invariant l -> IsGameOver (state l) = false ->
  exists flow, RunGame_body env l = Done flow /\
    match flow with
    | Continue l' => loop_invariant l' /\
                     moves_played (state l') = moves_played (state l) + 1
    | Break l' => loop_broken l'
    end.
Proof.
  intros (Hwf & Hplay & Herr & Hstart) Hover. unfold RunGame_body. cbv zeta.
  rewrite GetNextPlayer_assert. cbv iota.
  destruct (negb (started l) && negb (start_ok env)) eqn:Hs.
  { (* "Start" could not be sent *)
    apply andb_true_iff in Hs as (Hs & _). apply negb_true_iff in Hs.
    specialize (Hstart Hs).
    eexists. split; [reflexivity|]. unfold loop_broken. cbn [state history stderr].
    split; [exact Hwf|]. split; [exact Hplay|]. split; [exact Hover|].
    exists [], (CouldNotSendStart (GetNextPlayer (state l))).
    rewrite Herr. split; [reflexivity|]. split; [constructor|].
    right. left. unfold GetNextPlayer. rewrite Hstart. split; reflexivity. }
  destruct (ReadLine (read_at env (moves_played (state l)))) as [line diags] eqn:Hread.
  pose proof (ReadLine_messages (read_at env (moves_played (state l)))) as (Hdiags & Hline).
  rewrite Hread in Hdiags, Hline. cbn [fst snd] in Hdiags, Hline.
  rewrite Herr. cbn [app].
  destruct (ParseMove line) as [move|] eqn:Hparse.
  2:{ (* the line is not a move *)
    eexists. split; [reflexivity|]. unfold loop_broken. cbn [state history stderr].
    split; [exact Hwf|]. split; [exact Hplay|]. split; [exact Hover|].
    exists diags, (CouldNotParse (GetNextPlayer (state l)) line).
    split; [reflexivity|]. split; [exact Hdiags|]. left. left. eauto. }
  assert (Hnil : diags = []).
  { destruct diags as [|d ds]; [reflexivity|].
    rewrite Hline in Hparse by discriminate. discriminate. }
  subst diags.
  destruct (ValidateMove_Done (state l) move) as (ok & reason & Ev). rewrite Ev.
  cbn [bind]. destruct ok; cbn [negb].
  2:{ (* the move is not valid *)
    eexists. split; [reflexivity|]. unfold loop_broken. cbn [state history stderr].
    split; [exact Hwf|]. split; [exact Hplay|]. split; [exact Hover|].
    exists [], (InvalidMove (GetNextPlayer (state l)) line reason).
    split; [reflexivity|]. split; [constructor|]. left. right. eauto. }
  pose proof (ValidateMove_ok _ _ _ Ev) as Hcand.
  destruct (ExecuteMove_occupied (state l) move Hwf Hcand) as (s' & Ex & Hwf' & Hmp' & _).
  rewrite Ex. cbn [bind].
  assert (Hplay' : PlayMoves InitialState (history l ++ [move]) = Some s').
  { rewrite PlayMoves_app, Hplay. simpl. rewrite Ev, Ex. reflexivity. }
  assert (Hcont : loop_invariant (mkLoop s' (history l ++ [move]) true []) /\
                  moves_played s' = moves_played (state l) + 1).
  { split; [|exact Hmp']. unfold loop_invariant. cbn [state history stderr started].
    split; [exact Hwf'|]. split; [exact Hplay'|]. split; [reflexivity | discriminate]. }
  destruct (IsGameOver s') eqn:Hover'; cbn [negb].
  { eexists. split; [reflexivity|]. exact Hcont. }
  destruct (send_ok env (moves_played s')); cbn [negb].
  { eexists. split; [reflexivity|]. exact Hcont. }
  (* the move could not be forwarded *)
  eexists. split; [reflexivity|]. unfold loop_broken. cbn [state history stderr].
  split; [exact Hwf'|]. split; [exact Hplay'|]. split; [exact Hover'|].
  exists [], (CouldNotSend (FormatMove move) (GetNextPlayer (state l))).
  split; [reflexivity|]. split; [constructor|].
  right. right. exists (FormatMove move).
  rewrite (GetNextPlayer_next (state l) s' Hmp'). reflexivity.
Qed.

Lemma RunGame_loop_Done (env : Env) (fuel : nat) : forall l,
  loop_invariant l ->
  moves_played (state l) <= MAX_MOVES ->
  MAX_MOVES <= moves_played (state l) + Z.of_nat fuel ->
  exists l', RunGame_loop fuel env l = Done l' /\
             moves_played (state l') <= MAX_MOVES /\
             ((IsGameOver (state l') = true /\ loop_invariant l') \/ loop_broken l').
Proof.
  induction fuel as [|fuel IH]; intros l Hinv Hmax Hfuel; simpl.
  - assert (Hover : IsGameOver (state l) = true) by (unfold IsGameOver; lia).
    rewrite Hover. exists l. auto.
  - destruct (IsGameOver (state l)) eqn:Hover; [exists l; auto|].
    destruct (RunGame_body_Done env l Hinv Hover) as ([l'|l'] & E & H); rewrite E; simpl.
    + destruct H as (Hinv' & Hmp). unfold IsGameOver in Hover.
      apply Z.leb_gt in Hover.
      apply IH; [exact Hinv' | lia | lia].
    + exists l'. split; [reflexivity|]. split; [|auto].
      destruct H as (_ & _ & Hover' & _).
      unfold IsGameOver in Hover'. apply Z.leb_gt in Hover'. lia.
Qed.

Lemma RunGame_Done (env : Env) :
  exists run, RunGame env = Done run /\
    wf_state (final run) /\
    moves_played (final run) <= MAX_MOVES /\
    PlayMoves InitialState (played run) = Some (final run) /\
    ((IsGameOver (final run) = true /\ messages run = Quit env 1 ++ Quit env 0 /\
      score (result run) = count_cells 1 (final run) - count_cells 2 (final run))
     \/
     (IsGameOver (final run) = false /\
      (GetNextPlayer (final run) = 0 /\ score (result run) = -99 \/
       GetNextPlayer (final run) = 1 /\ score (result run) = 99) /\
      exists pre d, messages run = pre ++ [d] ++ Quit env 1 ++ Quit env 0 /\
                    Forall read_message pre /\
                    (step_failed (GetNextPlayer (final run)) d \/
                     write_failed (GetNextPlayer (final run)) d))).
Proof.
  unfold RunGame.
  destruct (RunGame_loop_Done env (Z.to_nat MAX_MOVES)
              (mkLoop InitialState [] false [])) as (l & E & Hmax & H).
  { split; [apply InitialState_wf|]. repeat split; auto. }
  { simpl. unfold MAX_MOVES. lia. }
  { simpl. unfold MAX_MOVES. lia. }
  rewrite E. cbn [bind].
  destruct H as [(Hover & Hwf & Hplay & Herr & _) | (Hwf & Hplay & Hover & Hmsg)].
  - rewrite Hover, (CalculateScore_Done _ Hwf). cbn [bind].
    eexists. split; [reflexivity|]. cbn [final played result score messages].
    split; [exact Hwf|]. split; [exact Hmax|]. split; [exact Hplay|]. left.
    split; [exact Hover|]. split; [rewrite Herr; reflexivity | reflexivity].
  - rewrite Hover. cbv zeta. destruct Hmsg as (pre & d & Hmsg & Hpre & Hd).
    destruct (GetNextPlayer_0_or_1 (state l)) as [Hnp|Hnp]; rewrite Hnp in *;
      cbn [Z.eqb bind];
      (eexists; split; [reflexivity|]; cbn [final played result score messages];
       split; [exact Hwf|]; split; [exact Hmax|]; split; [exact Hplay|];
       right; split; [exact Hover|]; rewrite Hnp; split; [auto|];
       exists pre, d; rewrite Hmsg, <- app_assoc; auto).
Qed.

(** C4, as the code has it. The moves that a match has executed are valid
    in sequence from the initial position.  A match that ends before sixty
    moves gets the score -99 when the first mover is the failing player and
    +99 when the second mover is; the failing player is the mover of the
    state in which the loop was left.  The last message that the loop writes to stderr
    tells why: either the line of the failing player could not be read or
    parsed or was not a valid move, or a write addressed to the failing
    player failed (Start, or the move of the opponent that was to be
    forwarded).  Before it stderr holds at most the messages of that read,
    and after it only what the two calls of [Quit] write when they reap the
    processes, the one of the second mover first: nothing for a process
    that exited with status 0. *)
Theorem forfeit_score (env : Env) :
  exists run, RunGame env = Done run /\
    PlayMoves InitialState (played run) = Some (final run) /\
    (IsGameOver (final run) = false ->
     moves_played (final run) < 60 /\
     (GetNextPlayer (final run) = 0 /\ score (result run) = -99 \/
      GetNextPlayer (final run) = 1 /\ score (result run) = 99) /\
     exists pre d, messages run = pre ++ [d] ++ Quit env 1 ++ Quit env 0 /\
                   Forall read_message pre /\
                   (step_failed (GetNextPlayer (final run)) d \/
                    write_failed (GetNextPlayer (final run)) d)).
Proof.
  destruct (RunGame_Done env) as (run & E & _ & _ & Hplay & H).
  exists run. split; [exact E|]. split; [exact Hplay|]. intros Hover.
  destruct H as [(Hover' & _) | (_ & Hscore & Hmsg)]; [congruence|].
  split; [|split; assumption].
  unfold IsGameOver, MAX_MOVES in Hover. lia.
Qed.

(** C4, as stated, does not hold. The first mover plays the valid move
    C3, forwarding it to the second mover fails: the match is aborted
    after one move with the score +99, which blames the second mover,
    and no line of the second mover was read, parsed or validated.  Stderr
    holds the message of the failed write and the one of [Quit] for the
    process of the second mover. *)
Lemma forward_failure_blames_receiver :
  exists run, RunGame env_send_fails = Done run /\
    played run = [mkMove 2 2] /\
    IsGameOver (final run) = false /\
    GetNextPlayer (final run) = 1 /\
    score (result run) = 99 /\
    messages run = [CouldNotSend (FormatMove (mkMove 2 2)) 0; NotExitedNormally 256] /\
    ~ exists d, In d (messages run) /\ step_failed 1 d.
Proof.
  eexists. split; [vm_compute; reflexivity|]. cbn [played final result score messages].
  repeat (split; [reflexivity|]).
  intros (d & [<- | [<- | []]] & [(line & H) | (line & reason & H)]); discriminate.
Qed.

(** ** Move codes *)

Lemma ParseMove_FormatMove (r c : Z) :
  on_board r c -> ParseMove (FormatMove (mkMove r c)) = Some (mkMove r c).
Proof.
  intros (Hr & Hc).
  each_cell r c Hr Hc; reflexivity.
Qed.

Lemma ParseMove_Some (s : string) (move : Move) :
  ParseMove s = Some move ->
  String.length s = 2%nat /\ on_board (row move) (col move) /\ s = FormatMove move.
Proof.
  intros E. pose proof (ParseMove_on_board _ _ E) as Hrc.
  unfold ParseMove in E.
  destruct s as [|a [|b [|x s]]]; simpl in E; try discriminate.
  destruct (ValidCoords _ _) eqn:Hv; simpl in E; [|discriminate].
  inversion E; subst; clear E. simpl in Hrc. destruct Hrc as (Hr & Hc).
  split; [reflexivity|]. split; [split; assumption|].
  unfold FormatMove; simpl row; simpl col.
  change (int_of_char "A") with 65 in *. change (int_of_char "1") with 49 in *.
  change (char_at (String a (String b EmptyString)) 0) with a in *.
  change (char_at (String a (String b EmptyString)) 1) with b in *.
  replace (65 + (int_of_char a - 65)) with (int_of_char a) by lia.
  replace (49 + (int_of_char b - 49)) with (int_of_char b) by lia.
  rewrite !char_of_int_of_char by lia. reflexivity.
Qed.

End ArbiterProofs.

(* ------------------------------------------------------------------ *)
(** * The player: proofs *)

Module PlayerProofs.
Import PlayerCC PlayerSpec.

(** ** The functions on the initial position *)

Example ListMoves_InitialBoard :
  exists moves, ListMoves InitialBoard new_moves = Done (moves, 6) /\
    firstn 6 moves =
    [mkMove 2 2; mkMove 2 4; mkMove 3 5; mkMove 4 2; mkMove 5 3; mkMove 5 5].
Proof. eexists. split; [vm_compute; reflexivity | reflexivity]. Qed.

Example Evaluate_InitialBoard : Evaluate InitialBoard = Done 0.
Proof. vm_compute. reflexivity. Qed.

Example Search_InitialBoard_1 : Search InitialBoard 1 = Done (InitialBoard, 17).
Proof. vm_compute. reflexivity. Qed.

Example Search_InitialBoard_3 : Search InitialBoard 3 = Done (InitialBoard, 19).
Proof. vm_compute. reflexivity. Qed.

(** ** Players, coordinates and scans *)

Lemma Player_ValidCoords_on_board (r c : Z) : ValidCoords r c = true <-> on_board r c.
Proof. unfold ValidCoords, on_board, W. lia. Qed.

Lemma Player_eqb_eq (a b : Player) : Player_eqb a b = true <-> a = b.
Proof. destruct a, b; unfold Player_eqb; simpl; split; intros H; try reflexivity; discriminate. Qed.

Lemma Player_eqb_refl (a : Player) : Player_eqb a a = true.
Proof. apply Player_eqb_eq. reflexivity. Qed.

Lemma Player_eqb_neq (a b : Player) : Player_eqb a b = false <-> a <> b.
Proof.
  rewrite <- Player_eqb_eq. destruct (Player_eqb a b); split; congruence.
Qed.

Lemma Other_involutive (p : Player) : Other (Other p) = p.
Proof. destruct p; reflexivity. Qed.

Lemma at_set_same (fields : list Player) (r c : Z) (v : Player) :
  length fields = 64%nat -> on_board r c -> at_ (grid_set fields r c v) r c = v.
Proof. intros. apply grid_get_set_same; auto. Qed.

Lemma at_set_other (fields : list Player) (r c r' c' : Z) (v : Player) :
  on_board r c -> on_board r' c' -> (r, c) <> (r', c') ->
  at_ (grid_set fields r c v) r' c' = at_ fields r' c'.
Proof. intros. apply grid_get_set_other; auto. Qed.

(** ** The scans *)

Lemma DoFlips_scan_model (fields : list Player) (p : Player) (r c dr dc : Z)
    (fuel : nat) : forall n last_n,
  DoFlips_scan fuel fields p r c dr dc n last_n =
  scan_model (occupied_at fields r c dr dc) (player_at fields p r c dr dc)
    fuel n last_n.
Proof.
  induction fuel as [|fuel IH]; intros n last_n; simpl; [reflexivity|].
  unfold occupied_at at 1, player_at at 1.
  rewrite (Z.mul_comm dr n), (Z.mul_comm dc n).
  destruct (ValidCoords _ _); simpl; [|reflexivity].
  destruct (Player_eqb (at_ fields _ _) NONE); simpl; [reflexivity | apply IH].
Qed.

Lemma HasFlips_scan_model (fields : list Player) (p : Player) (r c dr dc : Z)
    (fuel : nat) : forall n,
  HasFlips_scan fuel fields p r c dr dc n =
  has_model (occupied_at fields r c dr dc) (player_at fields p r c dr dc) fuel n.
Proof.
  induction fuel as [|fuel IH]; intros n; simpl; [reflexivity|].
  unfold occupied_at at 1, player_at at 1.
  rewrite (Z.mul_comm dr n), (Z.mul_comm dc n).
  destruct (ValidCoords _ _); simpl; [|reflexivity].
  destruct (Player_eqb (at_ fields _ _) NONE); simpl; [reflexivity|].
  destruct (_ && _); [reflexivity | apply IH].
Qed.

Lemma DoFlips_occupied_at_bound (fields : list Player) (r c dr dc : Z) :
  is_dir dr dc ->
  forall n, occupied_at fields r c dr dc 1 = true ->
            occupied_at fields r c dr dc n = true -> n <= 8.
Proof.
  intros Hd n H1 Hn. unfold occupied_at in *.
  apply andb_true_iff in H1 as (H1 & _), Hn as (Hn & _).
  apply Player_ValidCoords_on_board in H1, Hn. eapply ray_bound; eauto.
Qed.

Lemma DoFlips_scan_Done (fields : list Player) (p : Player) (r c dr dc : Z) :
  is_dir dr dc ->
  exists L, DoFlips_scan SCAN_FUEL fields p r c dr dc 1 0 = Done L /\
            farthest (occupied_at fields r c dr dc) (player_at fields p r c dr dc) L /\
            0 <= L <= 8.
Proof.
  intros Hd. rewrite DoFlips_scan_model.
  apply scan_model_Done. apply DoFlips_occupied_at_bound, Hd.
Qed.

Lemma DoFlips_last_same_scan (fields : list Player) (p : Player) (r c dr dc : Z) :
  is_dir dr dc ->
  DoFlips_scan SCAN_FUEL fields p r c dr dc 1 0 = Done (last_same fields p r c dr dc).
Proof.
  intros Hd. unfold last_same.
  destruct (DoFlips_scan_Done fields p r c dr dc Hd) as (L & -> & _). reflexivity.
Qed.

Lemma last_same_farthest (fields : list Player) (p : Player) (r c dr dc : Z) :
  is_dir dr dc ->
  farthest (occupied_at fields r c dr dc) (player_at fields p r c dr dc)
    (last_same fields p r c dr dc).
Proof.
  intros Hd. unfold last_same.
  destruct (DoFlips_scan_Done fields p r c dr dc Hd) as (L & -> & HL & _). exact HL.
Qed.

Lemma HasFlips_scan_last_same (fields : list Player) (p : Player) (r c dr dc : Z) :
  is_dir dr dc ->
  HasFlips_scan SCAN_FUEL fields p r c dr dc 1 =
  Done (1 <? last_same fields p r c dr dc).
Proof.
  intros Hd. rewrite HasFlips_scan_model.
  apply (has_model_scan _ _ SCAN_FUEL 1 0); [lia | lia |].
  rewrite <- DoFlips_scan_model. apply DoFlips_last_same_scan, Hd.
Qed.

(** A flipped cell lies on the board, on the ray of a direction, before
    the farthest disc of the mover. *)
(** The scans end within [SCAN_FUEL] iterations, and more fuel does not
    change their results. *)
Lemma DoFlips_scan_any_fuel (fields : list Player) (p : Player) (r c dr dc : Z)
    (fuel : nat) :
  is_dir dr dc -> (SCAN_FUEL <= fuel)%nat ->
  DoFlips_scan fuel fields p r c dr dc 1 0 = Done (last_same fields p r c dr dc).
Proof.
  intros Hd Hfuel. rewrite DoFlips_scan_model.
  apply (scan_model_more_fuel _ _ SCAN_FUEL); [exact Hfuel|].
  rewrite <- DoFlips_scan_model. apply DoFlips_last_same_scan, Hd.
Qed.

Lemma HasFlips_scan_any_fuel (fields : list Player) (p : Player) (r c dr dc : Z)
    (fuel : nat) :
  is_dir dr dc -> (SCAN_FUEL <= fuel)%nat ->
  HasFlips_scan fuel fields p r c dr dc 1 = Done (1 <? last_same fields p r c dr dc).
Proof.
  intros Hd Hfuel. rewrite HasFlips_scan_model.
  apply (has_model_more_fuel _ _ SCAN_FUEL); [exact Hfuel|].
  rewrite <- HasFlips_scan_model. apply HasFlips_scan_last_same, Hd.
Qed.

Lemma dir_flips_In (fields : list Player) (p : Player) (r c dr dc r' c' : Z) :
  -1 <= dr <= 1 -> -1 <= dc <= 1 ->
  In (r', c') (dir_flips fields p r c (dr, dc)) <->
  is_dir dr dc /\
  exists n, 1 <= n < last_same fields p r c dr dc /\ r' = r + n * dr /\ c' = c + n * dc.
Proof.
  intros Hr Hc. unfold dir_flips; simpl fst; simpl snd.
  destruct (negb (dr =? 0) || negb (dc =? 0)) eqn:Ht.
  - apply dir_test in Ht. rewrite ray_cells_In. split.
    + intros (n & Hn & E). split; [unfold is_dir; auto|]. exists n. split; [lia | exact E].
    + intros (_ & n & Hn & E). exists n. split; [lia | exact E].
  - split; [intros []|]. intros ((_ & _ & Hne) & _). apply dir_test in Hne. congruence.
Qed.

Lemma dir_flips_on_board (fields : list Player) (p : Player) (r c dr dc r' c' : Z) :
  -1 <= dr <= 1 -> -1 <= dc <= 1 ->
  In (r', c') (dir_flips fields p r c (dr, dc)) ->
  on_board r' c' /\ at_ fields r' c' <> NONE.
Proof.
  intros Hr Hc Hin. apply dir_flips_In in Hin as (Hd & n & Hn & -> & ->); auto.
  destruct (last_same_farthest fields p r c dr dc Hd) as [(E & _) | (_ & Hrun & _)]; [lia|].
  specialize (Hrun n ltac:(lia)). unfold occupied_at in Hrun.
  apply andb_true_iff in Hrun as (Hv & Ho). apply Player_ValidCoords_on_board in Hv.
  split; [exact Hv|]. apply negb_true_iff, Player_eqb_neq in Ho. exact Ho.
Qed.

Lemma DoFlips_flip_spec (r c dr dc : Z) (k : nat) : forall fields n,
  is_dir dr dc -> length fields = 64%nat ->
  (forall j, n <= j < n + Z.of_nat k -> on_board (r + j * dr) (c + j * dc)) ->
  length (DoFlips_flip k fields r c dr dc n) = 64%nat /\
  forall r' c', on_board r' c' ->
    ((exists j, n <= j < n + Z.of_nat k /\ r' = r + j * dr /\ c' = c + j * dc) ->
     at_ (DoFlips_flip k fields r c dr dc n) r' c' = Other (at_ fields r' c')) /\
    ((~ exists j, n <= j < n + Z.of_nat k /\ r' = r + j * dr /\ c' = c + j * dc) ->
     at_ (DoFlips_flip k fields r c dr dc n) r' c' = at_ fields r' c').
Proof.
  induction k as [|k IH]; intros fields n Hd Hlen Hcells.
  - simpl. split; [exact Hlen|]. intros r' c' Hrc. split; [|reflexivity].
    intros (j & Hj & _). lia.
  - cbn [DoFlips_flip].
    set (fields1 := grid_set fields (r + n * dr) (c + n * dc)
                      (Other (at_ fields (r + n * dr) (c + n * dc)))).
    assert (Hn : on_board (r + n * dr) (c + n * dc)) by (apply Hcells; lia).
    destruct (IH fields1 (n + 1) Hd) as (Hlen' & Hat).
    { unfold fields1. rewrite length_grid_set. exact Hlen. }
    { intros j Hj. apply Hcells. lia. }
    split; [exact Hlen'|]. intros r' c' Hrc.
    destruct (Hat r' c' Hrc) as (Hin & Hout). split.
    + intros (j & Hj & -> & ->). destruct (Z.eq_dec j n) as [->|Hne].
      * rewrite Hout.
        -- unfold fields1. apply at_set_same; auto.
        -- intros (j & Hj' & E1 & E2).
           assert (E : (r + n * dr, c + n * dc) = (r + j * dr, c + j * dc)) by congruence.
           apply ray_inj in E; auto. lia.
      * rewrite Hin by (exists j; repeat split; lia).
        unfold fields1. rewrite at_set_other; auto.
        intros E. apply ray_inj in E; auto.
    + intros Hnot. rewrite Hout.
      * unfold fields1. apply at_set_other; auto.
        intros E. inversion E; subst. apply Hnot. exists n. repeat split; lia.
      * intros (j & Hj & E). apply Hnot. exists j. split; [lia | exact E].
Qed.

Lemma DoFlips_dir_spec (fields : list Player) (p : Player) (r c dr dc : Z) :
  length fields = 64%nat -> -1 <= dr <= 1 -> -1 <= dc <= 1 ->
  exists fields', DoFlips_dir fields p r c dr dc = Done fields' /\
                  flipped_at (dir_flips fields p r c (dr, dc)) fields fields'.
Proof.
  intros Hlen Hr Hc.
  assert (Hcase : (dr = 0 /\ dc = 0) \/ is_dir dr dc) by (unfold is_dir; lia).
  destruct Hcase as [(-> & ->) | Hd].
  - exists fields. split; [reflexivity|]. split; [exact Hlen|].
    intros r' c' _. split; [intros [] | reflexivity].
  - unfold DoFlips_dir. destruct Hd as (Hr' & Hc' & Hne).
    rewrite (proj2 (dir_test dr dc) Hne).
    assert (Hd : is_dir dr dc) by (unfold is_dir; auto).
    rewrite (DoFlips_last_same_scan fields p r c dr dc Hd). cbn [bind].
    eexists. split; [reflexivity|].
    set (L := last_same fields p r c dr dc).
    destruct (DoFlips_flip_spec r c dr dc (Z.to_nat (L - 1)) fields 1 Hd Hlen)
      as (Hlen' & Hat).
    { intros j Hj.
      destruct (dir_flips_on_board fields p r c dr dc (r + j * dr) (c + j * dc) Hr Hc)
        as (Hb & _); [|exact Hb].
      apply dir_flips_In; auto. split; [exact Hd|]. exists j. fold L. repeat split; lia. }
    split; [exact Hlen'|]. intros r' c' Hrc. destruct (Hat r' c' Hrc) as (Hin & Hout).
    split.
    + intros H. apply dir_flips_In in H as (_ & n & Hn & E); auto. fold L in Hn.
      apply Hin. exists n. split; [lia | exact E].
    + intros H. apply Hout. intros (n & Hn & E). apply H.
      apply dir_flips_In; auto. split; [exact Hd|]. exists n. fold L. split; [lia | exact E].
Qed.

(** The scan of a direction only reads the cells of the board on its ray. *)
Lemma last_same_ext (f1 f2 : list Player) (p : Player) (r c dr dc : Z) :
  (forall n, 1 <= n -> on_board (r + n * dr) (c + n * dc) ->
             at_ f1 (r + n * dr) (c + n * dc) = at_ f2 (r + n * dr) (c + n * dc)) ->
  last_same f1 p r c dr dc = last_same f2 p r c dr dc.
Proof.
  intros Hsame. unfold last_same. rewrite !DoFlips_scan_model.
  rewrite (scan_model_ext _ _ (occupied_at f2 r c dr dc) (player_at f2 p r c dr dc));
    [reflexivity|].
  intros n Hn. unfold occupied_at, player_at.
  destruct (ValidCoords (r + n * dr) (c + n * dc)) eqn:Hv; simpl.
  - apply Player_ValidCoords_on_board in Hv. rewrite (Hsame n Hn Hv). auto.
  - split; [reflexivity | discriminate].
Qed.

Lemma dir_flips_ext (f1 f2 : list Player) (p : Player) (r c dr dc : Z) :
  (forall n, 1 <= n -> on_board (r + n * dr) (c + n * dc) ->
             at_ f1 (r + n * dr) (c + n * dc) = at_ f2 (r + n * dr) (c + n * dc)) ->
  dir_flips f1 p r c (dr, dc) = dir_flips f2 p r c (dr, dc).
Proof.
  intros Hsame. unfold dir_flips; simpl fst; simpl snd.
  rewrite (last_same_ext f1 f2 p r c dr dc Hsame). reflexivity.
Qed.

(** The directions are handled one after the other on the same array, but
    the rays of different directions share no cell: every direction flips
    what it would flip on the array [fields0] that [DoFlips] started with. *)
Lemma DoFlips_dirs_spec (p : Player) (r c : Z) (fields0 : list Player)
    (dirs : list (Z * Z)) : forall fields,
  length fields = 64%nat -> NoDup dirs ->
  (forall dr dc, In (dr, dc) dirs -> -1 <= dr <= 1 /\ -1 <= dc <= 1) ->
  (forall dr dc n, In (dr, dc) dirs -> 1 <= n -> on_board (r + n * dr) (c + n * dc) ->
     at_ fields (r + n * dr) (c + n * dc) = at_ fields0 (r + n * dr) (c + n * dc)) ->
  exists fields', DoFlips_dirs fields p r c dirs = Done fields' /\
                  flipped_at (flat_map (dir_flips fields0 p r c) dirs) fields fields'.
Proof.
  induction dirs as [|[dr dc] dirs IH]; intros fields Hlen Hnd Hdirs Hsame.
  - exists fields. split; [reflexivity|]. split; [exact Hlen|].
    intros r' c' _. split; [intros [] | reflexivity].
  - inversion Hnd as [|? ? Hnin Hnd']; subst.
    destruct (Hdirs dr dc (or_introl eq_refl)) as (Hr & Hc).
    destruct (DoFlips_dir_spec fields p r c dr dc Hlen Hr Hc) as (fields1 & E1 & Hlen1 & Hat1).
    assert (Hflips : dir_flips fields p r c (dr, dc) = dir_flips fields0 p r c (dr, dc)).
    { apply dir_flips_ext. intros n Hn Hb. apply Hsame; auto. left; reflexivity. }
    rewrite Hflips in Hat1.
    (* a cell flipped in this direction is on no ray of the other directions *)
    assert (Hdisj : forall dr' dc' n r' c', In (dr', dc') dirs -> 1 <= n ->
              In (r', c') (dir_flips fields0 p r c (dr, dc)) ->
              (r', c') <> (r + n * dr', c + n * dc')).
    { intros dr' dc' n r' c' Hin' Hn Hin.
      apply dir_flips_In in Hin as (Hd & m & Hm & -> & ->); auto.
      destruct (Hdirs dr' dc' (or_intror Hin')) as (Hr' & Hc').
      assert (Hcase : (dr' = 0 /\ dc' = 0) \/ is_dir dr' dc') by (unfold is_dir; lia).
      destruct Hcase as [(-> & ->) | Hd'].
      - replace (r + n * 0) with r by lia. replace (c + n * 0) with c by lia.
        apply ray_not_origin; [exact Hd | lia].
      - apply ray_disjoint; auto; try lia. intros E; inversion E; subst. contradiction. }
    destruct (IH fields1 Hlen1 Hnd') as (fields' & E & Hlen' & Hat').
    { intros dr' dc' H. apply Hdirs. right. exact H. }
    { intros dr' dc' n Hin' Hn Hb.
      destruct (Hat1 _ _ Hb) as (_ & Hout). rewrite Hout.
      - apply Hsame; auto. right. exact Hin'.
      - intros Hin. eapply Hdisj; eauto. }
    exists fields'. cbn [DoFlips_dirs]. rewrite E1. cbn [bind]. split; [exact E|].
    split; [exact Hlen'|]. intros r' c' Hb. cbn [flat_map].
    destruct (Hat1 r' c' Hb) as (Hin1 & Hout1). destruct (Hat' r' c' Hb) as (Hin' & Hout').
    split.
    + intros Hin. apply in_app_or in Hin as [Hin | Hin].
      * rewrite Hout', Hin1; auto.
        intros Hin2. apply in_flat_map in Hin2 as ([dr' dc'] & Hd' & Hin2).
        destruct (Hdirs dr' dc' (or_intror Hd')) as (Hr' & Hc').
        apply dir_flips_In in Hin2 as (_ & n & Hn & E2); auto.
        apply (Hdisj dr' dc' n r' c' Hd'); [lia | exact Hin |].
        destruct E2; subst; reflexivity.
      * rewrite Hin', Hout1; auto.
        intros Hin2. apply in_flat_map in Hin as ([dr' dc'] & Hd' & Hin).
        destruct (Hdirs dr' dc' (or_intror Hd')) as (Hr' & Hc').
        apply dir_flips_In in Hin as (_ & n & Hn & E2); auto.
        apply (Hdisj dr' dc' n r' c' Hd'); [lia | exact Hin2 |].
        destruct E2; subst; reflexivity.
    + intros Hnot. rewrite Hout', Hout1; auto.
      * intros H. apply Hnot. apply in_or_app. left. exact H.
      * intros H. apply Hnot. apply in_or_app. right. exact H.
Qed.

Lemma NoDup_directions : NoDup directions.
Proof.
  unfold directions. cbn.
  repeat (constructor; [cbn; intros H; repeat destruct H as [H|H]; try discriminate H; exact H|]).
  constructor.
Qed.

Lemma DoFlips_spec (fields : list Player) (p : Player) (r c : Z) :
  length fields = 64%nat ->
  exists fields', DoFlips fields p r c = Done fields' /\
                  flipped_at (flips fields p r c) fields fields'.
Proof.
  intros Hlen. apply DoFlips_dirs_spec; auto.
  - apply NoDup_directions.
  - intros dr dc H. apply In_directions, H.
Qed.

Lemma flips_In (fields : list Player) (p : Player) (r c r' c' : Z) :
  In (r', c') (flips fields p r c) <->
  exists dr dc n, is_dir dr dc /\ 1 <= n < last_same fields p r c dr dc /\
                  r' = r + n * dr /\ c' = c + n * dc.
Proof.
  unfold flips. rewrite in_flat_map. split.
  - intros ([dr dc] & Hd & Hin). apply In_directions in Hd as (Hr & Hc).
    apply dir_flips_In in Hin as (Hd & n & Hn & E); auto.
    exists dr, dc, n. auto.
  - intros (dr & dc & n & Hd & Hn & E). exists (dr, dc).
    pose proof Hd as (Hr & Hc & _).
    split; [apply In_directions; auto|]. apply dir_flips_In; auto.
    split; [exact Hd|]. exists n. auto.
Qed.

(** After [DoFlips], and whatever is then stored in the cell (r, c)
    itself, a second [DoFlips] from (r, c) flips the same cells. *)
Lemma flips_stable (fields fields' : list Player) (p v : Player) (r c : Z) :
  on_board r c -> length fields = 64%nat ->
  flipped_at (flips fields p r c) fields fields' ->
  flips (grid_set fields' r c v) p r c = flips fields p r c.
Proof.
  intros Hrc Hlen (Hlen' & Hat). unfold flips.
  apply flat_map_ext_in. intros [dr dc] Hin. apply In_directions in Hin as (Hr & Hc).
  assert (Hcase : (dr = 0 /\ dc = 0) \/ is_dir dr dc) by (unfold is_dir; lia).
  destruct Hcase as [(-> & ->) | Hd]; [reflexivity|].
  unfold dir_flips; simpl fst; simpl snd.
  replace (last_same (grid_set fields' r c v) p r c dr dc)
    with (last_same fields p r c dr dc); [reflexivity|].
  eapply farthest_unique; [|apply last_same_farthest, Hd].
  eapply farthest_transfer; [apply last_same_farthest, Hd | |].
  - intros n Hn. unfold occupied_at.
    destruct (ValidCoords (r + n * dr) (c + n * dc)) eqn:Hv; [|reflexivity]. simpl.
    apply Player_ValidCoords_on_board in Hv. f_equal.
    rewrite at_set_other; auto.
    2:{ intros E. symmetry in E. revert E. apply ray_not_origin; auto. }
    destruct (Hat _ _ Hv) as (Hin & Hout).
    destruct (cell_in_dec (r + n * dr, c + n * dc) (flips fields p r c)) as [Hi|Hi].
    + rewrite (Hin Hi).
      destruct (at_ fields (r + n * dr) (c + n * dc)); reflexivity.
    + rewrite (Hout Hi). reflexivity.
  - intros n Hn HL Hocc. unfold player_at. unfold occupied_at in Hocc.
    apply andb_true_iff in Hocc as (Hv & _). apply Player_ValidCoords_on_board in Hv.
    rewrite at_set_other; auto.
    2:{ intros E. symmetry in E. revert E. apply ray_not_origin; auto. }
    destruct (Hat _ _ Hv) as (_ & Hout). rewrite Hout; [reflexivity|].
    intros Hi. apply flips_In in Hi as (dr' & dc' & m & Hd' & Hm & E1 & E2).
    destruct (Z.eq_dec dr dr') as [<-|Hne]; [destruct (Z.eq_dec dc dc') as [<-|Hne]|].
    + assert (E : (r + n * dr, c + n * dc) = (r + m * dr, c + m * dc)) by congruence.
      apply ray_inj in E; auto. lia.
    + apply (ray_disjoint r c dr dc dr dc' n m); auto; try lia; congruence.
    + apply (ray_disjoint r c dr dc dr' dc' n m); auto; try lia; congruence.
Qed.

Lemma origin_not_flipped (fields : list Player) (p : Player) (r c : Z) :
  ~ In (r, c) (flips fields p r c).
Proof.
  intros H. apply flips_In in H as (dr & dc & n & Hd & Hn & E1 & E2).
  apply (ray_not_origin r c dr dc n Hd); [lia | congruence].
Qed.

Lemma DoMove_UndoMove_Done (board : Board) (move : Move) :
  wf_board board -> on_board (row move) (col move) ->
  at_ (fields board) (row move) (col move) = NONE ->
  exists board', DoMove board move = Done board' /\ wf_board board' /\
                 next_player board' = Other (next_player board) /\
                 UndoMove board' move = Done board.
Proof.
  destruct board as [f p]. destruct move as [r c]. unfold wf_board. simpl.
  intros Hlen Hrc Hempty. unfold DoMove. simpl.
  rewrite Hempty. simpl.
  set (f1 := grid_set f r c p).
  assert (Hlen1 : length f1 = 64%nat) by (unfold f1; rewrite length_grid_set; exact Hlen).
  destruct (DoFlips_spec f1 p r c Hlen1) as (f2 & E2 & Hflip2). rewrite E2. simpl.
  pose proof Hflip2 as (Hlen2 & Hat2).
  eexists. split; [reflexivity|]. simpl. split; [exact Hlen2|]. split; [reflexivity|].
  unfold UndoMove. simpl. rewrite Other_involutive.
  assert (Hp : at_ f2 r c = p).
  { destruct (Hat2 r c Hrc) as (_ & Hout). rewrite Hout by apply origin_not_flipped.
    unfold f1. apply at_set_same; auto. }
  rewrite Hp, Player_eqb_refl. simpl.
  set (f3 := grid_set f2 r c NONE).
  assert (Hlen3 : length f3 = 64%nat) by (unfold f3; rewrite length_grid_set; exact Hlen2).
  destruct (DoFlips_spec f3 p r c Hlen3) as (f4 & E4 & Hlen4 & Hat4). rewrite E4. simpl.
  unfold f3 in Hat4. rewrite (flips_stable f1 f2 p NONE r c Hrc Hlen1 Hflip2) in Hat4.
  f_equal. f_equal. apply (grid_ext NONE); auto.
  intros r' c' Hb. fold (at_ f4 r' c') (at_ f r' c').
  destruct (Hat4 r' c' Hb) as (Hin4 & Hout4). destruct (Hat2 r' c' Hb) as (Hin2 & Hout2).
  destruct (cell_in_dec (r', c') (flips f1 p r c)) as [Hi|Hi].
  - assert (Hne : (r, c) <> (r', c')).
    { intros E; inversion E; subst. exact (origin_not_flipped _ _ _ _ Hi). }
    rewrite (Hin4 Hi), at_set_other, (Hin2 Hi), Other_involutive; auto.
    unfold f1. apply at_set_other; auto.
  - rewrite (Hout4 Hi).
    destruct (Z.eq_dec r r') as [<-|Hne]; [destruct (Z.eq_dec c c') as [<-|Hne]|].
    + rewrite at_set_same; auto.
    + rewrite at_set_other, (Hout2 Hi); auto; try congruence.
      unfold f1. apply at_set_other; auto. congruence.
    + rewrite at_set_other, (Hout2 Hi); auto; try congruence.
      unfold f1. apply at_set_other; auto. congruence.
Qed.

Lemma Board_eqb_refl (board : Board) : Board_eqb board board = true.
Proof.
  unfold Board_eqb. rewrite Player_eqb_refl, andb_true_r.
  apply forallb_forall. intros rc _. apply Player_eqb_refl.
Qed.

(** C3. On a board whose cell (move.row, move.col) is empty, [DoMove]
    followed by [UndoMove] of the same move gives back the board,
    [next_player] included: the very same board, which [operator==]
    ([Board_eqb]) finds equal as well. *)
Theorem DoMove_UndoMove (board : Board) (move : Move) :
  wf_board board -> on_board (row move) (col move) ->
  at_ (fields board) (row move) (col move) = NONE ->
  exists board' board'',
    DoMove board move = Done board' /\ UndoMove board' move = Done board'' /\
    board'' = board /\ Board_eqb board'' board = true.
Proof.
  intros Hwf Hrc Hempty.
  destruct (DoMove_UndoMove_Done board move Hwf Hrc Hempty) as (board' & E & _ & _ & E').
  exists board', board. repeat split; auto. apply Board_eqb_refl.
Qed.

Lemma DoMove_UndoMove_witness :
  wf_board InitialBoard /\ on_board 2 2 /\ at_ (fields InitialBoard) 2 2 = NONE /\
  exists board' board'',
    DoMove InitialBoard (mkMove 2 2) = Done board' /\
    UndoMove board' (mkMove 2 2) = Done board'' /\
    board'' = InitialBoard /\ Board_eqb board'' InitialBoard = true.
Proof.
  split; [reflexivity|]. split; [unfold on_board; lia|]. split; [reflexivity|].
  apply (DoMove_UndoMove InitialBoard (mkMove 2 2)).
  - reflexivity.
  - unfold on_board; simpl; lia.
  - reflexivity.
Defined.

Lemma HasOccupiedNeighbor_Done (fields : list Player) (r c : Z) :
  at_ fields r c = NONE ->
  HasOccupiedNeighbor fields r c = Done (occupied_neighbor fields r c).
Proof.
  intros He. unfold occupied_neighbor, HasOccupiedNeighbor. rewrite He. reflexivity.
Qed.

Lemma occupied_neighbor_adjacent (fields : list Player) (r c : Z) :
  on_board r c -> at_ fields r c = NONE ->
  (occupied_neighbor fields r c = true <->
   exists r2 c2, adjacent r c r2 c2 /\ on_board r2 c2 /\ at_ fields r2 c2 <> NONE).
Proof.
  intros (Hr & Hc) He. unfold occupied_neighbor, HasOccupiedNeighbor. rewrite He.
  cbn [Player_eqb int_of_Player Z.eqb negb]. unfold H, W.
  rewrite existsb_exists. unfold adjacent, on_board. split.
  - intros (r2 & Hr2 & Hex). apply existsb_exists in Hex as (c2 & Hc2 & Hocc).
    apply In_Zrange in Hr2, Hc2. apply negb_true_iff, Player_eqb_neq in Hocc.
    exists r2, c2.
    assert (Hne : r2 <> r \/ c2 <> c).
    { destruct (Z.eq_dec r2 r) as [->|]; [|auto]. destruct (Z.eq_dec c2 c) as [->|]; [|auto].
      congruence. }
    destruct (0 <? r) eqn:E1, (r <? 8 - 1) eqn:E2, (0 <? c) eqn:E3, (c <? 8 - 1) eqn:E4;
      repeat split; try exact Hocc; try exact Hne; lia.
  - intros (r2 & c2 & (Hr2 & Hc2 & Hne) & (Hb1 & Hb2) & Hocc).
    exists r2. split.
    + apply In_Zrange. destruct (0 <? r) eqn:E1, (r <? 8 - 1) eqn:E2; lia.
    + apply existsb_exists. exists c2. split.
      * apply In_Zrange. destruct (0 <? c) eqn:E3, (c <? 8 - 1) eqn:E4; lia.
      * apply negb_true_iff, Player_eqb_neq. exact Hocc.
Qed.

Lemma is_candidate_candidate (fields : list Player) (r c : Z) :
  on_board r c -> (is_candidate fields (r, c) = true <-> candidate fields r c).
Proof.
  intros Hrc. unfold is_candidate, candidate. simpl. split.
  - intros H. apply andb_true_iff in H as (He & Hn). apply Player_eqb_eq in He.
    apply occupied_neighbor_adjacent in Hn; auto.
  - intros (_ & He & Hn). apply occupied_neighbor_adjacent in Hn; auto.
    rewrite He, Hn. reflexivity.
Qed.

Lemma In_candidates (fields : list Player) (move : Move) :
  In move (candidates fields) <-> candidate fields (row move) (col move).
Proof.
  unfold candidates. rewrite in_map_iff. split.
  - intros ([r c] & <- & Hin). apply filter_In in Hin as (Hin & H). simpl.
    apply In_all_cells in Hin. apply is_candidate_candidate; auto.
  - intros Hc. exists (row move, col move). split; [destruct move; reflexivity|].
    apply filter_In. pose proof Hc as (Hb & _).
    split; [apply In_all_cells, Hb | apply is_candidate_candidate; auto].
Qed.

Lemma HasFlips_dirs_Done (fields : list Player) (p : Player) (r c : Z)
    (dirs : list (Z * Z)) :
  (forall dr dc, In (dr, dc) dirs -> -1 <= dr <= 1 /\ -1 <= dc <= 1) ->
  HasFlips_dirs fields p r c dirs =
  Done (existsb (fun d => (negb (fst d =? 0) || negb (snd d =? 0))
                            && (1 <? last_same fields p r c (fst d) (snd d))) dirs).
Proof.
  induction dirs as [|[dr dc] dirs IH]; intros Hdirs;
    cbn [HasFlips_dirs existsb fst snd]; [reflexivity|].
  destruct (Hdirs dr dc (or_introl eq_refl)) as (Hr & Hc).
  assert (IH' := IH (fun dr dc H => Hdirs dr dc (or_intror H))). clear IH.
  destruct (negb (dr =? 0) || negb (dc =? 0)) eqn:Ht; cbn [andb orb]; [|exact IH'].
  assert (Hd : is_dir dr dc) by (apply dir_test in Ht; unfold is_dir; auto).
  rewrite (HasFlips_scan_last_same fields p r c dr dc Hd). cbn [bind].
  destruct (1 <? last_same fields p r c dr dc); [reflexivity | exact IH'].
Qed.

Lemma HasFlips_Done (fields : list Player) (p : Player) (r c : Z) :
  HasFlips fields p r c = Done (has_flip fields p r c).
Proof.
  unfold HasFlips, has_flip. apply HasFlips_dirs_Done.
  intros dr dc H. apply In_directions, H.
Qed.


(** ** The array of moves *)

Lemma moves_store_Done (moves : list Move) (i : Z) (m : Move) :
  0 <= i < MAX_MOVES ->
  moves_store moves i m = Done (list_set (Z.to_nat i) m moves).
Proof.
  intros Hi. unfold moves_store.
  destruct ((0 <=? i) && (i <? MAX_MOVES)) eqn:E; [reflexivity | lia].
Qed.

(** The first loop of [ListMoves] appends the candidates among [cells]
    to the first [total_moves] entries of the array, as long as the array
    has room for them. *)
Lemma ListMoves_collect_spec (fields : list Player) (cells : list (Z * Z)) :
  forall moves total_moves,
  length moves = 60%nat -> 0 <= total_moves ->
  total_moves + Z.of_nat (length (filter (is_candidate fields) cells)) <= 60 ->
  exists moves',
    ListMoves_collect fields cells moves total_moves =
    Done (moves', total_moves + Z.of_nat (length (filter (is_candidate fields) cells))) /\
    length moves' = 60%nat /\
    firstn (Z.to_nat (total_moves
                      + Z.of_nat (length (filter (is_candidate fields) cells)))) moves' =
    firstn (Z.to_nat total_moves) moves
    ++ map (fun rc => mkMove (fst rc) (snd rc)) (filter (is_candidate fields) cells).
Proof.
  induction cells as [|[r c] cells IH]; intros moves total Hlen Htot Hroom.
  - exists moves. simpl. rewrite Z.add_0_r, app_nil_r. auto.
  - cbn [ListMoves_collect filter] in *.
    destruct (Player_eqb (at_ fields r c) NONE) eqn:He.
    + assert (Hc : is_candidate fields (r, c) = occupied_neighbor fields r c)
        by (unfold is_candidate; cbn [fst snd]; rewrite He; reflexivity).
      rewrite Hc in *. clear Hc.
      apply Player_eqb_eq in He. rewrite (HasOccupiedNeighbor_Done _ _ _ He).
      cbn [bind].
      destruct (occupied_neighbor fields r c) eqn:Hn.
      * cbn [length map fst snd] in *. rewrite moves_store_Done by (unfold MAX_MOVES; lia).
        cbn [bind].
        destruct (IH (list_set (Z.to_nat total) (mkMove r c) moves) (total + 1))
          as (moves' & E & Hlen' & Hfirst); [rewrite length_list_set; exact Hlen | lia | lia |].
        exists moves'. rewrite E. split; [do 2 apply f_equal; lia|]. split; [exact Hlen'|].
        replace (total + Z.of_nat (S (length (filter (is_candidate fields) cells))))
          with (total + 1 + Z.of_nat (length (filter (is_candidate fields) cells))) by lia.
        rewrite Hfirst. replace (Z.to_nat (total + 1)) with (S (Z.to_nat total)) by lia.
        rewrite firstn_list_set_snoc by lia. rewrite <- app_assoc. reflexivity.
      * apply IH; auto.
    + assert (Hc : is_candidate fields (r, c) = false)
        by (unfold is_candidate; cbn [fst snd]; rewrite He; reflexivity).
      rewrite Hc in *. cbn [bind]. apply IH; auto.
Qed.

(** The second loop of [ListMoves] moves the flipping moves among the
    entries [i .. i+k-1] to the entries from [flipping_moves] on, and
    leaves the array as it is when there is none. *)
Lemma ListMoves_compact_spec (fields : list Player) (p : Player) (k : nat) :
  forall i moves flipping_moves,
  length moves = 60%nat -> 0 <= flipping_moves <= i -> i + Z.of_nat k <= 60 ->
  let hf := fun m => has_flip fields p (row m) (col m) in
  let found := filter hf (firstn k (skipn (Z.to_nat i) moves)) in
  exists moves',
    ListMoves_compact k fields p i moves flipping_moves =
    Done (moves', flipping_moves + Z.of_nat (length found)) /\
    length moves' = 60%nat /\
    firstn (Z.to_nat (flipping_moves + Z.of_nat (length found))) moves' =
    firstn (Z.to_nat flipping_moves) moves ++ found /\
    (found = [] -> moves' = moves).
Proof.
  induction k as [|k IH]; intros i moves fl Hlen Hfl Hroom hf found.
  - exists moves. subst found. simpl. rewrite Z.add_0_r, app_nil_r. auto.
  - cbn [ListMoves_compact]. rewrite HasFlips_Done. cbn [bind].
    assert (Hi : (Z.to_nat i < length moves)%nat) by (clear - Hlen Hfl Hroom; lia).
    assert (Hfound : found = filter hf (moves_at moves i
                                        :: firstn k (skipn (S (Z.to_nat i)) moves))).
    { subst found. rewrite (firstn_skipn_cons (mkMove 0 0)) by exact Hi. reflexivity. }
    cbn [filter] in Hfound. fold (hf (moves_at moves i)).
    destruct (hf (moves_at moves i)) eqn:Hh.
    + rewrite moves_store_Done by (unfold MAX_MOVES; lia). cbn [bind].
      destruct (IH (i + 1) (list_set (Z.to_nat fl) (moves_at moves i) moves) (fl + 1))
        as (moves' & E & Hlen' & Hfirst & _);
        [rewrite length_list_set; exact Hlen | lia | lia |].
      cbv zeta in E, Hfirst. fold hf in E, Hfirst.
      replace (Z.to_nat (i + 1)) with (S (Z.to_nat i)) in E, Hfirst by lia.
      rewrite skipn_list_set_lt in E, Hfirst by lia.
      exists moves'. rewrite E, Hfound. cbn [length].
      split; [do 2 apply f_equal; lia|]. split; [exact Hlen'|]. split; [|discriminate].
      replace (fl + Z.of_nat (S (length (filter hf (firstn k (skipn (S (Z.to_nat i)) moves))))))
        with (fl + 1 + Z.of_nat (length (filter hf (firstn k (skipn (S (Z.to_nat i)) moves)))))
        by lia.
      rewrite Hfirst. replace (Z.to_nat (fl + 1)) with (S (Z.to_nat fl)) by lia.
      rewrite firstn_list_set_snoc by lia. rewrite <- app_assoc. reflexivity.
    + destruct (IH (i + 1) moves fl) as (moves' & E & Hlen' & Hfirst & Hsame);
        [exact Hlen | lia | lia |].
      cbv zeta in E, Hfirst, Hsame. fold hf in E, Hfirst, Hsame.
      replace (Z.to_nat (i + 1)) with (S (Z.to_nat i)) in E, Hfirst, Hsame by lia.
      exists moves'. rewrite E, Hfound. auto.
Qed.

Lemma corner_block (fields : list Player) (r c r1 c1 r2 c2 r3 c3 : Z) :
  on_board r c -> on_board r1 c1 -> on_board r2 c2 -> on_board r3 c3 ->
  (forall r' c', adjacent r c r' c' -> on_board r' c' ->
                 (r', c') = (r1, c1) \/ (r', c') = (r2, c2) \/ (r', c') = (r3, c3)) ->
  is_candidate fields (r, c) = true ->
  is_candidate fields (r1, c1) = false \/ is_candidate fields (r2, c2) = false \/
  is_candidate fields (r3, c3) = false.
Proof.
  intros Hb Hb1 Hb2 Hb3 Hadj H.
  apply is_candidate_candidate in H as (_ & _ & r' & c' & Ha & Hb' & Hocc); auto.
  assert (Hno : is_candidate fields (r', c') = false).
  { unfold is_candidate. simpl. apply Player_eqb_neq in Hocc. rewrite Hocc. reflexivity. }
  destruct (Hadj r' c' Ha Hb') as [E|[E|E]]; inversion E; subst; auto.
Qed.

Lemma candidates_le_60 (fields : list Player) :
  (length (filter (is_candidate fields) all_cells) <= 60)%nat.
Proof.
  apply filter_all_cells_le_60; apply corner_block;
    try (unfold on_board; lia);
    unfold adjacent, on_board; intros r' c' Ha Hb;
    match goal with
    | |- (_, _) = (?a, ?b) \/ (_, _) = (?a', ?b') \/ (_, _) = (?a'', ?b'') =>
        assert (Hc : (r' = a /\ c' = b) \/ (r' = a' /\ c' = b') \/ (r' = a'' /\ c' = b''))
          by lia;
        destruct Hc as [(-> & ->)|[(-> & ->)|(-> & ->)]]; auto
    end.
Qed.

Lemma length_candidates (fields : list Player) :
  length (candidates fields) = length (filter (is_candidate fields) all_cells).
Proof. unfold candidates. apply length_map. Qed.

(** [ListMoves] returns normally, whatever array of sixty moves it is
    given; the entries below the count returned are [legal_moves]. *)
Lemma ListMoves_Done (board : Board) (moves : list Move) :
  length moves = 60%nat ->
  exists moves',
    ListMoves board moves = Done (moves', Z.of_nat (length (legal_moves board))) /\
    length moves' = 60%nat /\
    firstn (length (legal_moves board)) moves' = legal_moves board.
Proof.
  intros Hlen. unfold ListMoves.
  pose proof (candidates_le_60 (fields board)) as Hle.
  rewrite <- length_candidates in Hle.
  destruct (ListMoves_collect_spec (fields board) all_cells moves 0 Hlen)
    as (moves1 & E1 & Hlen1 & Hfirst1);
    [lia | rewrite <- length_candidates; lia |].
  fold (candidates (fields board)) in Hfirst1.
  rewrite <- length_candidates in E1, Hfirst1.
  rewrite Z.add_0_l in E1, Hfirst1. rewrite Nat2Z.id in Hfirst1.
  replace (Z.to_nat 0) with O in Hfirst1 by reflexivity.
  rewrite firstn_O, app_nil_l in Hfirst1.
  rewrite E1. cbn [bind]. rewrite Nat2Z.id.
  destruct (ListMoves_compact_spec (fields board) (next_player board)
              (length (candidates (fields board))) 0 moves1 0 Hlen1)
    as (moves2 & E2 & Hlen2 & Hfirst2 & Hsame); [lia | lia |].
  cbv zeta in E2, Hfirst2, Hsame.
  replace (Z.to_nat 0) with O in E2, Hfirst2, Hsame by reflexivity.
  rewrite skipn_O, Hfirst1 in E2, Hfirst2, Hsame.
  rewrite firstn_O, app_nil_l, Z.add_0_l, Nat2Z.id in Hfirst2.
  rewrite Z.add_0_l in E2.
  rewrite E2. cbn [bind]. unfold legal_moves.
  destruct (filter _ (candidates (fields board))) as [|m fl] eqn:Ef.
  - specialize (Hsame eq_refl). subst moves2. exists moves1.
    split; [reflexivity|]. split; [exact Hlen1 | exact Hfirst1].
  - exists moves2.
    replace (0 <? Z.of_nat (length (m :: fl))) with true
      by (symmetry; apply Z.ltb_lt; cbn [length]; lia).
    split; [reflexivity|]. split; [exact Hlen2 | exact Hfirst2].
Qed.

Lemma Evaluate_loop_Done (fields : list Player) (p q : Player) (cells : list (Z * Z)) :
  forall score,
  Evaluate_loop fields p q cells score = Done (score + sum_values fields p q cells).
Proof.
  induction cells as [|[r c] cells IH]; intros score; cbn [Evaluate_loop sum_values fold_right].
  - apply f_equal; lia.
  - fold (sum_values fields p q cells). unfold cell_value. cbn [fst snd].
    destruct (Player_eqb (at_ fields r c) NONE) eqn:He.
    + apply Player_eqb_eq in He. rewrite (HasOccupiedNeighbor_Done _ _ _ He). cbn [bind].
      destruct (occupied_neighbor fields r c).
      * rewrite !HasFlips_Done. cbn [bind]. rewrite IH.
        destruct (has_flip fields p r c), (has_flip fields q r c); apply f_equal; lia.
      * rewrite IH. apply f_equal; lia.
    + rewrite IH. apply f_equal; lia.
Qed.




Lemma sum_values_bound (fields : list Player) (p q : Player) (cells : list (Z * Z)) :
  - 2 * Z.of_nat (length cells) <= sum_values fields p q cells <= 2 * Z.of_nat (length cells).
Proof.
  induction cells as [|rc cells IH]; cbn [sum_values fold_right length]; [lia|].
  fold (sum_values fields p q cells).
  assert (-2 <= cell_value fields p q rc <= 2).
  { unfold cell_value.
    destruct (Player_eqb _ NONE); [destruct (occupied_neighbor _ _ _)|];
      [destruct (has_flip fields p _ _), (has_flip fields q _ _) | |
       destruct (Player_eqb _ p)]; lia. }
  lia.
Qed.

Lemma Evaluate_Done (board : Board) :
  Evaluate board =
  Done (sum_values (fields board) (next_player board) (Other (next_player board)) all_cells).
Proof. unfold Evaluate. rewrite Evaluate_loop_Done. reflexivity. Qed.

Lemma Evaluate_bound (board : Board) :
  exists v, Evaluate board = Done v /\ -128 <= v <= 128.
Proof.
  eexists. split; [apply Evaluate_Done|].
  pose proof (sum_values_bound (fields board) (next_player board)
                (Other (next_player board)) all_cells) as H.
  change (Z.of_nat (length all_cells)) with 64 in H. lia.
Qed.


(** ** Search *)

Lemma legal_moves_candidates (board : Board) (move : Move) :
  In move (legal_moves board) -> candidate (fields board) (row move) (col move).
Proof.
  unfold legal_moves. intros Hin. apply In_candidates.
  destruct (filter _ _) as [|m fl] eqn:Ef; [exact Hin|].
  rewrite <- Ef in Hin. apply filter_In in Hin. apply Hin.
Qed.

(** The loop of [Search] over moves that go to empty cells of the board,
    with a recursive call that returns the board as it got it and a value
    within [-128, 128]. *)
Lemma Search_loop_Done (search : Board -> outcome (Board * Z)) (moves : list Move)
    (board : Board) (k : nat) : forall i best_value,
  wf_board board ->
  (forall b, wf_board b -> exists v, search b = Done (b, v) /\ -128 <= v <= 128) ->
  0 <= i ->
  (forall j, i <= j < i + Z.of_nat k ->
     candidate (fields board) (row (moves_at moves j)) (col (moves_at moves j))) ->
  best_value <= 128 ->
  exists best, Search_loop search k i moves board best_value = Done (board, best) /\
               best_value <= best <= 128 /\ ((0 < k)%nat -> -128 <= best).
Proof.
  induction k as [|k IH]; intros i best Hwf Hsearch Hi Hmoves Hbest.
  - exists best. split; [reflexivity|]. split; [lia|]. intros H; inversion H.
  - cbn [Search_loop].
    destruct (Hmoves i ltac:(lia)) as (Hb & He & _).
    destruct (DoMove_UndoMove_Done board (moves_at moves i) Hwf Hb He)
      as (board' & E1 & Hwf' & _ & E2).
    rewrite E1. cbn [bind].
    destruct (Hsearch board' Hwf') as (v & Ev & Hv). rewrite Ev. cbn [bind].
    rewrite E2. cbn [bind].
    destruct (IH (i + 1) (if best <? - v then - v else best) Hwf Hsearch)
      as (best' & E & Hbest' & _); [lia | | |].
    + intros j Hj. apply Hmoves. lia.
    + destruct (best <? - v); lia.
    + exists best'. split; [exact E|].
      destruct (best <? - v) eqn:Hlt; [apply Z.ltb_lt in Hlt | apply Z.ltb_ge in Hlt];
        split; try lia; intros _; lia.
Qed.

Lemma moves_at_firstn (moves : list Move) (n : nat) (j : Z) :
  0 <= j < Z.of_nat n -> (n <= length moves)%nat ->
  In (moves_at moves j) (firstn n moves).
Proof.
  intros Hj Hn. unfold moves_at.
  rewrite <- (firstn_skipn n moves) at 1.
  rewrite app_nth1 by (rewrite length_firstn; lia).
  apply nth_In. rewrite length_firstn. lia.
Qed.

Lemma length_new_moves : length new_moves = 60%nat.
Proof. reflexivity. Qed.

Lemma Search_plies_Done (plies : nat) : forall board,
  wf_board board ->
  exists v, Search_plies plies board = Done (board, v) /\ -128 <= v <= 128.
Proof.
  induction plies as [|plies IH]; intros board Hwf; cbn [Search_plies].
  - destruct (Evaluate_bound board) as (v & E & Hv). rewrite E. cbn [bind]. eauto.
  - destruct (ListMoves_Done board new_moves length_new_moves)
      as (moves & E & Hlen & Hfirst).
    rewrite E. cbn [bind].
    destruct (Z.of_nat (length (legal_moves board)) <=? 0) eqn:Hnum.
    + destruct (Evaluate_bound board) as (v & Ev & Hv). rewrite Ev. cbn [bind]. eauto.
    + apply Z.leb_gt in Hnum. rewrite Nat2Z.id.
      destruct (Search_loop_Done (Search_plies plies) moves board
                  (length (legal_moves board)) 0 (MIN_VALUE - 1) Hwf IH)
        as (best & Eb & Hbest & Hlow); [lia | | unfold MIN_VALUE; lia |].
      * intros j Hj. apply legal_moves_candidates. rewrite <- Hfirst.
        apply moves_at_firstn; [lia|].
        pose proof (candidates_le_60 (fields board)) as Hle.
        rewrite <- Hfirst at 1. rewrite length_firstn. lia.
      * rewrite Eb. cbn [bind]. specialize (Hlow ltac:(lia)).
        unfold MIN_VALUE, MAX_VALUE.
        replace (-9999 <=? best) with true by (symmetry; apply Z.leb_le; lia).
        replace (best <=? 9999) with true by (symmetry; apply Z.leb_le; lia).
        cbn [negb]. exists best. split; [reflexivity | lia].
Qed.

(** C10. For every board and every depth, [Search] returns: no [CHECK]
    fails, the board is left as it was, and the value lies within
    [MIN_VALUE, MAX_VALUE]; it even lies within [-128, 128], the bound of
    [Evaluate] (64 cells, each adding between -2 and 2). *)
Theorem Search_within_bounds (board : Board) (depth : Z) :
  wf_board board ->
  exists v, Search board depth = Done (board, v) /\
            MIN_VALUE <= v <= MAX_VALUE /\ -128 <= v <= 128 /\
            exists e, Evaluate board = Done e /\ -128 <= e <= 128.
Proof.
  intros Hwf. unfold Search.
  destruct (Search_plies_Done (Z.to_nat depth) board Hwf) as (v & E & Hv).
  exists v. split; [exact E|]. unfold MIN_VALUE, MAX_VALUE.
  split; [lia|]. split; [lia|]. apply Evaluate_bound.
Qed.

Lemma Search_within_bounds_witness :
  wf_board InitialBoard /\
  exists v, Search InitialBoard 2 = Done (InitialBoard, v) /\
            MIN_VALUE <= v <= MAX_VALUE /\ -128 <= v <= 128 /\
            exists e, Evaluate InitialBoard = Done e /\ -128 <= e <= 128.
Proof.
  split; [reflexivity|]. apply (Search_within_bounds InitialBoard 2). reflexivity.
Defined.

Lemma Player_ParseMove_FormatMove (r c : Z) :
  on_board r c -> ParseMove (FormatMove (mkMove r c)) = Some (mkMove r c).
Proof.
  intros (Hr & Hc).
  each_cell r c Hr Hc; reflexivity.
Qed.

Lemma Player_ParseMove_Some (s : string) (move : Move) :
  ParseMove s = Some move ->
  String.length s = 2%nat /\ on_board (row move) (col move) /\ s = FormatMove move.
Proof.
  intros E. unfold ParseMove in E.
  destruct s as [|a [|b [|x s]]]; simpl in E; try discriminate.
  destruct (ValidCoords _ _) eqn:Hv; simpl in E; [|discriminate].
  inversion E; subst; clear E. apply Player_ValidCoords_on_board in Hv. destruct Hv as (Hr & Hc).
  split; [reflexivity|]. split; [split; assumption|].
  unfold FormatMove; simpl row; simpl col.
  change (int_of_char "A") with 65 in *. change (int_of_char "1") with 49 in *.
  change (char_at (String a (String b EmptyString)) 0) with a in *.
  change (char_at (String a (String b EmptyString)) 1) with b in *.
  replace (65 + (int_of_char a - 65)) with (int_of_char a) by lia.
  replace (49 + (int_of_char b - 49)) with (int_of_char b) by lia.
  rewrite !char_of_int_of_char by lia. reflexivity.
Qed.

End PlayerProofs.

(* ------------------------------------------------------------------ *)
(** * Both programs *)

Module Shared.

Lemma Arbiter_has_flip_flipping (state : Arbiter.State) (player r c : Z) :
  ArbiterSpec.has_flip state player r c = true <-> ArbiterSpec.flipping state player r c.
Proof.
  unfold ArbiterSpec.has_flip, ArbiterSpec.flipping, turns_some.
  rewrite existsb_exists. split.
  - intros ([dr dc] & Hin & H). cbn [fst snd] in H.
    apply andb_true_iff in H as (Hne & HL).
    apply In_directions in Hin as (Hr & Hc). apply dir_test in Hne.
    assert (Hd : is_dir dr dc) by (unfold is_dir; auto).
    exists dr, dc, (ArbiterSpec.last_same state player r c dr dc).
    split; [exact Hd|]. split; [|lia].
    destruct (ArbiterProofs.FindFlips_scan_Done state player r c dr dc Hd) as (L & E & HL' & _).
    unfold ArbiterSpec.last_same. rewrite E. exact HL'.
  - intros (dr & dc & L & Hd & Hf & HL). exists (dr, dc). split.
    + apply In_directions. destruct Hd as (Hr & Hc & _). auto.
    + cbn [fst snd]. rewrite (proj2 (dir_test dr dc)) by apply Hd. cbn [andb].
      destruct (ArbiterProofs.FindFlips_scan_Done state player r c dr dc Hd) as (L' & E & HL' & _).
      unfold ArbiterSpec.last_same. rewrite E.
      rewrite (farthest_unique _ _ _ _ HL' Hf). lia.
Qed.

Lemma Player_has_flip_flipping (fields : list PlayerCC.Player) (p : PlayerCC.Player)
    (r c : Z) :
  PlayerSpec.has_flip fields p r c = true <-> PlayerSpec.flipping fields p r c.
Proof.
  unfold PlayerSpec.has_flip, PlayerSpec.flipping, turns_some.
  rewrite existsb_exists. split.
  - intros ([dr dc] & Hin & H). cbn [fst snd] in H.
    apply andb_true_iff in H as (Hne & HL).
    apply In_directions in Hin as (Hr & Hc). apply dir_test in Hne.
    assert (Hd : is_dir dr dc) by (unfold is_dir; auto).
    exists dr, dc, (PlayerSpec.last_same fields p r c dr dc).
    split; [exact Hd|]. split; [|lia].
    apply PlayerProofs.last_same_farthest, Hd.
  - intros (dr & dc & L & Hd & Hf & HL). exists (dr, dc). split.
    + apply In_directions. destruct Hd as (Hr & Hc & _). auto.
    + cbn [fst snd]. rewrite (proj2 (dir_test dr dc)) by apply Hd. cbn [andb].
      rewrite (farthest_unique _ _ _ _
                 (PlayerProofs.last_same_farthest fields p r c dr dc Hd) Hf). lia.
Qed.

(** The list that both programs build: the kept candidates when the test
    keeps one, all candidates otherwise. *)
Lemma kept_or_all {A : Type} (test : A -> bool) (good : A -> Prop) (turning : A -> Prop)
    (all : list A) :
  (forall m, In m all <-> good m) ->
  (forall m, test m = true <-> turning m) ->
  let moves := match filter test all with [] => all | kept => kept end in
  ((exists m, good m /\ turning m) ->
   moves = filter test all /\ forall m, In m moves <-> good m /\ turning m) /\
  ((forall m, good m -> ~ turning m) ->
   moves = all /\ forall m, In m moves <-> good m).
Proof.
  intros Hall Htest moves. subst moves. split.
  - intros (m & Hg & Ht).
    assert (Hin : In m (filter test all))
      by (apply filter_In; split; [apply Hall, Hg | apply Htest, Ht]).
    assert (E : match filter test all with [] => all | kept => kept end = filter test all)
      by (destruct (filter test all); [destruct Hin | reflexivity]).
    rewrite E. split; [reflexivity|]. intros m'. rewrite filter_In, Hall, Htest. reflexivity.
  - intros Hnone.
    assert (E : filter test all = []).
    { destruct (filter test all) as [|m0 kept] eqn:Ef; [reflexivity|]. exfalso.
      assert (Hin : In m0 (filter test all)) by (rewrite Ef; left; reflexivity).
      apply filter_In in Hin as (Hin & Ht).
      apply (Hnone m0); [apply Hall, Hin | apply Htest, Ht]. }
    rewrite E. split; [reflexivity | exact Hall].
Qed.

(** C1. [ListValidMoves] of the arbiter and [ListMoves] of the player
    return only candidates: empty cells of the board with an occupied cell
    next to them.  When some candidate turns a disc over for the mover, they
    return exactly the candidates that do, and otherwise all candidates, in
    the order of the cells in both cases.  A move turns a disc over when in
    one of the eight directions the occupied run that starts next to it
    holds a disc of the mover at distance two or more; this is what the
    flip tests of the two programs, [FindFlips] with a callback that stops
    at once and [HasFlips], decide. *)
Theorem legal_moves_flipping_or_all
    (state : Arbiter.State) (board : PlayerCC.Board) (array : list PlayerCC.Move) :
  length array = 60%nat ->
  (let candidate := fun m =>
     ArbiterSpec.candidate state (Arbiter.row m) (Arbiter.col m) in
   let turning := fun m =>
     ArbiterSpec.flipping state (ArbiterSpec.mover state) (Arbiter.row m) (Arbiter.col m) in
   let test := fun m =>
     ArbiterSpec.has_flip state (ArbiterSpec.mover state) (Arbiter.row m) (Arbiter.col m) in
   exists moves, Arbiter.ListValidMoves state = Done moves /\
     (forall m, In m moves -> candidate m) /\
     (forall m, In m (Arbiter.all_moves state) <-> candidate m) /\
     (forall m, Arbiter.is_flipping state (ArbiterSpec.mover state) m = Done (test m)) /\
     (forall m, test m = true <-> turning m) /\
     ((exists m, candidate m /\ turning m) ->
      moves = filter test (Arbiter.all_moves state) /\
      forall m, In m moves <-> candidate m /\ turning m) /\
     ((forall m, candidate m -> ~ turning m) ->
      moves = Arbiter.all_moves state /\
      forall m, In m moves <-> candidate m))
  /\
  (let fields := PlayerCC.fields board in
   let candidate := fun m =>
     PlayerSpec.candidate fields (PlayerCC.row m) (PlayerCC.col m) in
   let turning := fun m =>
     PlayerSpec.flipping fields (PlayerCC.next_player board)
       (PlayerCC.row m) (PlayerCC.col m) in
   let test := fun m =>
     PlayerSpec.has_flip fields (PlayerCC.next_player board)
       (PlayerCC.row m) (PlayerCC.col m) in
   exists array' n, PlayerCC.ListMoves board array = Done (array', n) /\
     let moves := firstn (Z.to_nat n) array' in
     n = Z.of_nat (length moves) /\
     (forall m, In m moves -> candidate m) /\
     (forall m, In m (PlayerSpec.candidates fields) <-> candidate m) /\
     (forall m, PlayerCC.HasFlips fields (PlayerCC.next_player board)
                  (PlayerCC.row m) (PlayerCC.col m) = Done (test m)) /\
     (forall m, test m = true <-> turning m) /\
     ((exists m, candidate m /\ turning m) ->
      moves = filter test (PlayerSpec.candidates fields) /\
      forall m, In m moves <-> candidate m /\ turning m) /\
     ((forall m, candidate m -> ~ turning m) ->
      moves = PlayerSpec.candidates fields /\
      forall m, In m moves <-> candidate m)).
Proof.
  intros Hlen. split.
  - intros candidate turning test.
    assert (Hall : forall m, In m (Arbiter.all_moves state) <-> candidate m)
      by (intros m; apply ArbiterProofs.In_all_moves).
    assert (Htest : forall m, test m = true <-> turning m)
      by (intros m; apply Arbiter_has_flip_flipping).
    pose proof (kept_or_all test candidate turning _ Hall Htest) as K. cbv zeta in K.
    pose proof (ArbiterProofs.ListValidMoves_Done state) as E. fold test in E.
    exists (match filter test (Arbiter.all_moves state) with
            | [] => Arbiter.all_moves state
            | kept => kept
            end).
    split; [exact E|].
    split.
    { intros m Hin.
      apply (ArbiterProofs.ListValidMoves_candidates state _ m E). exact Hin. }
    split; [exact Hall|].
    split; [intros m; apply ArbiterProofs.is_flipping_has_flip|].
    split; [exact Htest|].
    exact K.
  - intros fields candidate turning test.
    assert (Hall : forall m, In m (PlayerSpec.candidates fields) <-> candidate m)
      by (intros m; apply PlayerProofs.In_candidates).
    assert (Htest : forall m, test m = true <-> turning m)
      by (intros m; apply Player_has_flip_flipping).
    pose proof (kept_or_all test candidate turning _ Hall Htest) as K. cbv zeta in K.
    destruct (PlayerProofs.ListMoves_Done board array Hlen) as (array' & E & Hlen' & Hfirst).
    exists array', (Z.of_nat (length (PlayerSpec.legal_moves board))).
    split; [exact E|]. rewrite Nat2Z.id, Hfirst. cbv zeta.
    split; [reflexivity|].
    split; [intros m Hin; apply PlayerProofs.legal_moves_candidates, Hin|].
    split; [exact Hall|].
    split; [intros m; apply PlayerProofs.HasFlips_Done|].
    split; [exact Htest|].
    exact K.
Qed.

(** On the initial position the first mover has six moves that turn a disc
    over, C3 among them, and these are the moves that are returned; the
    other six candidates are left out. *)
Lemma legal_moves_flipping_or_all_witness :
  length PlayerCC.new_moves = 60%nat /\
  (exists moves, Arbiter.ListValidMoves Arbiter.InitialState = Done moves /\
     length moves = 6%nat /\
     length (Arbiter.all_moves Arbiter.InitialState) = 12%nat /\
     forall m, In m moves <->
       ArbiterSpec.candidate Arbiter.InitialState (Arbiter.row m) (Arbiter.col m) /\
       ArbiterSpec.flipping Arbiter.InitialState 1 (Arbiter.row m) (Arbiter.col m)) /\
  (exists array' n, PlayerCC.ListMoves PlayerCC.InitialBoard PlayerCC.new_moves
                    = Done (array', n) /\
     n = 6 /\
     forall m, In m (firstn (Z.to_nat n) array') <->
       PlayerSpec.candidate (PlayerCC.fields PlayerCC.InitialBoard)
         (PlayerCC.row m) (PlayerCC.col m) /\
       PlayerSpec.flipping (PlayerCC.fields PlayerCC.InitialBoard) PlayerCC.WHITE
         (PlayerCC.row m) (PlayerCC.col m)).
Proof.
  split; [reflexivity|].
  destruct (legal_moves_flipping_or_all Arbiter.InitialState PlayerCC.InitialBoard
              PlayerCC.new_moves eq_refl)
    as ((moves & E & _ & Hall & _ & Htest & Hsome & _) &
        (array' & n & E' & Hn & _ & Hall' & _ & Htest' & Hsome' & _)).
  split.
  - exists moves. split; [exact E|].
    assert (H1 : In (Arbiter.mkMove 2 2) (Arbiter.all_moves Arbiter.InitialState))
      by (vm_compute; left; reflexivity).
    assert (H2 : ArbiterSpec.has_flip Arbiter.InitialState
                   (ArbiterSpec.mover Arbiter.InitialState) 2 2 = true)
      by (vm_compute; reflexivity).
    destruct (Hsome (ex_intro _ (Arbiter.mkMove 2 2)
                       (conj (proj1 (Hall (Arbiter.mkMove 2 2)) H1)
                             (proj1 (Htest (Arbiter.mkMove 2 2)) H2))))
      as (Hmoves & Hin).
    split; [rewrite Hmoves; vm_compute; reflexivity|].
    split; [vm_compute; reflexivity | exact Hin].
  - exists array', n. split; [exact E'|].
    assert (H1 : In (PlayerCC.mkMove 2 2)
                   (PlayerSpec.candidates (PlayerCC.fields PlayerCC.InitialBoard)))
      by (vm_compute; left; reflexivity).
    assert (H2 : PlayerSpec.has_flip (PlayerCC.fields PlayerCC.InitialBoard)
                   (PlayerCC.next_player PlayerCC.InitialBoard) 2 2 = true)
      by (vm_compute; reflexivity).
    destruct (Hsome' (ex_intro _ (PlayerCC.mkMove 2 2)
                        (conj (proj1 (Hall' (PlayerCC.mkMove 2 2)) H1)
                              (proj1 (Htest' (PlayerCC.mkMove 2 2)) H2))))
      as (Hmoves & Hin).
    split; [|exact Hin].
    rewrite Hn, Hmoves. vm_compute. reflexivity.
Defined.

(** C2, as the code has it. In each of the eight directions the scan
    runs over the occupied cells, of either player, up to the first empty
    cell or the edge of the board, and [last_n] ends as the distance [L] of
    the farthest disc of the mover in that run (0 when there is none).  The
    cells at the distances 1 .. L-1, whoever holds them, are the flips of
    the direction: [FindFlips] hands exactly these to its callback, in this
    order, [DoFlips] hands exactly these to the other player, and the scan
    of [HasFlips] reports whether there is one.  The scans end within
    [SCAN_FUEL] iterations. *)
Theorem flips_up_to_farthest_disc (dr dc : Z) :
  is_dir dr dc ->
  (forall (state : Arbiter.State) (player r c : Z),
     exists L,
       (forall fuel, (SCAN_FUEL <= fuel)%nat ->
          Arbiter.FindFlips_scan fuel state player r c dr dc 1 0 = Done L) /\
       farthest (ArbiterSpec.occupied_at state r c dr dc)
                (ArbiterSpec.player_at state player r c dr dc) L /\
       forall callback,
         Arbiter.FindFlips_dir callback state player r c dr dc =
         Done (ArbiterSpec.run_callbacks callback state
                 (ray_cells r c dr dc (Z.to_nat (L - 1)))))
  /\
  (forall (fields : list PlayerCC.Player) (p : PlayerCC.Player) (r c : Z),
     length fields = 64%nat ->
     exists L,
       (forall fuel, (SCAN_FUEL <= fuel)%nat ->
          PlayerCC.DoFlips_scan fuel fields p r c dr dc 1 0 = Done L /\
          PlayerCC.HasFlips_scan fuel fields p r c dr dc 1 = Done (1 <? L)) /\
       farthest (PlayerSpec.occupied_at fields r c dr dc)
                (PlayerSpec.player_at fields p r c dr dc) L /\
       exists fields', PlayerCC.DoFlips_dir fields p r c dr dc = Done fields' /\
         PlayerSpec.flipped_at (ray_cells r c dr dc (Z.to_nat (L - 1))) fields fields').
Proof.
  intros Hd. split.
  - intros state player r c.
    exists (ArbiterSpec.last_same state player r c dr dc).
    split; [intros fuel Hfuel; apply ArbiterProofs.FindFlips_scan_any_fuel; assumption|].
    split.
    + destruct (ArbiterProofs.FindFlips_scan_Done state player r c dr dc Hd) as (L & E & HL & _).
      unfold ArbiterSpec.last_same. rewrite E. exact HL.
    + intros callback. apply ArbiterProofs.FindFlips_dir_callbacks, Hd.
  - intros fields p r c Hlen.
    exists (PlayerSpec.last_same fields p r c dr dc).
    split.
    { intros fuel Hfuel. split.
      - apply PlayerProofs.DoFlips_scan_any_fuel; assumption.
      - apply PlayerProofs.HasFlips_scan_any_fuel; assumption. }
    split; [apply PlayerProofs.last_same_farthest, Hd|].
    pose proof Hd as (Hr & Hc & Hne).
    destruct (PlayerProofs.DoFlips_dir_spec fields p r c dr dc Hlen Hr Hc) as (fields' & E & H).
    exists fields'. split; [exact E|].
    unfold PlayerSpec.dir_flips in H. cbn [fst snd] in H.
    rewrite (proj2 (dir_test dr dc) Hne) in H. exact H.
Qed.

Lemma flips_up_to_farthest_disc_witness :
  is_dir 1 1 /\
  exists L, Arbiter.FindFlips_scan SCAN_FUEL Arbiter.InitialState 1 2 2 1 1 1 0 = Done L /\
            farthest (ArbiterSpec.occupied_at Arbiter.InitialState 2 2 1 1)
                     (ArbiterSpec.player_at Arbiter.InitialState 1 2 2 1 1) L.
Proof.
  assert (Hd : is_dir 1 1) by (unfold is_dir; lia).
  split; [exact Hd|].
  destruct (flips_up_to_farthest_disc 1 1 Hd) as (HA & _).
  destruct (HA Arbiter.InitialState 1 2 2) as (L & E & HL & _).
  exists L. split; [apply E; apply le_n | exact HL].
Defined.

(** C2, as stated, does not hold. On the initial board the first mover
    plays C3, the cell (2, 2).  Towards (1, 1) the next cell, (3, 3), holds
    a disc of the mover itself, so the run of cells of the opponent is
    empty and, as the claim words it, nothing is flipped in that direction.
    The code scans on to the farthest disc of the mover, at (4, 4), and
    flips the cell (3, 3) between them, a disc of the mover. *)
Lemma own_disc_flipped_on_first_move :
  ArbiterSpec.claimed_dir_flips SCAN_FUEL Arbiter.InitialState 1 2 2 1 1 1 [] = [] /\
  (forall callback,
     Arbiter.FindFlips_dir callback Arbiter.InitialState 1 2 2 1 1 =
     Done (ArbiterSpec.run_callbacks callback Arbiter.InitialState [(3, 3)])) /\
  Arbiter.at_ Arbiter.InitialState 3 3 = 1 /\
  exists state', Arbiter.ExecuteMove Arbiter.InitialState (Arbiter.mkMove 2 2) = Done state' /\
                 Arbiter.at_ state' 3 3 = 2.
Proof.
  split; [reflexivity|]. split; [|split; [reflexivity|]].
  - intros callback. rewrite ArbiterProofs.FindFlips_dir_callbacks by (unfold is_dir; lia).
    reflexivity.
  - eexists. split; [vm_compute; reflexivity | reflexivity].
Qed.

(** C7. For every (r, c) in [0,8)x[0,8), in the arbiter and in the player
    alike, [FormatMove] gives the letter 'A' + r followed by the digit
    '1' + c and [ParseMove] of that string gives back (r, c); and a string
    that [ParseMove] accepts has exactly two characters and is the
    [FormatMove] of a cell of the board. *)
Theorem move_code_round_trip (r c : Z) :
  on_board r c ->
  (Arbiter.FormatMove (Arbiter.mkMove r c) =
     String (ascii_of_nat (Z.to_nat (65 + r)))
       (String (ascii_of_nat (Z.to_nat (49 + c))) EmptyString) /\
   Arbiter.ParseMove (Arbiter.FormatMove (Arbiter.mkMove r c)) = Some (Arbiter.mkMove r c) /\
   forall s move, Arbiter.ParseMove s = Some move ->
     String.length s = 2%nat /\ on_board (Arbiter.row move) (Arbiter.col move) /\
     s = Arbiter.FormatMove move)
  /\
  (PlayerCC.FormatMove (PlayerCC.mkMove r c) =
     String (ascii_of_nat (Z.to_nat (65 + r)))
       (String (ascii_of_nat (Z.to_nat (49 + c))) EmptyString) /\
   PlayerCC.ParseMove (PlayerCC.FormatMove (PlayerCC.mkMove r c)) = Some (PlayerCC.mkMove r c) /\
   forall s move, PlayerCC.ParseMove s = Some move ->
     String.length s = 2%nat /\ on_board (PlayerCC.row move) (PlayerCC.col move) /\
     s = PlayerCC.FormatMove move).
Proof.
  intros Hrc. split; (split; [|split]).
  - destruct Hrc as (Hr & Hc).
    each_cell r c Hr Hc; reflexivity.
  - apply ArbiterProofs.ParseMove_FormatMove, Hrc.
  - apply ArbiterProofs.ParseMove_Some.
  - destruct Hrc as (Hr & Hc).
    each_cell r c Hr Hc; reflexivity.
  - apply PlayerProofs.Player_ParseMove_FormatMove, Hrc.
  - apply PlayerProofs.Player_ParseMove_Some.
Qed.

Lemma move_code_round_trip_witness :
  on_board 2 2 /\
  Arbiter.ParseMove (Arbiter.FormatMove (Arbiter.mkMove 2 2)) = Some (Arbiter.mkMove 2 2) /\
  PlayerCC.ParseMove (PlayerCC.FormatMove (PlayerCC.mkMove 2 2)) = Some (PlayerCC.mkMove 2 2).
Proof.
  assert (Hb : on_board 2 2) by (unfold on_board; lia).
  split; [exact Hb|].
  destruct (move_code_round_trip 2 2 Hb) as ((_ & E & _) & (_ & E' & _)).
  split; [exact E | exact E'].
Defined.

End Shared.

(* ------------------------------------------------------------------ *)
(** * Further properties of the two programs *)

(** ** Strings *)

Lemma append_nil_r (s : string) : (s ++ EmptyString)%string = s.
Proof. induction s; simpl; congruence. Qed.

Lemma string_append_assoc (a b c : string) : ((a ++ b) ++ c = a ++ (b ++ c))%string.
Proof. induction a; simpl; congruence. Qed.

Lemma string_length_append (a b : string) :
  String.length (a ++ b) = (String.length a + String.length b)%nat.
Proof. induction a; simpl; congruence. Qed.

Module EscapeProofs.
Import Arbiter EscapeSpec.

Lemma fold_left_append (f : ascii -> string) (l : list ascii) : forall t,
  fold_left (fun t ch => (t ++ f ch)%string) l t =
  (t ++ fold_right (fun ch r => (f ch ++ r)%string) EmptyString l)%string.
Proof.
  induction l as [|a l IH]; intros t; simpl.
  - clear. induction t; simpl; congruence.
  - rewrite IH. clear. induction t; simpl; [reflexivity | congruence].
Qed.

Lemma escaped_fold (s : string) :
  fold_right (fun ch r => (EscapeString_char ch ++ r)%string) EmptyString
    (list_ascii_of_string s) = escaped s.
Proof. induction s; simpl; congruence. Qed.

Lemma EscapeString_escaped (s : string) :
  EscapeString s = String quote (escaped s ++ String quote EmptyString).
Proof.
  unfold EscapeString. rewrite fold_left_append, escaped_fold. reflexivity.
Qed.


Lemma hex_digits_ok_all (ch : ascii) : hex_digits_ok ch = true.
Proof. destruct ch as [[] [] [] [] [] [] [] []]; vm_compute; reflexivity. Qed.

Ltac literal_chars :=
  let b := eval vm_compute in backslash in
  let q := eval vm_compute in quote in
  change backslash with b in *; change quote with q in *.

Lemma hex_digits (ch : ascii) :
  exists h l a b,
    char_at hexdigits (Z.to_nat (Z.shiftr (Z.land (int_of_char ch) 240) 4)) = h /\
    char_at hexdigits (Z.to_nat (Z.shiftr (Z.land (int_of_char ch) 15) 0)) = l /\
    printable h /\ printable l /\
    hex_value h = Some a /\ hex_value l = Some b /\ char_of_int (16 * a + b) = ch.
Proof.
  pose proof (hex_digits_ok_all ch) as H. unfold hex_digits_ok in H.
  cbv zeta in H.
  remember (char_at hexdigits (Z.to_nat (Z.shiftr (Z.land (int_of_char ch) 240) 4))) as h.
  remember (char_at hexdigits (Z.to_nat (Z.shiftr (Z.land (int_of_char ch) 15) 0))) as l.
  apply andb_prop in H. destruct H as [H H5].
  apply andb_prop in H. destruct H as [H H4].
  apply andb_prop in H. destruct H as [H H3].
  apply andb_prop in H. destruct H as [H1 H2].
  destruct (hex_value h) as [a|] eqn:Ea; [|discriminate].
  destruct (hex_value l) as [b|] eqn:Eb; [|discriminate].
  apply Ascii.eqb_eq in H5.
  exists h, l, a, b. unfold printable. repeat split; auto; lia.
Qed.

Lemma unescape_escaped (s : string) :
  unescape (escaped s ++ String quote EmptyString) = Some s.
Proof.
  induction s as [|ch s IH]; [reflexivity|].
  cbn [escaped]. unfold EscapeString_char. cbv zeta.
  destruct ((32 <=? int_of_char ch) && (int_of_char ch <=? 126)) eqn:Ep.
  - destruct (Ascii.eqb ch backslash || Ascii.eqb ch quote) eqn:Es.
    + apply orb_prop in Es. destruct Es as [E | E]; apply Ascii.eqb_eq in E; subst ch;
        literal_chars; simpl; rewrite IH; reflexivity.
    + apply orb_false_elim in Es. destruct Es as [E1 E2].
      cbn [append unescape]. rewrite E2, E1, IH. reflexivity.
  - destruct (hex_digits ch) as (h & l & a & b & -> & -> & _ & _ & Ha & Hb & E).
    cbn [append]. cbn [unescape].
    replace (Ascii.eqb backslash quote) with false by reflexivity.
    replace (Ascii.eqb backslash backslash) with true by reflexivity.
    cbv iota. rewrite Ha, Hb, IH, E. reflexivity.
Qed.

Lemma printable_append (a b : string) :
  Forall printable (list_ascii_of_string a) ->
  Forall printable (list_ascii_of_string b) ->
  Forall printable (list_ascii_of_string (a ++ b)).
Proof.
  induction a as [|ch a IH]; simpl; intros Ha Hb; [exact Hb|].
  inversion Ha; subst. constructor; auto.
Qed.

Lemma printable_quote : printable quote.
Proof. unfold printable. replace (int_of_char quote) with 34 by reflexivity. lia. Qed.

Lemma printable_backslash : printable backslash.
Proof. unfold printable. replace (int_of_char backslash) with 92 by reflexivity. lia. Qed.

Lemma EscapeString_char_printable (ch : ascii) :
  Forall printable (list_ascii_of_string (EscapeString_char ch)).
Proof.
  unfold EscapeString_char. cbv zeta.
  destruct ((32 <=? int_of_char ch) && (int_of_char ch <=? 126)) eqn:Ep.
  - assert (printable ch) by (unfold printable; lia).
    destruct (Ascii.eqb ch backslash || Ascii.eqb ch quote);
      cbn [list_ascii_of_string];
      repeat first [apply Forall_nil | apply Forall_cons];
      auto using printable_backslash.
  - destruct (hex_digits ch) as (h & l & a & b & -> & -> & Hh & Hl & _).
    cbn [list_ascii_of_string].
    repeat first [apply Forall_nil | apply Forall_cons];
      auto using printable_backslash.
Qed.

Lemma escaped_printable (s : string) :
  Forall printable (list_ascii_of_string (escaped s)).
Proof.
  induction s as [|ch s IH]; cbn [escaped]; [constructor|].
  apply printable_append; auto using EscapeString_char_printable.
Qed.

Lemma EscapeString_char_length (ch : ascii) :
  (1 <= String.length (EscapeString_char ch) <= 4)%nat.
Proof.
  unfold EscapeString_char. cbv zeta.
  destruct ((32 <=? int_of_char ch) && (int_of_char ch <=? 126));
    [destruct (Ascii.eqb ch backslash || Ascii.eqb ch quote)|]; cbn; lia.
Qed.

Lemma escaped_length (s : string) :
  (String.length s <= String.length (escaped s) <= 4 * String.length s)%nat.
Proof.
  induction s as [|ch s IH]; cbn [escaped String.length]; [lia|].
  rewrite string_length_append. pose proof (EscapeString_char_length ch). lia.
Qed.

Lemma escaped_plain (s : string) :
  Forall plain (list_ascii_of_string s) -> escaped s = s.
Proof.
  induction s as [|ch s IH]; cbn [escaped list_ascii_of_string]; intros H; [reflexivity|].
  inversion H as [|? ? (Hp & Hb & Hq) Hs]; subst.
  rewrite IH by assumption. unfold EscapeString_char. cbv zeta.
  unfold printable in Hp.
  replace ((32 <=? int_of_char ch) && (int_of_char ch <=? 126)) with true by lia.
  apply Ascii.eqb_neq in Hb, Hq. rewrite Hb, Hq. reflexivity.
Qed.

(** X1. Whatever bytes the line holds, [EscapeString] returns printable
    ASCII only: a quote, the escaped characters, a quote.  Every character
    of the line gives between one and four characters. *)
Theorem EscapeString_printable (s : string) :
  Forall printable (list_ascii_of_string (EscapeString s)) /\
  (exists body, EscapeString s = String quote (body ++ String quote EmptyString)) /\
  (String.length s + 2 <= String.length (EscapeString s) <= 4 * String.length s + 2)%nat.
Proof.
  rewrite EscapeString_escaped. split; [|split].
  - cbn [list_ascii_of_string]. constructor; [apply printable_quote|].
    apply printable_append; [apply escaped_printable|].
    cbn [list_ascii_of_string].
    repeat first [apply Forall_nil | apply Forall_cons]. apply printable_quote.
  - eexists. reflexivity.
  - cbn [String.length]. rewrite string_length_append. cbn [String.length].
    pose proof (escaped_length s). lia.
Qed.

(** X2. Nothing is lost by escaping: the line can be read back from the
    escaped string, so two different lines are never logged alike. *)
Theorem EscapeString_round_trip (s : string) :
  UnescapeString (EscapeString s) = Some s /\
  forall s', EscapeString s = EscapeString s' -> s = s'.
Proof.
  assert (R : forall x, UnescapeString (EscapeString x) = Some x).
  { intros x. rewrite EscapeString_escaped. cbn [UnescapeString].
    replace (Ascii.eqb quote quote) with true by reflexivity.
    apply unescape_escaped. }
  split; [apply R|].
  intros s' E. pose proof (R s) as H. rewrite E, R in H. congruence.
Qed.

(** X3. A line of printable characters other than the backslash and the
    quote comes out unchanged between the two quotes. *)
Theorem EscapeString_plain (s : string) :
  Forall plain (list_ascii_of_string s) ->
  EscapeString s = String quote (s ++ String quote EmptyString).
Proof.
  intros H. rewrite EscapeString_escaped, escaped_plain by assumption. reflexivity.
Qed.

Lemma EscapeString_plain_witness :
  Forall plain (list_ascii_of_string "C3") /\
  EscapeString "C3" = String quote ("C3" ++ String quote EmptyString).
Proof.
  assert (H : Forall plain (list_ascii_of_string "C3")).
  { unfold plain, printable.
    replace (list_ascii_of_string "C3") with ["C"%char; "3"%char] by reflexivity.
    replace (int_of_char "C") with 67 by reflexivity.
    replace (int_of_char "3") with 51 by reflexivity.
    repeat constructor; try lia; discriminate. }
  split; [exact H | apply (EscapeString_plain "C3" H)].
Defined.

End EscapeProofs.

Module MatchProofs.
Import Arbiter ArbiterSpec MatchSpec ArbiterProofs.

Lemma memchr_None (buf : string) (ch : ascii) :
  memchr buf ch = None <-> ~ In ch (list_ascii_of_string buf).
Proof.
  induction buf as [|a buf IH]; simpl.
  - split; [intros _ [] | reflexivity].
  - destruct (Ascii.eqb a ch) eqn:E.
    + apply Ascii.eqb_eq in E. split; [discriminate | intros H; exfalso; apply H; auto].
    + apply Ascii.eqb_neq in E. destruct (memchr buf ch).
      * split; [discriminate|]. intros H. exfalso.
        assert (N : ~ In ch (list_ascii_of_string buf)) by (intros X; apply H; auto).
        apply IH in N. discriminate.
      * split; [|reflexivity]. intros _ [X | X]; [congruence|].
        destruct IH as [IH _]. apply (IH eq_refl X).
Qed.

Lemma memchr_Some (buf : string) (ch : ascii) : forall p,
  memchr buf ch = Some p ->
  exists a b, buf = (a ++ String ch b)%string /\ String.length a = p /\
              ~ In ch (list_ascii_of_string a).
Proof.
  induction buf as [|x buf IH]; simpl; intros p H; [discriminate|].
  destruct (Ascii.eqb x ch) eqn:E.
  - apply Ascii.eqb_eq in E. subst x. inversion H; subst.
    exists EmptyString, buf. simpl. auto.
  - apply Ascii.eqb_neq in E. destruct (memchr buf ch) as [i|]; [|discriminate].
    inversion H; subst. destruct (IH i eq_refl) as (a & b & -> & Hl & Hn).
    exists (String x a), b. simpl. repeat split; auto.
    intros [X | X]; [congruence | auto].
Qed.

Lemma substring_prefix (a b : string) :
  substring 0 (String.length a) (a ++ b) = a.
Proof. induction a; simpl; [destruct b; reflexivity | congruence]. Qed.

Lemma ReadLine_cases (res : read_result) :
  (res = ReadError /\ ReadLine res = (EmptyString, [ReadFailed])) \/
  (res = ReadBytes EmptyString /\ ReadLine res = (EmptyString, [EndOfFile])) \/
  (exists buf, res = ReadBytes buf /\ buf <> EmptyString /\ no_newline buf /\
               ReadLine res = (EmptyString, [EndOfLineNotFound])) \/
  (exists a b, res = ReadBytes (line_of a ++ b) /\ no_newline a /\ b <> EmptyString /\
               ReadLine res = (EmptyString, [ExtraData])) \/
  (exists line, res = ReadBytes (line_of line) /\ no_newline line /\
                ReadLine res = (line, [])).
Proof.
  destruct res as [|buf]; [left; auto | right].
  destruct buf as [|x buf']; [left; auto | right].
  set (buf := String x buf').
  unfold ReadLine.
  replace (Nat.eqb (String.length buf) 0) with false by reflexivity.
  destruct (memchr buf newline) as [p|] eqn:E.
  - right. apply memchr_Some in E. destruct E as (a & b & Hb & Hl & Hn).
    rewrite Hb. rewrite string_length_append.
    destruct b as [|y b]; cbn [String.length].
    + right. exists a. unfold line_of. repeat split; auto.
      replace (String.length a + 1 - 1)%nat with (String.length a) by lia.
      replace (Nat.eqb p (String.length a)) with true
        by (symmetry; apply Nat.eqb_eq; lia).
      cbn [negb]. rewrite substring_prefix. reflexivity.
    + left. exists a, (String y b). unfold line_of.
      rewrite string_append_assoc. cbn [append].
      repeat split; auto; [discriminate|].
      replace (Nat.eqb p (String.length a + S (S (String.length b)) - 1)) with false
        by (symmetry; apply Nat.eqb_neq; lia).
      reflexivity.
  - left. exists buf. apply memchr_None in E. repeat split; auto. discriminate.
Qed.

(** X4. [ReadLine] accepts exactly a read that holds one complete line:
    some characters without a newline, then one newline, then nothing.
    Every other read gives the empty line with one message that tells the
    cause: the read failed, nothing was read, no newline, or data after the
    first newline. *)
Theorem ReadLine_one_line (res : read_result) :
  (res = ReadError /\ ReadLine res = (EmptyString, [ReadFailed])) \/
  (res = ReadBytes EmptyString /\ ReadLine res = (EmptyString, [EndOfFile])) \/
  (exists buf, res = ReadBytes buf /\ buf <> EmptyString /\ no_newline buf /\
               ReadLine res = (EmptyString, [EndOfLineNotFound])) \/
  (exists a b, res = ReadBytes (line_of a ++ b) /\ no_newline a /\ b <> EmptyString /\
               ReadLine res = (EmptyString, [ExtraData])) \/
  (exists line, res = ReadBytes (line_of line) /\ no_newline line /\
                ReadLine res = (line, [])).
Proof. apply ReadLine_cases. Qed.

Lemma EncodeHistory_fold (moves : list Move) : forall s,
  fold_left (fun s move => (s ++ FormatMove move)%string) moves s =
  (s ++ EncodeHistory moves)%string.
Proof.
  unfold EncodeHistory. induction moves as [|m moves IH]; intros s; cbn [fold_left].
  - rewrite append_nil_r. reflexivity.
  - rewrite IH. rewrite (IH (EmptyString ++ FormatMove m)%string).
    cbn [append]. rewrite string_append_assoc. reflexivity.
Qed.

Lemma EncodeHistory_cons (m : Move) (moves : list Move) :
  EncodeHistory (m :: moves) = (FormatMove m ++ EncodeHistory moves)%string.
Proof. unfold EncodeHistory at 1. cbn [fold_left]. rewrite EncodeHistory_fold. reflexivity. Qed.

Lemma EncodeHistory_app (ms1 ms2 : list Move) :
  EncodeHistory (ms1 ++ ms2) = (EncodeHistory ms1 ++ EncodeHistory ms2)%string.
Proof.
  induction ms1 as [|m ms1 IH]; [reflexivity|].
  cbn [app]. rewrite !EncodeHistory_cons, IH, string_append_assoc. reflexivity.
Qed.

Lemma EncodeHistory_length (moves : list Move) :
  String.length (EncodeHistory moves) = (2 * length moves)%nat.
Proof.
  induction moves as [|m moves IH]; [reflexivity|].
  rewrite EncodeHistory_cons, string_length_append, IH. cbn [FormatMove String.length length]. lia.
Qed.

Lemma DecodeHistory_EncodeHistory (moves : list Move) :
  Forall (fun m => on_board (row m) (col m)) moves ->
  DecodeHistory (EncodeHistory moves) = Some moves.
Proof.
  induction moves as [|m moves IH]; intros H; [reflexivity|].
  inversion H; subst. rewrite EncodeHistory_cons.
  destruct m as [r c]. cbn [FormatMove append row col] in *.
  cbn [DecodeHistory].
  change (String (char_of_int (int_of_char "A" + r))
            (String (char_of_int (int_of_char "1" + c)) EmptyString))
    with (FormatMove (mkMove r c)).
  rewrite ParseMove_FormatMove by assumption. rewrite IH by assumption. reflexivity.
Qed.

(** X5. A transcript has two characters per move, the transcript of a
    concatenation is the concatenation of the transcripts, and the moves are
    read back from it when they are on the board. *)
Theorem EncodeHistory_round_trip (moves : list Move) :
  Forall (fun m => on_board (row m) (col m)) moves ->
  DecodeHistory (EncodeHistory moves) = Some moves /\
  String.length (EncodeHistory moves) = (2 * length moves)%nat /\
  forall more, EncodeHistory (moves ++ more) =
               (EncodeHistory moves ++ EncodeHistory more)%string.
Proof.
  intros H. split; [apply DecodeHistory_EncodeHistory; assumption|].
  split; [apply EncodeHistory_length|]. intros more. apply EncodeHistory_app.
Qed.

Lemma EncodeHistory_round_trip_witness :
  Forall (fun m => on_board (row m) (col m)) full_game /\
  DecodeHistory (EncodeHistory full_game) = Some full_game.
Proof.
  assert (H : Forall (fun m => on_board (row m) (col m)) full_game).
  { unfold full_game, on_board. cbn [map].
    repeat first [apply Forall_nil | apply Forall_cons]; cbn [row col fst snd]; lia. }
  split; [exact H | apply (EncodeHistory_round_trip full_game H)].
Defined.

Lemma PlayMoves_on_board (moves : list Move) : forall s s',
  PlayMoves s moves = Some s' ->
  Forall (fun m => on_board (row m) (col m)) moves.
Proof.
  induction moves as [|m moves IH]; intros s s' H; [constructor|].
  cbn [PlayMoves] in H.
  destruct (ValidateMove s m) as [[[] reason]| |] eqn:V; try discriminate.
  destruct (ExecuteMove s m) as [s1| |] eqn:X; try discriminate.
  constructor; [|eapply IH; eassumption].
  apply ValidateMove_ok in V. destruct V as [V _]. exact V.
Qed.

Lemma RunGame_transcript (env : Env) (run : Run) :
  RunGame env = Done run -> transcript (result run) = EncodeHistory (played run).
Proof.
  unfold RunGame. intros H.
  destruct (RunGame_loop _ env _) as [l| |]; cbn [bind] in H; try discriminate.
  destruct (if IsGameOver (state l) then _ else _) as [sc| |]; cbn [bind] in H; try discriminate.
  inversion H; subst. reflexivity.
Qed.

(** X6. The transcript that [RunGame] returns can be replayed: it reads
    back as a list of moves that are valid one after the other from
    [InitialState] and lead to the state in which the match ended, two
    characters per move played. *)
Theorem transcript_replays (env : Env) :
  exists run, RunGame env = Done run /\
    exists moves, DecodeHistory (transcript (result run)) = Some moves /\
      PlayMoves InitialState moves = Some (final run) /\
      Z.of_nat (String.length (transcript (result run))) = 2 * moves_played (final run).
Proof.
  destruct (RunGame_Done env) as (run & HR & Hwf & Hle & HP & _).
  exists run. split; [exact HR|]. exists (played run).
  rewrite (RunGame_transcript env run HR).
  split; [|split; [exact HP|]].
  - apply DecodeHistory_EncodeHistory. eapply PlayMoves_on_board; eassumption.
  - rewrite EncodeHistory_length.
    destruct (PlayMoves_invariant _ _ _ InitialState_wf HP) as (_ & Hm & _).
    rewrite Hm. change (moves_played InitialState) with 0. lia.
Qed.

(** Between two places where a test differs there are two neighbouring
    places where it differs. *)
Lemma change_between (f : Z -> bool) (n : nat) : forall a,
  f a <> f (a + Z.of_nat n) ->
  exists i, a <= i < a + Z.of_nat n /\ f i <> f (i + 1).
Proof.
  induction n as [|n IH]; intros a H.
  - exfalso. apply H. f_equal. lia.
  - destruct (bool_dec (f a) (f (a + 1))) as [E | E].
    + destruct (IH (a + 1)) as (i & Hi & Hf).
      { rewrite <- E. replace (a + 1 + Z.of_nat n) with (a + Z.of_nat (S n)) by lia. exact H. }
      exists i. split; [lia | exact Hf].
    + exists a. split; [lia | exact E].
Qed.

Lemma change_between_any (f : Z -> bool) (a b : Z) :
  f a <> f b -> exists i, Z.min a b <= i < Z.max a b /\ f i <> f (i + 1).
Proof.
  intros H. destruct (Z.le_ge_cases a b) as [L | L].
  - destruct (change_between f (Z.to_nat (b - a)) a) as (i & Hi & Hf).
    { replace (a + Z.of_nat (Z.to_nat (b - a))) with b by lia. exact H. }
    exists i. split; [lia | exact Hf].
  - destruct (change_between f (Z.to_nat (a - b)) b) as (i & Hi & Hf).
    { replace (b + Z.of_nat (Z.to_nat (a - b))) with a by lia. congruence. }
    exists i. split; [lia | exact Hf].
Qed.

(** Two neighbouring cells, one empty and one occupied, give a candidate. *)
Lemma candidate_of_pair (s : State) (r c r' c' : Z) :
  on_board r c -> on_board r' c' -> adjacent r c r' c' ->
  (at_ s r c =? 0) <> (at_ s r' c' =? 0) ->
  exists r0 c0, candidate s r0 c0.
Proof.
  intros Hb Hb' Hadj Hne.
  destruct (at_ s r c =? 0) eqn:E1; destruct (at_ s r' c' =? 0) eqn:E2; try congruence.
  - exists r, c. split; [exact Hb|]. split; [lia|]. exists r', c'.
    split; [exact Hadj|]. split; [exact Hb' | lia].
  - exists r', c'. split; [exact Hb'|]. split; [lia|]. exists r, c.
    split; [unfold adjacent in *; lia|]. split; [exact Hb | lia].
Qed.

Lemma candidate_exists (s : State) (r1 c1 r0 c0 : Z) :
  on_board r1 c1 -> at_ s r1 c1 <> 0 ->
  on_board r0 c0 -> at_ s r0 c0 = 0 ->
  exists r c, candidate s r c.
Proof.
  intros H1 Hocc H0 Hemp.
  destruct (at_ s r1 c0 =? 0) eqn:E.
  - (* along the row r1, from column c1 to column c0 *)
    destruct (change_between_any (fun c => at_ s r1 c =? 0) c1 c0) as (i & Hi & Hf).
    { rewrite E. apply Z.eqb_neq in Hocc. rewrite Hocc. discriminate. }
    apply (candidate_of_pair s r1 i r1 (i + 1)); auto; unfold on_board, adjacent in *; lia.
  - (* along the column c0, from row r1 to row r0 *)
    destruct (change_between_any (fun r => at_ s r c0 =? 0) r1 r0) as (i & Hi & Hf).
    { rewrite E. apply Z.eqb_eq in Hemp. rewrite Hemp. discriminate. }
    apply (candidate_of_pair s i c0 (i + 1) c0); auto; unfold on_board, adjacent in *; lia.
Qed.

Lemma ListValidMoves_nil (s : State) :
  ListValidMoves s = Done [] <-> all_moves s = [].
Proof.
  rewrite ListValidMoves_Done.
  destruct (filter _ (all_moves s)) as [|m l] eqn:E.
  - split; congruence.
  - split; [discriminate|]. intros H. rewrite H in E. discriminate.
Qed.

Lemma all_moves_nil (s : State) :
  all_moves s = [] <-> board_full s \/ board_empty s.
Proof.
  split.
  - intros H.
    assert (N : forall r c, ~ candidate s r c).
    { intros r c Hc. apply (In_all_moves s (mkMove r c)) in Hc. rewrite H in Hc. exact Hc. }
    destruct (existsb (fun rc => at_ s (fst rc) (snd rc) =? 0) all_cells) eqn:Ee;
      destruct (existsb (fun rc => negb (at_ s (fst rc) (snd rc) =? 0)) all_cells) eqn:Eo.
    + exfalso. apply existsb_exists in Ee as ([r0 c0] & Hin0 & H0).
      apply existsb_exists in Eo as ([r1 c1] & Hin1 & H1).
      apply In_all_cells in Hin0, Hin1. cbn [fst snd] in *.
      destruct (candidate_exists s r1 c1 r0 c0) as (r & c & Hc); auto; try lia.
      exact (N r c Hc).
    + right. intros r c Hb. apply In_all_cells in Hb.
      rewrite <- not_true_iff_false in Eo.
      destruct (at_ s r c =? 0) eqn:E; [lia|]. exfalso. apply Eo.
      apply existsb_exists. exists (r, c). cbn [fst snd]. rewrite E. auto.
    + left. intros r c Hb. apply In_all_cells in Hb.
      rewrite <- not_true_iff_false in Ee.
      intros E. apply Ee. apply existsb_exists. exists (r, c). cbn [fst snd].
      split; [exact Hb | lia].
    + left. intros r c Hb. apply In_all_cells in Hb.
      rewrite <- not_true_iff_false in Ee.
      intros E. apply Ee. apply existsb_exists. exists (r, c). cbn [fst snd].
      split; [exact Hb | lia].
  - intros H. destruct (all_moves s) as [|m l] eqn:E; [reflexivity|]. exfalso.
    assert (Hc : candidate s (row m) (col m)).
    { apply In_all_moves. rewrite E. left. reflexivity. }
    destruct Hc as (Hb & Hemp & r2 & c2 & _ & Hb2 & Hocc).
    destruct H as [H | H]; [exact (H _ _ Hb Hemp) | exact (Hocc (H _ _ Hb2))].
Qed.

(** X8. [ListValidMoves] returns no move exactly when the board is full or
    the board is empty. *)
Theorem no_valid_move_iff_full_or_empty (s : State) :
  ListValidMoves s = Done [] <-> board_full s \/ board_empty s.
Proof. rewrite ListValidMoves_nil. apply all_moves_nil. Qed.

Lemma occupied_cells_lt_64 (s : State) :
  occupied_cells s < 64 -> exists r c, on_board r c /\ at_ s r c = 0.
Proof.
  intros H. unfold occupied_cells in H.
  destruct (existsb (fun rc => at_ s (fst rc) (snd rc) =? 0) all_cells) eqn:E.
  - apply existsb_exists in E as ([r c] & Hin & H0). apply In_all_cells in Hin.
    exists r, c. cbn [fst snd] in H0. split; [exact Hin | lia].
  - exfalso.
    assert (L : length (filter (fun rc => negb (at_ s (fst rc) (snd rc) =? 0)) all_cells)
                = length all_cells).
    { f_equal. apply forallb_filter_id. apply forallb_forall. intros x Hx.
      rewrite <- not_true_iff_false in E.
      destruct (at_ s (fst x) (snd x) =? 0) eqn:E0; [|reflexivity].
      exfalso. apply E. apply existsb_exists. exists x. auto. }
    rewrite L, length_all_cells in H. lia.
Qed.

Lemma occupied_cells_pos (s : State) :
  0 < occupied_cells s -> exists r c, on_board r c /\ at_ s r c <> 0.
Proof.
  intros H. unfold occupied_cells in H.
  destruct (filter (fun rc => negb (at_ s (fst rc) (snd rc) =? 0)) all_cells)
    as [|[r c] l] eqn:E; [simpl in H; lia|].
  assert (Hin : In (r, c) (filter (fun rc => negb (at_ s (fst rc) (snd rc) =? 0)) all_cells))
    by (rewrite E; left; reflexivity).
  apply filter_In in Hin. destruct Hin as [Hin Hv]. apply In_all_cells in Hin.
  exists r, c. cbn [fst snd] in Hv. split; [exact Hin | lia].
Qed.

Lemma reachable_has_move (moves : list Move) (s : State) :
  PlayMoves InitialState moves = Some s ->
  moves_played s < MAX_MOVES ->
  exists move rest, ListValidMoves s = Done (move :: rest).
Proof.
  intros HP Hlt.
  destruct (PlayMoves_invariant _ _ _ InitialState_wf HP) as (Hwf & Hm & Ho).
  rewrite InitialState_occupied in Ho. change (moves_played InitialState) with 0 in Hm.
  unfold MAX_MOVES in Hlt.
  destruct (occupied_cells_lt_64 s) as (r0 & c0 & Hb0 & He0); [lia|].
  destruct (occupied_cells_pos s) as (r1 & c1 & Hb1 & Ho1); [lia|].
  destruct (ListValidMoves s) as [l| |] eqn:E;
    try (rewrite ListValidMoves_Done in E; discriminate).
  destruct l as [|move rest]; [|eauto].
  exfalso. apply ListValidMoves_nil, all_moves_nil in E.
  destruct E as [F | F]; [exact (F _ _ Hb0 He0) | exact (Ho1 (F _ _ Hb1))].
Qed.

Lemma ValidateMove_In (s : State) (move : Move) (moves : list Move) :
  ListValidMoves s = Done moves -> In move moves ->
  ValidateMove s move = Done (true, EmptyString).
Proof.
  intros E Hin. unfold ValidateMove. rewrite E. cbn [bind].
  replace (existsb (Move_eqb move) moves) with true; [reflexivity|].
  symmetry. apply existsb_exists. exists move. split; [exact Hin|].
  apply Move_eqb_eq. reflexivity.
Qed.

(** X7. A match cannot get stuck: in every state reached from
    [InitialState] by valid moves, as long as fewer than sixty moves have
    been played [ListValidMoves] returns at least one move, which
    [ValidateMove] accepts, and the game is not over. *)
Theorem valid_move_until_board_full (moves : list Move) (s : State) :
  PlayMoves InitialState moves = Some s ->
  moves_played s < MAX_MOVES ->
  exists move rest reason,
    ListValidMoves s = Done (move :: rest) /\
    ValidateMove s move = Done (true, reason) /\
    IsGameOver s = false.
Proof.
  intros HP Hlt. destruct (reachable_has_move moves s HP Hlt) as (move & rest & E).
  exists move, rest, EmptyString. split; [exact E|]. split.
  - apply (ValidateMove_In s move (move :: rest) E). left. reflexivity.
  - unfold IsGameOver, MAX_MOVES in *. lia.
Qed.

Lemma valid_move_until_board_full_witness :
  exists move rest reason,
    ListValidMoves InitialState = Done (move :: rest) /\
    ValidateMove InitialState move = Done (true, reason) /\
    IsGameOver InitialState = false.
Proof.
  apply (valid_move_until_board_full [] InitialState).
  - reflexivity.
  - unfold MAX_MOVES. cbn [moves_played InitialState]. vm_compute. reflexivity.
Defined.

Lemma count_three (s : State) (cells : list (Z * Z)) :
  (forall r c, In (r, c) cells -> cell_ok (at_ s r c)) ->
  Z.of_nat (length (filter (fun rc => at_ s (fst rc) (snd rc) =? 0) cells))
  + Z.of_nat (length (filter (fun rc => at_ s (fst rc) (snd rc) =? 1) cells))
  + Z.of_nat (length (filter (fun rc => at_ s (fst rc) (snd rc) =? 2) cells))
  = Z.of_nat (length cells).
Proof.
  induction cells as [|[r c] cells IH]; intros H; [reflexivity|].
  rewrite !count_cons. cbn [fst snd length].
  assert (Hc : cell_ok (at_ s r c)) by (apply H; left; reflexivity).
  assert (IH' := IH (fun r c Hin => H r c (or_intror Hin))).
  destruct Hc as [E | [E | E]]; rewrite E; simpl (_ =? _); lia.
Qed.

Lemma count_zero_occupied (s : State) (cells : list (Z * Z)) :
  Z.of_nat (length (filter (fun rc => at_ s (fst rc) (snd rc) =? 0) cells))
  + Z.of_nat (length (filter (fun rc => negb (at_ s (fst rc) (snd rc) =? 0)) cells))
  = Z.of_nat (length cells).
Proof.
  induction cells as [|[r c] cells IH]; [reflexivity|].
  rewrite !count_cons. cbn [fst snd length].
  destruct (at_ s r c =? 0); cbn [negb]; lia.
Qed.

Lemma count_cells_sum (s : State) :
  wf_state s ->
  count_cells 1 s + count_cells 2 s = occupied_cells s /\
  0 <= count_cells 1 s /\ 0 <= count_cells 2 s /\ occupied_cells s <= 64.
Proof.
  intros [_ Hwf]. unfold count_cells, occupied_cells.
  pose proof (count_three s all_cells) as H3.
  pose proof (count_zero_occupied s all_cells) as H2.
  rewrite length_all_cells in H3, H2.
  assert (forall r c, In (r, c) all_cells -> cell_ok (at_ s r c)) as Hok
    by (intros r c Hin; apply Hwf, In_all_cells, Hin).
  specialize (H3 Hok). lia.
Qed.

(** X9. The score tells a regular end from a forfeit.  When the loop of
    [RunGame] has written no message, stderr holding only what the two
    calls of [Quit] write in the end, the match has ended on a full board
    and its score is twice the number of discs of the first mover minus 64,
    an even number between -64 and 64.  When the loop has written one, the
    match was broken off and the score is -99 or 99.  So a score of
    magnitude 99 means a forfeit, and any other score a regular end. *)
Theorem regular_score_even (env : Env) :
  exists run, RunGame env = Done run /\
    ((messages run = Quit env 1 ++ Quit env 0 /\ IsGameOver (final run) = true /\
      count_cells 1 (final run) + count_cells 2 (final run) = 64 /\
      score (result run) = 2 * count_cells 1 (final run) - 64 /\
      -64 <= score (result run) <= 64)
     \/
     ((exists pre d, messages run = pre ++ [d] ++ Quit env 1 ++ Quit env 0) /\
      IsGameOver (final run) = false /\
      (score (result run) = -99 \/ score (result run) = 99))).
Proof.
  destruct (RunGame_Done env) as (run & HR & Hwf & Hle & HP & Hcases).
  exists run. split; [exact HR|].
  destruct (PlayMoves_invariant _ _ _ InitialState_wf HP) as (_ & Hm & Ho).
  rewrite InitialState_occupied in Ho. change (moves_played InitialState) with 0 in Hm.
  destruct (count_cells_sum (final run) Hwf) as (Hsum & H1 & H2 & H64).
  destruct Hcases as [(Hover & Hmsg & Hscore) | (Hover & Hsc & pre & d & Hmsg & _)].
  - left. unfold IsGameOver, MAX_MOVES in *. apply Z.leb_le in Hover.
    repeat split; auto; lia.
  - right. split; [exists pre, d; exact Hmsg|]. split; [exact Hover|].
    destruct Hsc as [[_ ->] | [_ ->]]; auto.
Qed.

Lemma no_newline_FormatMove (m : Move) :
  on_board (row m) (col m) -> no_newline (FormatMove m).
Proof.
  intros [Hr Hc]. unfold no_newline, FormatMove. cbn [list_ascii_of_string].
  intros [E | [E | []]].
  - assert (H : int_of_char (char_of_int (int_of_char "A" + row m)) = int_of_char newline)
      by (rewrite E; reflexivity).
    destruct (coordinate_cases _ Hr) as [R | [R | [R | [R | [R | [R | [R | R]]]]]]];
      rewrite R in H; vm_compute in H; discriminate.
  - assert (H : int_of_char (char_of_int (int_of_char "1" + col m)) = int_of_char newline)
      by (rewrite E; reflexivity).
    destruct (coordinate_cases _ Hc) as [R | [R | [R | [R | [R | [R | [R | R]]]]]]];
      rewrite R in H; vm_compute in H; discriminate.
Qed.

Lemma ReadLine_line_of (line : string) :
  no_newline line -> ReadLine (ReadBytes (line_of line)) = (line, []).
Proof.
  intros Hn. unfold ReadLine, line_of.
  destruct (memchr (line ++ String newline "") newline) as [p|] eqn:E.
  - apply memchr_Some in E. destruct E as (a & b & Hb & Hl & Ha).
    assert (a = line /\ b = EmptyString) as [-> ->].
    { clear Hl. revert a Hb Ha. unfold no_newline in Hn.
      induction line as [|x line IH]; intros a Hb Ha.
      - destruct a as [|y a]; cbn in Hb.
        + inversion Hb. auto.
        + inversion Hb. subst. exfalso. apply Ha. left. reflexivity.
      - destruct a as [|y a]; cbn in Hb.
        + inversion Hb. subst. exfalso. apply Hn. left. reflexivity.
        + inversion Hb. subst y.
          destruct (IH (fun X => Hn (or_intror X)) a H1 (fun X => Ha (or_intror X)))
            as [-> ->]. auto. }
    rewrite string_length_append. cbn [String.length].
    destruct (String.length line + 1)%nat eqn:L; [lia|]. cbn [Nat.eqb].
    replace (S n - 1)%nat with (String.length line) by lia.
    subst p. rewrite Nat.eqb_refl. cbn [negb]. rewrite substring_prefix. reflexivity.
  - exfalso. apply memchr_None in E. apply E. clear.
    induction line; cbn; auto.
Qed.

Lemma Move_eta (m : Move) : mkMove (row m) (col m) = m.
Proof. destruct m; reflexivity. Qed.

Lemma RunGame_body_Continue (env : Env) (l : Loop) (m : Move) (reason : string) (s' : State) :
  started l || start_ok env = true ->
  read_at env (moves_played (state l)) = ReadBytes (line_of (FormatMove m)) ->
  ValidateMove (state l) m = Done (true, reason) ->
  ExecuteMove (state l) m = Done s' ->
  IsGameOver s' || send_ok env (moves_played s') = true ->
  RunGame_body env l = Done (Continue (mkLoop s' (history l ++ [m]) true (stderr l))).
Proof.
  intros Hs Hr Hv Hx Hw. unfold RunGame_body. cbv zeta.
  rewrite GetNextPlayer_assert. cbv iota.
  replace (negb (started l) && negb (start_ok env)) with false
    by (destruct (started l), (start_ok env); simpl in *; congruence).
  assert (Hb : on_board (row m) (col m)) by (apply ValidateMove_ok in Hv; apply Hv).
  rewrite Hr, ReadLine_line_of by (apply no_newline_FormatMove; exact Hb).
  rewrite <- (Move_eta m) at 1. rewrite ParseMove_FormatMove by exact Hb.
  rewrite Move_eta, Hv. cbn [bind negb]. rewrite Hx. cbn [bind].
  rewrite app_nil_r.
  destruct (IsGameOver s'); cbn [negb]; [reflexivity|].
  cbn [orb] in Hw. rewrite Hw. reflexivity.
Qed.

Lemma RunGame_loop_plays (env : Env) (rest : list Move) : forall fuel l s,
  (started l = true \/ start_ok env = true) ->
  (forall n, send_ok env n = true) ->
  (forall i, (i < length rest)%nat ->
     read_at env (moves_played (state l) + Z.of_nat i) =
     ReadBytes (line_of (FormatMove (nth i rest (mkMove 0 0))))) ->
  wf_state (state l) ->
  PlayMoves (state l) rest = Some s ->
  moves_played (state l) + Z.of_nat (length rest) = MAX_MOVES ->
  (length rest <= fuel)%nat ->
  RunGame_loop fuel env l =
  Done (mkLoop s (history l ++ rest) (match rest with [] => started l | _ => true end)
          (stderr l)).
Proof.
  induction rest as [|m rest IH]; intros fuel l s Hs Hsend Hread Hwf HP Hlen Hfuel.
  - cbn [length] in Hlen. cbn [PlayMoves] in HP. inversion HP; subst s.
    destruct fuel; cbn [RunGame_loop]; unfold IsGameOver;
      replace (MAX_MOVES <=? moves_played (state l)) with true by lia;
      rewrite app_nil_r; destruct l; reflexivity.
  - cbn [length] in Hlen, Hfuel. destruct fuel as [|fuel]; [lia|].
    cbn [RunGame_loop]. unfold IsGameOver at 1.
    replace (MAX_MOVES <=? moves_played (state l)) with false by lia.
    cbn [PlayMoves] in HP.
    destruct (ValidateMove (state l) m) as [[[] reason]| |] eqn:V; try discriminate.
    destruct (ExecuteMove (state l) m) as [s1| |] eqn:X; try discriminate.
    pose proof (ValidateMove_ok _ _ _ V) as Hcand.
    destruct (ExecuteMove_occupied (state l) m Hwf Hcand) as (s1' & X' & Hwf1 & Hmp & _).
    rewrite X in X'. inversion X'; subst s1'.
    rewrite (RunGame_body_Continue env l m reason s1).
    + cbn [bind].
      rewrite (IH fuel (mkLoop s1 (history l ++ [m]) true (stderr l)) s);
        cbn [state history started stderr]; auto; try lia.
      * rewrite <- app_assoc. cbn [app]. destruct rest; reflexivity.
      * intros i Hi. specialize (Hread (S i)). cbn [nth] in Hread.
        rewrite Hmp. replace (moves_played (state l) + 1 + Z.of_nat i)
          with (moves_played (state l) + Z.of_nat (S i)) by lia.
        apply Hread. cbn [length]. lia.
    + destruct Hs as [-> | ->]; [reflexivity | apply orb_true_r].
    + specialize (Hread O). cbn [nth] in Hread.
      rewrite Z.add_0_r in Hread. apply Hread. cbn [length]. lia.
    + exact V.
    + exact X.
    + rewrite Hsend. apply orb_true_r.
Qed.

Lemma RunGame_plays (env : Env) (moves : list Move) (s : State) :
  start_ok env = true ->
  (forall n, send_ok env n = true) ->
  (forall i, (i < 60)%nat ->
     read_at env (Z.of_nat i) = ReadBytes (line_of (FormatMove (nth i moves (mkMove 0 0))))) ->
  length moves = 60%nat ->
  PlayMoves InitialState moves = Some s ->
  RunGame env =
  Done (mkRun (mkGameResult (EncodeHistory moves) (count_cells 1 s - count_cells 2 s))
          moves s (Quit env 1 ++ Quit env 0)) /\
  CalculateScore s = Done (count_cells 1 s - count_cells 2 s).
Proof.
  intros Hs Hsend Hread Hlen HP.
  destruct (PlayMoves_invariant _ _ _ InitialState_wf HP) as (Hwf & Hm & _).
  change (moves_played InitialState) with 0 in Hm.
  split; [|apply (CalculateScore_Done s Hwf)].
  unfold RunGame.
  rewrite (RunGame_loop_plays env moves _ _ s); cbn [state history started stderr];
    auto using InitialState_wf.
  - cbn [bind app state history stderr]. unfold IsGameOver, MAX_MOVES.
    replace (60 <=? moves_played s) with true by lia.
    rewrite (CalculateScore_Done s Hwf). reflexivity.
  - intros i Hi. change (moves_played InitialState) with 0. rewrite Z.add_0_l.
    apply Hread. lia.
  - change (moves_played InitialState) with 0. unfold MAX_MOVES. lia.
  - unfold MAX_MOVES. simpl. lia.
Qed.

(** X10. A valid game of sixty moves is played through: when Start and
    every forwarded move can be written and every read returns the next
    move of the game as one line, [RunGame] executes exactly these moves
    and returns their transcript with the score of the final board.  Its
    loop writes nothing to stderr; what stderr holds in the end is what the
    two calls of [Quit] write when they reap the processes, the one of the
    second mover first: a message for each process that did not exit with
    status 0. *)
Theorem legal_game_is_played (env : Env) (moves : list Move) (s : State) :
  start_ok env = true ->
  (forall n, send_ok env n = true) ->
  (forall i, (i < 60)%nat ->
     read_at env (Z.of_nat i) = ReadBytes (line_of (FormatMove (nth i moves (mkMove 0 0))))) ->
  length moves = 60%nat ->
  PlayMoves InitialState moves = Some s ->
  exists sc,
    RunGame env = Done (mkRun (mkGameResult (EncodeHistory moves) sc) moves s
                          (Quit env 1 ++ Quit env 0)) /\
    CalculateScore s = Done sc.
Proof.
  intros Hs Hsend Hread Hlen HP.
  exists (count_cells 1 s - count_cells 2 s).
  apply RunGame_plays; assumption.
Qed.

Lemma legal_game_is_played_witness :
  exists sc,
    RunGame (env_of_moves full_game second_exits_3) =
    Done (mkRun (mkGameResult (EncodeHistory full_game) sc) full_game full_board
            [NotExitedNormally 768]) /\
    CalculateScore full_board = Done sc.
Proof.
  apply (legal_game_is_played (env_of_moves full_game second_exits_3) full_game full_board).
  - reflexivity.
  - intros n. reflexivity.
  - intros i Hi. unfold env_of_moves. cbn [read_at]. rewrite Nat2Z.id. reflexivity.
  - reflexivity.
  - vm_compute. reflexivity.
Defined.

(** C5. [IsGameOver] holds exactly when sixty moves have been played,
    whatever the board: it does not hold of [empty_state], which has no
    valid move.  Whatever the reads, the writes and [waitpid] return, a
    match returns, and either it was broken off before the sixtieth move,
    its loop leaving a message on stderr, or it has played exactly sixty
    valid moves and its loop has written none; the score is then
    [CalculateScore] of the final board, the number of discs of the first
    mover minus that of the second mover.  The loop does run up to the
    sixtieth move: when Start and the forwarded moves can be written and
    the reads return the moves of a valid game of sixty moves, one line
    each, these sixty moves are played; [full_game] is such a game, and it
    ends with ten discs more for the second mover.  In every case stderr
    ends with what the two calls of [Quit] write. *)
Theorem match_runs_sixty_moves :
  (forall s, IsGameOver s = true <-> MAX_MOVES <= moves_played s) /\
  (ListValidMoves empty_state = Done [] /\ IsGameOver empty_state = false) /\
  (forall env, exists run, RunGame env = Done run /\
     PlayMoves InitialState (played run) = Some (final run) /\
     ((messages run = Quit env 1 ++ Quit env 0 /\
       length (played run) = 60%nat /\ moves_played (final run) = 60 /\
       CalculateScore (final run) = Done (score (result run)) /\
       score (result run) = count_cells 1 (final run) - count_cells 2 (final run))
      \/
      ((exists pre d, messages run = pre ++ [d] ++ Quit env 1 ++ Quit env 0) /\
       IsGameOver (final run) = false /\ (length (played run) < 60)%nat))) /\
  (forall env moves s,
     start_ok env = true ->
     (forall n, send_ok env n = true) ->
     (forall i, (i < 60)%nat ->
        read_at env (Z.of_nat i) =
        ReadBytes (line_of (FormatMove (nth i moves (mkMove 0 0))))) ->
     length moves = 60%nat ->
     PlayMoves InitialState moves = Some s ->
     RunGame env =
     Done (mkRun (mkGameResult (EncodeHistory moves) (count_cells 1 s - count_cells 2 s))
             moves s (Quit env 1 ++ Quit env 0)) /\
     CalculateScore s = Done (count_cells 1 s - count_cells 2 s)) /\
  (length full_game = 60%nat /\
   PlayMoves InitialState full_game = Some full_board /\
   RunGame (env_of_moves full_game (fun _ => exited_normally)) =
   Done (mkRun (mkGameResult (EncodeHistory full_game) (-10)) full_game full_board [])).
Proof.
  split; [intros s; unfold IsGameOver; lia|].
  split; [split; vm_compute; reflexivity|].
  split; [|split].
  - intros env.
    destruct (RunGame_Done env) as (run & E & Hwf & Hmax & Hplay & H).
    exists run. split; [exact E|]. split; [exact Hplay|].
    destruct (PlayMoves_invariant _ _ _ InitialState_wf Hplay) as (_ & Hmp & _).
    change (moves_played InitialState) with 0 in Hmp.
    destruct H as [(Hover & Hmsg & Hscore) | (Hover & _ & pre & d & Hmsg & _)].
    + left. split; [exact Hmsg|].
      unfold IsGameOver in Hover. unfold MAX_MOVES in *.
      split; [lia|]. split; [lia|].
      split; [|exact Hscore]. rewrite (CalculateScore_Done _ Hwf), Hscore. reflexivity.
    + right. split; [exists pre, d; exact Hmsg|]. split; [exact Hover|].
      unfold IsGameOver, MAX_MOVES in Hover. lia.
  - intros env moves s. apply RunGame_plays.
  - split; [reflexivity|]. split; [vm_compute; reflexivity|].
    vm_compute. reflexivity.
Qed.

(** X24. What a player has to write for its move to be taken: the bytes
    of one read are parsed as a move exactly when they are the two
    characters of a move on the board followed by one newline, and nothing
    else. *)
Theorem move_line_accepted (buf : string) (move : Move) :
  ParseMove (fst (ReadLine (ReadBytes buf))) = Some move <->
  buf = line_of (FormatMove move) /\ on_board (row move) (col move).
Proof.
  split.
  - intros H. destruct (ParseMove_Some _ _ H) as (Hlen & Hb & Hline).
    split; [|exact Hb]. rewrite <- Hline.
    destruct (ReadLine_cases (ReadBytes buf))
      as [(E & _) | [(_ & R) | [(b & _ & _ & _ & R) | [(a & b & _ & _ & _ & R)
          | (line & E & _ & R)]]]];
      try discriminate E; rewrite R in Hlen |- *; cbn [fst] in *; try discriminate Hlen.
    inversion E. reflexivity.
  - intros (-> & Hb).
    rewrite ReadLine_line_of by (apply no_newline_FormatMove; exact Hb). cbn [fst].
    rewrite <- (Move_eta move) at 1. rewrite ParseMove_FormatMove by exact Hb.
    rewrite Move_eta. reflexivity.
Qed.

End MatchProofs.

Module ForfeitProofs.
Import Arbiter ArbiterSpec MatchSpec ForfeitSpec ArbiterProofs MatchProofs.

Lemma RunGame_loop_prefix (env : Env) (rest : list Move) : forall fuel l s,
  (started l = true \/ start_ok env = true) ->
  (forall i, (i < length rest)%nat ->
     send_ok env (moves_played (state l) + Z.of_nat i + 1) = true) ->
  (forall i, (i < length rest)%nat ->
     read_at env (moves_played (state l) + Z.of_nat i) =
     ReadBytes (line_of (FormatMove (nth i rest (mkMove 0 0))))) ->
  wf_state (state l) ->
  PlayMoves (state l) rest = Some s ->
  moves_played (state l) + Z.of_nat (length rest) <= MAX_MOVES ->
  RunGame_loop (length rest + fuel) env l =
  RunGame_loop fuel env
    (mkLoop s (history l ++ rest) (match rest with [] => started l | _ => true end)
       (stderr l)).
Proof.
  induction rest as [|m rest IH]; intros fuel l s Hs Hsend Hread Hwf HP Hlen.
  - cbn [PlayMoves] in HP. inversion HP; subst s.
    rewrite app_nil_r. destruct l; reflexivity.
  - cbn [length] in Hlen. cbn [length Nat.add RunGame_loop]. unfold IsGameOver at 1.
    replace (MAX_MOVES <=? moves_played (state l)) with false by lia.
    cbn [PlayMoves] in HP.
    destruct (ValidateMove (state l) m) as [[[] reason]| |] eqn:V; try discriminate.
    destruct (ExecuteMove (state l) m) as [s1| |] eqn:X; try discriminate.
    pose proof (ValidateMove_ok _ _ _ V) as Hcand.
    destruct (ExecuteMove_occupied (state l) m Hwf Hcand) as (s1' & X' & Hwf1 & Hmp & _).
    rewrite X in X'. inversion X'; subst s1'.
    rewrite (RunGame_body_Continue env l m reason s1).
    + cbn [bind].
      rewrite (IH fuel (mkLoop s1 (history l ++ [m]) true (stderr l)) s);
        cbn [state history started stderr]; auto; try lia.
      * rewrite <- app_assoc. cbn [app]. destruct rest; reflexivity.
      * intros i Hi. specialize (Hsend (S i)).
        rewrite Hmp. replace (moves_played (state l) + 1 + Z.of_nat i + 1)
          with (moves_played (state l) + Z.of_nat (S i) + 1) by lia.
        apply Hsend. cbn [length]. lia.
      * intros i Hi. specialize (Hread (S i)). cbn [nth] in Hread.
        rewrite Hmp. replace (moves_played (state l) + 1 + Z.of_nat i)
          with (moves_played (state l) + Z.of_nat (S i)) by lia.
        apply Hread. cbn [length]. lia.
    + destruct Hs as [-> | ->]; [reflexivity | apply orb_true_r].
    + specialize (Hread O). cbn [nth] in Hread.
      rewrite Z.add_0_r in Hread. apply Hread. cbn [length]. lia.
    + exact V.
    + exact X.
    + specialize (Hsend O). rewrite Hmp. rewrite Z.add_0_r in Hsend.
      rewrite Hsend by (cbn [length]; lia). apply orb_true_r.
Qed.

Lemma land_1_even (n : Z) : Z.land n 1 = if Z.even n then 0 else 1.
Proof.
  replace (Z.land n 1) with (n mod 2) by (symmetry; apply (Z.land_ones n 1); lia).
  apply Zmod_even.
Qed.

Lemma RunGame_body_refusal (env : Env) (l : Loop) (line : string) (diags : list Diag)
    (d : Diag) :
  started l || start_ok env = true ->
  ReadLine (read_at env (moves_played (state l))) = (line, diags) ->
  refusal (state l) line = Some d ->
  RunGame_body env l =
  Done (Break (mkLoop (state l) (history l) true ((stderr l ++ diags) ++ [d]))).
Proof.
  intros Hs Hr Hd. unfold RunGame_body. cbv zeta.
  rewrite GetNextPlayer_assert. cbv iota.
  replace (negb (started l) && negb (start_ok env)) with false
    by (destruct (started l), (start_ok env); simpl in *; congruence).
  rewrite Hr. unfold refusal in Hd.
  destruct (ParseMove line) as [move|]; [|inversion Hd; reflexivity].
  destruct (ValidateMove (state l) move) as [[[] reason]| |]; try discriminate.
  inversion Hd. reflexivity.
Qed.

(** X23. The match ends at the first line that is refused.  When Start
    and the forwarded moves can be written and the reads return the moves
    of a valid game of fewer than sixty moves, one line each, and then a
    read gives a line that is no move or not a valid one (the empty line of
    a failed read included), [RunGame] has executed exactly these moves,
    the transcript holds them, the mover of that moment is the failing
    player (-99 after an even number of moves, 99 after an odd one), and
    stderr holds the message of the read, if any, and the refusal, followed
    by what the two calls of [Quit] write when they reap the processes,
    the one of the second mover first. *)
Theorem refused_line_forfeits (env : Env) (moves : list Move) (s : State)
    (line : string) (diags : list Diag) (d : Diag) :
  start_ok env = true ->
  (forall n, send_ok env n = true) ->
  (forall i, (i < length moves)%nat ->
     read_at env (Z.of_nat i) = ReadBytes (line_of (FormatMove (nth i moves (mkMove 0 0))))) ->
  PlayMoves InitialState moves = Some s ->
  (length moves < 60)%nat ->
  ReadLine (read_at env (Z.of_nat (length moves))) = (line, diags) ->
  refusal s line = Some d ->
  RunGame env =
  Done (mkRun (mkGameResult (EncodeHistory moves)
                 (if Z.even (Z.of_nat (length moves)) then -99 else 99))
          moves s (diags ++ [d] ++ Quit env 1 ++ Quit env 0)).
Proof.
  intros Hs Hsend Hread HP Hlen Hline Hd.
  destruct (PlayMoves_invariant _ _ _ InitialState_wf HP) as (Hwf & Hm & _).
  change (moves_played InitialState) with 0 in Hm.
  unfold RunGame.
  replace (Z.to_nat MAX_MOVES) with (length moves + (60 - length moves))%nat
    by (unfold MAX_MOVES; lia).
  rewrite (RunGame_loop_prefix env moves _ _ s); cbn [state history started stderr];
    auto using InitialState_wf.
  2:{ change (moves_played InitialState) with 0. unfold MAX_MOVES. lia. }
  destruct (60 - length moves)%nat as [|fuel] eqn:Ef; [lia|].
  cbn [RunGame_loop state app]. unfold IsGameOver at 1.
  replace (MAX_MOVES <=? moves_played s) with false by (unfold MAX_MOVES; lia).
  rewrite (RunGame_body_refusal env _ line diags d); cbn [state started stderr history].
  - cbn [bind app state history stderr]. unfold IsGameOver.
    replace (MAX_MOVES <=? moves_played s) with false by (unfold MAX_MOVES; lia).
    unfold GetNextPlayer. rewrite Hm, Z.add_0_l.
    rewrite land_1_even, <- app_assoc.
    destruct (Z.even (Z.of_nat (length moves))); reflexivity.
  - rewrite Hs. apply orb_true_r.
  - rewrite Hm, Z.add_0_l. exact Hline.
  - exact Hd.
Qed.

Lemma refused_line_forfeits_witness :
  RunGame (env_then [mkMove 2 2] (ReadBytes "C3")) =
  Done (mkRun (mkGameResult (EncodeHistory [mkMove 2 2]) 99)
          [mkMove 2 2] after_C3 [EndOfLineNotFound; CouldNotParse 1 EmptyString]).
Proof.
  apply (refused_line_forfeits (env_then [mkMove 2 2] (ReadBytes "C3")) [mkMove 2 2]
           after_C3 EmptyString [EndOfLineNotFound] (CouldNotParse 1 EmptyString)).
  - reflexivity.
  - intros n. reflexivity.
  - intros i Hi. cbn [length] in Hi. assert (i = O) by lia. subst i. reflexivity.
  - vm_compute. reflexivity.
  - cbn [length]. lia.
  - reflexivity.
  - reflexivity.
Defined.

Lemma list_snoc {A : Type} (l : list A) :
  l = [] \/ exists pre x, l = pre ++ [x].
Proof.
  destruct l as [|a l]; [left; reflexivity | right].
  destruct (exists_last (l := a :: l)) as (pre & x & E); [discriminate|].
  exists pre, x. exact E.
Qed.

Lemma RunGame_body_send_fails (env : Env) (l : Loop) (m : Move) (reason : string)
    (s' : State) :
  started l || start_ok env = true ->
  read_at env (moves_played (state l)) = ReadBytes (line_of (FormatMove m)) ->
  ValidateMove (state l) m = Done (true, reason) ->
  ExecuteMove (state l) m = Done s' ->
  IsGameOver s' = false ->
  send_ok env (moves_played s') = false ->
  RunGame_body env l =
  Done (Break (mkLoop s' (history l ++ [m]) true
                 (stderr l ++ [CouldNotSend (FormatMove m) (GetNextPlayer (state l))]))).
Proof.
  intros Hs Hr Hv Hx Hover Hw. unfold RunGame_body. cbv zeta.
  rewrite GetNextPlayer_assert. cbv iota.
  replace (negb (started l) && negb (start_ok env)) with false
    by (destruct (started l), (start_ok env); simpl in *; congruence).
  assert (Hb : on_board (row m) (col m)) by (apply ValidateMove_ok in Hv; apply Hv).
  rewrite Hr, ReadLine_line_of by (apply no_newline_FormatMove; exact Hb).
  rewrite <- (Move_eta m) at 1. rewrite ParseMove_FormatMove by exact Hb.
  rewrite Move_eta, Hv. cbn [bind negb]. rewrite Hx. cbn [bind].
  rewrite app_nil_r, Hover, Hw. reflexivity.
Qed.

(** X26. The match ends at the first write that fails, and the program the
    write was addressed to forfeits.  When the reads return the moves of a
    valid game of fewer than sixty moves, one line each, the writes before
    them succeed (Start, then each move forwarded to the other program) and
    the write that follows the last of them fails, [RunGame] has executed
    exactly these moves, the last one included, the transcript holds them,
    and the score is -99 after an even number of moves and 99 after an odd
    one: the loser is the program that would move next, not the one whose
    move could not be forwarded, although the message on stderr prints the
    number of the latter.  After that message stderr holds what the two
    calls of [Quit] write when they reap the processes, the one of the
    second mover first: a message for each process that did not exit with
    status 0. *)
Theorem failed_write_forfeits (env : Env) (moves : list Move) (s : State) :
  (forall k, (k < length moves)%nat -> write_ok env k = true) ->
  write_ok env (length moves) = false ->
  (forall i, (i < length moves)%nat ->
     read_at env (Z.of_nat i) = ReadBytes (line_of (FormatMove (nth i moves (mkMove 0 0))))) ->
  PlayMoves InitialState moves = Some s ->
  (length moves < 60)%nat ->
  RunGame env =
  Done (mkRun (mkGameResult (EncodeHistory moves)
                 (if Z.even (Z.of_nat (length moves)) then -99 else 99))
          moves s ([write_failure moves] ++ Quit env 1 ++ Quit env 0)).
Proof.
  intros Hok Hfail Hread HP Hlen.
  destruct (list_snoc moves) as [-> | (pre & move & ->)].
  - cbn [length write_ok] in Hfail. cbn [PlayMoves] in HP. inversion HP; subst s.
    unfold RunGame. change (Z.to_nat MAX_MOVES) with 60%nat.
    cbn [RunGame_loop state]. change (IsGameOver InitialState) with false. cbv iota.
    unfold RunGame_body. cbv zeta. cbn [state started history stderr].
    rewrite Hfail. reflexivity.
  - rewrite PlayMoves_app in HP.
    destruct (PlayMoves InitialState pre) as [s0|] eqn:HP0; [|discriminate].
    destruct (PlayMoves_invariant _ _ _ InitialState_wf HP0) as (Hwf0 & Hm0 & _).
    change (moves_played InitialState) with 0 in Hm0. rewrite Z.add_0_l in Hm0.
    cbn [PlayMoves] in HP.
    destruct (ValidateMove s0 move) as [[[] reason]| |] eqn:V; try discriminate.
    destruct (ExecuteMove s0 move) as [s1| |] eqn:X; try discriminate.
    inversion HP; subst s1.
    pose proof (ValidateMove_ok _ _ _ V) as Hcand.
    destruct (ExecuteMove_occupied s0 move Hwf0 Hcand) as (s1 & X' & Hwf1 & Hmp & _).
    rewrite X in X'. inversion X'; subst s1.
    rewrite length_app in *. cbn [length] in *.
    assert (Hstart : start_ok env = true) by (apply (Hok O); lia).
    assert (Hover : IsGameOver s = false)
      by (unfold IsGameOver, MAX_MOVES; apply Z.leb_gt; lia).
    unfold RunGame.
    replace (Z.to_nat MAX_MOVES) with (length pre + (60 - length pre))%nat
      by (unfold MAX_MOVES; lia).
    rewrite (RunGame_loop_prefix env pre _ _ s0); cbn [state history started stderr];
      auto using InitialState_wf.
    + destruct (60 - length pre)%nat as [|fuel] eqn:Ef; [lia|].
      cbn [RunGame_loop state app]. unfold IsGameOver at 1.
      replace (MAX_MOVES <=? moves_played s0) with false by (unfold MAX_MOVES; lia).
      rewrite (RunGame_body_send_fails env _ move reason s);
        cbn [state started stderr history]; auto.
      * cbn [bind app state history stderr]. rewrite Hover.
        unfold write_failure. rewrite rev_app_distr. cbn [rev app].
        rewrite length_app. cbn [length].
        unfold GetNextPlayer. rewrite Hmp, Hm0.
        replace (Z.of_nat (length pre + 1)) with (Z.of_nat (length pre) + 1) by lia.
        rewrite !land_1_even.
        replace (Z.even (Z.of_nat (length pre) + 1))
          with (negb (Z.even (Z.of_nat (length pre))))
          by (rewrite Z.add_1_r, Z.even_succ, <- Z.negb_even; reflexivity).
        destruct (Z.even (Z.of_nat (length pre))); reflexivity.
      * rewrite Hstart. apply orb_true_r.
      * rewrite Hm0, (Hread (length pre)) by lia.
        rewrite app_nth2, Nat.sub_diag by lia. reflexivity.
      * rewrite Hmp, Hm0.
        replace (Z.of_nat (length pre) + 1) with (Z.of_nat (length pre + 1)) by lia.
        replace (length pre + 1)%nat with (S (length pre)) in * by lia.
        exact Hfail.
    + intros i Hi. change (moves_played InitialState) with 0. rewrite Z.add_0_l.
      specialize (Hok (S i)). cbn [write_ok] in Hok.
      replace (Z.of_nat i + 1) with (Z.of_nat (S i)) by lia. apply Hok. lia.
    + intros i Hi. change (moves_played InitialState) with 0. rewrite Z.add_0_l.
      rewrite (Hread i) by lia. rewrite app_nth1 by lia. reflexivity.
    + change (moves_played InitialState) with 0. unfold MAX_MOVES. lia.
Qed.

Lemma failed_write_forfeits_witness :
  RunGame (env_closed_at [mkMove 2 2] 1 second_killed) =
  Done (mkRun (mkGameResult (EncodeHistory [mkMove 2 2]) 99)
          [mkMove 2 2] after_C3
          [CouldNotSend (FormatMove (mkMove 2 2)) 0; NotExitedNormally 9]).
Proof.
  apply (failed_write_forfeits (env_closed_at [mkMove 2 2] 1 second_killed) [mkMove 2 2]
           after_C3).
  - intros k Hk. cbn [length] in Hk. assert (k = O) by lia. subst k. reflexivity.
  - reflexivity.
  - intros i Hi. cbn [length] in Hi. assert (i = O) by lia. subst i. reflexivity.
  - vm_compute. reflexivity.
  - cbn [length]. lia.
Defined.

End ForfeitProofs.

Module TournamentProofs.
Import Arbiter ArbiterSpec TournamentSpec ArbiterProofs MatchProofs.

Lemma RunGame_score (env : Env) :
  exists run, RunGame env = Done run /\
    ((IsGameOver (final run) = true /\ -64 <= score (result run) <= 64) \/
     (IsGameOver (final run) = false /\
      (GetNextPlayer (final run) = 0 /\ score (result run) = -99 \/
       GetNextPlayer (final run) = 1 /\ score (result run) = 99))).
Proof.
  destruct (RunGame_Done env) as (run & HR & Hwf & Hle & HP & Hcases).
  exists run. split; [exact HR|].
  destruct (count_cells_sum (final run) Hwf) as (Hsum & H1 & H2 & H64).
  destruct Hcases as [(Hover & Hmsg & Hscore) | (Hover & Hsc & _)].
  - left. split; [exact Hover | lia].
  - right. split; [exact Hover | exact Hsc].
Qed.

Ltac eval_indices :=
  unfold add_at;
  repeat match goal with
         | |- context [Z.to_nat ?x] =>
             let v := eval vm_compute in (Z.to_nat x) in
             progress change (Z.to_nat x) with v
         end;
  cbn [nth list_set length].

Lemma int_wrap_fits (z : Z) : - 2 ^ 31 <= z < 2 ^ 31 -> int_wrap z = z.
Proof.
  intros H. unfold int_wrap. rewrite Z.mod_small by lia. lia.
Qed.

(** The two [+=] on an [int x[2]]: entry [i] gets its summand, in 32
    bits. *)
Lemma add_at_pair (a : list Z) (p v w i : Z) :
  length a = 2%nat -> p = 0 \/ p = 1 -> i = 0 \/ i = 1 ->
  length (add_at (add_at a p v) (1 - p) w) = 2%nat /\
  nth (Z.to_nat i) (add_at (add_at a p v) (1 - p) w) 0 =
  int_wrap (nth (Z.to_nat i) a 0 + (if i =? p then v else w)).
Proof.
  intros Hl Hp Hi. destruct a as [|a0 [|a1 [|]]]; try discriminate.
  destruct Hp as [-> | ->], Hi as [-> | ->]; eval_indices; simpl (_ =? _);
    split; reflexivity.
Qed.

(** The two [+=] on [score_by_color]: of the two entries of program [i],
    the one of the side it played gets the score. *)
Lemma add_at_four (a : list Z) (p v w i : Z) :
  length a = 4%nat -> p = 0 \/ p = 1 -> i = 0 \/ i = 1 ->
  let a' := add_at (add_at a (2 * p + 0) v) (2 * (1 - p) + 1) w in
  length a' = 4%nat /\
  nth (Z.to_nat (2 * i + 0)) a' 0 =
    (if i =? p then int_wrap (nth (Z.to_nat (2 * i + 0)) a 0 + v)
     else nth (Z.to_nat (2 * i + 0)) a 0) /\
  nth (Z.to_nat (2 * i + 1)) a' 0 =
    (if i =? p then nth (Z.to_nat (2 * i + 1)) a 0
     else int_wrap (nth (Z.to_nat (2 * i + 1)) a 0 + w)).
Proof.
  intros Hl Hp Hi. destruct a as [|a0 [|a1 [|a2 [|a3 [|]]]]]; try discriminate.
  destruct Hp as [-> | ->], Hi as [-> | ->]; cbv zeta; eval_indices; simpl (_ =? _);
    repeat split; reflexivity.
Qed.

Lemma count_games_snoc (f : Z -> bool) (games : list Z) (g : Z) :
  count_games f (games ++ [g]) = count_games f games + int_of_bool (f g).
Proof.
  unfold count_games. rewrite filter_app, length_app. cbn [filter].
  destruct (f g); cbn [length int_of_bool]; lia.
Qed.

Lemma sum_scores_app (envs : Z -> Env) (i : Z) (l1 l2 : list Z) :
  sum_scores envs i (l1 ++ l2) = sum_scores envs i l1 + sum_scores envs i l2.
Proof.
  unfold sum_scores. induction l1 as [|g l1 IH]; cbn [app fold_right]; [lia|].
  rewrite IH. lia.
Qed.

Lemma land_1_cases (g : Z) : Z.land g 1 = 0 \/ Z.land g 1 = 1.
Proof.
  destruct (player_1_or_2 g); lia.
Qed.

Lemma score_for_bound (envs : Z -> Env) (i g : Z) : -99 <= score_for envs i g <= 99.
Proof.
  unfold score_for. destruct (RunGame_score (envs g)) as (run & -> & H).
  destruct (side_of i g =? 0); destruct H as [[_ H] | [_ [[_ H] | [_ H]]]]; lia.
Qed.

Lemma sum_scores_bound (envs : Z -> Env) (i : Z) (games : list Z) :
  - 99 * Z.of_nat (length games) <= sum_scores envs i games <= 99 * Z.of_nat (length games).
Proof.
  unfold sum_scores. induction games as [|g games IH]; cbn [fold_right length]; [lia|].
  pose proof (score_for_bound envs i g). lia.
Qed.

Lemma count_games_bound (f : Z -> bool) (games : list Z) :
  0 <= count_games f games <= Z.of_nat (length games).
Proof.
  unfold count_games. pose proof (filter_length_le f games). lia.
Qed.

Lemma sum_scores_filter_bound (envs : Z -> Env) (i : Z) (f : Z -> bool) (games : list Z) :
  - 99 * Z.of_nat (length games) <= sum_scores envs i (filter f games)
  <= 99 * Z.of_nat (length games).
Proof.
  pose proof (sum_scores_bound envs i (filter f games)).
  pose proof (filter_length_le f games). lia.
Qed.

Ltac fits :=
  unfold int_of_bool;
  repeat match goal with
         | |- context [if ?b then _ else _] => destruct b
         end;
  lia.

Lemma Main_body_table (envs : Z -> Env) (games : list Z) (game : Z) (t : Table) :
  99 * (Z.of_nat (length games) + 1) < 2 ^ 31 ->
  table_of envs games t ->
  exists t', Main_body envs game t = Done t' /\ table_of envs (games ++ [game]) t'.
Proof.
  intros Hfit Ht. unfold Main_body. cbv zeta.
  destruct (RunGame_score (envs game)) as (run & HR & Hsc). rewrite HR. cbn [bind].
  eexists. split; [reflexivity|].
  set (sc := score (result run)) in *.
  set (p := Z.land game 1). assert (Hp : p = 0 \/ p = 1) by apply land_1_cases.
  assert (Hsc99 : -99 <= sc <= 99)
    by (destruct Hsc as [[_ H] | [_ [[_ H] | [_ H]]]]; lia).
  intros i Hi. destruct (Ht i Hi)
    as (Lw & Lt & Ll & Lf & Ls & Lc & Hw & Hti & Hl & Hf & Hs & Hc0 & Hc1).
  cbn [wins ties losses failures total score_by_color].
  assert (Esf : score_for envs i game = if i =? p then sc else - sc).
  { unfold score_for, side_of. rewrite HR. fold p. fold sc.
    destruct (i =? p); reflexivity. }
  assert (Eff : int_of_bool (forfeited envs i game) =
                if i =? p then int_of_bool (sc =? -99) else int_of_bool (sc =? 99)).
  { unfold forfeited, side_of. rewrite HR. fold p.
    destruct Hsc as [(Ho & Hr) | (Ho & [(Hn & Hv) | (Hn & Hv)])];
      rewrite Ho; cbn [negb andb].
    - replace (sc =? -99) with false by lia. replace (sc =? 99) with false by lia.
      destruct (i =? p); reflexivity.
    - rewrite Hn, Hv. destruct (i =? p); reflexivity.
    - rewrite Hn, Hv. destruct (i =? p); reflexivity. }
  pose proof (count_games_bound (fun g => 0 <? score_for envs i g) games) as Bw.
  pose proof (count_games_bound (fun g => score_for envs i g =? 0) games) as Bt.
  pose proof (count_games_bound (fun g => score_for envs i g <? 0) games) as Bl.
  pose proof (count_games_bound (forfeited envs i) games) as Bf.
  pose proof (sum_scores_bound envs i games) as Bs.
  pose proof (sum_scores_filter_bound envs i (fun g => side_of i g =? 0) games) as Bc0.
  pose proof (sum_scores_filter_bound envs i (fun g => side_of i g =? 1) games) as Bc1.
  destruct (add_at_pair (wins t) p (int_of_bool (0 <? sc)) (int_of_bool (sc <? 0)) i Lw Hp Hi)
    as (Lw' & Hw').
  destruct (add_at_pair (ties t) p (int_of_bool (sc =? 0)) (int_of_bool (sc =? 0)) i Lt Hp Hi)
    as (Lt' & Ht').
  destruct (add_at_pair (losses t) p (int_of_bool (sc <? 0)) (int_of_bool (0 <? sc)) i Ll Hp Hi)
    as (Ll' & Hl').
  destruct (add_at_pair (failures t) p (int_of_bool (sc =? -99)) (int_of_bool (sc =? 99)) i
              Lf Hp Hi) as (Lf' & Hf').
  destruct (add_at_pair (total t) p sc (- sc) i Ls Hp Hi) as (Ls' & Hs').
  destruct (add_at_four (score_by_color t) p sc (- sc) i Lc Hp Hi) as (Lc' & Hc0' & Hc1').
  (* no counter leaves the range of int *)
  rewrite Hw, int_wrap_fits in Hw' by fits.
  rewrite Hti, int_wrap_fits in Ht' by fits.
  rewrite Hl, int_wrap_fits in Hl' by fits.
  rewrite Hf, int_wrap_fits in Hf' by fits.
  rewrite Hs, int_wrap_fits in Hs' by fits.
  rewrite Hc0, int_wrap_fits in Hc0' by fits.
  rewrite Hc1, int_wrap_fits in Hc1' by fits.
  repeat (split; [assumption|]).
  rewrite Hw', Ht', Hl', Hf', Hs', Hc0', Hc1'.
  rewrite !count_games_snoc, !filter_app, !sum_scores_app, Eff, Esf.
  cbn [filter]. unfold side_of. fold p.
  destruct (i =? p) eqn:Eip; simpl (_ =? _); unfold sum_scores; cbn [fold_right];
    rewrite ?Esf, ?Eip; unfold int_of_bool.
  all: repeat split; try lia.
  all: destruct (0 <? sc) eqn:E1; destruct (sc <? 0) eqn:E2; destruct (sc =? 0) eqn:E3;
    destruct (0 <? - sc) eqn:E4; destruct (- sc <? 0) eqn:E5; destruct (- sc =? 0) eqn:E6;
    lia.
Qed.

Lemma Main_loop_table (envs : Z -> Env) (rest : list Z) : forall games t,
  99 * Z.of_nat (length games + length rest) < 2 ^ 31 ->
  table_of envs games t ->
  exists t', Main_loop envs rest t = Done t' /\ table_of envs (games ++ rest) t'.
Proof.
  induction rest as [|g rest IH]; intros games t Hfit Ht; cbn [Main_loop].
  - exists t. rewrite app_nil_r. auto.
  - cbn [length] in Hfit.
    destruct (Main_body_table envs games g t) as (t1 & E1 & Ht1); [lia | exact Ht|].
    rewrite E1. cbn [bind].
    destruct (IH (games ++ [g]) t1) as (t' & E' & Ht'); [|exact Ht1|].
    { rewrite length_app. cbn [length]. lia. }
    exists t'. split; [exact E'|].
    rewrite <- app_assoc in Ht'. exact Ht'.
Qed.

Lemma length_Zrange (lo : Z) (n : nat) : length (Zrange lo n) = n.
Proof. revert lo. induction n; intros lo; cbn; auto. Qed.

Lemma games_of_int (rounds : Z) :
  rounds <= MAX_ROUNDS ->
  (if rounds <=? 0 then 1 else int_wrap (2 * rounds)) = games_of rounds /\
  1 <= games_of rounds /\ 99 * games_of rounds < 2 ^ 31.
Proof.
  unfold MAX_ROUNDS, games_of. intros Hfit.
  destruct (rounds <=? 0) eqn:R; [lia|].
  rewrite int_wrap_fits by lia. lia.
Qed.

Lemma Main_Done (envs : Z -> Env) (rounds : Z) :
  rounds <= MAX_ROUNDS ->
  exists t, Main envs rounds = Done t /\
            table_of envs (Zrange 0 (Z.to_nat (games_of rounds))) t.
Proof.
  intros Hfit. unfold Main. cbv zeta.
  destruct (games_of_int rounds Hfit) as (-> & Hg & Hg99).
  apply (Main_loop_table envs _ []).
  - cbn [length Nat.add]. rewrite length_Zrange. lia.
  - intros i [-> | ->]; cbn; repeat split; reflexivity.
Qed.

Lemma score_for_opposite (envs : Z -> Env) (g : Z) :
  score_for envs 1 g = - score_for envs 0 g.
Proof.
  unfold score_for, side_of. destruct (RunGame (envs g)); try reflexivity.
  destruct (land_1_cases g) as [-> | ->]; cbn; lia.
Qed.

Lemma forfeited_loss (envs : Z -> Env) (i g : Z) :
  i = 0 \/ i = 1 -> forfeited envs i g = true -> score_for envs i g = -99.
Proof.
  unfold forfeited, score_for, side_of.
  destruct (RunGame_score (envs g)) as (run & -> & H). intros Hi F.
  apply andb_prop in F. destruct F as [F1 F2]. apply negb_true_iff in F1.
  destruct H as [[H _] | [_ H]]; [congruence|].
  destruct (i =? Z.land g 1); cbn [Z.eqb] in *; lia.
Qed.

Lemma count_games_le (f g : Z -> bool) (games : list Z) :
  (forall x, f x = true -> g x = true) ->
  count_games f games <= count_games g games.
Proof.
  intros H. unfold count_games. induction games as [|x games IH]; [reflexivity|].
  rewrite !count_cons. specialize (H x).
  destruct (f x), (g x); first [lia | specialize (H eq_refl); discriminate].
Qed.

Lemma count_games_three (f : Z -> Z) (games : list Z) :
  count_games (fun g => 0 <? f g) games + count_games (fun g => f g =? 0) games
  + count_games (fun g => f g <? 0) games = Z.of_nat (length games).
Proof.
  unfold count_games. induction games as [|x games IH]; [reflexivity|].
  rewrite !count_cons. cbn [length].
  destruct (0 <? f x) eqn:E1; destruct (f x =? 0) eqn:E2; destruct (f x <? 0) eqn:E3; lia.
Qed.

Lemma count_games_ext (f g : Z -> bool) (games : list Z) :
  (forall x, f x = g x) -> count_games f games = count_games g games.
Proof.
  intros H. unfold count_games. f_equal. f_equal. apply filter_ext. exact H.
Qed.

Lemma sum_scores_opposite (envs : Z -> Env) (games : list Z) :
  sum_scores envs 1 games = - sum_scores envs 0 games.
Proof.
  unfold sum_scores. induction games as [|g games IH]; cbn [fold_right]; [reflexivity|].
  rewrite IH, score_for_opposite. lia.
Qed.

Lemma sum_scores_sides (envs : Z -> Env) (i : Z) (games : list Z) :
  sum_scores envs i games =
  sum_scores envs i (filter (fun g => side_of i g =? 0) games)
  + sum_scores envs i (filter (fun g => side_of i g =? 1) games).
Proof.
  unfold sum_scores. induction games as [|g games IH]; cbn [fold_right filter]; [reflexivity|].
  assert (Hs : side_of i g = 0 \/ side_of i g = 1)
    by (unfold side_of; destruct (i =? Z.land g 1); auto).
  destruct (side_of i g =? 0) eqn:E0; destruct (side_of i g =? 1) eqn:E1;
    cbn [fold_right]; lia.
Qed.

Lemma Zrange_app (lo : Z) (a b : nat) :
  Zrange lo (a + b) = Zrange lo a ++ Zrange (lo + Z.of_nat a) b.
Proof.
  revert lo. induction a as [|a IH]; intros lo; cbn [Nat.add Zrange app].
  - replace (lo + Z.of_nat 0) with lo by lia. reflexivity.
  - rewrite IH. replace (lo + Z.of_nat (S a)) with (lo + 1 + Z.of_nat a) by lia.
    reflexivity.
Qed.

Lemma side_of_even (i k : Z) :
  i = 0 \/ i = 1 ->
  (side_of i (2 * k) =? 0) = (i =? 0) /\ (side_of i (2 * k + 1) =? 0) = (i =? 1).
Proof.
  intros Hi. unfold side_of.
  assert (E0 : Z.land (2 * k) 1 = 0).
  { destruct (land_1_cases (2 * k)) as [E | E]; [exact E|]. exfalso.
    assert (Z.testbit (Z.land (2 * k) 1) 0 = true) by (rewrite E; reflexivity).
    rewrite Z.land_spec, Z.testbit_even_0 in H. discriminate. }
  assert (E1 : Z.land (2 * k + 1) 1 = 1).
  { destruct (land_1_cases (2 * k + 1)) as [E | E]; [|exact E]. exfalso.
    assert (Z.testbit (Z.land (2 * k + 1) 1) 0 = false) by (rewrite E; reflexivity).
    rewrite Z.land_spec, Z.testbit_odd_0 in H. discriminate. }
  rewrite E0, E1. destruct Hi as [-> | ->]; split; reflexivity.
Qed.

Lemma count_first_mover (i : Z) (n : nat) :
  i = 0 \/ i = 1 ->
  count_games (fun g => side_of i g =? 0) (Zrange 0 (2 * n)) = Z.of_nat n.
Proof.
  intros Hi. induction n as [|n IH]; [reflexivity|].
  replace (2 * S n)%nat with (2 * n + 2)%nat by lia.
  rewrite Zrange_app. unfold count_games in *. rewrite filter_app, length_app.
  rewrite Nat2Z.inj_add, IH. cbn [Zrange filter].
  replace (0 + Z.of_nat (2 * n)) with (2 * Z.of_nat n) by lia.
  destruct (side_of_even i (Z.of_nat n) Hi) as [-> ->].
  destruct Hi as [-> | ->]; cbn; lia.
Qed.

(** X11. What the columns of the table count, for a number of rounds up
    to [MAX_ROUNDS], with which no counter can leave the range of [int]
    (and [2 * rounds] is far inside it).  [Main] plays one game when
    [rounds <= 0] and [2 * rounds] games otherwise; for each of the two
    programs it counts the games it won, tied and lost by the sign of the
    score seen from its side, the games that were broken off with it as the
    failing player, and sums its scores, in total and per side played. *)
Theorem Main_counts (envs : Z -> Env) (rounds : Z) :
  rounds <= MAX_ROUNDS ->
  exists t, Main envs rounds = Done t /\
    let games := Zrange 0 (Z.to_nat (games_of rounds)) in
    forall i, i = 0 \/ i = 1 ->
      nth (Z.to_nat i) (wins t) 0 = count_games (fun g => 0 <? score_for envs i g) games /\
      nth (Z.to_nat i) (ties t) 0 = count_games (fun g => score_for envs i g =? 0) games /\
      nth (Z.to_nat i) (losses t) 0 = count_games (fun g => score_for envs i g <? 0) games /\
      nth (Z.to_nat i) (failures t) 0 = count_games (forfeited envs i) games /\
      nth (Z.to_nat i) (total t) 0 = sum_scores envs i games /\
      nth (Z.to_nat (2 * i + 0)) (score_by_color t) 0 =
        sum_scores envs i (filter (fun g => side_of i g =? 0) games) /\
      nth (Z.to_nat (2 * i + 1)) (score_by_color t) 0 =
        sum_scores envs i (filter (fun g => side_of i g =? 1) games).
Proof.
  intros Hfit.
  destruct (Main_Done envs rounds Hfit) as (t & E & Ht). exists t. split; [exact E|].
  intros games i Hi. destruct (Ht i Hi) as (_ & _ & _ & _ & _ & _ & H). exact H.
Qed.

(** One round of [full_game], which the second mover wins by ten discs:
    each program wins the game in which it moves second. *)
Lemma Main_counts_witness :
  1 <= MAX_ROUNDS /\
  exists t, Main envs_full_game 1 = Done t /\
    t = mkTable [1; 1] [0; 0] [1; 1] [0; 0] [-10; 10; -10; 10] [0; 0] /\
    nth 0 (wins t) 0 = count_games (fun g => 0 <? score_for envs_full_game 0 g) [0; 1].
Proof.
  assert (Hfit : 1 <= MAX_ROUNDS) by (unfold MAX_ROUNDS; lia).
  split; [exact Hfit|].
  destruct (Main_counts envs_full_game 1 Hfit) as (t & E & H).
  exists t. split; [exact E|]. split.
  - assert (E' : Main envs_full_game 1 =
                 Done (mkTable [1; 1] [0; 0] [1; 1] [0; 0] [-10; 10; -10; 10] [0; 0]))
      by (vm_compute; reflexivity).
    rewrite E in E'. inversion E'. reflexivity.
  - apply (H 0). left. reflexivity.
Defined.

(** X12. The table is consistent, for a number of rounds up to
    [MAX_ROUNDS]: for each program wins, ties and losses add up to the
    number of games; the wins of one program are the losses of the other
    and both have the same ties; a failure is a loss; the total score is
    the sum of the scores per side, the two totals add up to zero, and no
    total exceeds 99 per game.  In a tournament of at least one round each
    program is the first mover in [rounds] of the games. *)
Theorem Main_table_consistent (envs : Z -> Env) (rounds : Z) :
  rounds <= MAX_ROUNDS ->
  exists t, Main envs rounds = Done t /\
    let at_ := fun (a : list Z) (i : Z) => nth (Z.to_nat i) a 0 in
    (forall i, i = 0 \/ i = 1 ->
       at_ (wins t) i + at_ (ties t) i + at_ (losses t) i = games_of rounds /\
       at_ (wins t) i = at_ (losses t) (1 - i) /\
       0 <= at_ (failures t) i <= at_ (losses t) i /\
       at_ (total t) i = at_ (score_by_color t) (2 * i + 0) + at_ (score_by_color t) (2 * i + 1) /\
       - 99 * games_of rounds <= at_ (total t) i <= 99 * games_of rounds) /\
    at_ (ties t) 0 = at_ (ties t) 1 /\
    at_ (total t) 0 + at_ (total t) 1 = 0 /\
    1 <= games_of rounds /\
    (0 < rounds ->
     forall i, i = 0 \/ i = 1 ->
       count_games (fun g => side_of i g =? 0) (Zrange 0 (Z.to_nat (games_of rounds)))
       = rounds).
Proof.
  intros Hfit.
  destruct (Main_Done envs rounds Hfit) as (t & E & Ht). exists t. split; [exact E|].
  cbv zeta.
  set (games := Zrange 0 (Z.to_nat (games_of rounds))) in *.
  assert (Hg : 1 <= games_of rounds) by (unfold games_of; destruct (rounds <=? 0) eqn:R; lia).
  assert (Hlen : Z.of_nat (length games) = games_of rounds)
    by (unfold games; rewrite length_Zrange; lia).
  destruct (Ht 0 (or_introl eq_refl))
    as (_ & _ & _ & _ & _ & _ & Hw0 & Ht0 & Hl0 & Hf0 & Hs0 & Hc00 & Hc01).
  destruct (Ht 1 (or_intror eq_refl))
    as (_ & _ & _ & _ & _ & _ & Hw1 & Ht1 & Hl1 & Hf1 & Hs1 & Hc10 & Hc11).
  assert (Ew : forall g, (0 <? score_for envs 1 g) = (score_for envs 0 g <? 0))
    by (intros g; rewrite score_for_opposite; lia).
  assert (El : forall g, (score_for envs 1 g <? 0) = (0 <? score_for envs 0 g))
    by (intros g; rewrite score_for_opposite; lia).
  assert (Et : forall g, (score_for envs 1 g =? 0) = (score_for envs 0 g =? 0))
    by (intros g; rewrite score_for_opposite; lia).
  rewrite (count_games_ext _ _ games Ew) in Hw1.
  rewrite (count_games_ext _ _ games El) in Hl1.
  rewrite (count_games_ext _ _ games Et) in Ht1.
  pose proof (count_games_three (score_for envs 0) games) as H3.
  pose proof (sum_scores_opposite envs games) as Hopp.
  pose proof (sum_scores_bound envs 0 games) as Hb0.
  pose proof (sum_scores_sides envs 0 games) as Hsd0.
  pose proof (sum_scores_sides envs 1 games) as Hsd1.
  assert (Hfl : forall i, i = 0 \/ i = 1 ->
            0 <= count_games (forfeited envs i) games
              <= count_games (fun g => score_for envs i g <? 0) games).
  { intros i Hi. split; [unfold count_games; lia|].
    apply count_games_le. intros g F. rewrite (forfeited_loss envs i g Hi F). reflexivity. }
  pose proof (Hfl 0 (or_introl eq_refl)) as Hfl0.
  pose proof (Hfl 1 (or_intror eq_refl)) as Hfl1.
  rewrite (count_games_ext _ _ games El) in Hfl1.
  split; [|split; [|split; [|split]]]; try lia.
  - intros i [-> | ->]; change (1 - 0) with 1; change (1 - 1) with 0; lia.
  - intros Hr i Hi. fold games. unfold games, games_of.
    replace (rounds <=? 0) with false by lia.
    replace (Z.to_nat (2 * rounds)) with (2 * Z.to_nat rounds)%nat by lia.
    rewrite count_first_mover by exact Hi. lia.
Qed.

Lemma Main_table_consistent_witness :
  1 <= MAX_ROUNDS /\
  exists t, Main envs_full_game 1 = Done t /\
    nth 0 (wins t) 0 + nth 0 (ties t) 0 + nth 0 (losses t) 0 = 2 /\
    nth 0 (total t) 0 + nth 1 (total t) 0 = 0.
Proof.
  assert (Hfit : 1 <= MAX_ROUNDS) by (unfold MAX_ROUNDS; lia).
  split; [exact Hfit|].
  destruct (Main_table_consistent envs_full_game 1 Hfit) as (t & E & H & _ & Hzero & _).
  exists t. split; [exact E|]. split; [|exact Hzero].
  apply (H 0). left. reflexivity.
Defined.

End TournamentProofs.

Module SearchProofs.
Import PlayerCC PlayerSpec SearchSpec PlayerProofs.

Lemma cell_value_opposite (fields : list Player) (p : Player) (rc : Z * Z) :
  p <> NONE ->
  cell_value fields (Other p) p rc = - cell_value fields p (Other p) rc.
Proof.
  intros Hp. unfold cell_value.
  destruct (at_ fields (fst rc) (snd rc)) eqn:E; cbn [Player_eqb].
  - replace (Player_eqb NONE NONE) with true by reflexivity.
    destruct (occupied_neighbor fields (fst rc) (snd rc)); [|reflexivity].
    destruct (has_flip fields p (fst rc) (snd rc)),
             (has_flip fields (Other p) (fst rc) (snd rc)); reflexivity.
  - destruct p; try congruence; reflexivity.
  - destruct p; try congruence; reflexivity.
Qed.

Lemma sum_values_opposite (fields : list Player) (p : Player) (cells : list (Z * Z)) :
  p <> NONE ->
  sum_values fields (Other p) p cells = - sum_values fields p (Other p) cells.
Proof.
  intros Hp. unfold sum_values. induction cells as [|rc cells IH]; cbn [fold_right]; [reflexivity|].
  rewrite IH, cell_value_opposite by exact Hp. lia.
Qed.

(** X13. [Evaluate] is antisymmetric: with the other player to move on
    the same board it returns the negated value. *)
Theorem Evaluate_opposite (board : Board) :
  next_player board <> NONE ->
  exists v, Evaluate board = Done v /\
            Evaluate (mkBoard (fields board) (Other (next_player board))) = Done (- v).
Proof.
  intros Hp. rewrite !Evaluate_Done. cbn [fields next_player].
  rewrite Other_involutive. eexists. split; [reflexivity|].
  rewrite sum_values_opposite by exact Hp. reflexivity.
Qed.

Lemma Evaluate_opposite_witness :
  exists v, Evaluate InitialBoard = Done v /\
            Evaluate (mkBoard (fields InitialBoard) (Other (next_player InitialBoard)))
            = Done (- v).
Proof. apply (Evaluate_opposite InitialBoard). discriminate. Defined.

Lemma Player_Move_eqb_eq (a b : Move) : Move_eqb a b = true <-> a = b.
Proof.
  destruct a as [r c], b as [r' c']. unfold Move_eqb. cbn [row col].
  rewrite andb_true_iff, !Z.eqb_eq. split; [intros [-> ->]; reflexivity | intros H; inversion H; auto].
Qed.

Lemma map_moves_at (moves : list Move) (n : nat) :
  (n <= length moves)%nat ->
  map (moves_at moves) (Zrange 0 n) = firstn n moves.
Proof.
  intros Hn.
  assert (G : forall k i, (i + k <= length moves)%nat ->
            map (moves_at moves) (Zrange (Z.of_nat i) k) = firstn k (skipn i moves)).
  { induction k as [|k IH]; intros i Hi; [reflexivity|].
    cbn [Zrange map]. rewrite (firstn_skipn_cons (mkMove 0 0)) by lia.
    unfold moves_at at 1. rewrite Nat2Z.id. f_equal.
    replace (Z.of_nat i + 1) with (Z.of_nat (S i)) by lia. apply IH. lia. }
  apply (G n O). lia.
Qed.

Lemma legal_moves_length (board : Board) : (length (legal_moves board) <= 60)%nat.
Proof.
  pose proof (candidates_le_60 (fields board)) as H.
  rewrite <- length_candidates in H. unfold legal_moves.
  destruct (filter _ (candidates (fields board))) as [|m l] eqn:E; [exact H|].
  rewrite <- E. etransitivity; [apply filter_length_le | exact H].
Qed.

Lemma MoveIsValid_In (board : Board) (move : Move) :
  exists valid, MoveIsValid board move = Done valid /\
                (valid = true <-> In move (legal_moves board)).
Proof.
  unfold MoveIsValid.
  destruct (ListMoves_Done board new_moves length_new_moves) as (moves & E & Hlen & Hfirst).
  rewrite E. cbn [bind]. rewrite Nat2Z.id. eexists. split; [reflexivity|].
  rewrite <- Hfirst at 2.
  rewrite <- (map_moves_at moves (length (legal_moves board)))
    by (pose proof (legal_moves_length board); lia).
  rewrite existsb_exists, in_map_iff. split.
  - intros (i & Hi & Heq). apply Player_Move_eqb_eq in Heq. eauto.
  - intros (i & Heq & Hi). exists i. split; [exact Hi|]. apply Player_Move_eqb_eq. exact Heq.
Qed.

(** X14. [MoveIsValid] holds exactly of the legal moves of the board; a
    move it accepts targets an empty cell with an occupied neighbour, so
    the [CHECK] of the [DoMove] that follows passes. *)
Theorem MoveIsValid_legal (board : Board) (move : Move) :
  wf_board board ->
  exists valid, MoveIsValid board move = Done valid /\
    (valid = true <-> In move (legal_moves board)) /\
    (valid = true ->
     candidate (fields board) (row move) (col move) /\
     exists board', DoMove board move = Done board' /\ wf_board board' /\
                    next_player board' = Other (next_player board)).
Proof.
  intros Hwf. destruct (MoveIsValid_In board move) as (valid & E & Hiff).
  exists valid. split; [exact E|]. split; [exact Hiff|]. intros Hv. apply Hiff in Hv.
  pose proof (legal_moves_candidates board move Hv) as Hc. split; [exact Hc|].
  destruct Hc as (Hb & He & _).
  destruct (DoMove_UndoMove_Done board move Hwf Hb He) as (board' & E1 & Hwf' & Hn & _).
  eauto.
Qed.

Lemma MoveIsValid_legal_witness :
  exists valid, MoveIsValid InitialBoard (mkMove 2 2) = Done valid /\
    (valid = true <-> In (mkMove 2 2) (legal_moves InitialBoard)).
Proof.
  destruct (MoveIsValid_legal InitialBoard (mkMove 2 2)) as (valid & E & H & _).
  - reflexivity.
  - exists valid. split; [exact E | exact H].
Defined.

Lemma after_DoMove (board board' : Board) (move : Move) :
  DoMove board move = Done board' -> after board move = board'.
Proof. unfold after. intros ->. reflexivity. Qed.

Lemma Search_loop_max (search : Board -> outcome (Board * Z)) (f : Board -> Z)
    (moves : list Move) (board : Board) (k : nat) : forall i best_value,
  wf_board board ->
  (forall b, wf_board b -> search b = Done (b, f b)) ->
  (forall j, i <= j < i + Z.of_nat k ->
     candidate (fields board) (row (moves_at moves j)) (col (moves_at moves j))) ->
  Search_loop search k i moves board best_value =
  Done (board,
        fold_left Z.max
          (map (fun j => - f (after board (moves_at moves j))) (Zrange i k)) best_value).
Proof.
  induction k as [|k IH]; intros i best Hwf Hsearch Hmoves; [reflexivity|].
  cbn [Search_loop Zrange map fold_left].
  destruct (Hmoves i ltac:(lia)) as (Hb & He & _).
  destruct (DoMove_UndoMove_Done board (moves_at moves i) Hwf Hb He)
    as (board' & E1 & Hwf' & _ & E2).
  rewrite E1. cbn [bind]. rewrite (Hsearch board' Hwf'). cbn [bind].
  rewrite E2. cbn [bind]. rewrite (after_DoMove _ _ _ E1).
  replace (if best <? - f board' then - f board' else best)
    with (Z.max best (- f board')) by (destruct (best <? - f board') eqn:E; lia).
  apply IH; auto. intros j Hj. apply Hmoves. lia.
Qed.

Lemma Search_plies_value (plies : nat) (board : Board) :
  wf_board board ->
  Search_plies plies board = Done (board, search_value (Z.of_nat plies) board).
Proof.
  intros Hwf. unfold search_value, Search. rewrite Nat2Z.id.
  destruct (Search_plies_Done plies board Hwf) as (v & -> & _). reflexivity.
Qed.

Lemma fold_max_bound (l : list Z) : forall init lo hi,
  lo <= hi -> (forall x, In x l -> lo <= x <= hi) -> init <= hi ->
  fold_left Z.max l init <= hi /\ (l <> [] -> lo <= fold_left Z.max l init) /\
  init <= fold_left Z.max l init.
Proof.
  induction l as [|x l IH]; intros init lo hi Hlh Hl Hi; cbn [fold_left].
  - split; [lia|]. split; [congruence | lia].
  - assert (Hx : lo <= x <= hi) by (apply Hl; left; reflexivity).
    destruct (IH (Z.max init x) lo hi Hlh (fun y Hy => Hl y (or_intror Hy)) ltac:(lia))
      as (H1 & H2 & H3).
    split; [exact H1|]. split; [intros _|]; lia.
Qed.

Lemma search_value_bound (depth : Z) (board : Board) :
  wf_board board -> -128 <= search_value depth board <= 128.
Proof.
  intros Hwf. unfold search_value, Search.
  destruct (Search_plies_Done (Z.to_nat depth) board Hwf) as (v & -> & Hv). exact Hv.
Qed.

Lemma after_wf (board : Board) (move : Move) :
  wf_board board -> candidate (fields board) (row move) (col move) ->
  wf_board (after board move) /\ DoMove board move = Done (after board move) /\
  UndoMove (after board move) move = Done board.
Proof.
  intros Hwf (Hb & He & _).
  destruct (DoMove_UndoMove_Done board move Hwf Hb He) as (board' & E1 & Hwf' & _ & E2).
  rewrite (after_DoMove _ _ _ E1). auto.
Qed.

Lemma Search_plies_S (plies : nat) (board : Board) :
  wf_board board ->
  Search_plies (S plies) board =
  Done (board,
        match legal_moves board with
        | [] => evaluation board
        | moves => best_of (map (reply_value (Z.of_nat plies) board) moves)
        end).
Proof.
  intros Hwf. cbn [Search_plies].
  destruct (ListMoves_Done board new_moves length_new_moves) as (moves & E & Hlen & Hfirst).
  rewrite E. cbn [bind].
  destruct (legal_moves board) as [|m0 l0] eqn:EL.
  - cbn [length Z.of_nat Z.leb Z.compare]. unfold evaluation.
    rewrite Evaluate_Done. reflexivity.
  - rewrite <- EL. rewrite <- EL in Hfirst.
    assert (Hpos : (0 < length (legal_moves board))%nat) by (rewrite EL; simpl; lia).
    replace (Z.of_nat (length (legal_moves board)) <=? 0) with false by lia.
    rewrite Nat2Z.id.
    rewrite (Search_loop_max (Search_plies plies) (search_value (Z.of_nat plies)));
      auto using Search_plies_value.
    + cbn [bind].
      pose proof (legal_moves_length board) as Hle.
      assert (Hmap : map (fun j => - search_value (Z.of_nat plies)
                                       (after board (moves_at moves j)))
                       (Zrange 0 (length (legal_moves board))) =
                     map (reply_value (Z.of_nat plies) board) (legal_moves board)).
      { rewrite <- Hfirst at 2. rewrite <- map_moves_at by lia.
        rewrite map_map. reflexivity. }
      rewrite Hmap. fold (best_of (map (reply_value (Z.of_nat plies) board) (legal_moves board))).
      destruct (fold_max_bound (map (reply_value (Z.of_nat plies) board) (legal_moves board))
                  (MIN_VALUE - 1) (-128) 128) as (H1 & H2 & _);
        [lia | | unfold MIN_VALUE; lia |].
      * intros x Hx. apply in_map_iff in Hx. destruct Hx as (m & <- & Hm).
        unfold reply_value.
        pose proof (legal_moves_candidates board m Hm) as Hc.
        destruct (after_wf board m Hwf Hc) as (Hwf' & _).
        pose proof (search_value_bound (Z.of_nat plies) _ Hwf'). lia.
      * specialize (H2 ltac:(rewrite EL; discriminate)).
        fold (best_of (map (reply_value (Z.of_nat plies) board) (legal_moves board))) in H1, H2.
        unfold MIN_VALUE, MAX_VALUE in *.
        replace (-9999 <=? best_of _) with true by lia.
        replace (best_of _ <=? 9999) with true by lia.
        reflexivity.
    + intros j Hj. apply legal_moves_candidates. rewrite <- Hfirst.
      apply moves_at_firstn; [lia|].
      pose proof (legal_moves_length board). lia.
Qed.

(** X15. [Search] computes the negamax value: the evaluation of the board
    when [depth <= 0] or the board has no legal move, and otherwise the
    largest, over the legal moves, of the negated value that [Search]
    returns at depth [depth - 1] for the board after the move. *)
Theorem Search_negamax (board : Board) (depth : Z) :
  wf_board board ->
  Evaluate board = Done (evaluation board) /\
  Search board depth =
  Done (board,
        if depth <=? 0 then evaluation board
        else match legal_moves board with
             | [] => evaluation board
             | moves => best_of (map (reply_value (depth - 1) board) moves)
             end).
Proof.
  intros Hwf. split; [unfold evaluation; rewrite Evaluate_Done; reflexivity|].
  unfold Search. destruct (depth <=? 0) eqn:Hd.
  - replace (Z.to_nat depth) with O by lia. cbn [Search_plies].
    unfold evaluation. rewrite Evaluate_Done. reflexivity.
  - replace (Z.to_nat depth) with (S (Z.to_nat (depth - 1))) by lia.
    rewrite Search_plies_S by exact Hwf.
    replace (Z.of_nat (Z.to_nat (depth - 1))) with (depth - 1) by lia. reflexivity.
Qed.

Lemma Search_negamax_witness :
  Search InitialBoard 1 =
  Done (InitialBoard,
        best_of (map (reply_value 0 InitialBoard) (legal_moves InitialBoard))).
Proof.
  destruct (Search_negamax InitialBoard 1) as [_ H]; [reflexivity|]. exact H.
Defined.

Lemma Search_value (depth : Z) (board : Board) :
  wf_board board -> Search board depth = Done (board, search_value depth board).
Proof.
  intros Hwf. unfold search_value, Search.
  destruct (Search_plies_Done (Z.to_nat depth) board Hwf) as (v & -> & _). reflexivity.
Qed.

Lemma SelectMove_loop_spec (moves : list Move) (board : Board) (k : nat) :
  forall i best_value best_move,
  wf_board board ->
  (forall j, i <= j < i + Z.of_nat k ->
     candidate (fields board) (row (moves_at moves j)) (col (moves_at moves j))) ->
  exists best best_move',
    SelectMove_loop k i moves board best_value best_move = Done (board, best, best_move') /\
    best_value <= best /\
    (forall j, i <= j < i + Z.of_nat k -> reply_value 3 board (moves_at moves j) <= best) /\
    ((best = best_value /\ best_move' = best_move) \/
     (best_value < best /\
      exists j, i <= j < i + Z.of_nat k /\ best_move' = moves_at moves j /\
                best = reply_value 3 board (moves_at moves j))).
Proof.
  induction k as [|k IH]; intros i best bm Hwf Hmoves.
  - exists best, bm. split; [reflexivity|]. split; [lia|]. split; [intros j Hj; lia | auto].
  - cbn [SelectMove_loop].
    destruct (after_wf board (moves_at moves i) Hwf (Hmoves i ltac:(lia))) as (Hwf' & E1 & E2).
    rewrite E1. cbn [bind]. rewrite (Search_value 3 _ Hwf'). cbn [bind].
    rewrite E2. cbn [bind].
    fold (reply_value 3 board (moves_at moves i)).
    set (value := reply_value 3 board (moves_at moves i)).
    assert (Hrest : forall j, i + 1 <= j < i + 1 + Z.of_nat k ->
              candidate (fields board) (row (moves_at moves j)) (col (moves_at moves j)))
      by (intros j Hj; apply Hmoves; lia).
    destruct (best <? value) eqn:Hlt.
    + destruct (IH (i + 1) value (moves_at moves i) Hwf Hrest)
        as (b' & m' & E & Hge & Hall & Hsel).
      exists b', m'. split; [exact E|]. split; [lia|]. split.
      * intros j Hj. destruct (Z.eq_dec j i) as [-> | Hne]; [fold value; lia|].
        apply Hall. lia.
      * right. split; [lia|]. destruct Hsel as [[-> ->] | (Hlt' & j & Hj & Hm & Hv)].
        -- exists i. split; [lia|]. auto.
        -- exists j. split; [lia|]. auto.
    + destruct (IH (i + 1) best bm Hwf Hrest) as (b' & m' & E & Hge & Hall & Hsel).
      exists b', m'. split; [exact E|]. split; [lia|]. split.
      * intros j Hj. destruct (Z.eq_dec j i) as [-> | Hne]; [fold value; lia|].
        apply Hall. lia.
      * destruct Hsel as [[-> ->] | (Hlt' & j & Hj & Hm & Hv)]; [left; auto|].
        right. split; [lia|]. exists j. split; [lia|]. auto.
Qed.

Lemma reply_value_bound (board : Board) (move : Move) :
  wf_board board -> candidate (fields board) (row move) (col move) ->
  -128 <= reply_value 3 board move <= 128.
Proof.
  intros Hwf Hc. unfold reply_value.
  destruct (after_wf board move Hwf Hc) as (Hwf' & _).
  pose proof (search_value_bound 3 _ Hwf'). lia.
Qed.

Lemma SelectMove_Done (shuffle : list Move -> list Move) (board : Board) (move0 : Move) :
  wf_board board ->
  Permutation (legal_moves board) (shuffle (legal_moves board)) ->
  exists ok move value,
    SelectMove shuffle board move0 = Done (ok, move, value) /\
    (legal_moves board = [] -> ok = false /\ move = move0) /\
    (legal_moves board <> [] ->
     ok = true /\ In move (legal_moves board) /\
     value = reply_value 3 board move /\
     forall m, In m (legal_moves board) -> reply_value 3 board m <= value).
Proof.
  intros Hwf Hperm. unfold SelectMove. cbv zeta.
  destruct (ListMoves_Done board new_moves length_new_moves) as (moves & E & Hlen & Hfirst).
  rewrite E. cbn [bind]. rewrite Nat2Z.id. rewrite Hfirst.
  set (n := length (legal_moves board)).
  set (moves' := shuffle (legal_moves board) ++ skipn n moves).
  assert (Hn : length (shuffle (legal_moves board)) = n)
    by (symmetry; apply Permutation_length; exact Hperm).
  assert (Hat : forall j, 0 <= j < Z.of_nat n ->
            In (moves_at moves' j) (legal_moves board)).
  { intros j Hj. apply (Permutation_in _ (Permutation_sym Hperm)).
    unfold moves_at, moves'. rewrite app_nth1 by lia. apply nth_In. lia. }
  destruct (SelectMove_loop_spec moves' board n 0 (MIN_VALUE - 1) move0 Hwf)
    as (best & bm & EL & Hge & Hall & Hsel).
  { intros j Hj. apply legal_moves_candidates. apply Hat. lia. }
  rewrite EL. cbn [bind]. rewrite Board_eqb_refl. cbn [negb].
  exists (MIN_VALUE <=? best), bm, best. split; [reflexivity|]. split.
  - intros Hnil. unfold n in *. rewrite Hnil in *. cbn [length] in *.
    destruct Hsel as [[-> ->] | (_ & j & Hj & _)]; [|lia].
    split; reflexivity.
  - intros Hne.
    assert (Hpos : (0 < n)%nat).
    { unfold n. destruct (legal_moves board); [congruence | cbn; lia]. }
    assert (Hlow : -128 <= best).
    { pose proof (Hall 0 ltac:(lia)) as H0.
      pose proof (reply_value_bound board (moves_at moves' 0) Hwf
                    (legal_moves_candidates _ _ (Hat 0 ltac:(lia)))). lia. }
    destruct Hsel as [[-> _] | (_ & j & Hj & -> & Hv)]; [unfold MIN_VALUE in Hlow; lia|].
    split; [unfold MIN_VALUE; lia|]. split; [apply Hat; lia|]. split; [exact Hv|].
    intros m Hm. apply (Permutation_in _ Hperm) in Hm.
    destruct (In_nth _ _ (mkMove 0 0) Hm) as (idx & Hidx & Hnth).
    specialize (Hall (Z.of_nat idx) ltac:(lia)).
    unfold moves_at, moves' in Hall. rewrite Nat2Z.id, app_nth1, Hnth in Hall by lia.
    exact Hall.
Qed.

(** X16. [SelectMove] returns false and leaves [*best_move] alone exactly
    when the board has no legal move.  Otherwise it returns true with a
    legal move whose value, the negated result of [Search] at depth 3 after
    the move, is the largest among the legal moves, whatever the shuffle;
    its copy of the board is restored, so the final [CHECK] passes. *)
Theorem SelectMove_best (shuffle : list Move -> list Move) (board : Board) (move0 : Move) :
  wf_board board ->
  Permutation (legal_moves board) (shuffle (legal_moves board)) ->
  exists ok move value,
    SelectMove shuffle board move0 = Done (ok, move, value) /\
    (legal_moves board = [] -> ok = false /\ move = move0) /\
    (legal_moves board <> [] ->
     ok = true /\ In move (legal_moves board) /\
     value = reply_value 3 board move /\
     forall m, In m (legal_moves board) -> reply_value 3 board m <= value).
Proof. intros Hwf Hperm. apply SelectMove_Done; assumption. Qed.

Lemma SelectMove_best_witness :
  exists ok move value,
    SelectMove (@rev Move) InitialBoard (mkMove 0 0) = Done (ok, move, value) /\
    (legal_moves InitialBoard <> [] ->
     ok = true /\ In move (legal_moves InitialBoard)).
Proof.
  destruct (SelectMove_best (@rev Move) InitialBoard (mkMove 0 0))
    as (ok & move & value & E & _ & H).
  - reflexivity.
  - apply Permutation_rev.
  - exists ok, move, value. split; [exact E|]. intros Hne.
    destruct (H Hne) as (H1 & H2 & _). auto.
Defined.

End SearchProofs.

Module AgreementProofs.
Import AgreementSpec.

Lemma at_board_of_state (s : Arbiter.State) (r c : Z) :
  PlayerCC.at_ (PlayerCC.fields (board_of_state s)) r c = player_of_cell (Arbiter.at_ s r c).
Proof.
  unfold board_of_state, PlayerCC.at_, Arbiter.at_, grid_get. cbn [PlayerCC.fields].
  change PlayerCC.NONE with (player_of_cell 0). apply map_nth.
Qed.

Lemma player_of_cell_NONE (v : Z) :
  ArbiterSpec.cell_ok v ->
  PlayerCC.Player_eqb (player_of_cell v) PlayerCC.NONE = (v =? 0).
Proof. intros [-> | [-> | ->]]; reflexivity. Qed.

Lemma player_of_cell_eqb (v w : Z) :
  ArbiterSpec.cell_ok v -> w = 1 \/ w = 2 ->
  PlayerCC.Player_eqb (player_of_cell v) (player_of_cell w) = (v =? w).
Proof. intros [-> | [-> | ->]] [-> | ->]; reflexivity. Qed.

Lemma player_of_cell_flip (v : Z) :
  v = 1 \/ v = 2 ->
  ArbiterSpec.cell_ok (Z.lxor v 3) /\ Z.lxor v 3 <> 0 /\
  player_of_cell (Z.lxor v 3) = PlayerCC.Other (player_of_cell v).
Proof. intros [-> | ->]; cbn; unfold ArbiterSpec.cell_ok; repeat split; auto; lia. Qed.

Lemma ValidCoords_same (r c : Z) : PlayerCC.ValidCoords r c = Arbiter.ValidCoords r c.
Proof. reflexivity. Qed.

Section Ray.
Variables (s : Arbiter.State) (fields : list PlayerCC.Player) (r c dr dc : Z).
Hypothesis Hdir : is_dir dr dc.
Hypothesis Hagree : agree_off r c s fields.

Lemma occupied_at_agree (n : Z) :
  1 <= n ->
  PlayerSpec.occupied_at fields r c dr dc n = ArbiterSpec.occupied_at s r c dr dc n.
Proof.
  intros Hn. unfold PlayerSpec.occupied_at, ArbiterSpec.occupied_at.
  rewrite ValidCoords_same.
  destruct (Arbiter.ValidCoords (r + n * dr) (c + n * dc)) eqn:V; [|reflexivity].
  apply ArbiterProofs.ValidCoords_on_board in V.
  destruct Hagree as (_ & _ & H).
  destruct (H _ _ V (ray_not_origin r c dr dc n Hdir Hn)) as (Hok & ->).
  rewrite player_of_cell_NONE by exact Hok. reflexivity.
Qed.

Lemma player_at_agree (player n : Z) :
  player = 1 \/ player = 2 -> 1 <= n ->
  ArbiterSpec.occupied_at s r c dr dc n = true ->
  PlayerSpec.player_at fields (player_of_cell player) r c dr dc n =
  ArbiterSpec.player_at s player r c dr dc n.
Proof.
  intros Hp Hn Hocc. unfold PlayerSpec.player_at, ArbiterSpec.player_at.
  unfold ArbiterSpec.occupied_at in Hocc. apply andb_prop in Hocc. destruct Hocc as [V _].
  apply ArbiterProofs.ValidCoords_on_board in V.
  destruct Hagree as (_ & _ & H).
  destruct (H _ _ V (ray_not_origin r c dr dc n Hdir Hn)) as (Hok & ->).
  apply player_of_cell_eqb; assumption.
Qed.

Lemma last_same_agree (player : Z) :
  player = 1 \/ player = 2 ->
  PlayerSpec.last_same fields (player_of_cell player) r c dr dc =
  ArbiterSpec.last_same s player r c dr dc.
Proof.
  intros Hp. unfold PlayerSpec.last_same, ArbiterSpec.last_same.
  rewrite PlayerProofs.DoFlips_scan_model, ArbiterProofs.FindFlips_scan_model.
  rewrite (scan_model_ext _ _ (ArbiterSpec.occupied_at s r c dr dc)
             (ArbiterSpec.player_at s player r c dr dc)); [reflexivity|].
  intros m Hm. split; [apply occupied_at_agree; exact Hm|].
  rewrite occupied_at_agree by exact Hm. apply player_at_agree; assumption.
Qed.

End Ray.

Lemma agree_off_flip (s : Arbiter.State) (fields : list PlayerCC.Player)
    (r0 c0 r c : Z) :
  agree_off r0 c0 s fields -> on_board r c -> (r, c) <> (r0, c0) ->
  Arbiter.at_ s r c <> 0 ->
  agree_off r0 c0 (Arbiter.put s r c (Z.lxor (Arbiter.at_ s r c) 3))
    (grid_set fields r c (PlayerCC.Other (PlayerCC.at_ fields r c))).
Proof.
  intros (Ls & Lf & H) Hb Hne Hocc.
  split; [rewrite ArbiterProofs.length_put; exact Ls|].
  split; [rewrite length_grid_set; exact Lf|].
  intros r' c' Hb' Hne'.
  destruct (H _ _ Hb Hne) as (Hok & Hat).
  assert (Hv : Arbiter.at_ s r c = 1 \/ Arbiter.at_ s r c = 2)
    by (destruct Hok as [? | [? | ?]]; [congruence | auto | auto]).
  destruct (player_of_cell_flip _ Hv) as (Hok' & _ & Hflip).
  destruct (cell_in_dec (r', c') [(r, c)]) as [[E | []] | N].
  - inversion E; subst r' c'.
    rewrite ArbiterProofs.at_put_same, PlayerProofs.at_set_same by assumption.
    rewrite Hat. split; [exact Hok' | symmetry; exact Hflip].
  - assert ((r, c) <> (r', c')) by (intros E; apply N; left; exact E).
    rewrite ArbiterProofs.at_put_other, PlayerProofs.at_set_other by assumption.
    apply H; assumption.
Qed.

Lemma visit_agree (r c dr dc : Z) (k : nat) : forall s fields n,
  is_dir dr dc -> on_board r c -> 1 <= n -> agree_off r c s fields ->
  (forall j, n <= j < n + Z.of_nat k ->
     on_board (r + j * dr) (c + j * dc) /\ Arbiter.at_ s (r + j * dr) (c + j * dc) <> 0) ->
  exists s',
    Arbiter.FindFlips_visit k ArbiterSpec.flip_callback s r c dr dc n = (s', true) /\
    agree_off r c s' (PlayerCC.DoFlips_flip k fields r c dr dc n) /\
    Arbiter.moves_played s' = Arbiter.moves_played s /\
    PlayerCC.at_ (PlayerCC.DoFlips_flip k fields r c dr dc n) r c = PlayerCC.at_ fields r c /\
    (forall r' c', on_board r' c' ->
       (Arbiter.at_ s' r' c' = 0 <-> Arbiter.at_ s r' c' = 0)).
Proof.
  induction k as [|k IH]; intros s fields n Hdir Horigin Hn Hag Hcells.
  - exists s. cbn [Arbiter.FindFlips_visit PlayerCC.DoFlips_flip].
    split; [reflexivity|]. split; [exact Hag|]. split; [reflexivity|].
    split; [reflexivity|]. intros; reflexivity.
  - cbn [Arbiter.FindFlips_visit PlayerCC.DoFlips_flip]. unfold ArbiterSpec.flip_callback at 1.
    destruct (Hcells n ltac:(lia)) as (Hb & Hocc).
    assert (Hne : (r + n * dr, c + n * dc) <> (r, c)) by (apply ray_not_origin; assumption).
    pose proof (agree_off_flip s fields r c _ _ Hag Hb Hne Hocc) as Hag'.
    set (s1 := Arbiter.put s (r + n * dr) (c + n * dc) _) in *.
    set (f1 := grid_set fields (r + n * dr) (c + n * dc) _) in *.
    assert (Hoccupancy : forall r' c', on_board r' c' ->
              (Arbiter.at_ s1 r' c' = 0 <-> Arbiter.at_ s r' c' = 0)).
    { intros r' c' Hb'. destruct (cell_in_dec (r', c') [(r + n * dr, c + n * dc)])
        as [[E | []] | N].
      - inversion E; subst r' c'. unfold s1.
        destruct Hag as (Ls & _ & H). destruct (H _ _ Hb Hne) as (Hok & _).
        rewrite ArbiterProofs.at_put_same by assumption.
        assert (Hv : Arbiter.at_ s (r + n * dr) (c + n * dc) = 1 \/
                     Arbiter.at_ s (r + n * dr) (c + n * dc) = 2)
          by (destruct Hok as [? | [? | ?]]; [congruence | auto | auto]).
        destruct (player_of_cell_flip _ Hv) as (_ & Hnz & _). split; intros; congruence.
      - unfold s1. rewrite ArbiterProofs.at_put_other; [reflexivity | exact Hb | exact Hb' |].
        intros E. apply N. left. exact E. }
    destruct (IH s1 f1 (n + 1) Hdir Horigin ltac:(lia) Hag') as (s' & E & Hag'' & Hmp & Horg & Hoc').
    { intros j Hj. destruct (Hcells j ltac:(lia)) as (Hbj & Hoj). split; [exact Hbj|].
      rewrite Hoccupancy by exact Hbj. exact Hoj. }
    exists s'. split; [exact E|]. split; [exact Hag''|]. split; [exact Hmp|]. split.
    + rewrite Horg. unfold f1. apply PlayerProofs.at_set_other; auto.
    + intros r' c' Hb'. rewrite Hoc' by exact Hb'. apply Hoccupancy. exact Hb'.
Qed.

Lemma dir_agree (s : Arbiter.State) (fields : list PlayerCC.Player)
    (player r c dr dc : Z) :
  on_board r c -> agree_off r c s fields -> player = 1 \/ player = 2 ->
  -1 <= dr <= 1 -> -1 <= dc <= 1 ->
  exists s' fields',
    Arbiter.FindFlips_dir ArbiterSpec.flip_callback s player r c dr dc = Done (s', true) /\
    PlayerCC.DoFlips_dir fields (player_of_cell player) r c dr dc = Done fields' /\
    agree_off r c s' fields' /\
    Arbiter.moves_played s' = Arbiter.moves_played s /\
    PlayerCC.at_ fields' r c = PlayerCC.at_ fields r c /\
    (forall r' c', on_board r' c' ->
       (Arbiter.at_ s' r' c' = 0 <-> Arbiter.at_ s r' c' = 0)).
Proof.
  intros Horigin Hag Hp Hdr Hdc.
  unfold Arbiter.FindFlips_dir, PlayerCC.DoFlips_dir.
  destruct (negb (dr =? 0) || negb (dc =? 0)) eqn:Hd.
  - assert (Hdir : is_dir dr dc) by (apply dir_test in Hd; unfold is_dir; auto).
    rewrite (ArbiterProofs.last_same_scan s player r c dr dc Hdir).
    rewrite (PlayerProofs.DoFlips_last_same_scan fields _ r c dr dc Hdir).
    rewrite (last_same_agree s fields r c dr dc Hdir Hag player Hp).
    cbn [bind].
    destruct (ArbiterProofs.FindFlips_scan_Done s player r c dr dc Hdir)
      as (L & EL & Hfar & HL).
    rewrite (ArbiterProofs.last_same_scan s player r c dr dc Hdir) in EL.
    inversion EL as [EL']. rewrite EL'.
    destruct (visit_agree r c dr dc (Z.to_nat (L - 1)) s fields 1 Hdir Horigin ltac:(lia) Hag)
      as (s' & E & Hag' & Hmp & Horg & Hocc).
    { intros j Hj.
      assert (Hrun : ArbiterSpec.occupied_at s r c dr dc j = true).
      { destruct Hfar as [[-> _] | (HL1 & Hrun & _)]; [lia|]. apply Hrun. lia. }
      unfold ArbiterSpec.occupied_at in Hrun. apply andb_prop in Hrun.
      destruct Hrun as [V O]. apply ArbiterProofs.ValidCoords_on_board in V.
      split; [exact V|]. apply negb_true_iff in O. lia. }
    exists s', (PlayerCC.DoFlips_flip (Z.to_nat (L - 1)) fields r c dr dc 1).
    rewrite E. repeat (split; [first [reflexivity | assumption]|]). exact Hocc.
  - exists s, fields. repeat (split; [first [reflexivity | assumption]|]).
    intros; reflexivity.
Qed.

Lemma dirs_agree (player r c : Z) (dirs : list (Z * Z)) : forall s fields,
  on_board r c -> agree_off r c s fields -> player = 1 \/ player = 2 ->
  (forall dr dc, In (dr, dc) dirs -> -1 <= dr <= 1 /\ -1 <= dc <= 1) ->
  exists s' fields',
    Arbiter.FindFlips_dirs ArbiterSpec.flip_callback s player r c dirs = Done (s', true) /\
    PlayerCC.DoFlips_dirs fields (player_of_cell player) r c dirs = Done fields' /\
    agree_off r c s' fields' /\
    Arbiter.moves_played s' = Arbiter.moves_played s /\
    PlayerCC.at_ fields' r c = PlayerCC.at_ fields r c /\
    (forall r' c', on_board r' c' ->
       (Arbiter.at_ s' r' c' = 0 <-> Arbiter.at_ s r' c' = 0)).
Proof.
  induction dirs as [|[dr dc] dirs IH]; intros s fields Horigin Hag Hp Hdirs.
  - exists s, fields. cbn [Arbiter.FindFlips_dirs PlayerCC.DoFlips_dirs].
    repeat (split; [first [reflexivity | assumption]|]). intros; reflexivity.
  - cbn [Arbiter.FindFlips_dirs PlayerCC.DoFlips_dirs].
    destruct (Hdirs dr dc (or_introl eq_refl)) as [Hdr Hdc].
    destruct (dir_agree s fields player r c dr dc Horigin Hag Hp Hdr Hdc)
      as (s1 & f1 & E1 & E2 & Hag1 & Hmp1 & Horg1 & Hocc1).
    rewrite E1, E2. cbn [bind].
    destruct (IH s1 f1 Horigin Hag1 Hp (fun a b H => Hdirs a b (or_intror H)))
      as (s' & f' & E1' & E2' & Hag' & Hmp' & Horg' & Hocc').
    exists s', f'. rewrite E1', E2'.
    repeat (split; [first [reflexivity | assumption | congruence]|]).
    intros r' c' Hb'. rewrite Hocc' by exact Hb'. apply Hocc1. exact Hb'.
Qed.

Lemma agree_board_of_state (s : Arbiter.State) (fields : list PlayerCC.Player) :
  length (Arbiter.fields s) = 64%nat -> length fields = 64%nat ->
  (forall r c, on_board r c -> PlayerCC.at_ fields r c = player_of_cell (Arbiter.at_ s r c)) ->
  fields = PlayerCC.fields (board_of_state s).
Proof.
  intros Ls Lf H. apply (grid_ext PlayerCC.NONE).
  - exact Lf.
  - unfold board_of_state. cbn [PlayerCC.fields]. rewrite length_map. exact Ls.
  - intros r c Hb. fold (PlayerCC.at_ fields r c).
    fold (PlayerCC.at_ (PlayerCC.fields (board_of_state s)) r c).
    rewrite at_board_of_state. apply H. exact Hb.
Qed.

Lemma mover_next (s s' : Arbiter.State) :
  Arbiter.moves_played s' = Arbiter.moves_played s + 1 ->
  player_of_cell (ArbiterSpec.mover s') = PlayerCC.Other (player_of_cell (ArbiterSpec.mover s)).
Proof.
  intros H. pose proof (ArbiterProofs.GetNextPlayer_next s s' H) as G.
  unfold Arbiter.GetNextPlayer in G. unfold ArbiterSpec.mover.
  destruct (ArbiterProofs.GetNextPlayer_0_or_1 s) as [E | E];
    unfold Arbiter.GetNextPlayer in E; rewrite E in *.
  - replace (Z.land (Arbiter.moves_played s') 1) with 1 by lia. reflexivity.
  - replace (Z.land (Arbiter.moves_played s') 1) with 0 by lia. reflexivity.
Qed.

Lemma ExecuteMove_DoMove (s : Arbiter.State) (move : Arbiter.Move) :
  ArbiterSpec.wf_state s ->
  on_board (Arbiter.row move) (Arbiter.col move) ->
  Arbiter.at_ s (Arbiter.row move) (Arbiter.col move) = 0 ->
  exists s', Arbiter.ExecuteMove s move = Done s' /\
             PlayerCC.DoMove (board_of_state s) (move_of move) = Done (board_of_state s') /\
             ArbiterSpec.wf_state s' /\
             Arbiter.moves_played s' = Arbiter.moves_played s + 1.
Proof.
  intros [Ls Hok] Hb Hempty.
  set (r := Arbiter.row move) in *. set (c := Arbiter.col move) in *.
  set (player := ArbiterSpec.mover s).
  assert (Hp : player = 1 \/ player = 2) by apply ArbiterProofs.player_1_or_2.
  unfold PlayerCC.DoMove, Arbiter.ExecuteMove. cbv zeta.
  cbn [move_of PlayerCC.row PlayerCC.col]. fold r c.
  rewrite at_board_of_state, Hempty.
  change (PlayerCC.Player_eqb (player_of_cell 0) PlayerCC.NONE) with true.
  cbn [negb].
  cbn [board_of_state PlayerCC.fields PlayerCC.next_player]. fold player.
  set (f0 := map player_of_cell (Arbiter.fields s)).
  assert (Lf0 : length f0 = 64%nat) by (unfold f0; rewrite length_map; exact Ls).
  assert (Hag : agree_off r c s (grid_set f0 r c (player_of_cell player))).
  { split; [exact Ls|]. split; [rewrite length_grid_set; exact Lf0|].
    intros r' c' Hb' Hne. split; [apply Hok; exact Hb'|].
    rewrite PlayerProofs.at_set_other by (auto; congruence).
    apply (at_board_of_state s). }
  unfold Arbiter.FindFlips, PlayerCC.DoFlips.
  destruct (dirs_agree player r c directions s _ Hb Hag Hp)
    as (s1 & f1 & E1 & E2 & (Ls1 & Lf1 & Hag1) & Hmp1 & Horg1 & Hocc1).
  { intros dr dc Hin. apply In_directions. exact Hin. }
  fold ArbiterSpec.flip_callback. fold (ArbiterSpec.mover s). fold player.
  rewrite E1, E2. cbn [bind]. eexists. split; [reflexivity|].
  set (s' := Arbiter.mkState _ _).
  assert (Hat' : forall r' c', on_board r' c' ->
            ArbiterSpec.cell_ok (Arbiter.at_ s' r' c') /\
            PlayerCC.at_ f1 r' c' = player_of_cell (Arbiter.at_ s' r' c')).
  { intros r' c' Hb'. unfold s'.
    change (Arbiter.at_ (Arbiter.mkState (Arbiter.fields (Arbiter.put s1 r c player))
                           (Arbiter.moves_played (Arbiter.put s1 r c player) + 1)) r' c')
      with (Arbiter.at_ (Arbiter.put s1 r c player) r' c').
    destruct (cell_in_dec (r', c') [(r, c)]) as [[E | []] | N].
    - inversion E; subst r' c'. rewrite ArbiterProofs.at_put_same by assumption.
      rewrite Horg1, PlayerProofs.at_set_same by assumption.
      split; [|reflexivity]. unfold ArbiterSpec.cell_ok. lia.
    - assert (Hne : (r', c') <> (r, c)) by (intros E; apply N; left; congruence).
      rewrite ArbiterProofs.at_put_other by (auto; congruence).
      apply Hag1; assumption. }
  assert (Ls' : length (Arbiter.fields s') = 64%nat)
    by (unfold s'; cbn [Arbiter.fields]; rewrite ArbiterProofs.length_put; exact Ls1).
  assert (Hmp' : Arbiter.moves_played s' = Arbiter.moves_played s + 1)
    by (unfold s'; cbn [Arbiter.moves_played Arbiter.put]; lia).
  split; [|split; [split; [exact Ls' | intros r' c' Hb'; apply Hat'; exact Hb'] | exact Hmp']].
  f_equal. unfold board_of_state at 1. f_equal.
  - apply agree_board_of_state; [exact Ls' | exact Lf1 |].
    intros r' c' Hb'. apply Hat'. exact Hb'.
  - symmetry. apply mover_next. exact Hmp'.
Qed.

Lemma agree_origin (s : Arbiter.State) (r0 c0 : Z) :
  ArbiterSpec.wf_state s ->
  agree_off r0 c0 s (PlayerCC.fields (board_of_state s)).
Proof.
  intros [Ls Hok]. split; [exact Ls|].
  split; [unfold board_of_state; cbn [PlayerCC.fields]; rewrite length_map; exact Ls|].
  intros r c Hb _. split; [apply Hok; exact Hb | apply at_board_of_state].
Qed.

Lemma existsb_eq_in {A : Type} (f g : A -> bool) (l : list A) :
  (forall x, In x l -> f x = g x) -> existsb f l = existsb g l.
Proof.
  induction l as [|x l IH]; intros H; cbn [existsb]; [reflexivity|].
  rewrite (H x (or_introl eq_refl)), IH; [reflexivity|].
  intros y Hy. apply H. right. exact Hy.
Qed.

Lemma has_flip_agree (s : Arbiter.State) (r c : Z) :
  ArbiterSpec.wf_state s ->
  PlayerSpec.has_flip (PlayerCC.fields (board_of_state s))
    (PlayerCC.next_player (board_of_state s)) r c =
  ArbiterSpec.has_flip s (ArbiterSpec.mover s) r c.
Proof.
  intros Hwf. unfold PlayerSpec.has_flip, ArbiterSpec.has_flip.
  apply existsb_eq_in. intros [dr dc] Hin. cbn [fst snd].
  destruct (negb (dr =? 0) || negb (dc =? 0)) eqn:Hd; [|reflexivity].
  cbn [andb]. f_equal.
  apply In_directions in Hin. apply dir_test in Hd.
  apply last_same_agree.
  - unfold is_dir. tauto.
  - apply agree_origin. exact Hwf.
  - apply ArbiterProofs.player_1_or_2.
Qed.

Lemma is_candidate_agree (s : Arbiter.State) (r c : Z) :
  ArbiterSpec.wf_state s -> on_board r c ->
  PlayerSpec.is_candidate (PlayerCC.fields (board_of_state s)) (r, c) =
  (Arbiter.at_ s r c =? 0) && Arbiter.HasOccupiedNeighbor s r c.
Proof.
  intros Hwf Hb.
  assert (Hcell : forall r' c', on_board r' c' ->
            (PlayerCC.at_ (PlayerCC.fields (board_of_state s)) r' c' = PlayerCC.NONE
             <-> Arbiter.at_ s r' c' = 0)).
  { intros r' c' Hb'. rewrite at_board_of_state.
    destruct Hwf as [_ Hok]. destruct (Hok r' c' Hb') as [-> | [-> | ->]];
      cbn; split; intros; congruence || lia. }
  apply eq_true_iff_eq. rewrite PlayerProofs.is_candidate_candidate by exact Hb.
  rewrite andb_true_iff, Z.eqb_eq, ArbiterProofs.HasOccupiedNeighbor_adjacent.
  unfold PlayerSpec.candidate. split.
  - intros (_ & He & r2 & c2 & Ha & Hb2 & Ho). split; [apply Hcell; assumption|].
    exists r2, c2. rewrite <- Hcell by exact Hb2. auto.
  - intros (He & r2 & c2 & Ha & Hb2 & Ho). split; [exact Hb|].
    split; [apply Hcell; assumption|]. exists r2, c2. rewrite Hcell by exact Hb2. auto.
Qed.

Lemma candidates_agree (s : Arbiter.State) :
  ArbiterSpec.wf_state s ->
  PlayerSpec.candidates (PlayerCC.fields (board_of_state s)) =
  map move_of (Arbiter.all_moves s).
Proof.
  intros Hwf. unfold PlayerSpec.candidates, Arbiter.all_moves. rewrite map_map.
  cbn [move_of Arbiter.row Arbiter.col]. f_equal.
  apply filter_ext_in. intros [r c] Hin. apply In_all_cells in Hin.
  apply is_candidate_agree; assumption.
Qed.

Lemma filter_map_swap {A B : Type} (f : A -> B) (p : B -> bool) (l : list A) :
  filter p (map f l) = map f (filter (fun x => p (f x)) l).
Proof.
  induction l as [|x l IH]; cbn [map filter]; [reflexivity|].
  destruct (p (f x)); cbn [map]; congruence.
Qed.

Lemma legal_moves_agree (s : Arbiter.State) :
  ArbiterSpec.wf_state s ->
  exists moves, Arbiter.ListValidMoves s = Done moves /\
                PlayerSpec.legal_moves (board_of_state s) = map move_of moves.
Proof.
  intros Hwf. rewrite ArbiterProofs.ListValidMoves_Done. eexists. split; [reflexivity|].
  unfold PlayerSpec.legal_moves. rewrite candidates_agree by exact Hwf.
  rewrite filter_map_swap.
  rewrite (filter_ext _ (fun m => ArbiterSpec.has_flip s (ArbiterSpec.mover s)
                                    (Arbiter.row m) (Arbiter.col m))).
  2:{ intros m. cbn [move_of PlayerCC.row PlayerCC.col]. apply has_flip_agree. exact Hwf. }
  destruct (filter _ (Arbiter.all_moves s)); reflexivity.
Qed.

(** X17. The two programs agree on the legal moves: on the player's
    board for a state of the arbiter, [ListMoves] returns the moves of
    [ListValidMoves], in the same order, and both write a move the same
    way. *)
Theorem programs_agree_on_legal_moves (s : Arbiter.State) :
  ArbiterSpec.wf_state s ->
  exists moves array n,
    Arbiter.ListValidMoves s = Done moves /\
    PlayerCC.ListMoves (board_of_state s) PlayerCC.new_moves = Done (array, n) /\
    firstn (Z.to_nat n) array = map move_of moves /\
    forall m, PlayerCC.FormatMove (move_of m) = Arbiter.FormatMove m.
Proof.
  intros Hwf. destruct (legal_moves_agree s Hwf) as (moves & E & HL).
  destruct (PlayerProofs.ListMoves_Done (board_of_state s) PlayerCC.new_moves
              PlayerProofs.length_new_moves) as (array & EA & _ & Hfirst).
  exists moves, array, (Z.of_nat (length (PlayerSpec.legal_moves (board_of_state s)))).
  split; [exact E|]. split; [exact EA|]. rewrite Nat2Z.id, Hfirst. split; [exact HL|].
  intros m. reflexivity.
Qed.

Lemma programs_agree_on_legal_moves_witness :
  exists moves array n,
    Arbiter.ListValidMoves Arbiter.InitialState = Done moves /\
    PlayerCC.ListMoves (board_of_state Arbiter.InitialState) PlayerCC.new_moves
    = Done (array, n) /\
    firstn (Z.to_nat n) array = map move_of moves.
Proof.
  destruct (programs_agree_on_legal_moves Arbiter.InitialState ArbiterProofs.InitialState_wf)
    as (moves & array & n & H1 & H2 & H3 & _).
  exists moves, array, n. auto.
Defined.

Lemma Arbiter_ValidateMove_In (s : Arbiter.State) (move : Arbiter.Move) (reason : string) :
  Arbiter.ValidateMove s move = Done (true, reason) ->
  exists moves, Arbiter.ListValidMoves s = Done moves /\ In move moves.
Proof.
  unfold Arbiter.ValidateMove. rewrite ArbiterProofs.ListValidMoves_Done. cbn [bind].
  destruct (existsb _ _) eqn:Hex; cbn [negb]; intros E; [|discriminate].
  apply existsb_exists in Hex as (m & Hin & Heq). apply ArbiterProofs.Move_eqb_eq in Heq.
  subst m. eexists. split; [reflexivity | exact Hin].
Qed.

Lemma valid_move_agree (s : Arbiter.State) (move : Arbiter.Move) (reason : string) :
  ArbiterSpec.wf_state s ->
  Arbiter.ValidateMove s move = Done (true, reason) ->
  exists s',
    Arbiter.ExecuteMove s move = Done s' /\
    PlayerCC.MoveIsValid (board_of_state s) (move_of move) = Done true /\
    PlayerCC.DoMove (board_of_state s) (move_of move) = Done (board_of_state s') /\
    ArbiterSpec.wf_state s' /\
    Arbiter.moves_played s' = Arbiter.moves_played s + 1.
Proof.
  intros Hwf Hv.
  destruct (ArbiterProofs.ValidateMove_ok _ _ _ Hv) as (Hb & He & _).
  destruct (ExecuteMove_DoMove s move Hwf Hb He) as (s' & E1 & E2 & Hwf' & Hmp).
  exists s'. split; [exact E1|]. split; [|auto].
  destruct (Arbiter_ValidateMove_In s move reason Hv) as (moves & EL & Hin).
  destruct (legal_moves_agree s Hwf) as (moves' & EL' & HL).
  rewrite EL in EL'. inversion EL'; subst moves'.
  destruct (SearchProofs.MoveIsValid_In (board_of_state s) (move_of move)) as (valid & E & Hiff).
  rewrite E. f_equal. apply Hiff. rewrite HL. apply in_map. exact Hin.
Qed.

(** X18. The two programs agree on the effect of a move: a move that
    [ValidateMove] accepts passes [MoveIsValid] on the player's board, and
    [DoMove] leads to the player's board for the state that [ExecuteMove]
    leads to. *)
Theorem programs_agree_on_moves (s : Arbiter.State) (move : Arbiter.Move) (reason : string) :
  ArbiterSpec.wf_state s ->
  Arbiter.ValidateMove s move = Done (true, reason) ->
  exists s',
    Arbiter.ExecuteMove s move = Done s' /\
    PlayerCC.MoveIsValid (board_of_state s) (move_of move) = Done true /\
    PlayerCC.DoMove (board_of_state s) (move_of move) = Done (board_of_state s') /\
    ArbiterSpec.wf_state s'.
Proof.
  intros Hwf Hv. destruct (valid_move_agree s move reason Hwf Hv) as (s' & H1 & H2 & H3 & H4 & _).
  exists s'. auto.
Qed.

Lemma programs_agree_on_moves_witness :
  exists s',
    Arbiter.ExecuteMove Arbiter.InitialState (Arbiter.mkMove 2 2) = Done s' /\
    PlayerCC.DoMove (board_of_state Arbiter.InitialState) (move_of (Arbiter.mkMove 2 2))
    = Done (board_of_state s').
Proof.
  destruct (programs_agree_on_moves Arbiter.InitialState (Arbiter.mkMove 2 2) EmptyString
              ArbiterProofs.InitialState_wf) as (s' & H1 & _ & H3 & _).
  - vm_compute. reflexivity.
  - exists s'. auto.
Defined.

Lemma ApplyMoves_agree (moves : list Arbiter.Move) : forall s s',
  ArbiterSpec.wf_state s ->
  ArbiterSpec.PlayMoves s moves = Some s' ->
  ApplyMoves (board_of_state s) (map move_of moves) = Done (board_of_state s').
Proof.
  induction moves as [|m moves IH]; intros s s' Hwf HP.
  - cbn in HP. inversion HP. reflexivity.
  - cbn [ArbiterSpec.PlayMoves] in HP.
    destruct (Arbiter.ValidateMove s m) as [[[] reason]| |] eqn:V; try discriminate.
    destruct (valid_move_agree s m reason Hwf V) as (s1 & E1 & E2 & E3 & Hwf1 & _).
    rewrite E1 in HP. cbn [map ApplyMoves]. rewrite E2, E3. apply IH; assumption.
Qed.

(** X19. The player follows every game that the arbiter accepts: started
    on [InitialBoard] and given the moves of a valid game one after the
    other, no [CHECK] fails and its board is the board for the state of the
    arbiter. *)
Theorem player_follows_valid_game (moves : list Arbiter.Move) (s : Arbiter.State) :
  ArbiterSpec.PlayMoves Arbiter.InitialState moves = Some s ->
  board_of_state Arbiter.InitialState = PlayerCC.InitialBoard /\
  ApplyMoves PlayerCC.InitialBoard (map move_of moves) = Done (board_of_state s).
Proof.
  intros HP. split; [reflexivity|].
  change PlayerCC.InitialBoard with (board_of_state Arbiter.InitialState).
  apply ApplyMoves_agree; [apply ArbiterProofs.InitialState_wf | exact HP].
Qed.

Lemma player_follows_valid_game_witness :
  ApplyMoves PlayerCC.InitialBoard (map move_of ArbiterSpec.full_game)
  = Done (board_of_state ArbiterSpec.full_board).
Proof.
  apply (player_follows_valid_game ArbiterSpec.full_game ArbiterSpec.full_board).
  vm_compute. reflexivity.
Defined.

End AgreementProofs.

Module MoveProofs.
Import MoveSpec AgreementSpec.

Lemma player_turns_flips (fields : list PlayerCC.Player) (p : PlayerCC.Player)
    (r c r' c' : Z) :
  player_turns fields p r c r' c' <-> In (r', c') (PlayerSpec.flips fields p r c).
Proof.
  rewrite PlayerProofs.flips_In. unfold player_turns, turns. split.
  - intros (dr & dc & n & L & Hd & Hf & Hn & E1 & E2). exists dr, dc, n.
    rewrite (farthest_unique _ _ _ _ (PlayerProofs.last_same_farthest fields p r c dr dc Hd) Hf).
    auto.
  - intros (dr & dc & n & Hd & Hn & E1 & E2).
    exists dr, dc, n, (PlayerSpec.last_same fields p r c dr dc).
    split; [exact Hd|]. split; [apply PlayerProofs.last_same_farthest; exact Hd | auto].
Qed.

Lemma flips_set_origin (fields : list PlayerCC.Player) (p v : PlayerCC.Player) (r c : Z) :
  on_board r c ->
  PlayerSpec.flips (grid_set fields r c v) p r c = PlayerSpec.flips fields p r c.
Proof.
  intros Hb. unfold PlayerSpec.flips. apply flat_map_ext_in. intros [dr dc] Hin.
  apply In_directions in Hin as (Hr & Hc).
  assert (Hcase : (dr = 0 /\ dc = 0) \/ is_dir dr dc) by (unfold is_dir; lia).
  destruct Hcase as [(-> & ->) | Hd]; [reflexivity|].
  apply PlayerProofs.dir_flips_ext. intros n Hn Hbn.
  apply PlayerProofs.at_set_other; auto.
  intros E. symmetry in E. revert E. apply ray_not_origin; auto.
Qed.

Lemma DoMove_cells (board : PlayerCC.Board) (move : PlayerCC.Move) :
  PlayerSpec.wf_board board ->
  on_board (PlayerCC.row move) (PlayerCC.col move) ->
  PlayerCC.at_ (PlayerCC.fields board) (PlayerCC.row move) (PlayerCC.col move)
  = PlayerCC.NONE ->
  exists board',
    PlayerCC.DoMove board move = Done board' /\
    PlayerSpec.wf_board board' /\
    PlayerCC.next_player board' = PlayerCC.Other (PlayerCC.next_player board) /\
    PlayerCC.at_ (PlayerCC.fields board') (PlayerCC.row move) (PlayerCC.col move)
    = PlayerCC.next_player board /\
    forall r c, on_board r c -> (r, c) <> (PlayerCC.row move, PlayerCC.col move) ->
      (player_turns (PlayerCC.fields board) (PlayerCC.next_player board)
         (PlayerCC.row move) (PlayerCC.col move) r c ->
       PlayerCC.at_ (PlayerCC.fields board') r c
       = PlayerCC.Other (PlayerCC.at_ (PlayerCC.fields board) r c)) /\
      (~ player_turns (PlayerCC.fields board) (PlayerCC.next_player board)
           (PlayerCC.row move) (PlayerCC.col move) r c ->
       PlayerCC.at_ (PlayerCC.fields board') r c
       = PlayerCC.at_ (PlayerCC.fields board) r c).
Proof.
  destruct board as [f p]. destruct move as [r0 c0]. unfold PlayerSpec.wf_board.
  cbn [PlayerCC.fields PlayerCC.next_player PlayerCC.row PlayerCC.col].
  intros Hlen Hb Hempty. unfold PlayerCC.DoMove.
  cbn [PlayerCC.fields PlayerCC.next_player PlayerCC.row PlayerCC.col].
  rewrite Hempty. change (PlayerCC.Player_eqb PlayerCC.NONE PlayerCC.NONE) with true.
  cbn [negb].
  set (f1 := grid_set f r0 c0 p).
  assert (Hlen1 : length f1 = 64%nat) by (unfold f1; rewrite length_grid_set; exact Hlen).
  destruct (PlayerProofs.DoFlips_spec f1 p r0 c0 Hlen1) as (f2 & E2 & Hlen2 & Hat2).
  rewrite E2. cbn [bind]. eexists. split; [reflexivity|].
  cbn [PlayerCC.fields PlayerCC.next_player].
  split; [exact Hlen2|]. split; [reflexivity|]. split.
  - destruct (Hat2 r0 c0 Hb) as (_ & Hout).
    rewrite Hout by apply PlayerProofs.origin_not_flipped.
    unfold f1. apply PlayerProofs.at_set_same; auto.
  - intros r c Hrc Hne. destruct (Hat2 r c Hrc) as (Hin & Hout).
    unfold f1 in Hin, Hout. rewrite flips_set_origin in Hin, Hout by exact Hb.
    rewrite PlayerProofs.at_set_other in Hin, Hout by (auto; congruence).
    rewrite player_turns_flips. auto.
Qed.

(** X21. What [DoMove] does to the board.  The target cell gets a disc of
    the player to move, the cells that this disc turns over go to the other
    player, every other cell stays as it is, and the turn passes.  The
    cells turned over are those of the board before the move: in each
    direction the cells before the farthest disc of the mover in the
    occupied run next to the target; the flips of one direction do not
    change what is flipped in another. *)
Theorem DoMove_effect (board : PlayerCC.Board) (move : PlayerCC.Move) :
  PlayerSpec.wf_board board ->
  on_board (PlayerCC.row move) (PlayerCC.col move) ->
  PlayerCC.at_ (PlayerCC.fields board) (PlayerCC.row move) (PlayerCC.col move)
  = PlayerCC.NONE ->
  exists board',
    PlayerCC.DoMove board move = Done board' /\
    PlayerSpec.wf_board board' /\
    PlayerCC.next_player board' = PlayerCC.Other (PlayerCC.next_player board) /\
    PlayerCC.at_ (PlayerCC.fields board') (PlayerCC.row move) (PlayerCC.col move)
    = PlayerCC.next_player board /\
    forall r c, on_board r c -> (r, c) <> (PlayerCC.row move, PlayerCC.col move) ->
      (player_turns (PlayerCC.fields board) (PlayerCC.next_player board)
         (PlayerCC.row move) (PlayerCC.col move) r c ->
       PlayerCC.at_ (PlayerCC.fields board') r c
       = PlayerCC.Other (PlayerCC.at_ (PlayerCC.fields board) r c)) /\
      (~ player_turns (PlayerCC.fields board) (PlayerCC.next_player board)
           (PlayerCC.row move) (PlayerCC.col move) r c ->
       PlayerCC.at_ (PlayerCC.fields board') r c
       = PlayerCC.at_ (PlayerCC.fields board) r c).
Proof. apply DoMove_cells. Qed.

Lemma DoMove_effect_witness :
  exists board',
    PlayerCC.DoMove PlayerCC.InitialBoard (PlayerCC.mkMove 2 2) = Done board' /\
    PlayerCC.at_ (PlayerCC.fields board') 2 2 = PlayerCC.WHITE.
Proof.
  destruct (DoMove_effect PlayerCC.InitialBoard (PlayerCC.mkMove 2 2))
    as (board' & E & _ & _ & H & _).
  - reflexivity.
  - cbn [PlayerCC.row PlayerCC.col]. unfold on_board. lia.
  - reflexivity.
  - exists board'. split; [exact E | exact H].
Defined.

Lemma turns_agree (s : Arbiter.State) (r c r' c' : Z) :
  ArbiterSpec.wf_state s ->
  arbiter_turns s (ArbiterSpec.mover s) r c r' c' <->
  player_turns (PlayerCC.fields (board_of_state s))
    (PlayerCC.next_player (board_of_state s)) r c r' c'.
Proof.
  intros Hwf. unfold arbiter_turns, player_turns, turns.
  assert (Hp : ArbiterSpec.mover s = 1 \/ ArbiterSpec.mover s = 2)
    by apply ArbiterProofs.player_1_or_2.
  pose proof (AgreementProofs.agree_origin s r c Hwf) as Hag.
  cbn [board_of_state PlayerCC.next_player].
  split; intros (dr & dc & n & L & Hd & Hf & Hn & E1 & E2);
    exists dr, dc, n, L; (split; [exact Hd|]); (split; [|auto]);
    (eapply farthest_transfer; [exact Hf | |]).
  - intros m Hm. apply (AgreementProofs.occupied_at_agree s _ r c dr dc Hd Hag m Hm).
  - intros m Hm _ Hocc.
    apply (AgreementProofs.player_at_agree s _ r c dr dc Hd Hag _ m Hp Hm Hocc).
  - intros m Hm. symmetry.
    apply (AgreementProofs.occupied_at_agree s _ r c dr dc Hd Hag m Hm).
  - intros m Hm _ Hocc. symmetry.
    apply (AgreementProofs.player_at_agree s _ r c dr dc Hd Hag _ m Hp Hm).
    rewrite <- (AgreementProofs.occupied_at_agree s _ r c dr dc Hd Hag m Hm). exact Hocc.
Qed.

Lemma player_of_cell_inj (v w : Z) :
  ArbiterSpec.cell_ok v -> ArbiterSpec.cell_ok w ->
  player_of_cell v = player_of_cell w -> v = w.
Proof. intros [-> | [-> | ->]] [-> | [-> | ->]] H; try reflexivity; discriminate. Qed.

Lemma turned_occupied (s : Arbiter.State) (player r c r' c' : Z) :
  arbiter_turns s player r c r' c' -> on_board r' c' /\ Arbiter.at_ s r' c' <> 0.
Proof.
  intros (dr & dc & n & L & Hd & Hf & Hn & -> & ->).
  assert (Hocc : ArbiterSpec.occupied_at s r c dr dc n = true).
  { destruct Hf as [[-> _] | (_ & Hrun & _)]; [lia|]. apply Hrun. lia. }
  unfold ArbiterSpec.occupied_at in Hocc. apply andb_prop in Hocc. destruct Hocc as [V O].
  apply ArbiterProofs.ValidCoords_on_board in V. apply negb_true_iff in O.
  split; [exact V | lia].
Qed.

(** X22. What [ExecuteMove] does to the state: the same, on the cells of
    the arbiter.  The callback changes the state that [FindFlips] is
    reading, and the disc is placed after the flips, yet the cells turned
    over are those determined on the state before the move; a cell turned
    over is occupied and changes from 1 to 2 or from 2 to 1. *)
Theorem ExecuteMove_effect (s : Arbiter.State) (move : Arbiter.Move) :
  ArbiterSpec.wf_state s ->
  on_board (Arbiter.row move) (Arbiter.col move) ->
  Arbiter.at_ s (Arbiter.row move) (Arbiter.col move) = 0 ->
  exists s',
    Arbiter.ExecuteMove s move = Done s' /\
    ArbiterSpec.wf_state s' /\
    Arbiter.moves_played s' = Arbiter.moves_played s + 1 /\
    Arbiter.at_ s' (Arbiter.row move) (Arbiter.col move) = ArbiterSpec.mover s /\
    forall r c, on_board r c -> (r, c) <> (Arbiter.row move, Arbiter.col move) ->
      (arbiter_turns s (ArbiterSpec.mover s) (Arbiter.row move) (Arbiter.col move) r c ->
       Arbiter.at_ s r c <> 0 /\ Arbiter.at_ s' r c = 3 - Arbiter.at_ s r c) /\
      (~ arbiter_turns s (ArbiterSpec.mover s) (Arbiter.row move) (Arbiter.col move) r c ->
       Arbiter.at_ s' r c = Arbiter.at_ s r c).
Proof.
  intros Hwf Hb Hempty.
  destruct (AgreementProofs.ExecuteMove_DoMove s move Hwf Hb Hempty)
    as (s' & E & D & Hwf' & Hmp).
  destruct (DoMove_cells (board_of_state s) (move_of move)) as (b' & D' & _ & _ & Ht & Hcells).
  { unfold PlayerSpec.wf_board, board_of_state. cbn [PlayerCC.fields].
    rewrite length_map. apply Hwf. }
  { exact Hb. }
  { cbn [move_of PlayerCC.row PlayerCC.col].
    rewrite AgreementProofs.at_board_of_state, Hempty. reflexivity. }
  rewrite D in D'. inversion D'; subst b'. clear D'.
  cbn [move_of PlayerCC.row PlayerCC.col] in Ht, Hcells.
  assert (Hp : ArbiterSpec.cell_ok (ArbiterSpec.mover s)).
  { unfold ArbiterSpec.cell_ok.
    destruct (ArbiterProofs.player_1_or_2 (Arbiter.moves_played s)) as [H | H];
      unfold ArbiterSpec.mover; rewrite H; auto. }
  destruct Hwf as [Hlen Hok]. destruct Hwf' as [Hlen' Hok'].
  exists s'. split; [exact E|]. split; [split; assumption|]. split; [exact Hmp|]. split.
  - rewrite AgreementProofs.at_board_of_state in Ht.
    apply player_of_cell_inj; auto.
  - intros r c Hrc Hne. destruct (Hcells r c Hrc Hne) as (Hin & Hout).
    rewrite !AgreementProofs.at_board_of_state in Hin, Hout.
    rewrite <- (turns_agree s _ _ r c (conj Hlen Hok)) in Hin, Hout.
    split.
    + intros Ht'. destruct (turned_occupied _ _ _ _ _ _ Ht') as (_ & Hocc).
      split; [exact Hocc|]. specialize (Hin Ht').
      destruct (Hok r c Hrc) as [H0 | [H1 | H2]]; [congruence | |].
      * rewrite H1 in *. apply player_of_cell_inj; auto.
        unfold ArbiterSpec.cell_ok. auto.
      * rewrite H2 in *. apply player_of_cell_inj; auto.
        unfold ArbiterSpec.cell_ok. auto.
    + intros Hn. apply player_of_cell_inj; auto.
Qed.

Lemma ExecuteMove_effect_witness :
  exists s',
    Arbiter.ExecuteMove Arbiter.InitialState (Arbiter.mkMove 2 2) = Done s' /\
    Arbiter.at_ s' 2 2 = ArbiterSpec.mover Arbiter.InitialState.
Proof.
  destruct (ExecuteMove_effect Arbiter.InitialState (Arbiter.mkMove 2 2))
    as (s' & E & _ & _ & H & _).
  - apply ArbiterProofs.InitialState_wf.
  - cbn [Arbiter.row Arbiter.col]. unfold on_board. lia.
  - reflexivity.
  - exists s'. split; [exact E | exact H].
Defined.

End MoveProofs.

Module MainProofs.
Import PlayerCC PlayerSpec AgreementSpec MainSpec.

Lemma moves_of_snoc (p : Player) (game : list Arbiter.Move) (m : Arbiter.Move) :
  forall turn,
  moves_of p turn (game ++ [m]) =
  moves_of p turn game ++ (if Player_eqb p (turn_after turn game) then [m] else []).
Proof.
  induction game as [|x game IH]; intros turn; cbn [app moves_of turn_after].
  - destruct (Player_eqb p turn); reflexivity.
  - rewrite IH. destruct (Player_eqb p turn); reflexivity.
Qed.

Lemma next_player_board_of_state (s : Arbiter.State) :
  next_player (board_of_state s) = WHITE \/ next_player (board_of_state s) = BLACK.
Proof.
  unfold board_of_state. cbn [next_player].
  destruct (ArbiterProofs.player_1_or_2 (Arbiter.moves_played s)) as [E | E];
    unfold ArbiterSpec.mover; rewrite E; auto.
Qed.

Lemma turn_after_PlayMoves (game : list Arbiter.Move) : forall s s',
  ArbiterSpec.wf_state s ->
  ArbiterSpec.PlayMoves s game = Some s' ->
  turn_after (next_player (board_of_state s)) game = next_player (board_of_state s').
Proof.
  induction game as [|m game IH]; intros s s' Hwf HP.
  - cbn in HP. inversion HP. reflexivity.
  - cbn [ArbiterSpec.PlayMoves] in HP.
    destruct (Arbiter.ValidateMove s m) as [[[] reason]| |] eqn:V; try discriminate.
    destruct (AgreementProofs.valid_move_agree s m reason Hwf V)
      as (s1 & E1 & _ & _ & Hwf1 & Hmp).
    rewrite E1 in HP. cbn [turn_after]. rewrite <- (IH s1 s' Hwf1 HP). f_equal.
    unfold board_of_state. cbn [next_player]. symmetry.
    apply AgreementProofs.mover_next. exact Hmp.
Qed.

Lemma ParseMove_agree (line : string) :
  ParseMove line =
  match Arbiter.ParseMove line with
  | Some m => Some (move_of m)
  | None => None
  end.
Proof.
  unfold ParseMove, Arbiter.ParseMove.
  destruct (negb (Nat.eqb (String.length line) 2)); [reflexivity|].
  cbv zeta. rewrite AgreementProofs.ValidCoords_same.
  destruct (negb (Arbiter.ValidCoords _ _)); reflexivity.
Qed.

Lemma move_of_inj (a b : Arbiter.Move) : move_of a = move_of b -> a = b.
Proof. destruct a, b. unfold move_of. cbn. intros H. inversion H. reflexivity. Qed.

Lemma reachable_wf (game : list Arbiter.Move) (s : Arbiter.State) :
  ArbiterSpec.PlayMoves Arbiter.InitialState game = Some s ->
  ArbiterSpec.wf_state s /\ wf_board (board_of_state s) /\
  Arbiter.moves_played s <= 60.
Proof.
  intros HP.
  destruct (ArbiterProofs.PlayMoves_invariant _ _ _ ArbiterProofs.InitialState_wf HP)
    as (Hwf & Hm & Ho).
  split; [exact Hwf|]. split.
  - unfold wf_board, board_of_state. cbn [fields]. rewrite length_map. apply Hwf.
  - rewrite ArbiterProofs.InitialState_occupied in Ho.
    change (Arbiter.moves_played Arbiter.InitialState) with 0 in Hm.
    destruct (MatchProofs.count_cells_sum s Hwf) as (_ & _ & _ & H64). lia.
Qed.

(** A legal move of the player's board is a valid move for the arbiter,
    and both programs make it alike. *)
Lemma legal_move_step (game : list Arbiter.Move) (s : Arbiter.State) (pm : Move) :
  ArbiterSpec.PlayMoves Arbiter.InitialState game = Some s ->
  In pm (legal_moves (board_of_state s)) ->
  exists am s',
    pm = move_of am /\
    ArbiterSpec.PlayMoves Arbiter.InitialState (game ++ [am]) = Some s' /\
    MoveIsValid (board_of_state s) pm = Done true /\
    DoMove (board_of_state s) pm = Done (board_of_state s') /\
    next_player (board_of_state s') = Other (next_player (board_of_state s)).
Proof.
  intros HP Hin. destruct (reachable_wf game s HP) as (Hwf & _ & _).
  destruct (AgreementProofs.legal_moves_agree s Hwf) as (moves & EL & HL).
  rewrite HL in Hin. apply in_map_iff in Hin. destruct Hin as (am & <- & Ham).
  pose proof (MatchProofs.ValidateMove_In s am moves EL Ham) as V.
  destruct (AgreementProofs.valid_move_agree s am EmptyString Hwf V)
    as (s' & E1 & E2 & E3 & _ & Hmp).
  exists am, s'. split; [reflexivity|]. split.
  - rewrite ArbiterProofs.PlayMoves_app, HP. cbn [ArbiterSpec.PlayMoves].
    rewrite V, E1. reflexivity.
  - split; [exact E2|]. split; [exact E3|].
    unfold board_of_state. cbn [next_player]. apply AgreementProofs.mover_next. exact Hmp.
Qed.

Lemma no_legal_move_full (game : list Arbiter.Move) (s : Arbiter.State) :
  ArbiterSpec.PlayMoves Arbiter.InitialState game = Some s ->
  legal_moves (board_of_state s) = [] ->
  Arbiter.moves_played s = 60.
Proof.
  intros HP Hnil. destruct (reachable_wf game s HP) as (Hwf & _ & Hle).
  destruct (Z.eq_dec (Arbiter.moves_played s) 60) as [E | N]; [exact E|]. exfalso.
  destruct (MatchProofs.reachable_has_move game s HP) as (m & rest & EL);
    [unfold Arbiter.MAX_MOVES; lia|].
  destruct (AgreementProofs.legal_moves_agree s Hwf) as (moves & EL' & HL).
  rewrite EL in EL'. inversion EL'; subst moves. rewrite Hnil in HL. discriminate.
Qed.

Lemma illegal_move_invalid (game : list Arbiter.Move) (s : Arbiter.State) (am : Arbiter.Move) :
  ArbiterSpec.PlayMoves Arbiter.InitialState game = Some s ->
  MoveIsValid (board_of_state s) (move_of am) = Done false ->
  exists reason, Arbiter.ValidateMove s am = Done (false, reason).
Proof.
  intros HP Hv. destruct (reachable_wf game s HP) as (Hwf & _ & _).
  destruct (ArbiterProofs.ValidateMove_Done s am) as ([] & reason & V); [|eauto].
  exfalso. destruct (AgreementProofs.valid_move_agree s am reason Hwf V) as (_ & _ & E & _).
  rewrite E in Hv. discriminate.
Qed.

Lemma turn_after_game (game : list Arbiter.Move) (s : Arbiter.State) :
  ArbiterSpec.PlayMoves Arbiter.InitialState game = Some s ->
  turn_after WHITE game = next_player (board_of_state s).
Proof.
  intros HP.
  apply (turn_after_PlayMoves game Arbiter.InitialState s ArbiterProofs.InitialState_wf HP).
Qed.

Lemma Other_not_self (p : Player) : p <> NONE -> Player_eqb (Other p) p = false.
Proof. destruct p; [congruence | reflexivity | reflexivity]. Qed.

Lemma Other_of_other (p q : Player) :
  p <> NONE -> (q = WHITE \/ q = BLACK) -> p <> q -> Other p = q.
Proof. destruct p, q; intros H1 [H2 | H2] H3; congruence || reflexivity. Qed.

Lemma invariant_side (me : Player) (board : Board) (consumed rest output : list string)
    (game : list Arbiter.Move) (s : Arbiter.State) :
  main_invariant me board consumed rest output game s ->
  me <> NONE \/ (me = NONE /\ consumed = [] /\ game = [] /\ output = [] /\
                 board = InitialBoard /\ s = Arbiter.InitialState).
Proof.
  intros (HP & Hb & Ho & Hc & Hn & Hs).
  destruct me; [right | left; discriminate | left; discriminate].
  specialize (Hn eq_refl). subst game. cbn in HP. inversion HP; subst s.
  cbn in Ho, Hc. subst. repeat split; reflexivity.
Qed.

(** The own move: a legal move is made by both programs. *)
Lemma invariant_own_move (me : Player) (consumed rest output : list string)
    (game : list Arbiter.Move) (s : Arbiter.State) (pm : Move) :
  main_invariant me (board_of_state s) consumed rest output game s ->
  me = next_player (board_of_state s) ->
  In pm (legal_moves (board_of_state s)) ->
  exists am s',
    MoveIsValid (board_of_state s) pm = Done true /\
    DoMove (board_of_state s) pm = Done (board_of_state s') /\
    main_invariant me (board_of_state s') consumed rest (output ++ [FormatMove pm])
      (game ++ [am]) s' /\
    Player_eqb me (next_player (board_of_state s')) = false.
Proof.
  intros (HP & _ & Ho & Hc & Hn & Hs) Hme Hin.
  destruct (legal_move_step game s pm HP Hin) as (am & s' & -> & HP' & E1 & E2 & Hnext).
  assert (Hne : me <> NONE).
  { rewrite Hme. destruct (next_player_board_of_state s) as [-> | ->]; discriminate. }
  exists am, s'. split; [exact E1|]. split; [exact E2|]. split.
  - split; [exact HP'|]. split; [reflexivity|].
    rewrite !moves_of_snoc, (turn_after_game game s HP), <- Hme.
    rewrite PlayerProofs.Player_eqb_refl, (Other_not_self me Hne).
    rewrite map_app, app_nil_r. cbn [map].
    split; [rewrite Ho; reflexivity|]. split; [exact Hc|].
    split; [intros; congruence | exact Hs].
  - rewrite Hnext, <- Hme. apply PlayerProofs.Player_eqb_neq.
    intros E. pose proof (Other_not_self me Hne) as H. rewrite <- E in H.
    rewrite PlayerProofs.Player_eqb_refl in H. discriminate.
Qed.

(** The side is settled by the first line that is neither Quit nor
    Start. *)
Lemma invariant_settle (me : Player) (board : Board) (consumed output : list string)
    (line : string) (rest : list string) (game : list Arbiter.Move) (s : Arbiter.State) :
  main_invariant me board consumed (line :: rest) output game s ->
  Player_eqb me (next_player board) = false ->
  String.eqb line "Quit" = false ->
  Player_eqb me NONE && String.eqb line "Start" = false ->
  let me' := if Player_eqb me NONE then BLACK else me in
  main_invariant me' board consumed (line :: rest) output game s /\
  me' <> NONE /\ me' <> next_player board.
Proof.
  intros Hinv Hturn HQ HS. cbv zeta.
  destruct (invariant_side _ _ _ _ _ _ _ Hinv) as [Hne | (-> & -> & -> & -> & -> & ->)].
  - replace (Player_eqb me NONE) with false
      by (symmetry; apply PlayerProofs.Player_eqb_neq; exact Hne).
    split; [exact Hinv|]. split; [exact Hne|].
    apply PlayerProofs.Player_eqb_neq. exact Hturn.
  - cbn [Player_eqb int_of_Player Z.eqb andb] in *.
    split; [|split; discriminate].
    split; [reflexivity|]. split; [reflexivity|]. split; [reflexivity|].
    split; [reflexivity|]. split; [discriminate|]. intros _.
    cbn [app side_of_input]. rewrite HQ, HS. reflexivity.
Qed.

(** A move of the opponent: a legal move is made by both programs. *)
Lemma invariant_opponent_move (me : Player) (consumed output : list string)
    (line : string) (rest : list string) (game : list Arbiter.Move) (s : Arbiter.State)
    (am : Arbiter.Move) :
  main_invariant me (board_of_state s) consumed (line :: rest) output game s ->
  me <> NONE -> me <> next_player (board_of_state s) ->
  Arbiter.ParseMove line = Some am ->
  In (move_of am) (legal_moves (board_of_state s)) ->
  exists s',
    MoveIsValid (board_of_state s) (move_of am) = Done true /\
    DoMove (board_of_state s) (move_of am) = Done (board_of_state s') /\
    main_invariant me (board_of_state s') (consumed ++ [line]) rest output (game ++ [am]) s' /\
    Player_eqb me (next_player (board_of_state s')) = true.
Proof.
  intros (HP & _ & Ho & Hc & Hn & Hs) Hne Hturn EP Hin.
  destruct (legal_move_step game s (move_of am) HP Hin)
    as (am' & s' & Heq & HP' & E1 & E2 & Hnext).
  apply move_of_inj in Heq. subst am'.
  pose proof (Other_of_other me _ Hne (next_player_board_of_state s) Hturn) as Hother.
  exists s'. split; [exact E1|]. split; [exact E2|]. split.
  - split; [exact HP'|]. split; [reflexivity|].
    rewrite !moves_of_snoc, (turn_after_game game s HP).
    replace (Player_eqb me (next_player (board_of_state s))) with false
      by (symmetry; apply PlayerProofs.Player_eqb_neq; exact Hturn).
    rewrite Hother, PlayerProofs.Player_eqb_refl, app_nil_r, map_app. cbn [map].
    destruct (ArbiterProofs.ParseMove_Some line am EP) as (_ & _ & Hline).
    split; [exact Ho|]. split.
    + rewrite Hc, <- Hline, <- Hother, app_assoc. reflexivity.
    + split; [intros; congruence|]. intros _. rewrite <- app_assoc. cbn [app]. apply Hs. exact Hne.
  - rewrite Hnext, <- Hother. apply PlayerProofs.Player_eqb_eq.
    rewrite PlayerProofs.Other_involutive. reflexivity.
Qed.

Lemma side_of_invariant (me : Player) (board : Board) (consumed rest output : list string)
    (game : list Arbiter.Move) (s : Arbiter.State) :
  main_invariant me board consumed rest output game s ->
  (me = NONE -> side_of_input rest = NONE) ->
  side_of_input (consumed ++ rest) = me.
Proof.
  intros Hinv Hnone.
  destruct (invariant_side _ _ _ _ _ _ _ Hinv) as [Hne | (-> & -> & _)].
  - symmetry. apply Hinv. exact Hne.
  - cbn [app]. apply Hnone. reflexivity.
Qed.

Section Loop.
Variable shuffles : nat -> list Move -> list Move.
Hypothesis shuffles_permute : forall n l, Permutation l (shuffles n l).

Lemma main_loop_session (fuel : nat) :
  forall calls me board move rest output consumed game s,
  main_invariant me board consumed rest output game s ->
  (2 * length rest + (if Player_eqb me (next_player board) then 2 else 1) <= fuel)%nat ->
  session (consumed ++ rest) (main_loop fuel shuffles calls me board move rest output).
Proof.
  induction fuel as [|fuel IH]; intros calls me board move rest output consumed game s Hinv Hfuel.
  { destruct (Player_eqb me (next_player board)); lia. }
  pose proof Hinv as (HP & Hb & Ho & Hc & Hn & Hs). subst board.
  destruct (reachable_wf game s HP) as (Hwf & Hwfb & Hle).
  cbn [main_loop].
  destruct (Player_eqb me (next_player (board_of_state s))) eqn:Hturn.
  - (* the player is to move *)
    apply PlayerProofs.Player_eqb_eq in Hturn.
    assert (Hne : me <> NONE).
    { rewrite Hturn. destruct (next_player_board_of_state s) as [-> | ->]; discriminate. }
    destruct (SearchProofs.SelectMove_Done (shuffles calls) (board_of_state s) move Hwfb
                (shuffles_permute calls _)) as (ok & mv & v & E & Hnil & Hcons).
    rewrite E. cbn [bind].
    destruct (legal_moves (board_of_state s)) as [|x l] eqn:EL.
    + destruct (Hnil eq_refl) as [-> _]. cbn [negb].
      unfold session. rewrite (side_of_invariant _ _ _ _ _ _ _ Hinv) by congruence.
      exists game, s, rest. split; [exact HP|]. split; [reflexivity|]. split; [exact Ho|].
      split; [rewrite Hc, <- app_assoc; reflexivity|].
      left. split; [reflexivity|]. split; [exact Hturn|].
      apply (no_legal_move_full game s HP EL).
    + destruct (Hcons ltac:(discriminate)) as (-> & Hin & _). cbn [negb].
      rewrite <- EL in Hin.
      destruct (invariant_own_move me consumed rest output game s mv Hinv Hturn Hin)
        as (am & s' & E1 & E2 & Hinv' & Hturn').
      rewrite E1. cbn [bind negb]. rewrite E2. cbn [bind].
      apply (IH _ _ _ _ _ _ _ _ _ Hinv'). rewrite Hturn'. lia.
  - (* the player reads a line *)
    destruct rest as [|line rest].
    + unfold session. rewrite (side_of_invariant _ _ _ _ _ _ _ Hinv) by reflexivity.
      exists game, s, []. split; [exact HP|]. split; [reflexivity|]. split; [exact Ho|].
      split; [rewrite Hc, <- app_assoc; reflexivity|].
      right. right. left. split; [reflexivity|]. split; [|reflexivity].
      apply PlayerProofs.Player_eqb_neq. exact Hturn.
    + destruct (String.eqb line "Quit") eqn:HQ.
      * unfold session. rewrite (side_of_invariant _ _ _ _ _ _ _ Hinv)
          by (intros _; cbn [side_of_input]; rewrite HQ; reflexivity).
        exists game, s, (line :: rest). split; [exact HP|]. split; [reflexivity|]. split; [exact Ho|].
      split; [rewrite Hc, <- app_assoc; reflexivity|].
        right. left. split; [reflexivity|].
        split; [apply PlayerProofs.Player_eqb_neq; exact Hturn|].
        apply String.eqb_eq in HQ. subst line. eauto.
      * destruct (Player_eqb me NONE && String.eqb line "Start") eqn:HS.
        -- (* Start: the player is WHITE *)
           apply andb_prop in HS. destruct HS as [HN HS].
           apply PlayerProofs.Player_eqb_eq in HN. apply String.eqb_eq in HS. subst me line.
           destruct (invariant_side _ _ _ _ _ _ _ Hinv)
             as [Hne | (_ & -> & -> & -> & Hboard & ->)]; [congruence|].
           change ([] ++ "Start"%string :: rest) with (["Start"%string] ++ rest).
           apply (IH _ _ _ _ _ _ _ [] Arbiter.InitialState).
           ++ split; [reflexivity|]. split; [reflexivity|]. split; [reflexivity|].
              split; [reflexivity|]. split; [discriminate|]. intros _. reflexivity.
           ++ cbn [length] in Hfuel. cbn. lia.
        -- destruct (invariant_settle me _ consumed output line rest game s Hinv Hturn HQ HS)
             as (Hinv' & Hne' & Hturn').
           set (me' := if Player_eqb me NONE then BLACK else me) in *.
           assert (Hside : side_of_input (consumed ++ line :: rest) = me')
             by (symmetry; apply Hinv'; exact Hne').
           rewrite ParseMove_agree.
           destruct (Arbiter.ParseMove line) as [am|] eqn:EP.
           ++ destruct (SearchProofs.MoveIsValid_In (board_of_state s) (move_of am))
                as (valid & EV & Hiff).
              rewrite EV. cbn [bind]. destruct valid; cbn [negb].
              ** destruct (invariant_opponent_move me' consumed output line rest game s am
                            Hinv' Hne' Hturn' EP (proj1 Hiff eq_refl))
                   as (s' & _ & E2 & Hinv'' & Hturn'').
                 rewrite E2. cbn [bind].
                 replace (consumed ++ line :: rest) with ((consumed ++ [line]) ++ rest)
                   by (rewrite <- app_assoc; reflexivity).
                 apply (IH _ _ _ _ _ _ _ _ _ Hinv''). rewrite Hturn''.
                 cbn [length] in Hfuel. lia.
              ** unfold session. rewrite Hside.
                 destruct (illegal_move_invalid game s am HP EV) as (reason & V).
                 destruct Hinv' as (_ & _ & _ & Hc' & _).
                 exists game, s, line, rest, am, reason.
                 split; [exact HP|]. split; [rewrite Hc', <- app_assoc; reflexivity|].
                 split; [exact EP | exact V].
           ++ unfold session. rewrite Hside.
              destruct Hinv' as (_ & _ & Ho' & Hc' & _).
              exists game, s, (line :: rest).
              split; [exact HP|]. split; [reflexivity|]. split; [exact Ho'|].
              split; [rewrite Hc', <- app_assoc; reflexivity|].
              right. right. right. split; [reflexivity|]. split; [exact Hturn'|].
              exists line, rest. split; [reflexivity|]. split; [|exact EP].
              apply String.eqb_neq. exact HQ.
Qed.

End Loop.

(** X20. What [main] does with its input, whatever the shuffles of
    [SelectMove].  It ends.  The lines it has read and written make up a
    game that is valid for the arbiter from [InitialState]: the moves of
    the opponent are the lines read after the opening, its own moves the
    lines written, and its board is the board of the state reached.  A
    [CHECK] fails only on a line that is a move but not a valid one.
    Otherwise [main] exits with status 0 when it is to move on the full
    board or reads Quit, and with status 1 at the end of the input or on
    a line that is no move. *)
Theorem main_session (shuffles : nat -> list Move -> list Move) (input : list string) :
  (forall n l, Permutation l (shuffles n l)) ->
  session input (main shuffles input).
Proof.
  intros Hperm. unfold main.
  apply (main_loop_session shuffles Hperm _ O NONE InitialBoard (mkMove 0 0) input [] []
           [] Arbiter.InitialState).
  - split; [reflexivity|]. split; [reflexivity|]. split; [reflexivity|].
    split; [reflexivity|]. split; [reflexivity | congruence].
  - cbn. lia.
Qed.

Lemma main_session_witness :
  session ["Start"%string; "Quit"%string] (main (fun _ l => l) ["Start"%string; "Quit"%string]).
Proof.
  apply (main_session (fun _ l => l) ["Start"%string; "Quit"%string]).
  intros n l. apply Permutation_refl.
Defined.

End MainProofs.

Module ArgsProofs.
Import Arbiter ArgsSpec.

Section Scan.
Variable sscanf_rounds : string -> option Z.

Lemma nth_skipn_hd {A : Type} (d : A) (n : nat) (l : list A) (x : A) (rest : list A) :
  skipn n l = x :: rest -> nth n l d = x /\ skipn (S n) l = rest /\ (n < length l)%nat.
Proof.
  revert l. induction n as [|n IH]; intros l H.
  - destruct l; cbn in *; inversion H; subst. auto with arith.
  - destruct l as [|y l]; cbn [skipn] in H; [discriminate|].
    destruct (IH l H) as (H1 & H2 & H3). cbn [nth skipn length]. repeat split; auto. lia.
Qed.

Lemma rounds_of_snoc (opts : list string) (arg : string) :
  rounds_of sscanf_rounds (opts ++ [arg]) =
  match sscanf_rounds arg with
  | Some value => value
  | None => rounds_of sscanf_rounds opts
  end.
Proof.
  unfold rounds_of. rewrite rev_app_distr. cbn [rev app find]. unfold is_rounds at 1.
  destruct (sscanf_rounds arg) eqn:E; [rewrite E|]; reflexivity.
Qed.

Lemma logs_of_snoc (opts : list string) (arg : string) :
  logs_of sscanf_rounds (opts ++ [arg]) =
  if is_logs sscanf_rounds arg then Some (substring 7 (String.length arg - 7) arg)
  else logs_of sscanf_rounds opts.
Proof.
  unfold logs_of. rewrite rev_app_distr. cbn [rev app find].
  destruct (is_logs sscanf_rounds arg); reflexivity.
Qed.

Lemma unrecognized_of_snoc (opts : list string) (arg : string) :
  unrecognized_of sscanf_rounds (opts ++ [arg]) =
  unrecognized_of sscanf_rounds opts ++
  (if negb (is_rounds sscanf_rounds arg) && negb (String.prefix "--logs=" arg)
   then [arg] else []).
Proof. unfold unrecognized_of. rewrite filter_app. reflexivity. Qed.

Lemma main_body_invariant (arguments seen todo : list string) (arg : string) (o : Options) :
  arguments <> [] ->
  options_invariant sscanf_rounds arguments seen (arg :: todo) o ->
  exists o', main_body sscanf_rounds (1 + Z.of_nat (length seen)) o = Done o' /\
             options_invariant sscanf_rounds arguments (seen ++ [arg]) todo o'.
Proof.
  intros Hne (Hlen & Hj & Hfirst & Hskip & Hr & Hl & Hu).
  destruct (nth_skipn_hd EmptyString _ _ _ _ Hskip) as (Harg & Hskip' & Hlt).
  unfold main_body. cbv zeta.
  replace (Z.to_nat (1 + Z.of_nat (length seen))) with (1 + length seen)%nat by lia.
  rewrite Harg. fold (is_option arg).
  assert (Hjle : (length (filter (fun a => negb (is_option a)) seen) <= length seen)%nat)
    by apply filter_length_le.
  assert (Hskip1 : skipn (1 + length (seen ++ [arg])) (argv o) = todo).
  { rewrite length_app. cbn [length].
    replace (1 + (length seen + 1))%nat with (S (1 + length seen)) by lia. exact Hskip'. }
  unfold options_invariant. rewrite !filter_app. cbn [filter].
  destruct (is_option arg) eqn:Hopt; cbn [negb].
  - (* an option *)
    rewrite app_nil_r, rounds_of_snoc, logs_of_snoc, unrecognized_of_snoc.
    unfold is_logs, is_rounds.
    destruct (sscanf_rounds arg) as [value|] eqn:Hscan; cbn [negb andb].
    + eexists. split; [reflexivity|]. cbn [argv j opt_rounds opt_logs_prefix unrecognized].
      rewrite app_nil_r. repeat (split; [assumption || reflexivity|]). exact Hu.
    + destruct (String.prefix "--logs=" arg) eqn:Hpre; cbn [negb];
        (eexists; split; [reflexivity|]);
        cbn [argv j opt_rounds opt_logs_prefix unrecognized];
        rewrite ?app_nil_r; repeat (split; [assumption || reflexivity|]).
      * exact Hu.
      * rewrite Hu. reflexivity.
  - (* a command: it is moved to the front *)
    replace ((0 <=? j o) && (j o <? Z.of_nat (length (argv o)))) with true by lia.
    eexists. split; [reflexivity|].
    cbn [argv j opt_rounds opt_logs_prefix unrecognized].
    rewrite !app_nil_r, length_app, length_list_set. cbn [length].
    split; [exact Hlen|]. split; [lia|]. split; [|split].
    + replace (Z.to_nat (j o + 1)) with (S (Z.to_nat (j o))) by lia.
      rewrite firstn_list_set_snoc by lia. rewrite Hfirst, <- app_assoc. reflexivity.
    + rewrite skipn_list_set_lt; [exact Hskip1|].
      rewrite length_app. cbn [length]. lia.
    + repeat split; assumption.
Qed.

Lemma main_loop_invariant (arguments : list string) (todo : list string) :
  forall seen o,
  arguments <> [] ->
  options_invariant sscanf_rounds arguments seen todo o ->
  exists o', main_loop sscanf_rounds (Zrange (1 + Z.of_nat (length seen)) (length todo)) o
             = Done o' /\
             options_invariant sscanf_rounds arguments (seen ++ todo) [] o'.
Proof.
  induction todo as [|arg todo IH]; intros seen o Hne Hinv.
  - exists o. rewrite app_nil_r. split; [reflexivity | exact Hinv].
  - cbn [length Zrange main_loop].
    destruct (main_body_invariant arguments seen todo arg o Hne Hinv) as (o1 & E1 & Hinv1).
    rewrite E1. cbn [bind].
    destruct (IH (seen ++ [arg]) o1 Hne Hinv1) as (o' & E' & Hinv').
    rewrite length_app in E'. cbn [length] in E'.
    replace (1 + Z.of_nat (length seen) + 1) with (1 + Z.of_nat (length seen + 1)) by lia.
    rewrite E'. exists o'. split; [reflexivity|]. rewrite <- app_assoc in Hinv'. exact Hinv'.
Qed.

Lemma main_Done (arguments : list string) :
  main sscanf_rounds arguments =
  Done (match commands arguments with
        | [player1; player2] =>
            Play player1 player2 (rounds_of sscanf_rounds (options arguments))
              (logs_of sscanf_rounds (options arguments))
        | _ => Usage
        end,
        unrecognized_of sscanf_rounds (options arguments)).
Proof.
  unfold main. cbv zeta. destruct arguments as [|a0 args].
  - reflexivity.
  - destruct (main_loop_invariant (a0 :: args) args [] (mkOptions (a0 :: args) 1 0 None []))
      as (o & E & (Hlen & Hj & Hfirst & _ & Hr & Hl & Hu)); [discriminate | |].
    { unfold options_invariant. cbn. repeat split; reflexivity. }
    cbn [length] in *. cbn [app] in *.
    replace (Z.to_nat (Z.of_nat (S (length args)) - 1)) with (length args) by lia.
    change (1 + Z.of_nat 0) with 1 in E. rewrite E. cbn [bind].
    unfold commands, options. cbn [tl]. rewrite <- Hr, <- Hl, <- Hu.
    cbn [firstn] in Hfirst.
    destruct (filter (fun arg => negb (is_option arg)) args) as [|p1 [|p2 [|p3 rest]]] eqn:EC;
      cbn [length] in Hj.
    + replace (j o =? 3) with false by lia. reflexivity.
    + replace (j o =? 3) with false by lia. reflexivity.
    + replace (j o =? 3) with true by lia. cbn [negb].
      replace (Z.to_nat (j o)) with 3%nat in Hfirst by lia.
      destruct (argv o) as [|x0 [|x1 [|x2 xs]]]; cbn in Hfirst; try discriminate.
      inversion Hfirst; subst. reflexivity.
    + replace (j o =? 3) with false by lia. reflexivity.
Qed.

End Scan.

(** X25. What the command line means.  The arguments that do not start
    with '-' are the commands, wherever the options stand among them: with
    exactly two of them [main] calls [Main] on them in their order, and
    with any other number it prints the usage line and returns 1.  Of the
    options the last that gives a number of rounds and the last that gives
    a prefix for the logs count, 0 and no prefix being the defaults; the
    options that give neither are reported and have no other effect. *)
Theorem main_invocation (sscanf_rounds : string -> option Z) (arguments : list string) :
  main sscanf_rounds arguments =
  Done (match commands arguments with
        | [player1; player2] =>
            Play player1 player2 (rounds_of sscanf_rounds (options arguments))
              (logs_of sscanf_rounds (options arguments))
        | _ => Usage
        end,
        unrecognized_of sscanf_rounds (options arguments)).
Proof. apply main_Done. Qed.

End ArgsProofs.
